(* ===== verification/_CoqProject ===== *)
-Q . S2P
Prelude.v
Request.v
Errors.v
Validate.v
Server.v
Cache.v
Codec.v
Health.v
Config.v
Guard.v
Lifecycle.v
Endpoint.v
Entry.v
Effects.v
Client.v
ClientSpec.v
ClientProps.v
Pacing.v
Ownership.v
Probe.v
Proxy.v
Program.v
System.v
Runs.v
Cleanup.v
Setup.v
Handlers.v
Gateway.v
Session.v
