(* ===== verification/Prelude.v ===== *)
(** * mbproxy: a caching Modbus TCP proxy, verified

    mbproxy accepts Modbus TCP clients, validates their requests, answers
    reads from a per-register cache, coalesces concurrent reads of one range
    into one upstream fetch, forwards or refuses writes by its read-only mode,
    and talks to one upstream device over one owned connection with pacing and
    at most one retry.  This library is a shallow embedding of that program in
    Rocq and the theorems that make it correct.  The definitions keep the
    names of the Go source under src/.

    ** Parts and their files

    - Prelude.v (this file): Go's run-time panics ([go], checked indexing and
      slicing), machine integers, byte order, times and durations, decimal
      formatting, and the lemmas and tactics all parts share.
    - Request.v: [Request], function and exception codes
      (internal/modbus/server.go).
    - Errors.v: error chains, [errors.Is]/[errors.As], [classifyError],
      [requestError], [DownstreamException] (internal/modbus/errors.go) and
      [classifyRequestPathError] (internal/modbus/client.go).
    - Validate.v: [ValidateRequest] (internal/modbus/client.go) against the
      limits of the protocol stated declaratively.
    - Server.v: MBAP framing and PDU parsing, the connection loop
      [handleConn] against the class [Handler], and [logHandlerError]
      (internal/modbus/server.go).
    - Cache.v: the register cache (internal/cache/cache.go) and the interface
      [RangeStore] / [RangeStoreLaws] that the proxy's theorems use.
    - Codec.v: [decomposeResponse], [assembleResponse] and the locally built
      responses (internal/proxy/proxy.go, internal/modbus/client.go).
    - Health.v: the client's health state and counters, and what the health
      endpoint answers (internal/modbus/client.go, internal/health/health.go).
    - Config.v: [Load] (internal/config/config.go) over an environment.
    - Guard.v: [guardedConn] and [tcpSession] (internal/modbus/client.go): the
      deadline and cancellation guard of one request's use of the connection,
      its watchdog as a step relation, and [SendRaw].
    - Lifecycle.v: [Listen], [Serve], [Close], [Wait] (internal/modbus/server.go),
      [Run] and [Shutdown] (internal/proxy/proxy.go) as a step relation.
    - Endpoint.v: the health HTTP server around [handleHealth]
      (internal/health/health.go).
    - Entry.v: [main] (cmd/mbproxy/main.go), [CheckHealth]
      (internal/health/health.go) and the log level (internal/logging/logging.go).
    - Effects.v, Client.v: the upstream client (internal/modbus/client.go) in
      a monad with early exits over its state, [Execute]'s local variables and
      an environment [Env] (clock, context, owner channel, session); every
      visible interaction is appended to a trace.
    - ClientSpec.v, ClientProps.v: the abstract protocol machine of one
      request, the refinement of [Execute] to it, and what follows.
    - Pacing.v: the request delay, in environments with a clock.
    - Ownership.v: any number of goroutines using one client through its owner
      channel.
    - Probe.v: the health check of a running proxy, from [main] to the client.
    - Proxy.v: the handlers (internal/proxy/proxy.go) and
      [CoalesceWithStatus] (internal/cache/cache.go) as programs: trees of
      atomic actions on the state that goroutines share.
    - Program.v: the meaning of those actions and a rely-guarantee logic.
    - System.v: the global invariant and the proof that every handler keeps it.
    - Runs.v: the transition system of any number of goroutines, its theorems,
      and an executable scheduler whose runs are runs of the system.
    - Cleanup.v: the cache's cleanup goroutine next to the handlers.
    - Setup.v: [New], [NewClient] and the retry budget.
    - Handlers.v: the footprint of each handler, its log lines included, and
      the requests that are answered without any action.
    - Gateway.v: the handlers run over the client's [Execute] and the cache,
      one request at a time: the parts composed.
    - Session.v: the connection loop over the gateway, from a client's bytes to
      its responses and to what the device saw.

    The parts meet where the code's do.  Server.v calls a [Handler]; the
    proxy's [HandleRequest] is one.  The handlers use the cache through
    [RangeStore], and [Cache] is the instance that discharges its laws.  The
    session that [Env] speaks of is the [tcpSession] of Guard.v.  An
    upstream request is the single action [Exec] of a handler: all of a
    request's interactions lie between taking and returning the owner token
    ([Execute_owner_bracket]), and uses of the token do not overlap
    ([exchanges_are_serial]), which is what makes it atomic; what it returns is
    determined by its last attempt and the caller's context ([Execute_result]).
    The class [EnvLaws] states the documented behaviour of contexts, timers and
    library errors.

    ** What the theorems show

    - Coherence under concurrency (Runs.v): in every interleaving of any number
      of goroutines, with cache cleanup at any moment, arbitrary device
      answers, clocks and context endings, a successful read answers with
      values fetched after every covering forwarded write that had ended before
      the read began ([reads_are_fresh]), also when it was coalesced, retried
      after a cancelled leader or served stale; the cache itself never keeps an
      older value ([cache_is_coherent]); nobody waits for a lost leader
      ([waiters_have_a_leader]); one fetch per key ([single_flight]); no panic
      ([handlers_never_panic]).
    - The handlers one by one (Handlers.v): which actions a request and the
      configuration allow and what they log, read-only modes, invalid requests.
    - The parts composed (Gateway.v, Session.v): the requests of a client's
      session are answered by one frame each, in order, having sent upstream at
      most their own attempts, until the server context ends or a write to the
      client fails; with stale serving off, a read that was fetched is served
      again without the device while its registers' entries are in the cache
      and fresh.
    - The upstream client (ClientProps.v, Ownership.v, Pacing.v, Guard.v):
      termination and refinement of the protocol machine in every environment,
      writes sent at most once, results, ownership, uses of the connection one
      after the other, broken sessions never reused, health, durations;
      exchanges keep the request delay; no deadline on the connection and no
      data of a request outlives the request's deadline or its cancellation,
      also when it ends between a [Write]'s check and its transmission, and one
      request's end or cancellation does not reach the next one.
    - The life cycle (Lifecycle.v, Cleanup.v, Entry.v, Probe.v): every accepted
      connection is accounted for, a shutdown after the start completes in
      every run (of the connections' loops only their end matters there; that
      they end is [handleConn_terminates]), background cleanup is one of the behaviours the handlers are
      proved against, the exit status tells how the program ended, and the
      health check reports what the last upstream request found.
    - Parsers, codecs and stores: round trips, what a cached response keeps of
      the one that filled it, exactness on every branch, absence of panics,
      bounds (Server.v, Validate.v, Cache.v, Codec.v,
      Errors.v, Config.v, Health.v, Setup.v).

    ** Conventions and bounds

    Bytes, [uint16], [uint64] and [time.Duration] are [Z] with their
    wrap-around written out ([u8], [u16], [u64], [i64]); [is_u8] and the like
    are the type invariants, and [wf_request] collects them for a request.  A
    [time.Time] is nanoseconds since the zero time.  Byte slices are values:
    where the code copies a slice before sharing it, the model shares the value.

    Loops: a [for] over a slice is structural; the retry loop runs with fuel 2,
    which its own guard [attempt <= 2] exhausts; the connection loop's fuel is
    the number of bytes still to come, and [handleConn_terminates] shows it is
    never used up; the coalescing loop is a constructor of [prog] and is not
    bounded, since a follower may go on after any number of cancelled leaders;
    run alone, as in Gateway.v, it ends in its first round, so fuel 1 suffices.
    Liveness of a shutdown is [inevitably]: until it is complete some step is
    possible, and every sequence of steps leads there.
    The theorems of Runs.v assume that fewer than 2^64 increments of the write
    generation happened ([no_wrap]): after a full turn of the counter an old
    fetch could be taken for a current one.

    ** What is not modelled

    The HTTP transport and JSON encoding of the health endpoint (net/http and
    encoding/json do the work; a request path that net/http's router would
    clean first is not); the sinks of the logger; parsing of flags and delivery
    of signals; frame coding, which belongs to the third-party Modbus library.
    [beforeAcquire] is a test hook and nil.
    The transport below [guardedConn] is known by what [net.Conn] documents:
    output after the write deadline fails.  A handler that is still running
    when [Shutdown]'s timeout passes is not waited for, as in the code.
    A device that applies a write after its exchange has failed is outside the
    model's notion of when a write happens: freshness is relative to exchanges. *)

From stdpp Require Import base list numbers strings gmap.
From Stdlib Require Import ZArith Lia.
From Stdlib Require DecimalString DecimalN.

#[global] Open Scope Z_scope.

(** * Go run-time panics

    Indexing and slicing out of range abort the goroutine.  [Panic] is that
    outcome; every indexing expression of the source goes through
    [go_index] or [go_slice], so absence of panics is a theorem and not a
    modelling decision. *)
Inductive go (A : Type) : Type :=
| Ret (a : A)
| Panic.
Arguments Ret {A} a.
Arguments Panic {A}.

#[global] Instance go_ret : MRet go := λ A a, Ret a.
#[global] Instance go_bind : MBind go := λ A B f m,
  match m with Ret a => f a | Panic => Panic end.

Definition go_index {A} (l : list A) (i : Z) : go A :=
  if decide (0 ≤ i) then
    match l !! Z.to_nat i with Some a => Ret a | None => Panic end
  else Panic.

(** [l[lo:hi]] of a slice whose capacity is its length. *)
Definition go_slice {A} (l : list A) (lo hi : Z) : go (list A) :=
  if decide (0 ≤ lo ≤ hi ∧ hi ≤ Z.of_nat (length l)) then
    Ret (take (Z.to_nat (hi - lo)) (drop (Z.to_nat lo) l))
  else Panic.

Definition go_from {A} (l : list A) (lo : Z) : go (list A) :=
  go_slice l lo (Z.of_nat (length l)).

(** [l[i] = x]. *)
Definition go_update {A} (l : list A) (i : Z) (x : A) : go (list A) :=
  if decide (0 ≤ i < Z.of_nat (length l)) then Ret (<[Z.to_nat i := x]> l) else Panic.

Declare Scope go_scope.
Delimit Scope go_scope with go.
Notation "l @[ i ]" := (go_index l i) (at level 1, i at level 99) : go_scope.
Notation "l @[ i ⋯ j ]" := (go_slice l i j)
  (at level 1, i at level 99, j at level 99) : go_scope.
#[global] Open Scope go_scope.

(** * Machine integers *)
Definition u8 (z : Z) : Z := z mod 2 ^ 8.
Definition u16 (z : Z) : Z := z mod 2 ^ 16.
Definition u32 (z : Z) : Z := z mod 2 ^ 32.
Definition u64 (z : Z) : Z := z mod 2 ^ 64.
Definition max_i64 : Z := 2 ^ 63 - 1.
Definition min_i64 : Z := - 2 ^ 63.
Definition i64 (z : Z) : Z := (z + 2 ^ 63) mod 2 ^ 64 - 2 ^ 63.

Definition is_u8 (z : Z) : Prop := 0 ≤ z < 2 ^ 8.
Definition is_u16 (z : Z) : Prop := 0 ≤ z < 2 ^ 16.
Definition is_i64 (z : Z) : Prop := min_i64 ≤ z ≤ max_i64.

(** [len(l)]. *)
Definition len {A} (l : list A) : Z := Z.of_nat (length l).

(** [binary.BigEndian.Uint16] reads the first two bytes and panics on fewer. *)
Definition be_Uint16 (b : list Z) : go Z :=
  b1 ← b @[ 1 ]; b0 ← b @[ 0 ]; Ret (Z.lor b1 (Z.shiftl b0 8)).

(** The two bytes [binary.BigEndian.PutUint16] stores. *)
Definition be_PutUint16 (v : Z) : list Z := [u8 (Z.shiftr v 8); u8 v].

(** * Time

    [time.Time] is nanoseconds from the zero time (January 1, year 1), so the
    zero [Time] is [0]; a [time.Duration] is an [int64] number of
    nanoseconds.  [Sub] saturates; [Add] does not overflow a [Time]. *)
Definition time_zero : Z := 0.
Definition time_IsZero (t : Z) : bool := bool_decide (t = time_zero).
Definition time_Sub (t u : Z) : Z := Z.max min_i64 (Z.min max_i64 (t - u)).
Definition nanosecond : Z := 1.
Definition millisecond : Z := 1000000.
Definition second : Z := 1000000000.
Definition minute : Z := 60 * second.
(** [time.Unix(1, 0)]: one second after January 1, 1970. *)
Definition time_Unix_1_0 : Z := 62135596801 * second.

(** * The loop [for i := uint16(0); i < q; i++]

    The indices the machine loop visits.  [u16_range] runs it with as much
    fuel as there are [uint16] values; [u16_range_seqZ] shows that this is
    enough and that the increment never wraps. *)
Fixpoint u16_indices (fuel : nat) (q i : Z) : list Z :=
  match fuel with
  | O => []
  | S n => if decide (i < q) then i :: u16_indices n q (u16 (i + 1)) else []
  end.
Definition u16_range (q : Z) : list Z := u16_indices (Z.to_nat (2 ^ 16)) q 0.

(** * Decimal rendering ([%d] of an unsigned integer) *)
Definition fmt_d (z : Z) : string :=
  DecimalString.NilZero.string_of_uint (N.to_uint (Z.to_N z)).

#[global] Arguments go_index : simpl never.
#[global] Arguments go_slice : simpl never.
#[global] Arguments go_update : simpl never.
#[global] Arguments be_Uint16 : simpl never.
#[global] Arguments be_PutUint16 : simpl never.
#[global] Arguments u8 : simpl never.
#[global] Arguments u16 : simpl never.
#[global] Arguments u64 : simpl never.
#[global] Arguments i64 : simpl never.
#[global] Arguments u16_range : simpl never.
#[global] Arguments fmt_d : simpl never.

(** * Automation *)
Create HintDb mb.
Create Rewrite HintDb mbrw.

(** Reduce the [go] monad on known results. *)
Lemma go_bind_Ret {A B} (a : A) (f : A → go B) : (Ret a ≫= f) = f a.
Proof. reflexivity. Qed.

Lemma go_bind_Panic {A B} (f : A → go B) : (Panic ≫= f) = Panic.
Proof. reflexivity. Qed.

Lemma go_bind_Ret_inv {A B} (m : go A) (f : A → go B) b :
  (m ≫= f) = Ret b → ∃ a, m = Ret a ∧ f a = Ret b.
Proof. destruct m; [|done]. intros. eauto. Qed.

Ltac go_step :=
  match goal with
  | |- context [Ret _ ≫= _] => rewrite go_bind_Ret
  | H : context [Ret _ ≫= _] |- _ => rewrite go_bind_Ret in H
  | |- context [Panic ≫= _] => rewrite go_bind_Panic
  | H : context [Panic ≫= _] |- _ => rewrite go_bind_Panic in H
  | H : Ret _ = Ret _ |- _ => injection H as H
  | H : Ret _ = Panic |- _ => discriminate H
  | H : Panic = Ret _ |- _ => discriminate H
  end.
Ltac go_simpl := repeat go_step.

(** Case analysis on the first [decide] of the goal. *)
Ltac decide_goal :=
  match goal with |- context [decide ?P] => destruct (decide P) end.

(** * Lemmas *)

Lemma u8_range z : is_u8 (u8 z).
Proof. unfold is_u8, u8. apply Z.mod_pos_bound. lia. Qed.

Lemma u16_range_bound z : is_u16 (u16 z).
Proof. unfold is_u16, u16. apply Z.mod_pos_bound. lia. Qed.

Lemma u8_id z : is_u8 z → u8 z = z.
Proof. intros. apply Z.mod_small. done. Qed.

Lemma u16_id z : is_u16 z → u16 z = z.
Proof. intros. apply Z.mod_small. done. Qed.

#[export] Hint Resolve u8_range u16_range_bound : mb.
#[export] Hint Rewrite u8_id u16_id using (unfold is_u8, is_u16 in *; lia) : mbrw.

Lemma be_PutUint16_length v : length (be_PutUint16 v) = 2%nat.
Proof. reflexivity. Qed.

(** Arithmetic on the lengths of concatenations, slices and updates. *)
Ltac len_lia :=
  unfold len in *; cbn [length app] in *;
  rewrite ?length_app, ?length_take, ?length_drop, ?length_insert, ?length_replicate,
    ?be_PutUint16_length in *;
  cbn [length] in *; rewrite ?length_app, ?be_PutUint16_length in *; lia.

Lemma len_nonneg {A} (l : list A) : 0 ≤ len l.
Proof. unfold len. lia. Qed.

Lemma go_index_lookup {A} (l : list A) i a :
  0 ≤ i → l !! Z.to_nat i = Some a → l @[ i ] = Ret a.
Proof. intros ? Hl. unfold go_index. rewrite decide_True by done. by rewrite Hl. Qed.

Lemma go_index_ok {A} (l : list A) i :
  0 ≤ i < len l → ∃ a, l @[ i ] = Ret a ∧ l !! Z.to_nat i = Some a.
Proof.
  intros [? ?]. unfold len in *.
  destruct (lookup_lt_is_Some_2 l (Z.to_nat i)) as [a Ha]; [lia|].
  exists a. split; [by apply go_index_lookup | done].
Qed.

Lemma go_index_Ret {A} (l : list A) i a :
  l @[ i ] = Ret a → 0 ≤ i < len l ∧ l !! Z.to_nat i = Some a.
Proof.
  unfold go_index, len. case_decide; [|done].
  destruct (l !! Z.to_nat i) eqn:E; [|done].
  intros [= ->]. apply lookup_lt_Some in E as ?. split; [lia|done].
Qed.

Lemma go_slice_ok {A} (l : list A) lo hi :
  0 ≤ lo ≤ hi → hi ≤ len l →
  l @[ lo ⋯ hi ] = Ret (take (Z.to_nat (hi - lo)) (drop (Z.to_nat lo) l)).
Proof. intros. unfold go_slice, len in *. by rewrite decide_True. Qed.

Lemma go_from_ok {A} (l : list A) lo :
  0 ≤ lo ≤ len l → go_from l lo = Ret (drop (Z.to_nat lo) l).
Proof.
  intros. unfold go_from. rewrite go_slice_ok by (unfold len in *; lia).
  rewrite take_ge; [done|]. rewrite length_drop. unfold len in *. lia.
Qed.

Lemma go_slice_app {A} (pre l post : list A) lo hi :
  lo = len pre → hi = len pre + len l → (pre ++ l ++ post) @[ lo ⋯ hi ] = Ret l.
Proof.
  unfold len. intros -> ->. rewrite go_slice_ok by (unfold len; rewrite ?length_app; lia).
  rewrite Nat2Z.id, drop_app_length.
  replace (Z.to_nat _) with (length l) by lia. by rewrite take_app_length.
Qed.

Lemma go_update_ok {A} (l : list A) i x :
  0 ≤ i < len l → go_update l i x = Ret (<[Z.to_nat i := x]> l).
Proof. intros. unfold go_update, len in *. by rewrite decide_True. Qed.

(** ** Big-endian words *)

Lemma lor_shiftl_8 a b : is_u8 b → Z.lor b (Z.shiftl a 8) = a * 256 + b.
Proof.
  intros Hb. rewrite Z.shiftl_mul_pow2 by lia.
  pose proof (Z.add_lor_land b (a * 2 ^ 8)) as Hadd.
  enough (Z.land b (a * 2 ^ 8) = 0) by lia.
  apply Z.bits_inj_0. intros n. rewrite Z.land_spec.
  destruct (decide (n < 0)); [by rewrite Z.testbit_neg_r by lia|].
  destruct (decide (n < 8)).
  - rewrite Z.mul_pow2_bits_low by lia. by rewrite andb_false_r.
  - destruct (decide (b = 0)) as [->|]; [by rewrite Z.bits_0|].
    rewrite (Z.bits_above_log2 b n); [done|unfold is_u8 in Hb; lia|].
    unfold is_u8 in Hb. assert (Z.log2 b < 8); [|lia].
    apply Z.log2_lt_pow2; lia.
Qed.

Lemma be_Uint16_cons b0 b1 l :
  is_u8 b1 → be_Uint16 (b0 :: b1 :: l) = Ret (b0 * 256 + b1).
Proof.
  intros. unfold be_Uint16. rewrite (go_index_lookup _ 1 b1) by done. go_simpl.
  rewrite (go_index_lookup _ 0 b0) by done. go_simpl. by rewrite lor_shiftl_8.
 Qed.

Lemma be_PutUint16_u8 v : Forall is_u8 (be_PutUint16 v).
Proof. repeat constructor; auto with mb; apply u8_range. Qed.

Lemma be_PutUint16_val v :
  is_u16 v → be_PutUint16 v = [v / 256; v mod 256].
Proof.
  intros Hv. unfold is_u16 in Hv. unfold be_PutUint16.
  rewrite Z.shiftr_div_pow2 by lia. change (2 ^ 8) with 256.
  rewrite u8_id; [done|]. unfold is_u8. split; [apply Z.div_pos; lia|].
  apply Z.div_lt_upper_bound; lia.
Qed.

Lemma be_roundtrip v l : is_u16 v → be_Uint16 (be_PutUint16 v ++ l) = Ret v.
Proof.
  intros Hv. rewrite be_PutUint16_val by done. cbn [app].
  rewrite be_Uint16_cons.
  - f_equal. pose proof (Z.div_mod v 256). lia.
  - unfold is_u8. apply Z.mod_pos_bound. lia.
Qed.

Lemma be_PutUint16_be b1 b0 :
  is_u8 b1 → is_u8 b0 → be_PutUint16 (b1 * 256 + b0) = [b1; b0].
Proof.
  unfold is_u8. intros. rewrite be_PutUint16_val by (unfold is_u16; lia).
  rewrite Z.div_add_l, Z.div_small, Z.add_0_r by lia.
  rewrite Z.add_comm, Z.mod_add, Z.mod_small by lia. done.
Qed.

Lemma be_Uint16_ok b :
  2 ≤ len b → Forall is_u8 b → ∃ v, be_Uint16 b = Ret v ∧ is_u16 v.
Proof.
  destruct b as [|b0 [|b1 b]]; unfold len; cbn; intros; try lia.
  decompose_Forall. exists (b0 * 256 + b1). split.
  - by apply be_Uint16_cons.
  - unfold is_u16, is_u8 in *. lia.
Qed.

(** ** The [uint16] loop *)

Lemma u16_indices_seqZ n q i :
  0 ≤ i → q < 2 ^ 16 → (Z.to_nat (q - i) ≤ n)%nat →
  u16_indices n q i = seqZ i (q - i).
Proof.
  revert i. induction n as [|n IH]; intros i Hi Hq Hn; cbn [u16_indices].
  - rewrite seqZ_nil by lia. done.
  - case_decide as Hlt.
    + rewrite u16_id by (unfold is_u16; lia). rewrite IH by lia.
      rewrite (seqZ_cons i) by lia. do 2 f_equal; lia.
    + rewrite seqZ_nil by lia. done.
Qed.

Lemma u16_range_seqZ q : is_u16 q → u16_range q = seqZ 0 q.
Proof.
  intros Hq. unfold is_u16 in Hq. unfold u16_range.
  rewrite u16_indices_seqZ; [f_equal; lia|lia|lia|].
  replace (q - 0) with q by lia. apply Nat2Z.inj_le. lia.
Qed.

(** ** Saturating difference of times *)

Lemma time_Sub_gt t u d : is_i64 d → time_Sub t u > d ↔ t - u > d ∧ d < max_i64.
Proof. unfold time_Sub, is_i64, min_i64, max_i64. lia. Qed.

(** Conversion must not run the [uint16] loop. *)
#[global] Opaque u16_range.
