(* ===== verification/Request.v ===== *)
(** Modbus requests, function codes and exception codes
    (internal/modbus/server.go).  A byte or [uint16] is a [Z] in its range. *)

From stdpp Require Import base list numbers strings sets.
From S2P Require Import Prelude.

(** * Function codes *)
Definition FuncReadCoils : Z := 0x01.
Definition FuncReadDiscreteInputs : Z := 0x02.
Definition FuncReadHoldingRegisters : Z := 0x03.
Definition FuncReadInputRegisters : Z := 0x04.
Definition FuncWriteSingleCoil : Z := 0x05.
Definition FuncWriteSingleRegister : Z := 0x06.
Definition FuncWriteMultipleCoils : Z := 0x0F.
Definition FuncWriteMultipleRegs : Z := 0x10.

(** * Exception codes *)
Definition ExcIllegalFunction : Z := 0x01.
Definition ExcIllegalAddress : Z := 0x02.
Definition ExcIllegalValue : Z := 0x03.
Definition ExcServerFailure : Z := 0x04.
Definition ExcGatewayTargetFailed : Z := 0x0B.

Definition mbapHeaderSize : Z := 7.
Definition connReadTimeout : Z := 60 * second.

Record Request := {
  TransactionID : Z;
  SlaveID : Z;
  FunctionCode : Z;
  Address : Z;
  Quantity : Z;
  Data : list Z;
  PDU : list Z;
}.

(** Every field within its Go type. *)
Record wf_request (r : Request) : Prop := {
  wf_tid : is_u16 (TransactionID r);
  wf_slave : is_u8 (SlaveID r);
  wf_fc : is_u8 (FunctionCode r);
  wf_addr : is_u16 (Address r);
  wf_qty : is_u16 (Quantity r);
  wf_data : Forall is_u8 (Data r);
  wf_pdu : Forall is_u8 (PDU r);
}.

Definition IsWriteFunction (fc : Z) : bool :=
  bool_decide (fc = FuncWriteSingleCoil) || bool_decide (fc = FuncWriteSingleRegister) ||
  bool_decide (fc = FuncWriteMultipleCoils) || bool_decide (fc = FuncWriteMultipleRegs).

Definition IsReadFunction (fc : Z) : bool :=
  bool_decide (fc = FuncReadCoils) || bool_decide (fc = FuncReadDiscreteInputs) ||
  bool_decide (fc = FuncReadHoldingRegisters) || bool_decide (fc = FuncReadInputRegisters).

(** The two groups the codecs distinguish: bit-valued and word-valued reads. *)
Definition is_bit_read (fc : Z) : bool :=
  bool_decide (fc = FuncReadCoils) || bool_decide (fc = FuncReadDiscreteInputs).
Definition is_word_read (fc : Z) : bool :=
  bool_decide (fc = FuncReadHoldingRegisters) || bool_decide (fc = FuncReadInputRegisters).

Definition BuildExceptionResponse (functionCode exceptionCode : Z) : list Z :=
  [Z.lor functionCode 0x80; exceptionCode].

#[global] Instance Request_eq_dec : EqDecision Request.
Proof. solve_decision. Defined.

(** Case analysis on the function-code tests. *)
Ltac fc_cases :=
  unfold IsReadFunction, IsWriteFunction, is_bit_read, is_word_read in *;
  repeat (case_bool_decide; simplify_eq/=; try done).

(** Evaluate the function-code tests on constants. *)
Ltac fc_eval_test t :=
  let v := eval vm_compute in t in
  match v with true => change t with true in * | false => change t with false in * end.
Ltac fc_eval :=
  repeat match goal with
  | |- context [is_bit_read ?c] => fc_eval_test (is_bit_read c)
  | |- context [is_word_read ?c] => fc_eval_test (is_word_read c)
  | |- context [IsReadFunction ?c] => fc_eval_test (IsReadFunction c)
  | |- context [IsWriteFunction ?c] => fc_eval_test (IsWriteFunction c)
  end; cbn [orb andb negb].

Lemma IsReadFunction_spec fc :
  IsReadFunction fc = true ↔ fc ∈ [0x01; 0x02; 0x03; 0x04].
Proof.
  unfold IsReadFunction, FuncReadCoils, FuncReadDiscreteInputs,
    FuncReadHoldingRegisters, FuncReadInputRegisters.
  rewrite !orb_true_iff, !bool_decide_eq_true, !elem_of_cons, elem_of_nil. tauto.
Qed.

Lemma IsWriteFunction_spec fc :
  IsWriteFunction fc = true ↔ fc ∈ [0x05; 0x06; 0x0F; 0x10].
Proof.
  unfold IsWriteFunction, FuncWriteSingleCoil, FuncWriteSingleRegister,
    FuncWriteMultipleCoils, FuncWriteMultipleRegs.
  rewrite !orb_true_iff, !bool_decide_eq_true, !elem_of_cons, elem_of_nil. tauto.
Qed.

Lemma read_not_write fc : IsReadFunction fc = true → IsWriteFunction fc = false.
Proof. intros. fc_cases. Qed.

Lemma IsReadFunction_split fc :
  IsReadFunction fc = is_bit_read fc || is_word_read fc.
Proof. fc_cases. Qed.

Lemma bit_not_word fc : is_bit_read fc = true → is_word_read fc = false.
Proof. intros. fc_cases. Qed.

#[export] Hint Resolve read_not_write bit_not_word : mb.
