(* ===== verification/Errors.v ===== *)
(** Error values and their classification (internal/modbus/errors.go, and
    [classifyRequestPathError] of client.go).

    A Go [error] is a chain of wrappers down to a leaf.  [error] has a
    constructor for every concrete type the source creates, for the
    standard-library errors the classifier names, and [ErrOther] for any other
    type.  [errors_Is] and [errors_As] walk the chain as the standard library
    does; [net_Error] says which nodes implement [net.Error] and what their
    [Timeout()] method returns. *)

From stdpp Require Import base list numbers strings sets.
From S2P Require Import Prelude Request.

Inductive ErrorKind :=
| ErrorNone                 (* "" *)
| ErrorProtocolException
| ErrorTransportTimeout
| ErrorTransportClosed
| ErrorContextDeadline
| ErrorContextCanceled
| ErrorLocal.

Record requestTiming := {
  queue : Z;
  attempt : Z;
  reconnect : Z;
  total : Z;
}.

(** Sentinel values compared by [errors.Is]. *)
Inductive sentinel :=
| DeadlineExceeded          (* context.DeadlineExceeded *)
| Canceled                  (* context.Canceled *)
| EOF | ErrUnexpectedEOF    (* io *)
| NetErrClosed | OsErrClosed
| ECONNRESET | ECONNABORTED | ECONNREFUSED | ENETUNREACH | EHOSTUNREACH | EPIPE
| ETIMEDOUT | EAGAIN
| EOTHER (n : Z).           (* any other syscall.Errno *)

Inductive error :=
| ErrSentinel (s : sentinel)
| ErrNetTimeout             (* net's i/o timeout, which Is context.DeadlineExceeded *)
| ErrNetCanceled            (* net's operation was canceled, which Is context.Canceled *)
| ErrIODeadline             (* os.ErrDeadlineExceeded: an expired socket deadline *)
| ErrText (format : string) (args : list Z)       (* errors.New, fmt.Errorf without %w *)
| ErrOther (net : option bool) (msg : string)     (* any other type; Some t: a net.Error *)
| ErrGridModbus (functionCode exceptionCode : Z)  (* *gridmodbus.Error *)
| ErrWrap (format : string) (err : error)         (* fmt.Errorf with %w *)
| ErrOp (err : error)                             (* *net.OpError *)
| ErrSyscall (err : error)                        (* *os.SyscallError *)
| ErrValidation (exceptionCode : Z) (err : error) (* *validationError *)
| ErrUpstream (err : error)                       (* *upstreamCommunicationError *)
| ErrRequest (Kind : ErrorKind) (ExceptionCode Attempts : Z)
             (timing : requestTiming) (err : error)      (* *RequestError *)
| ErrCoalescing (err : error) (coalesced : bool) (waitDuration : Z). (* *coalescingError *)

#[global] Instance ErrorKind_eq_dec : EqDecision ErrorKind.
Proof. solve_decision. Defined.
#[global] Instance sentinel_eq_dec : EqDecision sentinel.
Proof. solve_decision. Defined.
#[global] Instance requestTiming_eq_dec : EqDecision requestTiming.
Proof. solve_decision. Defined.
#[global] Instance error_eq_dec : EqDecision error.
Proof. solve_decision. Defined.

(** * The standard library's walk *)

(** The error and everything [Unwrap] reaches from it. *)
Fixpoint chain (e : error) : list error :=
  e :: match e with
       | ErrWrap _ err | ErrOp err | ErrSyscall err | ErrValidation _ err
       | ErrUpstream err | ErrRequest _ _ _ _ err | ErrCoalescing err _ _ => chain err
       | _ => []
       end.

(** Equality with the target, or the node's own [Is] method. *)
Definition is_node (target : sentinel) (e : error) : bool :=
  match e with
  | ErrSentinel s => bool_decide (s = target)
  | ErrNetTimeout => bool_decide (target = DeadlineExceeded)
  | ErrNetCanceled => bool_decide (target = Canceled)
  | _ => false
  end.

Definition errors_Is (e : error) (target : sentinel) : bool :=
  existsb (is_node target) (chain e).

Fixpoint find_map {A B} (f : A → option B) (l : list A) : option B :=
  match l with
  | [] => None
  | a :: l => match f a with Some b => Some b | None => find_map f l end
  end.

Definition errors_As {B} (as_node : error → option B) (e : error) : option B :=
  find_map as_node (chain e).

(** The node's [Timeout() bool] method, if it has one. *)
Fixpoint timeout_method (e : error) : option bool :=
  match e with
  | ErrSentinel DeadlineExceeded => Some true
  | ErrSentinel (ETIMEDOUT | EAGAIN) => Some true
  | ErrSentinel (Canceled | EOF | ErrUnexpectedEOF | OsErrClosed) => None
  | ErrSentinel _ => Some false
  | ErrNetTimeout | ErrIODeadline => Some true
  | ErrOther net _ => net
  | ErrSyscall err => Some (default false (timeout_method err))
  | ErrOp err => Some (default false (timeout_method err))
  | _ => None
  end.

(** [net.Error] also asks for [Temporary()], which [*os.SyscallError] lacks. *)
Definition net_Error (e : error) : option bool :=
  match e with
  | ErrSyscall _ => None
  | _ => timeout_method e
  end.

Definition as_validationError (e : error) : option Z :=
  match e with ErrValidation code _ => Some code | _ => None end.
Definition as_upstreamCommunicationError (e : error) : option unit :=
  match e with ErrUpstream _ => Some () | _ => None end.
Definition as_gridError (e : error) : option (Z * Z) :=
  match e with ErrGridModbus fc code => Some (fc, code) | _ => None end.
Definition as_RequestError (e : error) : option (ErrorKind * Z * Z * requestTiming) :=
  match e with ErrRequest k c a t _ => Some (k, c, a, t) | _ => None end.
Definition as_coalescedMarker (e : error) : option (bool * Z) :=
  match e with ErrCoalescing _ c w => Some (c, w) | _ => None end.

(** * Classification *)

Definition closed_sentinels : list sentinel :=
  [EOF; ErrUnexpectedEOF; NetErrClosed; OsErrClosed; ECONNRESET; ECONNABORTED;
   ECONNREFUSED; ENETUNREACH; EHOSTUNREACH; EPIPE].

Definition classifyError (err : option error) : ErrorKind * Z :=
  match err with
  | None => (ErrorNone, 0)
  | Some e =>
    if errors_Is e DeadlineExceeded then (ErrorContextDeadline, 0)
    else if errors_Is e Canceled then (ErrorContextCanceled, 0)
    else match errors_As as_validationError e with
    | Some code => (ErrorLocal, code)
    | None =>
      match errors_As as_upstreamCommunicationError e with
      | Some _ => (ErrorTransportClosed, 0)
      | None =>
        match errors_As as_gridError e with
        | Some (_, code) => (ErrorProtocolException, code)
        | None =>
          match errors_As net_Error e with
          | Some true => (ErrorTransportTimeout, 0)
          | netErr =>
            if existsb (errors_Is e) closed_sentinels then (ErrorTransportClosed, 0)
            else if bool_decide (is_Some netErr) then (ErrorTransportClosed, 0)
            else (ErrorLocal, 0)
          end
        end
      end
    end
  end.

Definition ErrorKindOf (err : option error) : ErrorKind :=
  match err with
  | None => ErrorNone
  | Some e =>
    match errors_As as_RequestError e with
    | Some (kind, _, _, _) => kind
    | None => fst (classifyError (Some e))
    end
  end.

Definition kind_exception (k : ErrorKind) : Z :=
  match k with
  | ErrorTransportTimeout | ErrorTransportClosed
  | ErrorContextDeadline | ErrorContextCanceled => ExcGatewayTargetFailed
  | _ => ExcServerFailure
  end.

(** The kinds that mean the device did not answer the request. *)
Definition gateway_kind (k : ErrorKind) : bool :=
  match k with
  | ErrorTransportTimeout | ErrorTransportClosed
  | ErrorContextDeadline | ErrorContextCanceled => true
  | _ => false
  end.

Definition DownstreamException (e : error) : Z :=
  let reqErr := errors_As as_RequestError e in
  match reqErr with
  | Some (ErrorProtocolException, code, _, _) => code
  | _ =>
    match (match reqErr with
           | Some (ErrorLocal, code, _, _) =>
               if bool_decide (code ≠ 0) then Some code else None
           | _ => None
           end) with
    | Some code => code
    | None =>
      match errors_As as_upstreamCommunicationError e with
      | Some _ => ExcGatewayTargetFailed
      | None =>
        match errors_As as_gridError e with
        | Some (_, code) => code
        | None =>
          match errors_As as_validationError e with
          | Some code => code
          | None => kind_exception (ErrorKindOf (Some e))
          end
        end
      end
    end
  end.

Definition requestError (err : error) (attempts : Z) (timing : requestTiming) : error :=
  let '(kind, exceptionCode) := classifyError (Some err) in
  ErrRequest kind exceptionCode attempts timing err.

Definition newValidationError (exceptionCode : Z) (format : string) (args : list Z) : error :=
  ErrValidation exceptionCode (ErrText format args).

Definition isTransportError (err : error) : bool :=
  match fst (classifyError (Some err)) with
  | ErrorTransportTimeout | ErrorTransportClosed => true
  | _ => false
  end.

(** What the request path may conclude about an error of the client library. *)
Definition classifyRequestPathError (functionCode : Z) (err : option error) : option error :=
  match err with
  | None => None
  | Some e =>
    match errors_As as_gridError e with
    | Some (fc, code) =>
        if bool_decide (fc = Z.lor functionCode 0x80) && bool_decide (code ≠ 0)
        then Some e else Some (ErrUpstream e)
    | None =>
        match fst (classifyError (Some e)) with
        | ErrorLocal => Some (ErrUpstream e)
        | _ => Some e
        end
    end
  end.

(** * Shapes of error values *)

(** No node of one of the proxy's own types: what a library can return. *)
Fixpoint foreign_error (e : error) : bool :=
  match e with
  | ErrValidation _ _ | ErrUpstream _ | ErrRequest _ _ _ _ _ | ErrCoalescing _ _ _ => false
  | ErrWrap _ err | ErrOp err | ErrSyscall err => foreign_error err
  | _ => true
  end.

(** The errors [requestError] is given: a validation error built by
    [newValidationError] with a nonzero code, or a library error, possibly
    marked as an upstream communication failure. *)
Inductive base_error : error → Prop :=
| base_validation code f args : code ≠ 0 → base_error (newValidationError code f args)
| base_foreign e : foreign_error e = true → base_error e
| base_upstream e : foreign_error e = true → base_error (ErrUpstream e).

(** * Lemmas *)

Lemma errors_Is_cons e t :
  errors_Is e t = is_node t e || existsb (is_node t) (tail (chain e)).
Proof. by destruct e. Qed.

(** [fmt.Errorf("...: %w", err)], [*RequestError] and [*coalescingError] are
    invisible to the classifier. *)
Lemma classify_wrap f e : classifyError (Some (ErrWrap f e)) = classifyError (Some e).
Proof. reflexivity. Qed.

Lemma classify_request k c a t e :
  classifyError (Some (ErrRequest k c a t e)) = classifyError (Some e).
Proof. reflexivity. Qed.

Lemma classify_coalescing e c w :
  classifyError (Some (ErrCoalescing e c w)) = classifyError (Some e).
Proof. reflexivity. Qed.

#[export] Hint Rewrite classify_wrap classify_request classify_coalescing : mbrw.

Lemma as_cons {B} (f : error → option B) e l :
  find_map f (e :: l) = match f e with Some b => Some b | None => find_map f l end.
Proof. reflexivity. Qed.

(** A library error has none of the proxy's nodes. *)
Lemma foreign_as {B} (f : error → option B) e :
  (∀ x, foreign_error x = true → f x = None) →
  foreign_error e = true → errors_As f e = None.
Proof.
  intros Hnone. unfold errors_As. induction e; intros Hf; cbn [chain find_map];
    rewrite Hnone by done; try done; auto.
Qed.

Lemma foreign_no_validation e :
  foreign_error e = true → errors_As as_validationError e = None.
Proof. apply foreign_as. by intros []. Qed.

Lemma foreign_no_upstream e :
  foreign_error e = true → errors_As as_upstreamCommunicationError e = None.
Proof. apply foreign_as. by intros []. Qed.

Lemma foreign_no_request e :
  foreign_error e = true → errors_As as_RequestError e = None.
Proof. apply foreign_as. by intros []. Qed.

#[export] Hint Resolve foreign_no_validation foreign_no_upstream foreign_no_request : mb.

(** A chain has one leaf, so a Modbus exception is not a context error. *)
Lemma grid_not_sentinel e s p :
  errors_As as_gridError e = Some p → errors_Is e s = false.
Proof.
  unfold errors_As, errors_Is. induction e; cbn; try done; auto.
Qed.

Lemma classify_grid e fc code :
  foreign_error e = true → errors_As as_gridError e = Some (fc, code) →
  classifyError (Some e) = (ErrorProtocolException, code).
Proof.
  intros Hf Hg. unfold classifyError.
  rewrite !(grid_not_sentinel e _ _ Hg), foreign_no_validation, foreign_no_upstream, Hg by done.
  done.
Qed.

Lemma classify_protocol_inv e code :
  classifyError (Some e) = (ErrorProtocolException, code) →
  errors_As as_validationError e = None ∧
  errors_As as_upstreamCommunicationError e = None ∧
  ∃ fc, errors_As as_gridError e = Some (fc, code).
Proof.
  unfold classifyError. intros H. repeat case_match; simplify_eq; eauto 10.
Qed.

Lemma classify_upstream e :
  foreign_error e = true →
  gateway_kind (fst (classifyError (Some (ErrUpstream e)))) = true.
Proof.
  intros Hf. unfold classifyError.
  change (errors_As as_validationError (ErrUpstream e)) with (errors_As as_validationError e).
  rewrite foreign_no_validation by done. cbn -[errors_Is].
  by repeat case_match.
Qed.

Lemma classify_code_zero e k c :
  classifyError (Some e) = (k, c) →
  k ≠ ErrorProtocolException → k ≠ ErrorLocal → c = 0.
Proof. unfold classifyError. intros H. repeat case_match; simplify_eq; done. Qed.

Lemma classify_not_none e : fst (classifyError (Some e)) ≠ ErrorNone.
Proof. unfold classifyError. repeat case_match; done. Qed.

(** ** Downstream codes *)

(** What the classification of an error promises a client. *)
Definition downstream_spec (kc : ErrorKind * Z) : Z :=
  match kc with
  | (ErrorProtocolException, code) => code
  | (ErrorLocal, code) => if bool_decide (code ≠ 0) then code else ExcServerFailure
  | (ErrorNone, _) => ExcServerFailure
  | _ => ExcGatewayTargetFailed
  end.

Lemma errors_As_request {B} (f : error → option B) k c a t e :
  f (ErrRequest k c a t e) = None →
  errors_As f (ErrRequest k c a t e) = errors_As f e.
Proof. intros H. unfold errors_As. cbn. by rewrite H. Qed.

Lemma base_no_request e : base_error e → errors_As as_RequestError e = None.
Proof. intros [|? Hf|? Hf]; [done|..]; exact (foreign_no_request _ Hf). Qed.

(** Steps 3 to 6 of [DownstreamException] agree with the classification once
    the [RequestError] steps have been passed. *)
Lemma downstream_tail e k :
  base_error e → classifyError (Some e) = (k, 0) → k ≠ ErrorProtocolException →
  match errors_As as_upstreamCommunicationError e with
  | Some _ => ExcGatewayTargetFailed
  | None =>
    match errors_As as_gridError e with
    | Some (_, code) => code
    | None =>
      match errors_As as_validationError e with
      | Some code => code
      | None => kind_exception k
      end
    end
  end = downstream_spec (k, 0).
Proof.
  intros Hb Hk Hp. destruct Hb as [code f args Hc|e Hf|e Hf].
  - cbn in Hk. congruence.
  - rewrite foreign_no_upstream, foreign_no_validation by done.
    destruct (errors_As as_gridError e) as [[fc code]|] eqn:Hg.
    + erewrite classify_grid in Hk by done. congruence.
    + pose proof (classify_not_none e). rewrite Hk in *. by destruct k.
  - pose proof (classify_upstream e Hf) as Hin. rewrite Hk in Hin.
    by destruct k.
Qed.

Lemma downstream_request e a t :
  base_error e →
  DownstreamException (requestError e a t) = downstream_spec (classifyError (Some e)).
Proof.
  intros Hb. unfold requestError. destruct (classifyError (Some e)) as [k c] eqn:Hk.
  unfold DownstreamException.
  rewrite (errors_As_request as_upstreamCommunicationError),
    (errors_As_request as_gridError), (errors_As_request as_validationError) by done.
  change (ErrorKindOf (Some (ErrRequest k c a t e))) with k.
  change (errors_As as_RequestError (ErrRequest k c a t e)) with (Some (k, c, a, t)).
  destruct (decide (k = ErrorProtocolException)) as [->|Hp]; [done|].
  destruct (decide (c = 0)) as [->|Hc].
  - rewrite <- (downstream_tail e k) by done. by destruct k.
  - destruct k; try done; try (apply classify_code_zero in Hk; done).
    cbn. by rewrite !bool_decide_true by done.
Qed.

Lemma request_path_base fc e e' :
  foreign_error e = true → classifyRequestPathError fc (Some e) = Some e' → base_error e'.
Proof.
  intros Hf. unfold classifyRequestPathError. intros H.
  repeat case_match; simplify_eq; by constructor.
Qed.

Lemma request_path_Some fc e :
  ∃ e', classifyRequestPathError fc (Some e) = Some e'.
Proof. unfold classifyRequestPathError. repeat case_match; eauto. Qed.

(** The classification of a request-path error: a genuine exception keeps its
    code, and nothing is left as a local error. *)
Definition genuine_exception (fc : Z) (e : error) : option Z :=
  match errors_As as_gridError e with
  | Some (f, code) =>
      if bool_decide (f = Z.lor fc 0x80) && bool_decide (code ≠ 0) then Some code else None
  | None => None
  end.

Lemma request_path_genuine fc e code :
  foreign_error e = true → genuine_exception fc e = Some code →
  classifyRequestPathError fc (Some e) = Some e ∧ code ≠ 0 ∧
  classifyError (Some e) = (ErrorProtocolException, code).
Proof.
  unfold genuine_exception, classifyRequestPathError. intros Hf Hg.
  destruct (errors_As as_gridError e) as [[f c]|] eqn:E; [|done].
  destruct (bool_decide (f = _) && bool_decide (c ≠ 0)) eqn:B; [|done].
  simplify_eq. apply andb_true_iff in B as [_ B%bool_decide_eq_true].
  split_and!; [done..|]. by eapply classify_grid.
Qed.

Lemma request_path_other fc e e' :
  foreign_error e = true → genuine_exception fc e = None →
  classifyRequestPathError fc (Some e) = Some e' →
  gateway_kind (fst (classifyError (Some e'))) = true.
Proof.
  unfold genuine_exception, classifyRequestPathError. intros Hf Hg He.
  pose proof (classify_upstream e Hf) as Hu.
  destruct (errors_As as_gridError e) as [[f c]|] eqn:E.
  - destruct (bool_decide (f = _) && bool_decide (c ≠ 0)); by simplify_eq.
  - destruct (classifyError (Some e)) as [k c] eqn:K. cbn in He.
    pose proof (classify_not_none e) as Hn. rewrite K in Hn.
    destruct k; simplify_eq; try rewrite K; try done.
    apply classify_protocol_inv in K as (_ & _ & ? & ?). congruence.
Qed.

(** * Properties *)

(** What a client receives is a function of the classification alone: for
    every error the proxy wraps into a [RequestError] (validation errors with
    a nonzero code, library errors, marked upstream failures), also after a
    coalescing attribution, the downstream exception code is the validation or
    upstream code of a local or protocol error, [0x0B] for transport and
    context failures and [0x04] for any other local error. *)
Theorem DownstreamException_by_kind (e : error) (attempts : Z) (timing : requestTiming)
    (coalesced : bool) (wait : Z) (Hbase : base_error e) :
  DownstreamException (requestError e attempts timing) =
    downstream_spec (classifyError (Some e)) ∧
  DownstreamException (ErrCoalescing (requestError e attempts timing) coalesced wait) =
    downstream_spec (classifyError (Some e)).
Proof.
  rewrite <- (downstream_request e attempts timing Hbase). split; [done|].
  unfold requestError. by destruct (classifyError (Some e)).
Qed.

Example DownstreamException_by_kind_witness :
  base_error (newValidationError ExcIllegalAddress "address range exceeds 0xFFFF" []) ∧
  DownstreamException (requestError
    (newValidationError ExcIllegalAddress "address range exceeds 0xFFFF" []) 0
    (Build_requestTiming 0 0 0 0)) = 2.
Proof.
  assert (Hb : base_error (newValidationError ExcIllegalAddress
    "address range exceeds 0xFFFF" [])) by (constructor; done).
  split; [exact Hb|].
  exact (proj1 (DownstreamException_by_kind _ 0 (Build_requestTiming 0 0 0 0) true 0 Hb)).
Defined.

(** C23 The gateway rule of the request path: whatever error the client
    library returns, a client downstream receives the upstream exception code
    exactly when the device answered the request's own function code with the
    error bit and a nonzero code, and [0x0B] in every other case (transport
    failure, malformed exception, bad framing, deadline, cancellation). *)
Theorem request_path_downstream (fc : Z) (e : error) (attempts : Z) (timing : requestTiming)
    (Hf : foreign_error e = true) :
  ∃ e', classifyRequestPathError fc (Some e) = Some e' ∧
    DownstreamException (requestError e' attempts timing) =
      default ExcGatewayTargetFailed (genuine_exception fc e).
Proof.
  destruct (request_path_Some fc e) as [e' He]. exists e'. split; [done|].
  rewrite downstream_request by (by eapply request_path_base).
  destruct (genuine_exception fc e) as [code|] eqn:G.
  - destruct (request_path_genuine fc e code Hf G) as (He' & _ & K).
    rewrite He' in He. simplify_eq. by rewrite K.
  - pose proof (request_path_other fc e e' Hf G He) as Hin.
    destruct (classifyError (Some e')) as [k c]. by destruct k.
Qed.

(** A genuine exception 2, an exception for another function code, and an
    error of a type the classifier does not know. *)
Example request_path_downstream_witness :
  let t := Build_requestTiming 0 0 0 0 in
  (∃ e', classifyRequestPathError 3 (Some (ErrGridModbus 0x83 2)) = Some e' ∧
    DownstreamException (requestError e' 1 t) = 2) ∧
  (∃ e', classifyRequestPathError 3 (Some (ErrGridModbus 0x84 2)) = Some e' ∧
    DownstreamException (requestError e' 1 t) = 0x0B) ∧
  (∃ e', classifyRequestPathError 3 (Some (ErrOther None "response too long")) = Some e' ∧
    DownstreamException (requestError e' 1 t) = 0x0B).
Proof.
  intros t. split_and!.
  - exact (request_path_downstream 3 (ErrGridModbus 0x83 2) 1 t eq_refl).
  - exact (request_path_downstream 3 (ErrGridModbus 0x84 2) 1 t eq_refl).
  - exact (request_path_downstream 3 (ErrOther None "response too long") 1 t eq_refl).
Defined.
