(* ===== verification/Validate.v ===== *)
(** Local request validation ([ValidateRequest], internal/modbus/client.go)
    and its declarative specification, the limits of the Modbus protocol. *)

From stdpp Require Import base list numbers strings sets.
From S2P Require Import Prelude Request Errors.

(** * The code *)

Definition check_address_range (req : Request) : option error :=
  if decide (u32 (Address req) + u32 (Quantity req) > 65536) then
    Some (newValidationError ExcIllegalAddress "address range exceeds 0xFFFF" [])
  else None.

Definition ValidateRequest (r : option Request) : go (option error) :=
  match r with
  | None => Ret (Some (ErrText "request is nil" []))
  | Some req =>
    let fc := FunctionCode req in
    let qty := Quantity req in
    if is_bit_read fc then
      if decide (qty < 1 ∨ qty > 2000) then
        Ret (Some (newValidationError ExcIllegalValue
          "quantity %d must be between 1 and 2000" [qty]))
      else Ret (check_address_range req)
    else if is_word_read fc then
      if decide (qty < 1 ∨ qty > 125) then
        Ret (Some (newValidationError ExcIllegalValue
          "quantity %d must be between 1 and 125" [qty]))
      else Ret (check_address_range req)
    else if decide (fc = FuncWriteSingleCoil) then
      if decide (len (Data req) < 2) then
        Ret (Some (newValidationError ExcIllegalValue "write data requires 2 bytes" []))
      else
        value ← be_Uint16 (Data req);
        if decide (value ≠ 0x0000 ∧ value ≠ 0xFF00) then
          Ret (Some (newValidationError ExcIllegalValue
            "coil value 0x%04X must be 0x0000 or 0xFF00" [value]))
        else Ret (check_address_range req)
    else if decide (fc = FuncWriteSingleRegister) then
      if decide (len (Data req) < 2) then
        Ret (Some (newValidationError ExcIllegalValue "write data requires 2 bytes" []))
      else Ret (check_address_range req)
    else if decide (fc = FuncWriteMultipleCoils) then
      if decide (qty < 1 ∨ qty > 1968) then
        Ret (Some (newValidationError ExcIllegalValue
          "quantity %d must be between 1 and 1968" [qty]))
      else
        let expected := u16 (qty + 7) / 8 in
        if decide (len (Data req) ≠ expected) then
          Ret (Some (newValidationError ExcIllegalValue
            "write data has %d bytes, expected %d" [len (Data req); expected]))
        else Ret (check_address_range req)
    else if decide (fc = FuncWriteMultipleRegs) then
      if decide (qty < 1 ∨ qty > 123) then
        Ret (Some (newValidationError ExcIllegalValue
          "quantity %d must be between 1 and 123" [qty]))
      else
        let expected := qty * 2 in
        if decide (len (Data req) ≠ expected) then
          Ret (Some (newValidationError ExcIllegalValue
            "write data has %d bytes, expected %d" [len (Data req); expected]))
        else Ret (check_address_range req)
    else
      if decide (len (PDU req) < 1) then
        Ret (Some (newValidationError ExcIllegalFunction
          "missing pdu for function code: 0x%02X" [fc]))
      else
        b ← (PDU req) @[ 0 ];
        if decide (b ≠ fc) then
          Ret (Some (newValidationError ExcIllegalFunction
            "pdu function code 0x%02X does not match request 0x%02X" [b; fc]))
        else Ret None
  end.

(** * The specification *)

Definition standard_function (fc : Z) : bool := IsReadFunction fc || IsWriteFunction fc.

(** Quantity and data within the protocol's limits for the function code. *)
Definition payload_valid (r : Request) : Prop :=
  let fc := FunctionCode r in
  if is_bit_read fc then 1 ≤ Quantity r ≤ 2000
  else if is_word_read fc then 1 ≤ Quantity r ≤ 125
  else if decide (fc = FuncWriteSingleCoil) then
    2 ≤ len (Data r) ∧ ∃ b0 b1 tl, Data r = b0 :: b1 :: tl ∧ b1 = 0 ∧ (b0 = 0 ∨ b0 = 0xFF)
  else if decide (fc = FuncWriteSingleRegister) then 2 ≤ len (Data r)
  else if decide (fc = FuncWriteMultipleCoils) then
    1 ≤ Quantity r ≤ 1968 ∧ len (Data r) = (Quantity r + 7) / 8
  else 1 ≤ Quantity r ≤ 123 ∧ len (Data r) = 2 * Quantity r.

Definition address_valid (r : Request) : Prop := Address r + Quantity r ≤ 65536.

Definition opaque_valid (r : Request) : Prop := ∃ tl, PDU r = FunctionCode r :: tl.

Definition valid_request (r : Request) : Prop :=
  if standard_function (FunctionCode r) then payload_valid r ∧ address_valid r
  else opaque_valid r.

(** The exception code a violated limit is reported with. *)
Inductive violation (r : Request) : Z → Prop :=
| violation_function :
    standard_function (FunctionCode r) = false → ¬ opaque_valid r →
    violation r ExcIllegalFunction
| violation_value :
    standard_function (FunctionCode r) = true → ¬ payload_valid r →
    violation r ExcIllegalValue
| violation_address :
    standard_function (FunctionCode r) = true → payload_valid r → ¬ address_valid r →
    violation r ExcIllegalAddress.

(** * Lemmas *)

Lemma violation_not_valid r code : violation r code → ¬ valid_request r ∧ code ≠ 0.
Proof. intros [Hs|Hs|Hs]; unfold valid_request; rewrite Hs; (split; [tauto|done]). Qed.

(** How validation ends: with no error on a valid request, or with a
    validation error carrying the violated limit's code. *)
Inductive validation_outcome (r : Request) : go (option error) → Prop :=
| outcome_valid : valid_request r → validation_outcome r (Ret None)
| outcome_violation code f args :
    violation r code → validation_outcome r (Ret (Some (newValidationError code f args))).

Lemma outcome_address r :
  wf_request r → standard_function (FunctionCode r) = true → payload_valid r →
  validation_outcome r (Ret (check_address_range r)).
Proof.
  intros Hwf Hs Hp. unfold check_address_range.
  pose proof (wf_addr _ Hwf) as Ha. pose proof (wf_qty _ Hwf) as Hq. unfold is_u16 in *.
  unfold u32. rewrite !Z.mod_small by lia.
  case_decide; constructor; [apply violation_address|unfold valid_request; rewrite Hs];
    unfold address_valid; auto with lia.
Qed.

Lemma outcome_value r f args :
  standard_function (FunctionCode r) = true → ¬ payload_valid r →
  validation_outcome r (Ret (Some (newValidationError ExcIllegalValue f args))).
Proof. intros. constructor. by apply violation_value. Qed.

#[export] Hint Resolve outcome_address outcome_value : mb.

Lemma coil_value_spec b0 b1 l :
  is_u8 b0 → is_u8 b1 →
  (∃ c0 c1 tl, b0 :: b1 :: l = c0 :: c1 :: tl ∧ c1 = 0 ∧ (c0 = 0 ∨ c0 = 0xFF)) ↔
  ¬ (b0 * 256 + b1 ≠ 0 ∧ b0 * 256 + b1 ≠ 0xFF00).
Proof.
  unfold is_u8. intros. split.
  - intros (? & ? & ? & ? & ? & ?). simplify_eq. lia.
  - intros. exists b0, b1, l. split; [done|]. lia.
Qed.

Lemma standard_split fc :
  standard_function fc =
    is_bit_read fc || is_word_read fc || bool_decide (fc = FuncWriteSingleCoil) ||
    bool_decide (fc = FuncWriteSingleRegister) || bool_decide (fc = FuncWriteMultipleCoils) ||
    bool_decide (fc = FuncWriteMultipleRegs).
Proof.
  unfold standard_function, IsWriteFunction. by rewrite IsReadFunction_split, !orb_assoc.
Qed.

Lemma validate_outcome r : wf_request r → validation_outcome r (ValidateRequest (Some r)).
Proof.
  intros Hwf. pose proof (standard_split (FunctionCode r)) as Hs.
  pose proof (wf_data _ Hwf) as Hd. pose proof (wf_qty _ Hwf) as Hq.
  assert (Hp : payload_valid r = payload_valid r) by done.
  unfold payload_valid in Hp at 2. cbn [ValidateRequest].
  destruct (is_bit_read (FunctionCode r)); [decide_goal|].
  1,2: (apply outcome_value || apply outcome_address); rewrite ?Hp; auto with lia.
  destruct (is_word_read (FunctionCode r)); [decide_goal|].
  1,2: (apply outcome_value || apply outcome_address); rewrite ?Hp; auto with lia.
  destruct (decide (FunctionCode r = FuncWriteSingleCoil)) as [E|N1];
    [rewrite (bool_decide_true _ E) in Hs | rewrite (bool_decide_false _ N1) in Hs].
  { decide_goal.
    { apply outcome_value; [done|]. rewrite Hp. lia. }
    destruct (Data r) as [|b0 [|b1 tl]]; unfold len in *; cbn [length] in *; [lia..|].
    decompose_Forall. rewrite lor_shiftl_8 by done.
    pose proof (coil_value_spec b0 b1 tl). decide_goal.
    - apply outcome_value; [done|]. rewrite Hp. tauto.
    - apply outcome_address; [done..|]. rewrite Hp. split; [lia|tauto]. }
  destruct (decide (FunctionCode r = FuncWriteSingleRegister)) as [E|N2];
    [rewrite (bool_decide_true _ E) in Hs | rewrite (bool_decide_false _ N2) in Hs].
  { decide_goal; (apply outcome_value || apply outcome_address); rewrite ?Hp; auto with lia. }
  destruct (decide (FunctionCode r = FuncWriteMultipleCoils)) as [E|N3];
    [rewrite (bool_decide_true _ E) in Hs | rewrite (bool_decide_false _ N3) in Hs].
  { decide_goal; [apply outcome_value; rewrite ?Hp; auto with lia|].
    unfold is_u16 in Hq. rewrite u16_id by (unfold is_u16; lia).
    decide_goal; (apply outcome_value || apply outcome_address); rewrite ?Hp; auto with lia. }
  destruct (decide (FunctionCode r = FuncWriteMultipleRegs)) as [E|N4];
    [rewrite (bool_decide_true _ E) in Hs | rewrite (bool_decide_false _ N4) in Hs].
  { decide_goal; [apply outcome_value; rewrite ?Hp; auto with lia|].
    decide_goal; (apply outcome_value || apply outcome_address); rewrite ?Hp; auto with lia. }
  assert (Ho : opaque_valid r → validation_outcome r (Ret None)).
  { intros. constructor. unfold valid_request. by rewrite Hs. }
  destruct (PDU r) as [|b tl] eqn:EP; unfold len; cbn [length].
  { constructor. apply violation_function; [done|]. intros [? ?]. congruence. }
  rewrite decide_False by lia. rewrite (go_index_lookup _ 0 b) by done. go_simpl. decide_goal.
  - constructor. apply violation_function; [done|]. intros [? ?]. congruence.
  - apply Ho. exists tl. assert (b = FunctionCode r) as <-; [by apply dec_stable|done].
Qed.

Lemma validate_ok r : wf_request r → ValidateRequest (Some r) = Ret None ↔ valid_request r.
Proof.
  intros Hwf. destruct (validate_outcome r Hwf) as [Hv|code f args Hv]; [tauto|].
  apply violation_not_valid in Hv as [Hv _]. split; [done|tauto].
Qed.

Lemma validate_error r e :
  wf_request r → ValidateRequest (Some r) = Ret (Some e) →
  ∃ code f args, violation r code ∧ e = newValidationError code f args.
Proof. intros Hwf. destruct (validate_outcome r Hwf); [done|]. intros. simplify_eq. eauto. Qed.

Lemma validate_total r : wf_request r → ∃ err, ValidateRequest (Some r) = Ret err.
Proof. intros Hwf. destruct (validate_outcome r Hwf); eauto. Qed.

(** What a valid request guarantees the rest of the proxy. *)
Lemma valid_read_quantity r :
  IsReadFunction (FunctionCode r) = true → valid_request r →
  1 ≤ Quantity r ≤ 2000 ∧ Address r + Quantity r ≤ 65536 ∧
  (is_word_read (FunctionCode r) = true → Quantity r ≤ 125).
Proof.
  unfold valid_request, standard_function, payload_valid, address_valid.
  intros Hr. rewrite Hr, IsReadFunction_split in *. cbn.
  destruct (is_bit_read (FunctionCode r)) eqn:Hb.
  - apply bit_not_word in Hb. rewrite Hb. intros [? ?]. split_and!; [lia..|done].
  - cbn in Hr. rewrite Hr. lia.
Qed.

Lemma valid_write_single r :
  FunctionCode r = FuncWriteSingleCoil ∨ FunctionCode r = FuncWriteSingleRegister →
  valid_request r → 2 ≤ len (Data r).
Proof.
  unfold valid_request, standard_function, payload_valid. 
  intros [->| ->]; fc_eval; repeat decide_goal; try done; tauto.
Qed.

Lemma valid_opaque r :
  IsReadFunction (FunctionCode r) = false → IsWriteFunction (FunctionCode r) = false →
  valid_request r → ∃ tl, PDU r = FunctionCode r :: tl.
Proof. unfold valid_request, standard_function. by intros -> ->. Qed.

(** * Properties *)

(** C24 Local validation decides exactly the protocol's limits and never
    panics: on a request whose fields fit their Go types it returns no error if
    and only if the request is valid, and otherwise a validation error whose
    exception code names the violated limit (function 1, address 2, value 3;
    a value violation wins over an address violation), which is also the code
    the client receives. *)
Theorem ValidateRequest_correct (r : Request) (Hwf : wf_request r) :
  (ValidateRequest (Some r) = Ret None ↔ valid_request r) ∧
  (¬ valid_request r → ∃ code f args,
     violation r code ∧
     ValidateRequest (Some r) = Ret (Some (newValidationError code f args)) ∧
     DownstreamException (newValidationError code f args) = code).
Proof.
  split; [by apply validate_ok|]. intros Hv.
  destruct (validate_outcome r Hwf) as [|code f args Hc]; [done|]. by exists code, f, args.
Qed.

(** 126 registers are one too many; 125 registers from 65500 run past the end. *)
Example ValidateRequest_correct_witness :
  let r q := {| TransactionID := 1; SlaveID := 1; FunctionCode := 3; Address := 65500;
                Quantity := q; Data := []; PDU := [] |} in
  (∃ code f args, violation (r 126) code ∧
     ValidateRequest (Some (r 126)) = Ret (Some (newValidationError code f args)) ∧
     DownstreamException (newValidationError code f args) = code) ∧
  (∃ code f args, violation (r 125) code ∧
     ValidateRequest (Some (r 125)) = Ret (Some (newValidationError code f args)) ∧
     DownstreamException (newValidationError code f args) = code).
Proof.
  intros r.
  assert (Hwf : ∀ q, is_u16 q → wf_request (r q)).
  { intros. by repeat constructor; unfold is_u8, is_u16 in *; cbn; try lia. }
  split; apply ValidateRequest_correct.
  1,3: apply Hwf; unfold is_u16; lia.
  - unfold valid_request, standard_function, payload_valid, r. cbn. fc_eval. lia.
  - unfold valid_request, standard_function, address_valid, r. cbn. fc_eval. lia.
Defined.
