(* ===== verification/Server.v ===== *)
(** The Modbus TCP server (internal/modbus/server.go): MBAP framing, request
    parsing, the per-connection loop and the diagnostics of a failed request.

    A connection's read side is a [stream]: the bytes still to arrive and the
    error that follows them.  The handler is the interface [Handler] of the
    source, a class here; the connection loop is proved against it. *)

From stdpp Require Import base list numbers strings sets.
From S2P Require Import Prelude Request Errors.

(** * Framing *)

Record stream := { pending : list Z; tail_err : error }.

(** [io.ReadFull] of [n] bytes. *)
Definition ReadFull (conn : stream) (n : Z) : (list Z + error) * stream :=
  if decide (n ≤ len (pending conn)) then
    (inl (take (Z.to_nat n) (pending conn)),
     {| pending := drop (Z.to_nat n) (pending conn); tail_err := tail_err conn |})
  else
    (inr (if decide (pending conn ≠ [] ∧ tail_err conn = ErrSentinel EOF)
          then ErrSentinel ErrUnexpectedEOF else tail_err conn),
     {| pending := []; tail_err := tail_err conn |}).

Definition set_pdu (req : Request) (pdu : list Z) : Request :=
  {| TransactionID := TransactionID req; SlaveID := SlaveID req;
     FunctionCode := FunctionCode req; Address := Address req;
     Quantity := Quantity req; Data := Data req; PDU := pdu |}.

Definition set_range (req : Request) (address quantity : Z) (data : list Z) : Request :=
  {| TransactionID := TransactionID req; SlaveID := SlaveID req;
     FunctionCode := FunctionCode req; Address := address;
     Quantity := quantity; Data := data; PDU := PDU req |}.

(** The request as [parsePDU] leaves it, and the error it returns.  The slice
    bound [6+byteCount] is computed in a byte. *)
Definition parsePDU (req : Request) (pdu : list Z) : go (Request * option error) :=
  let req := set_pdu req pdu in
  let fc := FunctionCode req in
  if IsReadFunction fc then
    if decide (len pdu < 5) then
      Ret (req, Some (ErrText "pdu too short for read request" []))
    else
      a ← pdu @[ 1 ⋯ 3 ]; address ← be_Uint16 a;
      q ← pdu @[ 3 ⋯ 5 ]; quantity ← be_Uint16 q;
      Ret (set_range req address quantity (Data req), None)
  else if decide (fc = FuncWriteSingleCoil ∨ fc = FuncWriteSingleRegister) then
    if decide (len pdu < 5) then
      Ret (req, Some (ErrText "pdu too short for write single request" []))
    else
      a ← pdu @[ 1 ⋯ 3 ]; address ← be_Uint16 a;
      data ← pdu @[ 3 ⋯ 5 ];
      Ret (set_range req address 1 data, None)
  else if decide (fc = FuncWriteMultipleCoils ∨ fc = FuncWriteMultipleRegs) then
    if decide (len pdu < 6) then
      Ret (req, Some (ErrText "pdu too short for write multiple request" []))
    else
      a ← pdu @[ 1 ⋯ 3 ]; address ← be_Uint16 a;
      q ← pdu @[ 3 ⋯ 5 ]; quantity ← be_Uint16 q;
      byteCount ← pdu @[ 5 ];
      let req := set_range req address quantity (Data req) in
      if decide (len pdu < 6 + byteCount) then
        Ret (req, Some (ErrText "pdu too short for write data" []))
      else
        data ← pdu @[ 6 ⋯ u8 (6 + byteCount) ];
        Ret (set_range req address quantity data, None)
  else Ret (req, None).

(** [readRequest] from the decoded header on: the protocol and length checks,
    the PDU and its parsing. *)
Definition readBody (transactionID protocolID length slaveID : Z) (conn : stream) :
    go ((Request + error) * stream) :=
  if decide (protocolID ≠ 0) then
    Ret (inr (ErrText "invalid protocol id: %d" [protocolID]), conn)
  else
    let pduLen := length - 1 in
    if decide (pduLen < 1 ∨ pduLen > 253) then
      Ret (inr (ErrText "invalid pdu length: %d" [pduLen]), conn)
    else
      let '(r, conn) := ReadFull conn pduLen in
      match r with
      | inr err => Ret (inr err, conn)
      | inl pdu =>
        fc ← pdu @[ 0 ];
        let req := {| TransactionID := transactionID; SlaveID := slaveID;
                      FunctionCode := fc; Address := 0; Quantity := 0;
                      Data := []; PDU := [] |} in
        p ← parsePDU req pdu;
        match p with
        | (_, Some err) => Ret (inr err, conn)
        | (req, None) => Ret (inl req, conn)
        end
      end.

Definition readRequest (conn : stream) : go ((Request + error) * stream) :=
  let '(r, conn) := ReadFull conn mbapHeaderSize in
  match r with
  | inr err => Ret (inr err, conn)
  | inl header =>
    h0 ← header @[ 0 ⋯ 2 ]; transactionID ← be_Uint16 h0;
    h2 ← header @[ 2 ⋯ 4 ]; protocolID ← be_Uint16 h2;
    h4 ← header @[ 4 ⋯ 6 ]; length ← be_Uint16 h4;
    slaveID ← header @[ 6 ];
    readBody transactionID protocolID length slaveID conn
  end.

(** The bytes [writeResponse] hands to the connection. *)
Definition response_frame (transactionID slaveID : Z) (pdu : list Z) : list Z :=
  be_PutUint16 transactionID ++ be_PutUint16 0 ++ be_PutUint16 (u16 (len pdu + 1)) ++
  [slaveID] ++ pdu.

Definition buildExceptionResponse (req : Request) (exceptionCode : Z) : list Z :=
  [Z.lor (FunctionCode req) 0x80; exceptionCode].

(** * The connection loop *)

(** The interface the server calls. *)
Class Handler (S : Type) := HandleRequest : S → Request → go ((list Z + error) * S).

(** What the loop sees of the connection and of the request context: whether
    the server context is done at the top of the loop, [contextError] of the
    request context once the handler returned, and the outcome of a write. *)
Class ConnEnv (S : Type) := {
  ctx_done : S → bool;
  request_ctx_error : S → option error;
  conn_write : S → list Z → option error * S;
}.

Inductive conn_end :=
| CtxDone                    (* the server context is done *)
| ClientDisconnected         (* EOF or closed connection *)
| ClientTimeout              (* the read deadline passed *)
| ReadRequestError (e : error)
| WriteError (e : error).

(** How the loop reacts to a failed read. *)
Definition read_failure (err : error) : conn_end :=
  if errors_Is err EOF || errors_Is err NetErrClosed then ClientDisconnected
  else match net_Error err with
       | Some true => ClientTimeout
       | _ => ReadRequestError err
       end.

Section Connection.
Context {S : Type} `{Handler S, ConnEnv S}.

(** The response PDU for the handler's result: an expired request context
    turns a success into its error, and an error into an exception. *)
Definition response_pdu (st : S) (req : Request) (r : list Z + error) : list Z :=
  let r := match r with
           | inl resp => match request_ctx_error st with Some e => inr e | None => inl resp end
           | inr e => inr e
           end in
  match r with
  | inl resp => resp
  | inr err => buildExceptionResponse req (DownstreamException err)
  end.

(** One iteration: stop, or continue after one response has been written. *)
Definition handleConn_iter (st : S) (conn : stream) : go (conn_end * S + S * stream * list Z) :=
  if ctx_done st then Ret (inl (CtxDone, st))
  else
    rr ← readRequest conn;
    match rr with
    | (inr err, _) => Ret (inl (read_failure err, st))
    | (inl req, conn) =>
      h ← HandleRequest st req;
      let '(r, st) := h in
      let frame := response_frame (TransactionID req) (SlaveID req) (response_pdu st req r) in
      match conn_write st frame with
      | (Some e, st) => Ret (inl (WriteError e, st))
      | (None, st) => Ret (inr (st, conn, frame))
      end
    end.

(** The loop with fuel; [None] is fuel exhaustion. *)
Fixpoint handleConn_loop (fuel : nat) (st : S) (conn : stream) (out : list (list Z)) :
    option (go (conn_end * S * list (list Z))) :=
  match fuel with
  | O => None
  | Datatypes.S fuel =>
    match handleConn_iter st conn with
    | Panic => Some Panic
    | Ret (inl (why, st)) => Some (Ret (why, st, out))
    | Ret (inr (st, conn, frame)) => handleConn_loop fuel st conn (out ++ [frame])
    end
  end.

(** Every iteration that continues consumed a request, so one more iteration
    than there are bytes is enough ([handleConn_terminates]). *)
Definition handleConn (st : S) (conn : stream) : option (go (conn_end * S * list (list Z))) :=
  handleConn_loop (Datatypes.S (length (pending conn))) st conn [].
End Connection.

(** * Diagnostics of a failed request *)

Inductive level := LevelDebug | LevelWarn.

Record handler_log := {
  log_level : level;
  log_write : bool;
  log_attempts : Z;
  log_queue : Z;
  log_attempt : Z;
  log_reconnect : Z;
  log_kind : ErrorKind;
  log_downstream : Z;
  log_coalesced : bool;
  log_waited : bool;
  log_wait : Z;
  log_error : option error;
  log_exception : option Z;
}.

Definition logHandlerError (req : Request) (err : error) (downstreamException : Z) : handler_log :=
  let marker := errors_As as_coalescedMarker err in
  let coalescedWaited := bool_decide (is_Some marker) in
  let coalesced := match marker with Some (c, _) => c | None => false end in
  let coalescedWait := match marker with Some (_, w) => w | None => 0 end in
  let reqErr := errors_As as_RequestError err in
  let '(attempts, q, a, r) :=
    match reqErr with
    | Some (_, _, n, t) =>
        if coalesced then (0, coalescedWait, 0, 0)
        else (n, i64 (coalescedWait + queue t), attempt t, reconnect t)
    | None => (0, coalescedWait, 0, 0)
    end in
  {| log_level := if decide (ErrorKindOf (Some err) = ErrorContextCanceled)
                  then LevelDebug else LevelWarn;
     log_write := IsWriteFunction (FunctionCode req);
     log_attempts := attempts; log_queue := q; log_attempt := a; log_reconnect := r;
     log_kind := ErrorKindOf (Some err);
     log_downstream := downstreamException;
     log_coalesced := coalesced; log_waited := coalescedWaited; log_wait := coalescedWait;
     log_error := if IsWriteFunction (FunctionCode req) then None else Some err;
     log_exception := match reqErr with
                      | Some (_, code, _, _) => if decide (code ≠ 0) then Some code else None
                      | None => None
                      end |}.

(** * Specification of the wire format *)

(** The request PDU a Modbus client sends for a request. *)
Definition encode_pdu (r : Request) : list Z :=
  let fc := FunctionCode r in
  if IsReadFunction fc then fc :: be_PutUint16 (Address r) ++ be_PutUint16 (Quantity r)
  else if decide (fc = FuncWriteSingleCoil ∨ fc = FuncWriteSingleRegister) then
    fc :: be_PutUint16 (Address r) ++ Data r
  else if decide (fc = FuncWriteMultipleCoils ∨ fc = FuncWriteMultipleRegs) then
    fc :: be_PutUint16 (Address r) ++ be_PutUint16 (Quantity r) ++ [len (Data r)] ++ Data r
  else PDU r.

(** A request in the form the parser produces. *)
Record wire_request (r : Request) : Prop := {
  wire_wf : wf_request r;
  wire_pdu : PDU r = encode_pdu r;
  wire_head : hd_error (PDU r) = Some (FunctionCode r);
  wire_len : len (PDU r) ≤ 253;
  wire_shape :
    if IsReadFunction (FunctionCode r) then Data r = []
    else if decide (FunctionCode r = FuncWriteSingleCoil ∨
                    FunctionCode r = FuncWriteSingleRegister) then
      Quantity r = 1 ∧ len (Data r) = 2
    else if decide (FunctionCode r = FuncWriteMultipleCoils ∨
                    FunctionCode r = FuncWriteMultipleRegs) then True
    else Address r = 0 ∧ Quantity r = 0 ∧ Data r = [];
}.

Definition request_frame (r : Request) : list Z :=
  response_frame (TransactionID r) (SlaveID r) (PDU r).

#[global] Arguments request_frame : simpl never.
#[global] Arguments response_frame : simpl never.

(** The request [readRequest] starts parsing from. *)
Definition base_request (tid slave fc : Z) : Request :=
  {| TransactionID := tid; SlaveID := slave; FunctionCode := fc; Address := 0;
     Quantity := 0; Data := []; PDU := [] |}.

(** * Lemmas on framing *)

Lemma ReadFull_app l rest e n :
  n = len l →
  ReadFull {| pending := l ++ rest; tail_err := e |} n =
    (inl l, {| pending := rest; tail_err := e |}).
Proof.
  intros ->. unfold ReadFull, len. cbn [pending tail_err].
  rewrite decide_True by (rewrite length_app; lia).
  by rewrite Nat2Z.id, take_app_length, drop_app_length.
Qed.

Lemma ReadFull_inl conn n l conn' :
  0 ≤ n → ReadFull conn n = (inl l, conn') →
  len l = n ∧ pending conn = l ++ pending conn' ∧ tail_err conn' = tail_err conn.
Proof.
  intros Hn. unfold ReadFull. decide_goal; [|done]. intros [= <- <-]. cbn.
  rewrite take_drop. unfold len in *. rewrite length_take. split_and!; [lia|done..].
Qed.

(** Two bytes of a byte list form a [uint16]. *)
Lemma read16_ok l lo :
  Forall is_u8 l → 0 ≤ lo → lo + 2 ≤ len l →
  ∃ a v, l @[ lo ⋯ lo + 2 ] = Ret a ∧ be_Uint16 a = Ret v ∧ is_u16 v.
Proof.
  intros Hb Hlo Hl. eexists. rewrite go_slice_ok by lia.
  destruct (be_Uint16_ok (take (Z.to_nat (lo + 2 - lo)) (drop (Z.to_nat lo) l)))
    as (v & Hv & ?); eauto.
  - unfold len in *. rewrite length_take, length_drop. lia.
  - by apply Forall_take, Forall_drop.
Qed.

(** A header of seven bytes, decoded. *)
Lemma readRequest_header t1 t0 p1 p0 l1 l0 slave rest e :
  is_u8 t0 → is_u8 p0 → is_u8 l0 →
  readRequest {| pending := t1 :: t0 :: p1 :: p0 :: l1 :: l0 :: slave :: rest;
                 tail_err := e |} =
    readBody (t1 * 256 + t0) (p1 * 256 + p0) (l1 * 256 + l0) slave
      {| pending := rest; tail_err := e |}.
Proof.
  intros. unfold readRequest.
  change (t1 :: _) with ([t1; t0; p1; p0; l1; l0; slave] ++ rest).
  rewrite ReadFull_app by done.
  rewrite (go_slice_ok _ 0), (go_slice_ok _ 2), (go_slice_ok _ 4) by len_lia.
  rewrite (go_index_lookup _ 6 slave) by done. go_simpl.
  change (take (Z.to_nat (2 - 0)) (drop (Z.to_nat 0) [t1; t0; p1; p0; l1; l0; slave]))
    with [t1; t0].
  change (take (Z.to_nat (4 - 2)) (drop (Z.to_nat 2) [t1; t0; p1; p0; l1; l0; slave]))
    with [p1; p0].
  change (take (Z.to_nat (6 - 4)) (drop (Z.to_nat 4) [t1; t0; p1; p0; l1; l0; slave]))
    with [l1; l0].
  by repeat (rewrite be_Uint16_cons by done; go_simpl).
Qed.

Lemma response_frame_header tid slave pdu :
  is_u16 tid → 0 ≤ len pdu < 65535 → ∃ t1 t0 l1 l0,
  response_frame tid slave pdu = [t1; t0; 0; 0; l1; l0; slave] ++ pdu ∧
  is_u8 t1 ∧ is_u8 t0 ∧ is_u8 l1 ∧ is_u8 l0 ∧
  tid = t1 * 256 + t0 ∧ len pdu + 1 = l1 * 256 + l0.
Proof.
  intros Ht Hl. unfold response_frame. rewrite u16_id by (unfold is_u16; lia).
  rewrite (be_PutUint16_val tid), (be_PutUint16_val (len pdu + 1)) by (done || unfold is_u16; lia).
  do 4 eexists. split; [reflexivity|]. unfold is_u8, is_u16 in *.
  pose proof (Z.div_mod tid 256). pose proof (Z.div_mod (len pdu + 1) 256).
  pose proof (Z.mod_pos_bound tid 256). pose proof (Z.mod_pos_bound (len pdu + 1) 256). lia.
Qed.

Lemma readRequest_frame tid slave pdu rest e :
  is_u16 tid → len pdu ≤ 253 →
  readRequest {| pending := response_frame tid slave pdu ++ rest; tail_err := e |} =
    readBody tid 0 (len pdu + 1) slave {| pending := pdu ++ rest; tail_err := e |}.
Proof.
  intros Ht Hl. pose proof (len_nonneg pdu).
  destruct (response_frame_header tid slave pdu) as (t1&t0&l1&l0&->&?&?&?&?&->&->); [done|lia|].
  rewrite <- app_assoc. cbn [app]. by rewrite readRequest_header by (done || unfold is_u8; lia).
Qed.

(** ** Parsing what a client encodes *)

Lemma slice_addr fc addr post :
  (fc :: be_PutUint16 addr ++ post) @[ 1 ⋯ 3 ] = Ret (be_PutUint16 addr).
Proof. exact (go_slice_app [fc] (be_PutUint16 addr) post 1 3 eq_refl eq_refl). Qed.

Lemma slice_after_addr fc addr l post hi :
  hi = 3 + len l → (fc :: be_PutUint16 addr ++ l ++ post) @[ 3 ⋯ hi ] = Ret l.
Proof. exact (go_slice_app (fc :: be_PutUint16 addr) l post 3 hi eq_refl). Qed.

Lemma slice_data fc addr qty n data hi :
  hi = 6 + len data →
  (fc :: be_PutUint16 addr ++ be_PutUint16 qty ++ n :: data) @[ 6 ⋯ hi ] = Ret data.
Proof.
  intros ->. rewrite <- (app_nil_r data) at 1.
  by apply (go_slice_app (fc :: be_PutUint16 addr ++ be_PutUint16 qty ++ [n]) data []).
Qed.

Lemma parsePDU_encode r :
  wire_request r →
  parsePDU (base_request (TransactionID r) (SlaveID r) (FunctionCode r)) (PDU r) = Ret (r, None).
Proof.
  intros [Hwf Hp _ Hl Hs]. pose proof (wf_addr _ Hwf) as Ha. pose proof (wf_qty _ Hwf) as Hq.
  destruct r as [tid sl fc addr qty data pdu]. unfold parsePDU, encode_pdu in *. cbn in *.
  pose proof (be_roundtrip addr [] Ha) as Ra. pose proof (be_roundtrip qty [] Hq) as Rq.
  rewrite app_nil_r in *.
  destruct (IsReadFunction fc).
  { subst pdu data. rewrite decide_False by done.
    rewrite slice_addr. go_simpl. rewrite Ra. go_simpl.
    rewrite <- (app_nil_r (be_PutUint16 qty)), slice_after_addr by done.
    go_simpl. rewrite Rq. by go_simpl. }
  destruct (decide (fc = FuncWriteSingleCoil ∨ fc = FuncWriteSingleRegister)).
  { destruct Hs as [-> Hd]. subst pdu. rewrite decide_False by len_lia.
    rewrite slice_addr. go_simpl. rewrite Ra. go_simpl.
    rewrite <- (app_nil_r data) at 1. rewrite slice_after_addr by lia. by go_simpl. }
  destruct (decide (fc = FuncWriteMultipleCoils ∨ fc = FuncWriteMultipleRegs)).
  { subst pdu. rewrite decide_False by len_lia.
    rewrite slice_addr. go_simpl. rewrite Ra. go_simpl.
    rewrite slice_after_addr by done. go_simpl. rewrite Rq. go_simpl.
    rewrite (go_index_lookup _ 5 (len data)) by done. go_simpl.
    assert (Hlen : len (fc :: be_PutUint16 addr ++ be_PutUint16 qty ++ len data :: data) =
      6 + len data) by len_lia.
    rewrite Hlen in *. rewrite decide_False by lia.
    rewrite u8_id by (unfold is_u8; pose proof (len_nonneg data); lia).
    rewrite slice_data by done. by go_simpl. }
  by destruct Hs as (-> & -> & ->).
Qed.

Lemma readRequest_encode r rest e :
  wire_request r →
  readRequest {| pending := request_frame r ++ rest; tail_err := e |} =
    Ret (inl r, {| pending := rest; tail_err := e |}).
Proof.
  intros Hw. pose proof Hw as [Hwf _ Hh Hl _].
  unfold request_frame. rewrite readRequest_frame by (done || apply wf_tid, Hwf).
  destruct (PDU r) as [|fc pdu] eqn:EP; [done|]. cbn in Hh. injection Hh as ->.
  unfold readBody. rewrite decide_False by tauto.
  rewrite decide_False by len_lia.
  replace (len (FunctionCode r :: pdu) + 1 - 1) with (len (FunctionCode r :: pdu)) by lia.
  rewrite ReadFull_app by done. rewrite (go_index_lookup _ 0 (FunctionCode r)) by done. go_simpl.
  rewrite <- EP. change {| TransactionID := _ |} with
    (base_request (TransactionID r) (SlaveID r) (FunctionCode r)).
  rewrite parsePDU_encode by done. by go_simpl.
Qed.

(** ** Parsing arbitrary bytes *)

Ltac read16 l lo :=
  let E1 := fresh in let E2 := fresh in
  destruct (read16_ok l lo) as (? & ? & E1 & E2 & ?); [done|lia|lia|];
  let hi := eval vm_compute in (lo + 2) in change (lo + 2) with hi in E1;
  rewrite E1; go_simpl; rewrite E2; go_simpl; clear E1 E2.

(** What [parsePDU] keeps of the request it is given. *)
Definition same_header (tid slave fc : Z) (pdu : list Z) (req : Request) : Prop :=
  TransactionID req = tid ∧ SlaveID req = slave ∧ FunctionCode req = fc ∧ PDU req = pdu.

Ltac parse_done :=
  do 2 eexists; split; [reflexivity|]; repeat split; cbn; auto;
  unfold is_u16, is_u8 in *; lia.

Lemma parsePDU_total tid slave fc pdu :
  is_u16 tid → is_u8 slave → is_u8 fc → Forall is_u8 pdu → len pdu ≤ 253 →
  ∃ req err, parsePDU (base_request tid slave fc) pdu = Ret (req, err) ∧
    wf_request req ∧ same_header tid slave fc pdu req.
Proof.
  intros Ht Hs Hf Hb Hl. unfold parsePDU, same_header. cbn -[len].
  assert (Hd : ∀ n m, Forall is_u8 (take n (drop m pdu))).
  { intros. by apply Forall_take, Forall_drop. }
  destruct (IsReadFunction fc).
  { decide_goal; [|read16 pdu 1; read16 pdu 3]; parse_done. }
  destruct (decide (fc = FuncWriteSingleCoil ∨ fc = FuncWriteSingleRegister)).
  { decide_goal; [|read16 pdu 1; rewrite go_slice_ok by lia; go_simpl]; parse_done. }
  destruct (decide (fc = FuncWriteMultipleCoils ∨ fc = FuncWriteMultipleRegs)); [|parse_done].
  decide_goal; [parse_done|]. read16 pdu 1. read16 pdu 3.
  destruct (go_index_ok pdu 5) as (cnt & -> & Hn); [lia|]. go_simpl.
  assert (is_u8 cnt) by (by eapply Forall_lookup_1).
  decide_goal; [parse_done|]. unfold is_u8 in *. rewrite u8_id by (unfold is_u8; lia).
  rewrite go_slice_ok by lia. go_simpl. parse_done.
Qed.

Ltac body_err := eexists (inr _), _; split; [reflexivity|exact I].

Lemma readBody_total tid proto length slave conn :
  is_u16 tid → is_u8 slave → Forall is_u8 (pending conn) →
  ∃ r conn', readBody tid proto length slave conn = Ret (r, conn') ∧
    match r with
    | inl req =>
        wf_request req ∧ 1 ≤ len (PDU req) ≤ 253 ∧ proto = 0 ∧ length = len (PDU req) + 1 ∧
        same_header tid slave (FunctionCode req) (PDU req) req ∧
        hd_error (PDU req) = Some (FunctionCode req) ∧
        pending conn = PDU req ++ pending conn' ∧ tail_err conn' = tail_err conn
    | inr _ => True
    end.
Proof.
  intros Ht Hs Hb. unfold readBody. decide_goal; [body_err|]. decide_goal; [body_err|].
  destruct (ReadFull conn (length - 1)) as [[pdu|err] conn'] eqn:ER; [|body_err].
  apply ReadFull_inl in ER as (Hl & Hp & Htail); [|lia].
  rewrite Hp in Hb. apply Forall_app in Hb as [Hb _].
  destruct pdu as [|fc pdu]; [len_lia|]. rewrite (go_index_lookup _ 0 fc) by done. go_simpl.
  change {| TransactionID := _ |} with (base_request tid slave fc).
  destruct (parsePDU_total tid slave fc (fc :: pdu)) as (req & perr & -> & Hwf & Hh);
    [done|done|by apply Forall_cons in Hb as [? _]|done|lia|]. go_simpl.
  destruct perr; [body_err|]. do 2 eexists; split; [done|].
  destruct Hh as (E1 & E2 & E3 & E4). unfold same_header. rewrite E4, E3.
  split_and!; done || lia || by apply dec_stable.
Qed.

(** Whatever bytes arrive, [readRequest] returns, and a request it returns is
    well formed and is exactly the frame it consumed. *)
Definition read_request_post (conn : stream) (r : Request + error) (conn' : stream) : Prop :=
  match r with
  | inl req =>
      wf_request req ∧ 1 ≤ len (PDU req) ≤ 253 ∧
      hd_error (PDU req) = Some (FunctionCode req) ∧
      pending conn = request_frame req ++ pending conn' ∧ tail_err conn' = tail_err conn
  | inr _ => True
  end.

Lemma readRequest_total conn :
  Forall is_u8 (pending conn) →
  ∃ r conn', readRequest conn = Ret (r, conn') ∧ read_request_post conn r conn'.
Proof.
  intros Hb. destruct (ReadFull conn mbapHeaderSize) as [[header|err] conn1] eqn:ER.
  2:{ unfold readRequest. rewrite ER. body_err. }
  apply ReadFull_inl in ER as (Hl & Hp & Ht); [|done]. unfold mbapHeaderSize in Hl.
  destruct header as [|t1 [|t0 [|p1 [|p0 [|l1 [|l0 [|sl [|]]]]]]]]; try (len_lia). clear Hl.
  destruct conn as [bytes e]. cbn [pending tail_err] in *. subst bytes.
  apply Forall_app in Hb as [Hh Hb]. decompose_Forall.
  rewrite readRequest_header by done.
  destruct (readBody_total (t1 * 256 + t0) (p1 * 256 + p0) (l1 * 256 + l0) sl
    {| pending := pending conn1; tail_err := tail_err conn1 |})
    as (r & conn' & HB & Hr); [unfold is_u16, is_u8 in *; lia|done..|].
  exists r, conn'. split; [done|]. destruct r as [req|]; [|done]. cbn [pending tail_err] in *.
  destruct Hr as (Hwf & Hlen & Hproto & Hl & (E1 & E2 & _) & Hhd & -> & ?).
  split; [done|]. split; [done|]. split; [done|]. split; [|done]. unfold request_frame, response_frame. cbn [pending].
  rewrite E1, E2, <- Hl. unfold is_u8 in *.
  rewrite u16_id by (unfold is_u16; lia). rewrite !be_PutUint16_be by done.
  assert (p1 = 0 ∧ p0 = 0) as [-> ->] by lia. done.
Qed.

Lemma readRequest_shrinks conn req conn' :
  read_request_post conn (inl req) conn' →
  (length (pending conn') < length (pending conn))%nat.
Proof.
  intros (_ & Hl & _ & -> & _). unfold request_frame, response_frame. len_lia.
Qed.

Lemma frames_length rs : (length rs ≤ length (concat (map request_frame rs)))%nat.
Proof.
  induction rs as [|r rs IH]; cbn [length]; [lia|].
  change (concat (map request_frame (r :: rs)))
    with (request_frame r ++ concat (map request_frame rs)).
  unfold request_frame at 1, response_frame. len_lia.
Qed.

(** ** The requests in a byte stream

    The requests that [readRequest] accepts one after the other, and the error
    that ends them. *)
Inductive parses : stream → list Request → error → stream → Prop :=
| parse_end conn err conn' :
    readRequest conn = Ret (inr err, conn') → parses conn [] err conn
| parse_next conn req conn' rs err rest :
    readRequest conn = Ret (inl req, conn') → parses conn' rs err rest →
    parses conn (req :: rs) err rest.

Lemma parses_total conn :
  Forall is_u8 (pending conn) →
  ∃ rs err rest, parses conn rs err rest ∧ Forall wf_request rs ∧
    pending conn = concat (map request_frame rs) ++ pending rest ∧ tail_err rest = tail_err conn.
Proof.
  remember (length (pending conn)) as n eqn:Hn. revert conn Hn.
  induction n as [n IH] using lt_wf_ind. intros conn -> Hb.
  destruct (readRequest_total conn Hb) as ([req|err] & conn' & E & Hp).
  2: { exists [], err, conn. split; [by econstructor|done]. }
  pose proof (readRequest_shrinks _ _ _ Hp) as Hlt. destruct Hp as (Hwf & _ & _ & Hpe & Hte).
  assert (Hb' : Forall is_u8 (pending conn')) by (rewrite Hpe in Hb; by apply Forall_app in Hb as [_ ?]).
  destruct (IH _ Hlt conn' eq_refl Hb') as (rs & err & rest & Hps & Hwfs & Hpe' & Hte').
  exists (req :: rs), err, rest. split; [by econstructor|]. split; [by constructor|].
  split; [|congruence]. change (concat (map request_frame (req :: rs)))
    with (request_frame req ++ concat (map request_frame rs)).
  by rewrite <- app_assoc, <- Hpe'.
Qed.

Lemma parses_frames rs :
  Forall wire_request rs →
  ∃ err, read_failure err = ClientDisconnected ∧
    parses {| pending := concat (map request_frame rs); tail_err := ErrSentinel EOF |} rs err
      {| pending := []; tail_err := ErrSentinel EOF |}.
Proof.
  exists (ErrSentinel EOF). split; [done|]. induction H as [|r rs Hr _ IH].
  - by eapply parse_end.
  - eapply parse_next; [by apply readRequest_encode|exact IH].
Qed.

Lemma parses_det conn rs err rest rs' err' rest' :
  parses conn rs err rest → parses conn rs' err' rest' → rs = rs' ∧ err = err' ∧ rest = rest'.
Proof.
  intros H. revert rs' err' rest'. induction H as [conn err conn' E|conn req conn' rs err rest E _ IH];
    intros rs' err' rest' H'; inversion H'; subst; rewrite E in *; simplify_eq; [done|].
  destruct (IH _ _ _ ltac:(eassumption)) as (-> & -> & ->). done.
Qed.

Lemma parses_stuck conn rs err rest :
  parses conn rs err rest → ∃ conn', readRequest rest = Ret (inr err, conn').
Proof. induction 1; eauto. Qed.

(** * The connection loop against the handler interface *)

Section ConnectionSpec.
Context {S : Type} `{Handler S, ConnEnv S}.

(** The response of a request. *)
Definition frame_of (r : Request) (frame : list Z) : Prop :=
  ∃ pdu, frame = response_frame (TransactionID r) (SlaveID r) pdu.

(** What the connection owes its client, in terms of the requests [rs] in its
    bytes and the end [fin] of a client that sends nothing else: each request
    in turn passed to the handler and answered with one frame carrying its own
    identifiers, until the server context is done or a write fails. *)
Fixpoint serve_all (st : S) (rs : list Request) (fin : conn_end) : go (conn_end * S * list (list Z)) :=
  if ctx_done st then Ret (CtxDone, st, [])
  else match rs with
  | [] => Ret (fin, st, [])
  | req :: rs =>
    h ← HandleRequest st req;
    let '(r, st) := h in
    let frame := response_frame (TransactionID req) (SlaveID req) (response_pdu st req r) in
    match conn_write st frame with
    | (Some e, st) => Ret (WriteError e, st, [])
    | (None, st) =>
      t ← serve_all st rs fin;
      let '(why, st, frames) := t in
      Ret (why, st, frame :: frames)
    end
  end.

(** How serving ends: with the server context, with a failed write of the next
    request's response, or with all requests answered. *)
Definition served_until (rs : list Request) (fin why : conn_end) (st' : S) (frames : list (list Z)) : Prop :=
  Forall2 frame_of (take (length frames) rs) frames ∧
  (why = CtxDone ∧ ctx_done st' = true ∨
   (∃ e st1 frame, why = WriteError e ∧ conn_write st1 frame = (Some e, st') ∧
      (length frames < length rs)%nat) ∨
   why = fin ∧ length frames = length rs).

Lemma serve_all_ends st rs fin why st' frames :
  serve_all st rs fin = Ret (why, st', frames) → served_until rs fin why st' frames.
Proof.
  revert st frames. induction rs as [|r rs IH]; intros st frames Hs; cbn in Hs;
    destruct (ctx_done st) eqn:Hd; try (simplify_eq; split; [done|naive_solver]).
  apply go_bind_Ret_inv in Hs as ([res st1] & _ & Hs). cbv zeta in Hs.
  destruct (conn_write st1 _) as [[e|] st2] eqn:Hw.
  - simplify_eq. split; [done|]. right. left. eexists _, _, _. split_and!; [done..|cbn; lia].
  - apply go_bind_Ret_inv in Hs as ([[why2 st3] fs] & Ht & Hs). simplify_eq.
    destruct (IH _ _ Ht) as [Hf Hend]. split; [cbn; constructor; [by eexists|done]|].
    cbn [length]. destruct Hend as [?|[(e & st1' & f & ? & ? & ?)|[? ?]]]; [by left|right; left|right; right].
    + eexists _, _, _. split_and!; [done..|lia].
    + split; [done|lia].
Qed.

Lemma loop_unfold fuel st conn out :
  handleConn_loop (Datatypes.S fuel) st conn out =
    match handleConn_iter st conn with
    | Panic => Some Panic
    | Ret (inl (why, st)) => Some (Ret (why, st, out))
    | Ret (inr (st, conn, frame)) => handleConn_loop fuel st conn (out ++ [frame])
    end.
Proof. reflexivity. Qed.

Lemma loop_serves fuel st conn rs err rest out :
  parses conn rs err rest → (length rs < fuel)%nat →
  handleConn_loop fuel st conn out =
  Some (t ← serve_all st rs (read_failure err); let '(why, st, frames) := t in
        Ret (why, st, out ++ frames)).
Proof.
  intros Hp. revert fuel st out. induction Hp as [conn err conn' E|conn req conn' rs err rest E Hp IH];
    intros [|fuel] st out Hf; try (cbn in Hf; lia); rewrite loop_unfold; unfold handleConn_iter;
    cbn [serve_all]; (destruct (ctx_done st); [go_simpl; by rewrite app_nil_r|]); rewrite E; go_simpl.
  - by rewrite app_nil_r.
  - destruct (HandleRequest st req) as [[res st1]|]; [|done]. go_simpl. cbv zeta.
    destruct (conn_write st1 _) as [[e|] st2]; go_simpl; [by rewrite app_nil_r|].
    cbn [length] in Hf. rewrite IH by lia.
    destruct (serve_all st2 rs _) as [[[why st3] fs]|]; go_simpl; [|done]. by rewrite <- app_assoc.
Qed.

(** The loop has fuel for every request. *)
Lemma handleConn_serves st conn rs err rest :
  parses conn rs err rest → pending conn = concat (map request_frame rs) ++ pending rest →
  handleConn st conn = Some (serve_all st rs (read_failure err)).
Proof.
  intros Hp Hpe. unfold handleConn. rewrite (loop_serves _ _ _ _ _ _ [] Hp).
  - destruct (serve_all st rs _) as [[[why st2] fs]|]; by go_simpl.
  - rewrite Hpe, length_app. pose proof (frames_length rs). lia.
Qed.
End ConnectionSpec.

(** * Properties *)

(** C25 Round trip of the framing: the bytes a client sends for any request the
    protocol can express (read, single write, multiple write, opaque PDU), with
    anything behind them, are parsed back into exactly that request and exactly
    those bytes are consumed. *)
Theorem readRequest_roundtrip (r : Request) (rest : list Z) (e : error) (Hw : wire_request r) :
  readRequest {| pending := request_frame r ++ rest; tail_err := e |} =
    Ret (inl r, {| pending := rest; tail_err := e |}).
Proof. by apply readRequest_encode. Qed.

(** A write of two registers at 0x0102. *)
Definition sample_write : Request :=
  {| TransactionID := 0xBEEF; SlaveID := 17; FunctionCode := 0x10; Address := 0x0102;
     Quantity := 2; Data := [1; 2; 3; 4]; PDU := [0x10; 1; 2; 0; 2; 4; 1; 2; 3; 4] |}.

(** A read of three holding registers at 0x006B. *)
Definition sample_read : Request :=
  {| TransactionID := 7; SlaveID := 1; FunctionCode := 3; Address := 0x6B; Quantity := 3;
     Data := []; PDU := [3; 0; 0x6B; 0; 3] |}.

Ltac wire_concrete :=
  constructor; [constructor; cbn; repeat constructor; unfold is_u8, is_u16; lia
               |reflexivity|reflexivity|vm_compute; congruence|vm_compute; auto].

Example readRequest_roundtrip_witness :
  readRequest {| pending := request_frame sample_write ++ [9]; tail_err := ErrSentinel EOF |} =
    Ret (inl sample_write, {| pending := [9]; tail_err := ErrSentinel EOF |}).
Proof. apply readRequest_roundtrip. wire_concrete. Defined.

(** C26 The parser is safe and exact on arbitrary input: for every byte stream
    [readRequest] returns without a panic (no slice of the PDU, [6+byteCount]
    included, is out of range), and a request it accepts is well formed, has a
    PDU of 1 to 253 bytes that starts with its function code, and its frame is
    precisely the prefix that was consumed. *)
Theorem readRequest_safe (conn : stream) (Hb : Forall is_u8 (pending conn)) :
  ∃ r conn', readRequest conn = Ret (r, conn') ∧
    ∀ req, r = inl req →
      wf_request req ∧ 1 ≤ len (PDU req) ≤ 253 ∧
      hd_error (PDU req) = Some (FunctionCode req) ∧
      pending conn = request_frame req ++ pending conn'.
Proof.
  destruct (readRequest_total conn Hb) as (r & conn' & Hr & Hp). exists r, conn'.
  split; [done|]. intros req ->. destruct Hp as (? & ? & ? & ? & _). done.
Qed.

(** A byte count of 255 in a PDU of eight bytes is refused, not sliced. *)
Example readRequest_safe_witness :
  ∃ r conn',
    readRequest {| pending := [0; 1; 0; 0; 0; 9; 1; 0x10; 0; 0; 0; 1; 255; 7; 7];
                   tail_err := ErrSentinel EOF |} = Ret (r, conn') ∧
    ∀ req, r = inl req →
      wf_request req ∧ 1 ≤ len (PDU req) ≤ 253 ∧
      hd_error (PDU req) = Some (FunctionCode req) ∧
      [0; 1; 0; 0; 0; 9; 1; 0x10; 0; 0; 0; 1; 255; 7; 7] = request_frame req ++ pending conn'.
Proof. apply readRequest_safe. repeat constructor; cbn; lia. Defined.

(** C28 The connection loop terminates on every byte stream, whatever the
    handler, the server context and the connection do: each iteration that
    continues has consumed at least one frame, so the loop never runs out of
    the fuel it is given.  What it has written are the responses of the first
    requests of the stream, one each, and it leaves requests unanswered only if
    the server context is done or a write failed. *)
Theorem handleConn_terminates {S : Type} `{Handler S, ConnEnv S} (st : S) (conn : stream)
    (Hb : Forall is_u8 (pending conn)) :
  ∃ r, handleConn st conn = Some r ∧
    ∀ why st' frames, r = Ret (why, st', frames) →
    ∃ rs err rest k, parses conn rs err rest ∧
      pending conn = concat (map request_frame rs) ++ pending rest ∧
      Forall2 frame_of (take k rs) frames ∧
      (why = CtxDone ∨ (∃ e, why = WriteError e) ∨ (length rs <= k)%nat ∧ why = read_failure err).
Proof.
  destruct (parses_total conn Hb) as (rs & err & rest & Hp & _ & Hpe & _).
  rewrite (handleConn_serves st conn rs err rest Hp Hpe). eexists. split; [done|].
  intros why st' frames E. destruct (serve_all_ends _ _ _ _ _ _ E) as [Hf Hend].
  exists rs, err, rest, (length frames). split_and!; [done..|].
  destruct Hend as [[? _]|[(e & _ & _ & ? & _)|[-> ->]]]; [by left|right; left; by exists e|by right; right].
Qed.

(** C27 Every byte stream is served as the requests in it, one by one and in
    order, in every environment: it is the frames of well-formed requests and a
    rest that is not a request, and the loop passes these requests to the
    handler in turn and writes exactly one frame per request, carrying that
    request's transaction and unit identifiers, until the server context is
    done or a write fails; if neither happens, every request is answered and
    the loop ends as the failure to read the rest says.  If the bytes are the
    frames of requests the protocol can express, these are the requests served,
    and that end is the client's disconnecting. *)
Theorem handleConn_pipeline {S : Type} `{Handler S, ConnEnv S} (st : S) (conn : stream)
    (Hb : Forall is_u8 (pending conn)) :
  ∃ rs err rest,
    pending conn = concat (map request_frame rs) ++ pending rest ∧ Forall wf_request rs ∧
    (∃ conn', readRequest rest = Ret (inr err, conn')) ∧
    handleConn st conn = Some (serve_all st rs (read_failure err)) ∧
    (∀ why st' frames, serve_all st rs (read_failure err) = Ret (why, st', frames) →
       served_until rs (read_failure err) why st' frames) ∧
    (∀ rs', Forall wire_request rs' →
       conn = {| pending := concat (map request_frame rs'); tail_err := ErrSentinel EOF |} →
       rs = rs' ∧ read_failure err = ClientDisconnected).
Proof.
  destruct (parses_total conn Hb) as (rs & err & rest & Hp & Hwf & Hpe & _).
  exists rs, err, rest. split_and!; [done|done|by eapply parses_stuck|by eapply handleConn_serves| |].
  - intros why st' frames. apply serve_all_ends.
  - intros rs' Hrs' ->. destruct (parses_frames rs' Hrs') as (err' & Herr & Hp').
    by destruct (parses_det _ _ _ _ _ _ _ Hp Hp') as (-> & -> & _).
Qed.

(** A handler that counts requests, answers reads with the count and fails
    everything else; a connection that accepts every write. *)
#[local] Instance counting_handler : Handler Z := λ n req,
  Ret (if IsReadFunction (FunctionCode req)
       then inl [FunctionCode req; 2; 0; n] else inr (ErrText "no" []), n + 1).
#[local] Instance open_connection : ConnEnv Z :=
  {| ctx_done := λ _, false; request_ctx_error := λ _, None; conn_write := λ n _, (None, n) |}.

Example handleConn_terminates_witness :
  ∃ r, handleConn (S:=Z) 0 {| pending := [1; 2; 3]; tail_err := ErrIODeadline |} = Some r.
Proof.
  destruct (handleConn_terminates (S:=Z) 0 {| pending := [1; 2; 3]; tail_err := ErrIODeadline |})
    as (r & E & _); [repeat constructor; cbn; lia|]. by exists r.
Defined.

(** Two requests, and the beginning of a third. *)
Definition cut_off : stream :=
  {| pending := concat (map request_frame [sample_read; sample_write]) ++ [0; 9; 0];
     tail_err := ErrIODeadline |}.

Definition loop_frames {S} (r : option (go (conn_end * S * list (list Z)))) : option (conn_end * list (list Z)) :=
  match r with Some (Ret (why, _, frames)) => Some (why, frames) | _ => None end.

(** All that was sent is answered, until the read deadline. *)
Example handleConn_pipeline_witness :
  ∃ rs err rest st', pending cut_off = concat (map request_frame rs) ++ pending rest ∧
    serve_all (S:=Z) 5 rs (read_failure err) = Ret (ClientTimeout, st',
      [[0; 7; 0; 0; 0; 5; 1; 3; 2; 0; 5]; [0xBE; 0xEF; 0; 0; 0; 3; 17; 0x90; 4]]) ∧
    served_until rs (read_failure err) ClientTimeout st'
      [[0; 7; 0; 0; 0; 5; 1; 3; 2; 0; 5]; [0xBE; 0xEF; 0; 0; 0; 3; 17; 0x90; 4]].
Proof.
  destruct (handleConn_pipeline (S:=Z) 5 cut_off) as (rs & err & rest & Hpe & _ & Herr & E & Hend & _).
  - eapply (Forall_impl (λ z, 0 <= z < 256)); [apply (bool_decide_unpack _); vm_compute; exact I|done].
  - assert (loop_frames (handleConn (S:=Z) 5 cut_off) = Some (ClientTimeout,
      [[0; 7; 0; 0; 0; 5; 1; 3; 2; 0; 5]; [0xBE; 0xEF; 0; 0; 0; 3; 17; 0x90; 4]])) as Hrun
      by (vm_compute; reflexivity).
    rewrite E in Hrun. destruct (serve_all (S:=Z) 5 rs (read_failure err)) as [[[why st'] frames]|] eqn:Es;
      [|discriminate].
    injection Hrun as -> ->. exists rs, err, rest, st'. split; [exact Hpe|]. split; [exact Es|].
    exact (Hend _ _ _ eq_refl).
Defined.

(** Diagnostics of a coalesced failure: a follower is logged with no
    attempts and no wire timing of its own, its wait as queue time, while a
    caller that waited and then fetched keeps its attempts and adds its wait;
    the error text of a write is never logged. *)
Theorem logHandlerError_coalesced (req : Request) (kind : ErrorKind) (code attempts : Z)
    (timing : requestTiming) (err : error) (coalesced : bool) (wait exc : Z) :
  let l := logHandlerError req (ErrCoalescing (ErrRequest kind code attempts timing err)
             coalesced wait) exc in
  log_attempts l = (if coalesced then 0 else attempts) ∧
  log_queue l = (if coalesced then wait else i64 (wait + queue timing)) ∧
  log_attempt l = (if coalesced then 0 else attempt timing) ∧
  log_reconnect l = (if coalesced then 0 else reconnect timing) ∧
  log_coalesced l = coalesced ∧ log_waited l = true ∧ log_wait l = wait ∧
  log_kind l = kind ∧
  (log_error l = None ↔ IsWriteFunction (FunctionCode req) = true).
Proof.
  destruct coalesced; cbn; split_and!; try done;
    destruct (IsWriteFunction (FunctionCode req)); done.
Qed.
