(* ===== verification/Cache.v ===== *)
(** The in-memory register cache (internal/cache/cache.go): entries with a
    time-to-live under string keys, per-key and per-range operations, and the
    cleanup pass.  Request coalescing, which does not touch the entries, is in
    Proxy.v.

    [time.Now()] is read once per entry in the range lookups, so they take
    the clock as a function of the loop index.  [RangeStore] is the interface
    the proxy's theorems are proved against; [Cache] is its instance. *)

From stdpp Require Import base list numbers strings gmap.
From Stdlib Require Import Ascii.
From S2P Require Import Prelude.

Record Entry := {
  entry_Data : list Z;
  entry_Timestamp : Z;
  entry_TTL : Z;
}.

Record Cache := {
  entries : gmap string Entry;
  defaultTTL : Z;
  keepStale : bool;
}.

Definition IsExpired (e : Entry) (now : Z) : bool :=
  bool_decide (time_Sub now (entry_Timestamp e) > entry_TTL e).

(** [New]: the entry store of a fresh cache. *)
Definition New (ttl : Z) (stale : bool) : Cache :=
  {| entries := ∅; defaultTTL := ttl; keepStale := stale |}.

Definition set_entries (c : Cache) (m : gmap string Entry) : Cache :=
  {| entries := m; defaultTTL := defaultTTL c; keepStale := keepStale c |}.

(** * Keys *)
Definition RegKey (slaveID functionCode address : Z) : string :=
  fmt_d slaveID +:+ ":" +:+ fmt_d functionCode +:+ ":" +:+ fmt_d address.

Definition RangeKey (slaveID functionCode startAddr quantity : Z) : string :=
  fmt_d slaveID +:+ ":" +:+ fmt_d functionCode +:+ ":" +:+ fmt_d startAddr +:+ ":" +:+
  fmt_d quantity.

(** * Single entries *)
Definition Get (c : Cache) (now : Z) (key : string) : option (list Z) :=
  match entries c !! key with
  | Some e => if IsExpired e now then None else Some (entry_Data e)
  | None => None
  end.

Definition GetStale (c : Cache) (key : string) : option (list Z) :=
  match entries c !! key with
  | Some e => Some (entry_Data e)
  | None => None
  end.

Definition Set_ (c : Cache) (now : Z) (key : string) (data : list Z) : Cache :=
  set_entries c (<[key := {| entry_Data := data; entry_Timestamp := now;
                            entry_TTL := defaultTTL c |}]> (entries c)).

Definition Delete (c : Cache) (key : string) : Cache :=
  set_entries c (delete key (entries c)).

(** * Ranges *)
Definition GetRange (c : Cache) (now : Z → Z) (slaveID functionCode startAddr quantity : Z) :
    option (list (list Z)) :=
  if decide (quantity = 0) then None
  else mapM (λ i, Get c (now i) (RegKey slaveID functionCode (u16 (startAddr + i))))
            (u16_range quantity).

Definition GetRangeStale (c : Cache) (slaveID functionCode startAddr quantity : Z) :
    option (list (list Z)) :=
  if decide (quantity = 0) then None
  else mapM (λ i, GetStale c (RegKey slaveID functionCode (u16 (startAddr + i))))
            (u16_range quantity).

(** The loop over [values] from index [i]; every entry gets the same [now]. *)
Fixpoint set_range_from (c : Cache) (now slaveID functionCode startAddr i : Z)
    (values : list (list Z)) : Cache :=
  match values with
  | [] => c
  | v :: values =>
      set_range_from (Set_ c now (RegKey slaveID functionCode (u16 (startAddr + u16 i))) v)
        now slaveID functionCode startAddr (i + 1) values
  end.

Definition SetRange (c : Cache) (now slaveID functionCode startAddr : Z)
    (values : list (list Z)) : Cache :=
  set_range_from c now slaveID functionCode startAddr 0 values.

Definition DeleteRange (c : Cache) (slaveID functionCode startAddr quantity : Z) : Cache :=
  foldl (λ c i, Delete c (RegKey slaveID functionCode (u16 (startAddr + i)))) c
        (u16_range quantity).

(** * Cleanup: the clock is read per entry. *)
Definition cleanupOnce (c : Cache) (now : string → Z) : Cache :=
  if keepStale c then c
  else set_entries c (filter (λ kv, IsExpired kv.2 (now kv.1) = false) (entries c)).

(** * The interface *)

(** The view the proxy has of the cache: the entry of each register. *)
Class RangeStore (C : Type) := {
  rs_entry : C → Z → Z → Z → option Entry;
  rs_ttl : C → Z;
  rs_GetRange : C → (Z → Z) → Z → Z → Z → Z → option (list (list Z));
  rs_GetRangeStale : C → Z → Z → Z → Z → option (list (list Z));
  rs_SetRange : C → Z → Z → Z → Z → list (list Z) → C;
  rs_DeleteRange : C → Z → Z → Z → Z → C;
}.

Definition fresh_data (now : Z) (e : Entry) : option (list Z) :=
  if IsExpired e now then None else Some (entry_Data e).

(** A range within the address space: what validation guarantees. *)
Definition valid_range (slave fc addr qty : Z) : Prop :=
  is_u8 slave ∧ is_u8 fc ∧ is_u16 addr ∧ is_u16 qty ∧ addr + qty ≤ 65536.

Definition in_range (addr qty a : Z) : Prop := addr ≤ a < addr + qty.

Class RangeStoreLaws (C : Type) `{RangeStore C} : Prop := {
  rs_GetRange_spec c now s f a q :
    valid_range s f a q →
    rs_GetRange c now s f a q =
      if decide (q = 0) then None
      else mapM (λ i, rs_entry c s f (a + i) ≫= fresh_data (now i)) (seqZ 0 q);
  rs_GetRangeStale_spec c s f a q :
    valid_range s f a q →
    rs_GetRangeStale c s f a q =
      if decide (q = 0) then None
      else mapM (λ i, entry_Data <$> rs_entry c s f (a + i)) (seqZ 0 q);
  rs_SetRange_in c now s f a vs i v :
    valid_range s f a (len vs) → vs !! i = Some v →
    rs_entry (rs_SetRange c now s f a vs) s f (a + Z.of_nat i) =
      Some {| entry_Data := v; entry_Timestamp := now; entry_TTL := rs_ttl c |};
  rs_SetRange_out c now s f a vs s' f' x :
    valid_range s f a (len vs) → valid_range s' f' x 1 →
    ¬ (s' = s ∧ f' = f ∧ in_range a (len vs) x) →
    rs_entry (rs_SetRange c now s f a vs) s' f' x = rs_entry c s' f' x;
  rs_DeleteRange_in c s f a q x :
    valid_range s f a q → in_range a q x →
    rs_entry (rs_DeleteRange c s f a q) s f x = None;
  rs_DeleteRange_out c s f a q s' f' x :
    valid_range s f a q → valid_range s' f' x 1 →
    ¬ (s' = s ∧ f' = f ∧ in_range a q x) →
    rs_entry (rs_DeleteRange c s f a q) s' f' x = rs_entry c s' f' x;
}.

#[export] Instance Cache_RangeStore : RangeStore Cache := {
  rs_entry c s f a := entries c !! RegKey s f a;
  rs_ttl := defaultTTL;
  rs_GetRange := GetRange;
  rs_GetRangeStale := GetRangeStale;
  rs_SetRange := SetRange;
  rs_DeleteRange := DeleteRange;
}.

(** * Lemmas on keys *)

(** No separator inside. *)
Fixpoint no_colon (s : string) : bool :=
  match s with
  | EmptyString => true
  | String c s => negb (bool_decide (c = ":"%char)) && no_colon s
  end.

Lemma no_colon_split x y s t :
  no_colon x = true → no_colon y = true →
  x +:+ ":" +:+ s = y +:+ ":" +:+ t → x = y ∧ s = t.
Proof.
  revert y. induction x as [|c x IH]; intros [|d y] Hx Hy; cbn in *.
  - intros E. by simplify_eq/=.
  - intros E. by simplify_eq/=.
  - intros E. by simplify_eq/=.
  - intros E. injection E as <- E. apply andb_true_iff in Hx as [_ ?], Hy as [_ ?].
    apply IH in E as [-> ->]; done.
Qed.

Lemma no_colon_uint d : no_colon (DecimalString.NilEmpty.string_of_uint d) = true.
Proof. by induction d; cbn. Qed.

Lemma no_colon_fmt z : no_colon (fmt_d z) = true.
Proof.
  unfold fmt_d, DecimalString.NilZero.string_of_uint.
  destruct (N.to_uint (Z.to_N z)); try done; apply no_colon_uint.
Qed.

Lemma to_uint_nonnil n : N.to_uint n ≠ Decimal.Nil.
Proof. destruct n as [|p]; [done|]. apply DecimalPos.Unsigned.to_uint_nonnil. Qed.

Lemma fmt_d_inj x y : 0 ≤ x → 0 ≤ y → fmt_d x = fmt_d y → x = y.
Proof.
  unfold fmt_d. intros ?? E. apply (f_equal DecimalString.NilZero.uint_of_string) in E.
  rewrite !DecimalString.NilZero.usu in E by apply to_uint_nonnil.
  injection E as E. apply DecimalN.Unsigned.to_uint_inj in E. lia.
Qed.

#[export] Hint Resolve no_colon_fmt : mb.

Lemma RegKey_inj s f a s' f' a' :
  0 ≤ s → 0 ≤ f → 0 ≤ a → 0 ≤ s' → 0 ≤ f' → 0 ≤ a' →
  RegKey s f a = RegKey s' f' a' → s = s' ∧ f = f' ∧ a = a'.
Proof.
  unfold RegKey. intros ?????? E.
  apply no_colon_split in E as [?%fmt_d_inj E]; auto with mb.
  apply no_colon_split in E as [?%fmt_d_inj ?%fmt_d_inj]; auto with mb.
Qed.

Lemma RangeKey_inj s f a q s' f' a' q' :
  0 ≤ s → 0 ≤ f → 0 ≤ a → 0 ≤ q → 0 ≤ s' → 0 ≤ f' → 0 ≤ a' → 0 ≤ q' →
  RangeKey s f a q = RangeKey s' f' a' q' → s = s' ∧ f = f' ∧ a = a' ∧ q = q'.
Proof.
  unfold RangeKey. intros ???????? E.
  apply no_colon_split in E as [?%fmt_d_inj E]; auto with mb.
  apply no_colon_split in E as [?%fmt_d_inj E]; auto with mb.
  apply no_colon_split in E as [?%fmt_d_inj ?%fmt_d_inj]; auto with mb.
Qed.

(** * Lemmas on the entry map *)

Lemma entries_Set c now k v k' :
  entries (Set_ c now k v) !! k' =
    if decide (k = k') then
      Some {| entry_Data := v; entry_Timestamp := now; entry_TTL := defaultTTL c |}
    else entries c !! k'.
Proof. cbn. by rewrite lookup_insert. Qed.

Lemma entries_Delete c k k' :
  entries (Delete c k) !! k' = if decide (k = k') then None else entries c !! k'.
Proof. cbn. by rewrite lookup_delete. Qed.

Lemma set_range_ttl c now s f a i vs :
  defaultTTL (set_range_from c now s f a i vs) = defaultTTL c.
Proof. revert c i. induction vs as [|v vs IH]; intros c i; cbn; [done|]. by rewrite IH. Qed.

(** The loop of [SetRange] from index [i] on: below [a+i] nothing changes, and
    element [j] of the remaining values lands at [a+i+j]. *)
Lemma set_range_lookup c now s f a i vs s' f' x :
  0 ≤ s → 0 ≤ f → 0 ≤ a → 0 ≤ i → a + i + len vs ≤ 65536 →
  0 ≤ s' → 0 ≤ f' → 0 ≤ x →
  entries (set_range_from c now s f a i vs) !! RegKey s' f' x =
    if decide (s' = s ∧ f' = f ∧ in_range (a + i) (len vs) x) then
      (λ v, {| entry_Data := v; entry_Timestamp := now; entry_TTL := defaultTTL c |}) <$>
        vs !! Z.to_nat (x - (a + i))
    else entries c !! RegKey s' f' x.
Proof.
  intros Hs Hf Ha. revert c i. induction vs as [|v vs IH]; intros c i Hi Hl Hs' Hf' Hx.
  { cbn. rewrite decide_False; [done|]. unfold in_range, len. cbn. lia. }
  cbn [set_range_from]. rewrite IH; [|lia|len_lia|done..].
  assert (Hu : u16 (a + u16 i) = a + i).
  { rewrite (u16_id i) by (unfold is_u16; len_lia). apply u16_id. unfold is_u16. len_lia. }
  rewrite Hu, entries_Set.
  destruct (decide (s' = s ∧ f' = f ∧ in_range (a + (i + 1)) (len vs) x)) as [(->&->&Hr)|N1].
  - rewrite decide_True by (unfold in_range in *; len_lia).
    unfold in_range in Hr. replace (Z.to_nat (x - (a + i))) with (S (Z.to_nat (x - (a + (i + 1)))))
      by lia. done.
  - destruct (decide (RegKey s f (a + i) = RegKey s' f' x)) as [E|N2].
    + apply RegKey_inj in E as (<-&<-&<-); [|lia..].
      rewrite decide_True by (unfold in_range; len_lia).
      by replace (Z.to_nat _) with 0%nat by lia.
    + rewrite decide_False; [done|]. intros (->&->&Hr). unfold in_range in *.
      destruct (decide (x = a + i)) as [->|]; [done|]. apply N1. split_and!; [done..| |len_lia]. lia.
Qed.

(** The addresses a range loop visits are the range, in order. *)
Lemma range_index a q :
  is_u16 a → is_u16 q → a + q ≤ 65536 →
  Forall (λ i, u16 (a + i) = a + i ∧ 0 ≤ i < q) (seqZ 0 q).
Proof.
  unfold is_u16. intros. apply Forall_forall. intros i Hi. apply elem_of_seqZ in Hi.
  split; [apply u16_id; unfold is_u16; lia|lia].
Qed.

Lemma delete_all_lookup c (g : Z → string) l k :
  entries (foldl (λ c i, Delete c (g i)) c l) !! k =
    if decide (k ∈ g <$> l) then None else entries c !! k.
Proof.
  revert c. induction l as [|i l IH]; intros c; cbn [foldl].
  { rewrite decide_False; [done|]. cbn. set_solver. }
  rewrite IH, entries_Delete. cbn. repeat case_decide; set_solver.
Qed.

Lemma delete_all_ttl c (g : Z → string) l :
  defaultTTL (foldl (λ c i, Delete c (g i)) c l) = defaultTTL c.
Proof. revert c. induction l; intros c; cbn; [done|]. by rewrite IHl. Qed.

Lemma DeleteRange_lookup c s f a q s' f' x :
  valid_range s f a q → valid_range s' f' x 1 →
  entries (DeleteRange c s f a q) !! RegKey s' f' x =
    if decide (s' = s ∧ f' = f ∧ in_range a q x) then None
    else entries c !! RegKey s' f' x.
Proof.
  intros (Hs&Hf&Ha&Hq&Hl) (Hs'&Hf'&Hx&_&_). unfold DeleteRange.
  rewrite delete_all_lookup, u16_range_seqZ by done.
  pose proof (range_index a q Ha Hq Hl) as Hi. rewrite Forall_forall in Hi.
  destruct (decide (s' = s ∧ f' = f ∧ in_range a q x)) as [(->&->&Hr)|N].
  - rewrite decide_True; [done|]. apply list_elem_of_fmap.
    assert (x - a ∈ seqZ 0 q) as Hin by (apply elem_of_seqZ; unfold in_range in Hr; lia).
    exists (x - a). split; [|done]. rewrite (proj1 (Hi _ Hin)). f_equal. lia.
  - rewrite decide_False; [done|]. intros (i & E & Hin)%list_elem_of_fmap.
    rewrite (proj1 (Hi _ Hin)) in E. apply elem_of_seqZ in Hin. unfold is_u8, is_u16 in *.
    apply RegKey_inj in E as (->&->&->); [|lia..]. apply N. unfold in_range. lia.
Qed.

Lemma mapM_range {A} (g h : Z → option A) a q :
  is_u16 a → is_u16 q → a + q ≤ 65536 →
  (∀ i, 0 ≤ i < q → u16 (a + i) = a + i → g i = h i) →
  mapM g (u16_range q) = mapM h (seqZ 0 q).
Proof.
  intros Ha Hq Hl Hgh. rewrite u16_range_seqZ by done. apply Forall_mapM_ext.
  eapply Forall_impl; [by apply (range_index a q)|]. intros i [? ?]. by apply Hgh.
Qed.

#[export] Instance Cache_RangeStoreLaws : RangeStoreLaws Cache.
Proof.
  split; cbn [rs_entry rs_ttl rs_GetRange rs_GetRangeStale rs_SetRange rs_DeleteRange
    Cache_RangeStore].
  - intros c now s f a q (_&_&?&?&?). unfold GetRange. case_decide; [done|].
    apply (mapM_range _ _ a); [done..|]. intros i _ ->. unfold Get, fresh_data.
    by destruct (entries c !! _).
  - intros c s f a q (_&_&?&?&?). unfold GetRangeStale. case_decide; [done|].
    apply (mapM_range _ _ a); [done..|]. intros i _ ->. unfold GetStale.
    by destruct (entries c !! _).
  - intros c now s f a vs i v (?&?&?&?&?) Hi. apply lookup_lt_Some in Hi as Hlt.
    unfold is_u8, is_u16 in *. unfold SetRange. rewrite set_range_lookup by len_lia.
    rewrite decide_True by (unfold in_range; len_lia).
    replace (Z.to_nat _) with i by lia. by rewrite Hi.
  - intros c now s f a vs s' f' x (?&?&?&?&?) (?&?&?&?&?) N. unfold is_u8, is_u16 in *.
    unfold SetRange. rewrite set_range_lookup by (lia || len_lia).
    rewrite decide_False; [done|]. intros (?&?&?). apply N. split_and!; [done..|].
    unfold in_range in *. lia.
  - intros c s f a q x Hv Hr. rewrite DeleteRange_lookup; [by rewrite decide_True|done|].
    destruct Hv as (?&?&?&?&?). unfold valid_range, in_range, is_u16 in *.
    split_and!; done || lia.
  - intros c s f a q s' f' x Hv Hx N. rewrite DeleteRange_lookup by done.
    by rewrite decide_False.
Qed.

(** * Lemmas for the clients of the interface *)

Section Store.
Context {C : Type} `{RangeStoreLaws C}.

Lemma GetRange_lookup c now s f a q vs i v :
  valid_range s f a q → rs_GetRange c now s f a q = Some vs → vs !! i = Some v →
  ∃ e, rs_entry c s f (a + Z.of_nat i) = Some e ∧
       IsExpired e (now (Z.of_nat i)) = false ∧ v = entry_Data e.
Proof.
  intros Hv Hg Hi. rewrite rs_GetRange_spec in Hg by done. case_decide; [done|].
  apply mapM_Some_1 in Hg.
  destruct (Forall2_lookup_r _ _ _ _ _ Hg Hi) as (j & Hj & Hf).
  apply lookup_seqZ in Hj as [-> _]. cbn in Hf.
  destruct (rs_entry c s f (a + (0 + Z.of_nat i))) as [e|] eqn:E; [|done].
  exists e. split; [by rewrite <- E|]. cbn in Hf. unfold fresh_data in Hf.
  destruct (IsExpired e _) eqn:X; [done|]. rewrite Z.add_0_l in X. split; congruence.
Qed.

Lemma GetRangeStale_lookup c s f a q vs i v :
  valid_range s f a q → rs_GetRangeStale c s f a q = Some vs → vs !! i = Some v →
  ∃ e, rs_entry c s f (a + Z.of_nat i) = Some e ∧ v = entry_Data e.
Proof.
  intros Hv Hg Hi. rewrite rs_GetRangeStale_spec in Hg by done. case_decide; [done|].
  apply mapM_Some_1 in Hg.
  destruct (Forall2_lookup_r _ _ _ _ _ Hg Hi) as (j & Hj & Hf).
  apply lookup_seqZ in Hj as [-> _]. apply fmap_Some in Hf as (e & ? & ->). eauto.
Qed.

Lemma GetRange_length c now s f a q vs :
  valid_range s f a q → rs_GetRange c now s f a q = Some vs → len vs = q.
Proof.
  intros Hv Hg. rewrite rs_GetRange_spec in Hg by done. case_decide; [done|].
  apply length_mapM in Hg. rewrite length_seqZ in Hg. unfold len.
  destruct Hv as (_&_&_&[??]&_). lia.
Qed.

Lemma GetRangeStale_length c s f a q vs :
  valid_range s f a q → rs_GetRangeStale c s f a q = Some vs → len vs = q.
Proof.
  intros Hv Hg. rewrite rs_GetRangeStale_spec in Hg by done. case_decide; [done|].
  apply length_mapM in Hg. rewrite length_seqZ in Hg. unfold len.
  destruct Hv as (_&_&_&[??]&_). lia.
Qed.

Lemma GetRange_intro c now s f a q vs :
  valid_range s f a q → len vs = q → q ≠ 0 →
  (∀ i v, vs !! i = Some v → ∃ e, rs_entry c s f (a + Z.of_nat i) = Some e ∧
     IsExpired e (now (Z.of_nat i)) = false ∧ v = entry_Data e) →
  rs_GetRange c now s f a q = Some vs.
Proof.
  intros Hv Hl Hq Hall. rewrite rs_GetRange_spec, decide_False by done.
  apply mapM_Some_2, Forall2_same_length_lookup_2.
  { rewrite length_seqZ. unfold len in Hl. lia. }
  intros i x v Hx Hi. apply lookup_seqZ in Hx as [-> _].
  destruct (Hall i v Hi) as (e & He & Hex & ->). rewrite Z.add_0_l, He. cbn.
  unfold fresh_data. by rewrite Hex.
Qed.

Lemma GetRangeStale_intro c s f a q vs :
  valid_range s f a q → len vs = q → q ≠ 0 →
  (∀ i v, vs !! i = Some v → ∃ e, rs_entry c s f (a + Z.of_nat i) = Some e ∧
     v = entry_Data e) →
  rs_GetRangeStale c s f a q = Some vs.
Proof.
  intros Hv Hl Hq Hall. rewrite rs_GetRangeStale_spec, decide_False by done.
  apply mapM_Some_2, Forall2_same_length_lookup_2.
  { rewrite length_seqZ. unfold len in Hl. lia. }
  intros i x v Hx Hi. apply lookup_seqZ in Hx as [-> _].
  destruct (Hall i v Hi) as (e & He & ->). by rewrite Z.add_0_l, He.
Qed.
End Store.

Lemma IsExpired_mono e t t' : t ≤ t' → IsExpired e t = true → IsExpired e t' = true.
Proof. unfold IsExpired. rewrite !bool_decide_eq_true. unfold time_Sub. lia. Qed.

Lemma cleanup_lookup c now k :
  entries (cleanupOnce c now) !! k =
    match entries c !! k with
    | Some e => if negb (keepStale c) && IsExpired e (now k) then None else Some e
    | None => None
    end.
Proof.
  unfold cleanupOnce. destruct (keepStale c); cbn; [by destruct (entries c !! k)|].
  destruct (entries c !! k) as [e|] eqn:E.
  - destruct (IsExpired e (now k)) eqn:X.
    + apply map_lookup_filter_None. right. intros e' ?. simplify_eq. cbn. by rewrite X.
    + by apply map_lookup_filter_Some.
  - apply map_lookup_filter_None. by left.
Qed.

(** * Properties *)

(** C31 Cache keys never collide: two registers with the same key string are the
    same slave, function code and address, and two coalescing keys are equal
    only for the same generation and the same range. *)
Theorem keys_injective (g s f a q g' s' f' a' q' : Z)
    (Hpos : Forall (Z.le 0) [g; s; f; a; q; g'; s'; f'; a'; q']) :
  (RegKey s f a = RegKey s' f' a' ↔ s = s' ∧ f = f' ∧ a = a') ∧
  (fmt_d g +:+ ":" +:+ RangeKey s f a q = fmt_d g' +:+ ":" +:+ RangeKey s' f' a' q' ↔
     g = g' ∧ s = s' ∧ f = f' ∧ a = a' ∧ q = q').
Proof.
  repeat match goal with H : Forall _ (_ :: _) |- _ => apply Forall_cons in H as [? H] end.
  split; split.
  - by apply RegKey_inj.
  - by intros (-> & -> & ->).
  - intros E. apply no_colon_split in E as [?%fmt_d_inj E]; auto with mb.
    apply RangeKey_inj in E as (?&?&?&?); auto.
  - by intros (-> & -> & -> & -> & ->).
Qed.

Example keys_injective_witness : RegKey 1 3 11 ≠ RegKey 1 31 1.
Proof.
  intros E. apply (proj1 (keys_injective 0 1 3 11 0 0 1 31 1 0
    ltac:(repeat constructor; lia))) in E. lia.
Defined.

(** C30 A range lookup hits exactly when it can: on a non-empty range inside the
    address space it returns one value per register if and only if every
    register has an entry that is not expired when its turn comes, and the
    values are the cached data in address order. *)
Theorem GetRange_hit_iff (c : Cache) (now : Z → Z) (s f a q : Z) (vs : list (list Z))
    (Hv : valid_range s f a q) :
  GetRange c now s f a q = Some vs ↔
  q ≠ 0 ∧ len vs = q ∧
  ∀ i v, vs !! i = Some v → ∃ e,
    entries c !! RegKey s f (a + Z.of_nat i) = Some e ∧
    IsExpired e (now (Z.of_nat i)) = false ∧ v = entry_Data e.
Proof.
  split.
  - intros Hg. split_and!.
    + intros ->. by unfold GetRange in Hg.
    + exact (GetRange_length c now s f a q vs Hv Hg).
    + intros i v. exact (GetRange_lookup c now s f a q vs i v Hv Hg).
  - intros (Hq & Hl & Hall). exact (GetRange_intro c now s f a q vs Hv Hl Hq Hall).
Qed.

Example GetRange_hit_iff_witness :
  let c := SetRange (New (10 * second) false) 0 1 3 100 [[0; 1]; [0; 2]] in
  GetRange c (λ _, 5 * second) 1 3 100 2 = Some [[0; 1]; [0; 2]] ∧
  ¬ (∃ vs, GetRange c (λ _, 5 * second) 1 3 100 3 = Some vs ∧ len vs = 2).
Proof.
  intros c. split; [by vm_compute|]. intros (vs & Hg & Hl).
  apply GetRange_hit_iff in Hg as (_ & Hl' & _); [lia|].
  unfold valid_range, is_u8, is_u16. lia.
Defined.

(** Lookups of a range depend on the entries of its registers only. *)
Lemma GetRange_ext c c' now s f a q :
  valid_range s f a q →
  (∀ x, in_range a q x → entries c !! RegKey s f x = entries c' !! RegKey s f x) →
  GetRange c now s f a q = GetRange c' now s f a q ∧
  GetRangeStale c s f a q = GetRangeStale c' s f a q.
Proof.
  intros Hv He. pose proof Hv as (_ & _ & _ & Hq & _).
  assert (Hs : ∀ i, i ∈ seqZ 0 q → entries c !! RegKey s f (a + i) = entries c' !! RegKey s f (a + i)).
  { intros i Hi%elem_of_seqZ. apply He. unfold in_range. lia. }
  split.
  - change (rs_GetRange c now s f a q = rs_GetRange c' now s f a q).
    rewrite !rs_GetRange_spec by done. case_decide; [done|].
    apply Forall_mapM_ext, Forall_forall. intros i Hi. cbn. by rewrite (Hs i Hi).
  - change (rs_GetRangeStale c s f a q = rs_GetRangeStale c' s f a q).
    rewrite !rs_GetRangeStale_spec by done. case_decide; [done|].
    apply Forall_mapM_ext, Forall_forall. intros i Hi. cbn. by rewrite (Hs i Hi).
Qed.

(** A range with a missing entry misses, fresh or stale. *)
Lemma GetRange_missing c now s f a q x :
  valid_range s f a q → in_range a q x → entries c !! RegKey s f x = None →
  GetRange c now s f a q = None ∧ GetRangeStale c s f a q = None.
Proof.
  intros Hv Hx He. split.
  - destruct (GetRange c now s f a q) as [vs|] eqn:Hg; [|done].
    pose proof (@GetRange_length Cache _ Cache_RangeStoreLaws c now s f a q vs Hv Hg) as Hl.
    destruct (lookup_lt_is_Some_2 vs (Z.to_nat (x - a))) as [v Hi]; [unfold in_range in Hx; len_lia|].
    destruct (@GetRange_lookup Cache _ Cache_RangeStoreLaws c now s f a q vs _ v Hv Hg Hi) as (e & He' & _). cbn in He'.
    replace (a + Z.of_nat (Z.to_nat (x - a))) with x in He' by (unfold in_range in Hx; lia). congruence.
  - destruct (GetRangeStale c s f a q) as [vs|] eqn:Hg; [|done].
    pose proof (@GetRangeStale_length Cache _ Cache_RangeStoreLaws c s f a q vs Hv Hg) as Hl.
    destruct (lookup_lt_is_Some_2 vs (Z.to_nat (x - a))) as [v Hi]; [unfold in_range in Hx; len_lia|].
    destruct (@GetRangeStale_lookup Cache _ Cache_RangeStoreLaws c s f a q vs _ v Hv Hg Hi) as (e & He' & _). cbn in He'.
    replace (a + Z.of_nat (Z.to_nat (x - a))) with x in He' by (unfold in_range in Hx; lia). congruence.
Qed.

(** Two ranges share a register. *)
Definition overlap (s f a q s' f' a' q' : Z) : Prop :=
  s' = s ∧ f' = f ∧ a' < a + q ∧ a < a' + q' ∧ 0 < q ∧ 0 < q'.

(** The entry of a register of a range just stored. *)
Lemma SetRange_entry c t s f a vs k v :
  valid_range s f a (len vs) → vs !! k = Some v →
  entries (SetRange c t s f a vs) !! RegKey s f (a + Z.of_nat k) =
    Some {| entry_Data := v; entry_Timestamp := t; entry_TTL := defaultTTL c |}.
Proof. apply (@rs_SetRange_in Cache _ Cache_RangeStoreLaws c t s f a vs k v). Qed.

(** A range just stored, whole or in part, under the two lookups. *)
Lemma SetRange_sub c t s f a vs now i n :
  valid_range s f a (len vs) → is_i64 (defaultTTL c) →
  0 ≤ i → 1 ≤ n → i + n ≤ len vs →
  let c' := SetRange c t s f a vs in
  let part := take (Z.to_nat n) (drop (Z.to_nat i) vs) in
  ((∀ j, now j - t ≤ defaultTTL c) → GetRange c' now s f (a + i) n = Some part) ∧
  (now 0 - t > defaultTTL c → defaultTTL c < max_i64 → GetRange c' now s f (a + i) n = None) ∧
  GetRangeStale c' s f (a + i) n = Some part.
Proof.
  intros Hv Httl Hi Hn Hin c' part. pose proof Hv as (?&?&[??]&[??]&?).
  assert (Hv' : valid_range s f (a + i) n) by (unfold valid_range, is_u16; split_and!; done || lia).
  assert (Hpart : len part = n) by (unfold part; len_lia).
  assert (Hent : ∀ k v, part !! k = Some v → entries c' !! RegKey s f (a + i + Z.of_nat k) =
      Some {| entry_Data := v; entry_Timestamp := t; entry_TTL := defaultTTL c |}).
  { intros k v Hk. unfold part in Hk. rewrite lookup_take in Hk. case_decide; [|done].
    rewrite lookup_drop in Hk. rewrite <- (SetRange_entry c t s f a vs _ v Hv Hk). do 2 f_equal. lia. }
  assert (Hexp : ∀ v j, IsExpired {| entry_Data := v; entry_Timestamp := t;
      entry_TTL := defaultTTL c |} j = bool_decide (j - t > defaultTTL c ∧ defaultTTL c < max_i64)).
  { intros v j. unfold IsExpired. cbn. apply bool_decide_ext. by apply time_Sub_gt. }
  split_and!.
  - intros Hnow. refine (@GetRange_intro Cache _ Cache_RangeStoreLaws c' now s f (a + i) n part Hv' Hpart _ _);
      [lia|]. intros k v Hk.
    eexists. split; [by apply Hent|]. split; [|done].
    rewrite Hexp, bool_decide_false by (specialize (Hnow (Z.of_nat k)); lia). done.
  - intros Hnow Hm. destruct (GetRange c' now s f (a + i) n) as [ws|] eqn:Hg; [|done].
    pose proof (@GetRange_length Cache _ Cache_RangeStoreLaws c' now s f (a + i) n ws Hv' Hg) as Hl. destruct ws as [|w ws]; [len_lia|].
    destruct (@GetRange_lookup Cache _ Cache_RangeStoreLaws c' now s f (a + i) n (w :: ws) 0 w Hv' Hg eq_refl) as (e & He & Hx & _).
    destruct (lookup_lt_is_Some_2 part 0) as [v0 Hv0]; [len_lia|].
    cbn in He. rewrite (Hent 0%nat v0 Hv0) in He. simplify_eq. rewrite Hexp in Hx.
    by rewrite bool_decide_true in Hx.
  - refine (@GetRangeStale_intro Cache _ Cache_RangeStoreLaws c' s f (a + i) n part Hv' Hpart _ _); [lia|]. intros k v Hk.
    eexists. split; [exact (Hent k v Hk)|done].
Qed.

(** C29 What is stored is what is served, and nothing else changes.  After
    [SetRange] at time [t] a lookup of the range or of any part of it returns
    exactly the stored values of its registers as long as the time-to-live has
    not passed at any of its clock readings, misses once it has passed at the
    first one, and is still answered by the stale lookup; lookups of a range
    that shares no register with it, fresh or stale, answer as before.
    [DeleteRange] makes every lookup that overlaps the range miss and leaves
    the others as they were. *)
Theorem SetRange_GetRange (c : Cache) (t s f a : Z) (vs : list (list Z)) (now : Z → Z)
    (Hv : valid_range s f a (len vs)) (Httl : is_i64 (defaultTTL c)) :
  let c' := SetRange c t s f a vs in
  (∀ i n, 0 ≤ i → 1 ≤ n → i + n ≤ len vs →
     let part := take (Z.to_nat n) (drop (Z.to_nat i) vs) in
     ((∀ j, now j - t ≤ defaultTTL c) → GetRange c' now s f (a + i) n = Some part) ∧
     (now 0 - t > defaultTTL c → defaultTTL c < max_i64 → GetRange c' now s f (a + i) n = None) ∧
     GetRangeStale c' s f (a + i) n = Some part) ∧
  (∀ s' f' a' q', valid_range s' f' a' q' →
     if decide (overlap s f a (len vs) s' f' a' q')
     then GetRange (DeleteRange c s f a (len vs)) now s' f' a' q' = None ∧
          GetRangeStale (DeleteRange c s f a (len vs)) s' f' a' q' = None
     else (GetRange c' now s' f' a' q' = GetRange c now s' f' a' q' ∧
           GetRangeStale c' s' f' a' q' = GetRangeStale c s' f' a' q') ∧
          (GetRange (DeleteRange c s f a (len vs)) now s' f' a' q' = GetRange c now s' f' a' q' ∧
           GetRangeStale (DeleteRange c s f a (len vs)) s' f' a' q' = GetRangeStale c s' f' a' q')).
Proof.
  intros c'. split; [intros i n ? ? ?; by apply SetRange_sub|].
  intros s' f' a' q' Hv'. pose proof Hv' as (?&?&[??]&[??]&?). case_decide as Ho.
  - destruct Ho as (-> & -> & ? & ? & ? & ?).
    apply (GetRange_missing _ _ _ _ _ _ (Z.max a a')); [done|unfold in_range; lia|].
    apply (@rs_DeleteRange_in Cache _ Cache_RangeStoreLaws c s f a (len vs) (Z.max a a') Hv). unfold in_range. lia.
  - assert (Hx : ∀ x, in_range a' q' x →
      valid_range s' f' x 1 ∧ ¬ (s' = s ∧ f' = f ∧ in_range a (len vs) x)).
    { intros x Hx. unfold in_range in *. split; [unfold valid_range, is_u16; split_and!; done || lia|].
      intros (-> & -> & ?). apply Ho. unfold overlap. lia. }
    split; (apply GetRange_ext; [done|]); intros x [Hv1 Hout]%Hx.
    + exact (@rs_SetRange_out Cache _ Cache_RangeStoreLaws c t s f a vs s' f' x Hv Hv1 Hout).
    + exact (@rs_DeleteRange_out Cache _ Cache_RangeStoreLaws c s f a (len vs) s' f' x Hv Hv1 Hout).
Qed.

(** Two registers stored over an older one, read in part, beside and after. *)
Example SetRange_GetRange_witness :
  let c := SetRange (New (10 * second) true) 0 1 3 102 [[0; 9]] in
  let c' := SetRange c second 1 3 100 [[0; 1]; [0; 2]] in
  GetRange c' (λ _, 10 * second) 1 3 101 1 = Some [[0; 2]] ∧
  GetRange c' (λ _, 11 * second + 1) 1 3 100 2 = None ∧
  GetRangeStale c' 1 3 100 2 = Some [[0; 1]; [0; 2]] ∧
  GetRange c' (λ _, 10 * second) 1 3 102 1 = GetRange c (λ _, 10 * second) 1 3 102 1 ∧
  GetRange (DeleteRange c 1 3 100 2) (λ _, 10 * second) 1 3 101 2 = None.
Proof.
  intros c c'.
  assert (Hv : valid_range 1 3 100 (len [[0; 1]; [0; 2]]))
    by (unfold valid_range, is_u8, is_u16, len; cbn [length]; lia).
  assert (Ht : is_i64 (defaultTTL c)) by (split; vm_compute; discriminate).
  pose proof (SetRange_GetRange c second 1 3 100 [[0; 1]; [0; 2]] (λ _, 10 * second) Hv Ht) as [Hin Hout].
  pose proof (SetRange_GetRange c second 1 3 100 [[0; 1]; [0; 2]] (λ _, 11 * second + 1) Hv Ht) as [Hlate _].
  split_and!.
  - apply (Hin 1 1); vm_compute; congruence.
  - by apply (Hlate 0 2).
  - by apply (Hin 0 2).
  - assert (H1 : valid_range 1 3 102 1) by (unfold valid_range, is_u8, is_u16; lia).
    specialize (Hout 1 3 102 1 H1). rewrite decide_False in Hout; [apply Hout|].
    unfold overlap, len. cbn [length]. lia.
  - assert (H2 : valid_range 1 3 101 2) by (unfold valid_range, is_u8, is_u16; lia).
    specialize (Hout 1 3 101 2 H2). rewrite decide_True in Hout; [apply Hout|].
    unfold overlap, len. cbn [length]. lia.
Defined.

(** Cleanup is invisible to fresh lookups and respects stale serving: it
    never changes the result of a later [Get], with stale serving enabled it
    changes nothing, and without it no entry that was expired when visited
    remains, so that [GetStale] then answers only what was fresh. *)
Theorem cleanupOnce_correct (c : Cache) (now : string → Z) (k : string) (t : Z)
    (Hmono : now k ≤ t) :
  Get (cleanupOnce c now) t k = Get c t k ∧
  (keepStale c = true → cleanupOnce c now = c) ∧
  (keepStale c = false → GetStale (cleanupOnce c now) k = Get c (now k) k).
Proof.
  unfold Get, GetStale. rewrite !cleanup_lookup. split_and!.
  - destruct (entries c !! k) as [e|]; [|done]. destruct (keepStale c); [done|]. cbn.
    destruct (IsExpired e (now k)) eqn:X; [|done]. by rewrite (IsExpired_mono e _ _ Hmono X).
  - unfold cleanupOnce. by intros ->.
  - intros ->. destruct (entries c !! k) as [e|]; [|done]. cbn. by destruct (IsExpired e _).
Qed.

Example cleanupOnce_correct_witness :
  let c := Set_ (New 10 false) 0 "1:3:5" [0; 7] in
  Get (cleanupOnce c (λ _, 8)) 9 "1:3:5" = Some [0; 7] ∧
  GetStale (cleanupOnce c (λ _, 11)) "1:3:5" = None.
Proof.
  intros c. split.
  - exact (proj1 (cleanupOnce_correct c (λ _, 8) "1:3:5" 9 ltac:(lia))).
  - exact (proj2 (proj2 (cleanupOnce_correct c (λ _, 11) "1:3:5" 11 ltac:(lia))) eq_refl).
Defined.
