(* ===== verification/Codec.v ===== *)
(** Response codecs: read responses taken apart into per-register values and
    reassembled from them, and locally built write responses
    (internal/proxy/proxy.go and the response builders of
    internal/modbus/client.go).  Offsets are computed in [uint16] and every
    index goes through the checked operations of [Prelude]. *)

From stdpp Require Import base list numbers strings sets.
From S2P Require Import Prelude Request.

Definition coilOn : list Z := [1].
Definition coilOff : list Z := [0].

(** * Decomposition *)

(** The register loop of [decomposeResponse] over the indices still to visit;
    [None] is the early [return nil]. *)
Fixpoint decompose_words (payload : list Z) (idx : list Z) : go (option (list (list Z))) :=
  match idx with
  | [] => Ret (Some [])
  | i :: idx =>
      let offset := u16 (i * 2) in
      if decide (u16 (offset + 2) > len payload) then Ret None
      else
        reg ← payload @[ offset ⋯ u16 (offset + 2) ];
        rest ← decompose_words payload idx;
        Ret (match rest with Some vs => Some (reg :: vs) | None => None end)
  end.

Fixpoint decompose_coils (payload : list Z) (idx : list Z) : go (option (list (list Z))) :=
  match idx with
  | [] => Ret (Some [])
  | i :: idx =>
      let byteIdx := i / 8 in
      let bitIdx := i mod 8 in
      if decide (byteIdx >= len payload) then Ret None
      else
        b ← payload @[ byteIdx ];
        let v := if decide (Z.land b (u8 (Z.shiftl 1 bitIdx)) ≠ 0) then coilOn else coilOff in
        rest ← decompose_coils payload idx;
        Ret (match rest with Some vs => Some (v :: vs) | None => None end)
  end.

Definition decomposeResponse (functionCode quantity : Z) (data : list Z) :
    go (option (list (list Z))) :=
  if decide (len data < 2) then Ret None
  else
    payload ← go_from data 2;
    if is_word_read functionCode then decompose_words payload (u16_range quantity)
    else if is_bit_read functionCode then decompose_coils payload (u16_range quantity)
    else Ret None.

(** * Assembly *)

(** [resp := make([]byte, 2+byteCount)] with its two header bytes. *)
Definition response_buffer (functionCode byteCount : Z) : go (list Z) :=
  resp ← go_update (replicate (Z.to_nat (u16 (2 + byteCount))) 0) 0 functionCode;
  go_update resp 1 (u8 byteCount).

Fixpoint assemble_words (resp : list Z) (i : Z) (values : list (list Z)) : go (list Z) :=
  match values with
  | [] => Ret resp
  | v :: values =>
      resp ← (if decide (len v >= 2) then
                v0 ← v @[ 0 ]; resp ← go_update resp (2 + i * 2) v0;
                v1 ← v @[ 1 ]; go_update resp (2 + i * 2 + 1) v1
              else Ret resp);
      assemble_words resp (i + 1) values
  end.

Fixpoint assemble_coils (resp : list Z) (i : Z) (values : list (list Z)) : go (list Z) :=
  match values with
  | [] => Ret resp
  | v :: values =>
      resp ← (match v with
              | v0 :: _ =>
                  if decide (v0 ≠ 0) then
                    b ← resp @[ 2 + i / 8 ];
                    go_update resp (2 + i / 8) (Z.lor b (u8 (Z.shiftl 1 (i mod 8))))
                  else Ret resp
              | [] => Ret resp
              end);
      assemble_coils resp (i + 1) values
  end.

Definition assembleResponse (functionCode quantity : Z) (values : list (list Z)) :
    go (list Z) :=
  if is_word_read functionCode then
    resp ← response_buffer functionCode (u16 (quantity * 2));
    assemble_words resp 0 values
  else if is_bit_read functionCode then
    resp ← response_buffer functionCode (u16 (quantity + 7) / 8);
    assemble_coils resp 0 values
  else Ret [].

(** * Locally built responses *)

(** [copy(resp[3:5], data[:2])] into a zeroed buffer, guarded by the length. *)
Definition first_two (data : list Z) : list Z :=
  if decide (len data >= 2) then take 2 data else [0; 0].

Definition buildFakeWriteResponse (req : Request) : list Z :=
  let fc := FunctionCode req in
  if decide (fc = FuncWriteSingleCoil ∨ fc = FuncWriteSingleRegister) then
    fc :: be_PutUint16 (Address req) ++ first_two (Data req)
  else if decide (fc = FuncWriteMultipleCoils ∨ fc = FuncWriteMultipleRegs) then
    fc :: be_PutUint16 (Address req) ++ be_PutUint16 (Quantity req)
  else [fc].

Definition buildReadResponse (funcCode : Z) (data : list Z) : list Z :=
  funcCode :: u8 (len data) :: data.

Definition buildWriteResponse (funcCode address : Z) (data : list Z) : list Z :=
  funcCode :: be_PutUint16 address ++ first_two data.

(** * Specification *)

(** Bit [j] of a packed bit string, least significant bit of each byte first. *)
Definition coil_bit (payload : list Z) (j : Z) : bool :=
  match payload !! Z.to_nat (j / 8) with
  | Some b => Z.testbit b (j mod 8)
  | None => false
  end.

(** The bytes a response to a read of [q] registers or bits carries. *)
Definition payload_size (fc q : Z) : Z := if is_word_read fc then 2 * q else (q + 7) / 8.

(** The value a payload holds for register or bit [i] of the range. *)
Definition payload_value (fc : Z) (payload : list Z) (i : Z) : list Z :=
  if is_word_read fc then take 2 (drop (Z.to_nat (2 * i)) payload)
  else [Z.b2z (coil_bit payload i)].

(** What the cache keeps of a payload: the bytes the request asks for, without
    the padding bits of the last byte of a coil response. *)
Definition kept_payload (fc q : Z) (payload : list Z) : list Z :=
  let kept := take (Z.to_nat (payload_size fc q)) payload in
  if is_word_read fc then kept
  else imap (λ k b, Z.land b (Z.ones (Z.min 8 (q - 8 * Z.of_nat k)))) kept.

(** The payload the protocol prescribes: of that size, with zero padding bits. *)
Definition exact_payload (fc q : Z) (payload : list Z) : Prop :=
  len payload = payload_size fc q ∧
  (is_word_read fc = false → ∀ j, q ≤ j → coil_bit payload j = false).

(** Whether cached data denotes a set coil. *)
Definition coil_set (v : list Z) : bool :=
  match v with v0 :: _ => bool_decide (v0 ≠ 0) | [] => false end.

(** * Lemmas: words *)

Lemma go_update_app {A} (pre post : list A) x y i :
  i = len pre → go_update (pre ++ x :: post) i y = Ret (pre ++ y :: post).
Proof.
  intros ->. rewrite go_update_ok by len_lia. unfold len. rewrite Nat2Z.id.
  by rewrite insert_app_r_alt, Nat.sub_diag by done.
Qed.

Lemma assemble_words_concat pre i vs :
  len pre = 2 + 2 * i → Forall (λ v, length v = 2%nat) vs →
  assemble_words (pre ++ replicate (2 * length vs) 0) i vs = Ret (pre ++ concat vs).
Proof.
  revert pre i. induction vs as [|v vs IH]; intros pre i Hl Hv.
  { cbn. by rewrite !app_nil_r. }
  apply Forall_cons in Hv as [Hv Hvs]. destruct v as [|a [|b []]]; try done.
  replace (2 * length ([a; b] :: vs))%nat with (2 + 2 * length vs)%nat by (cbn; lia).
  rewrite replicate_add. cbn [assemble_words replicate app].
  rewrite decide_True by done.
  rewrite (go_index_lookup _ 0 a), (go_index_lookup _ 1 b) by done. go_simpl.
  rewrite go_update_app by lia. go_simpl.
  replace (pre ++ a :: 0 :: replicate (2 * length vs) 0)
    with ((pre ++ [a]) ++ 0 :: replicate (2 * length vs) 0) by (by rewrite <- app_assoc).
  rewrite go_update_app by len_lia. go_simpl.
  replace ((pre ++ [a]) ++ b :: replicate (2 * length vs) 0)
    with ((pre ++ [a; b]) ++ replicate (2 * length vs) 0) by (by rewrite <- !app_assoc).
  rewrite IH by (done || len_lia). by rewrite <- app_assoc.
Qed.

Lemma response_buffer_ok fc n :
  0 ≤ n < 65534 →
  response_buffer fc n = Ret (fc :: u8 n :: replicate (Z.to_nat n) 0).
Proof.
  intros Hn. unfold response_buffer. rewrite u16_id by (unfold is_u16; lia).
  replace (Z.to_nat (2 + n)) with (2 + Z.to_nat n)%nat by lia.
  rewrite replicate_add. cbn [replicate app].
  rewrite go_update_ok by len_lia. go_simpl. by rewrite go_update_ok by len_lia.
Qed.

Lemma assemble_words_spec fc q vs :
  is_word_read fc = true → 0 ≤ q < 32767 → len vs = q →
  Forall (λ v, length v = 2%nat) vs →
  assembleResponse fc q vs = Ret (fc :: u8 (2 * q) :: concat vs).
Proof.
  intros Hw Hq Hl Hv. unfold assembleResponse. rewrite Hw.
  rewrite u16_id by (unfold is_u16; lia). rewrite response_buffer_ok by lia. go_simpl.
  replace (Z.to_nat (q * 2)) with (2 * length vs)%nat by (unfold len in *; lia).
  replace (q * 2) with (2 * q) by lia.
  exact (assemble_words_concat [fc; u8 (2 * q)] 0 vs eq_refl Hv).
Qed.

(** The word loop reads the two bytes at twice the index, or stops. *)
Lemma decompose_words_spec payload idx :
  Forall (λ i, 0 ≤ i < 32767) idx →
  decompose_words payload idx =
    Ret (if decide (Forall (λ i, 2 * i + 2 ≤ len payload) idx) then
           Some ((λ i, take 2 (drop (Z.to_nat (2 * i)) payload)) <$> idx)
         else None).
Proof.
  induction idx as [|i idx IH]; intros Hi; cbn [decompose_words]; [done|].
  apply Forall_cons in Hi as [Hi Hidx].
  rewrite (u16_id (i * 2)), u16_id by (unfold is_u16; lia). decide_goal.
  { rewrite decide_False; [done|]. intros [? _]%Forall_cons. lia. }
  rewrite go_slice_ok by lia. go_simpl. rewrite IH by done. go_simpl.
  replace (i * 2 + 2 - i * 2) with 2 by lia. replace (i * 2) with (2 * i) by lia.
  destruct (decide (Forall (λ i, 2 * i + 2 ≤ len payload) idx)).
  - rewrite decide_True by (apply Forall_cons; split; [lia|done]). done.
  - rewrite decide_False by (intros [_ ?]%Forall_cons; done). done.
Qed.

(** * Lemmas: coils *)

Lemma u8_bit j : 0 ≤ j < 8 → u8 (Z.shiftl 1 j) = 2 ^ j.
Proof.
  intros Hj. rewrite Z.shiftl_1_l. apply u8_id. unfold is_u8.
  split; [lia|]. apply Z.pow_lt_mono_r; lia.
Qed.

Lemma land_bit b j : 0 ≤ j → Z.land b (2 ^ j) ≠ 0 ↔ Z.testbit b j = true.
Proof.
  intros Hj. split.
  - intros Hn. destruct (Z.testbit b j) eqn:E; [done|]. destruct Hn.
    apply Z.bits_inj_0. intros n. rewrite Z.land_spec, Z.pow2_bits_eqb by done.
    destruct (Z.eqb_spec j n) as [->|]; [by rewrite E|by rewrite andb_false_r].
  - intros E H0. assert (Z.testbit (Z.land b (2 ^ j)) j = true) as H1.
    { by rewrite Z.land_spec, E, Z.pow2_bits_true. }
    by rewrite H0, Z.bits_0 in H1.
Qed.

Lemma coil_bit_lookup payload i b :
  0 ≤ i → payload !! Z.to_nat (i / 8) = Some b →
  coil_bit payload i = Z.testbit b (i mod 8).
Proof. intros ? Hb. unfold coil_bit. by rewrite Hb. Qed.

Lemma mod8 i : 0 ≤ i mod 8 < 8.
Proof. apply Z.mod_pos_bound. lia. Qed.

Lemma decompose_coils_spec payload idx :
  Forall (λ i, 0 ≤ i) idx →
  decompose_coils payload idx =
    Ret (if decide (Forall (λ i, i / 8 < len payload) idx) then
           Some ((λ i, [Z.b2z (coil_bit payload i)]) <$> idx)
         else None).
Proof.
  induction idx as [|i idx IH]; intros Hi; cbn [decompose_coils]; [done|].
  apply Forall_cons in Hi as [Hi Hidx]. decide_goal.
  { rewrite decide_False; [done|]. intros [? _]%Forall_cons. lia. }
  assert (0 ≤ i / 8) by (apply Z.div_pos; lia).
  destruct (go_index_ok payload (i / 8)) as (b & -> & Hb); [lia|]. go_simpl.
  rewrite IH by done. go_simpl. pose proof (mod8 i).
  assert (Hv : (if decide (Z.land b (u8 (Z.shiftl 1 (i mod 8))) ≠ 0) then coilOn else coilOff)
    = [Z.b2z (coil_bit payload i)]).
  { rewrite (coil_bit_lookup _ _ b), u8_bit by done. pose proof (land_bit b (i mod 8)).
    decide_goal; destruct (Z.testbit b (i mod 8)); done || naive_solver. }
  rewrite Hv. destruct (decide (Forall (λ i, i / 8 < len payload) idx)).
  - rewrite decide_True by (apply Forall_cons; split; [lia|done]). done.
  - rewrite decide_False by (intros [_ ?]%Forall_cons; done). done.
Qed.

(** Setting one bit of the response, past its two header bytes. *)
Lemma set_bit_ok body h0 h1 i :
  0 ≤ i → i / 8 < len body →
  ∃ b body', (h0 :: h1 :: body) @[ 2 + i / 8 ] = Ret b ∧
    go_update (h0 :: h1 :: body) (2 + i / 8) (Z.lor b (u8 (Z.shiftl 1 (i mod 8)))) =
      Ret (h0 :: h1 :: body') ∧
    length body' = length body ∧
    (Forall is_u8 body → Forall is_u8 body') ∧
    ∀ j, 0 ≤ j → coil_bit body' j = coil_bit body j || bool_decide (i = j).
Proof.
  intros Hi Hlt. assert (0 ≤ i / 8) by (apply Z.div_pos; lia). pose proof (mod8 i) as Hm.
  destruct (go_index_ok body (i / 8)) as (b & _ & Hb); [lia|].
  assert (Hn : Z.to_nat (2 + i / 8) = S (S (Z.to_nat (i / 8)))) by lia.
  exists b, (<[Z.to_nat (i / 8) := Z.lor b (2 ^ (i mod 8))]> body). split_and!.
  - apply go_index_lookup; [lia|]. by rewrite Hn.
  - rewrite go_update_ok by len_lia. by rewrite Hn, u8_bit.
  - by rewrite length_insert.
  - intros Hall. apply Forall_insert; [done|].
    pose proof (Forall_lookup_1 _ _ _ _ Hall Hb) as Hb8. unfold is_u8 in *.
    assert (0 ≤ Z.lor b (2 ^ (i mod 8))) by (apply Z.lor_nonneg; lia).
    split; [done|]. destruct (decide (Z.lor b (2 ^ (i mod 8)) = 0)) as [->|]; [lia|].
    apply Z.log2_lt_pow2; [lia|]. rewrite Z.log2_lor by lia.
    apply Z.max_lub_lt; [|rewrite Z.log2_pow2; lia].
    destruct (decide (b = 0)) as [->|]; [done|]. apply Z.log2_lt_pow2; lia.
  - intros j Hj. unfold coil_bit. assert (0 ≤ j / 8) by (apply Z.div_pos; lia).
    pose proof (mod8 j) as Hmj. pose proof (Z.div_mod i 8). pose proof (Z.div_mod j 8).
    destruct (decide (j / 8 = i / 8)) as [E|N].
    + rewrite E, list_lookup_insert_eq by (apply lookup_lt_Some in Hb; lia). rewrite Hb.
      rewrite Z.lor_spec, Z.pow2_bits_eqb by lia. f_equal.
      destruct (Z.eqb_spec (i mod 8) (j mod 8)); symmetry;
        [apply bool_decide_true|apply bool_decide_false]; lia.
    + rewrite list_lookup_insert_ne by lia.
      rewrite bool_decide_false, orb_false_r by (intros ->; done). done.
Qed.

Lemma assemble_coils_spec body h0 h1 i vs :
  0 ≤ i → i + len vs ≤ 8 * len body →
  ∃ body', assemble_coils (h0 :: h1 :: body) i vs = Ret (h0 :: h1 :: body') ∧
    length body' = length body ∧
    (Forall is_u8 body → Forall is_u8 body') ∧
    ∀ j, 0 ≤ j → coil_bit body' j = coil_bit body j ||
      (bool_decide (i ≤ j) && match vs !! Z.to_nat (j - i) with
                              | Some v => coil_set v | None => false end).
Proof.
  revert body i. induction vs as [|v vs IH]; intros body i Hi Hl.
  { exists body. split_and!; [done..|]. intros. cbn. by rewrite andb_false_r, orb_false_r. }
  cbn [assemble_coils].
  assert (Hstep : ∃ body1,
    (match v with
     | v0 :: _ =>
         if decide (v0 ≠ 0) then
           b ← (h0 :: h1 :: body) @[ 2 + i / 8 ];
           go_update (h0 :: h1 :: body) (2 + i / 8) (Z.lor b (u8 (Z.shiftl 1 (i mod 8))))
         else Ret (h0 :: h1 :: body)
     | [] => Ret (h0 :: h1 :: body)
     end) = Ret (h0 :: h1 :: body1) ∧ length body1 = length body ∧
    (Forall is_u8 body → Forall is_u8 body1) ∧
    ∀ j, 0 ≤ j → coil_bit body1 j = coil_bit body j || (bool_decide (i = j) && coil_set v)).
  { assert (Hsame : coil_set v = false → ∀ j, 0 ≤ j →
      coil_bit body j = coil_bit body j || (bool_decide (i = j) && coil_set v)).
    { intros -> j _. by rewrite andb_false_r, orb_false_r. }
    destruct v as [|v0 v]; [by exists body; eauto|]. decide_goal.
    - destruct (set_bit_ok body h0 h1 i) as (b & body1 & -> & Hu & ? & ? & Hb); [done| |].
      { apply Z.div_lt_upper_bound; len_lia. }
      go_simpl. exists body1. split_and!; [done..|]. intros j Hj. rewrite Hb by done.
      cbn [coil_set]. by rewrite (bool_decide_true (v0 ≠ 0)), andb_true_r.
    - exists body. split_and!; [done..|]. apply Hsame. cbn. by apply bool_decide_false. }
  destruct Hstep as (body1 & -> & Hl1 & H81 & Hb1). go_simpl.
  destruct (IH body1 (i + 1)) as (body' & -> & Hl' & H8' & Hb'); [lia|len_lia|].
  exists body'. split_and!; [done|congruence|tauto|]. intros j Hj. rewrite Hb', Hb1 by done.
  rewrite <- orb_assoc. f_equal. destruct (Z.compare_spec i j) as [->|Hlt|Hgt].
  - rewrite (bool_decide_true (j = j)), (bool_decide_true (j ≤ j)), bool_decide_false by lia.
    rewrite Z.sub_diag. cbn. by rewrite orb_false_r.
  - rewrite (bool_decide_false (i = j)), !bool_decide_true by lia. cbn [andb orb].
    by replace (Z.to_nat (j - i)) with (S (Z.to_nat (j - (i + 1)))) by lia.
  - by rewrite !bool_decide_false by lia.
Qed.

(** * Lemmas: the two directions together *)

(** The quantities validation lets through. *)
Definition read_quantity (fc q : Z) : Prop :=
  IsReadFunction fc = true ∧ 1 ≤ q ≤ 2000 ∧ (is_word_read fc = true → q ≤ 125).

(** A response to a read of [q] values from [fc] carries [value i] at [i]. *)
Definition carries (fc q : Z) (resp : list Z) (value : Z → list Z) : Prop :=
  ∃ payload, resp = buildReadResponse fc payload ∧ len payload = payload_size fc q ∧
    ∀ i, 0 ≤ i < q → payload_value fc payload i = value i.

(** The shape of one cached value. *)
Definition value_shape (fc : Z) (v : list Z) : Prop :=
  if is_word_read fc then length v = 2%nat else v = coilOn ∨ v = coilOff.

Lemma read_quantity_cases fc q :
  read_quantity fc q →
  (is_word_read fc = true ∧ 1 ≤ q ≤ 125) ∨
  (is_word_read fc = false ∧ is_bit_read fc = true ∧ 1 ≤ q ≤ 2000).
Proof.
  intros (Hr & Hq & Hw). rewrite IsReadFunction_split in Hr.
  destruct (is_word_read fc) eqn:E; [left; naive_solver lia|].
  rewrite orb_false_r in Hr. by right.
Qed.

Lemma payload_value_shape fc payload i q :
  read_quantity fc q → 0 ≤ i < q → payload_size fc q ≤ len payload →
  value_shape fc (payload_value fc payload i).
Proof.
  unfold value_shape, payload_value, payload_size.
  intros [[-> ?]|(-> & _ & ?)]%read_quantity_cases ??.
  - rewrite length_take, length_drop. len_lia.
  - destruct (coil_bit payload i); [by left|by right].
Qed.

Lemma decompose_spec fc q data :
  read_quantity fc q →
  decomposeResponse fc q data =
    Ret (if decide (2 ≤ len data ∧ payload_size fc q ≤ len data - 2) then
           Some (payload_value fc (drop 2 data) <$> seqZ 0 q)
         else None).
Proof.
  intros Hq. unfold decomposeResponse. decide_goal.
  { by rewrite decide_False by lia. }
  rewrite go_from_ok by lia. go_simpl.
  assert (Hlen : len (drop (Z.to_nat 2) data) = len data - 2) by len_lia.
  change (Z.to_nat 2) with 2%nat in *.
  unfold payload_size, payload_value.
  apply read_quantity_cases in Hq as [[-> Hq]|(-> & -> & Hq)];
    rewrite u16_range_seqZ by (unfold is_u16; lia).
  - rewrite decompose_words_spec
      by (apply Forall_forall; intros i Hi%elem_of_seqZ; lia).
    do 2 f_equal. apply decide_ext. rewrite Forall_forall. split.
    + intros Ha. specialize (Ha (q - 1)). rewrite elem_of_seqZ in Ha. lia.
    + intros ? i Hi%elem_of_seqZ. lia.
  - rewrite decompose_coils_spec
      by (apply Forall_forall; intros i Hi%elem_of_seqZ; lia).
    do 2 f_equal. apply decide_ext. rewrite Forall_forall. split.
    + intros Ha. specialize (Ha (q - 1)). rewrite elem_of_seqZ in Ha.
      assert ((q - 1) / 8 < len data - 2) by lia.
      pose proof (Z.div_mod (q - 1) 8). pose proof (mod8 (q - 1)).
      split; [lia|]. assert ((q + 7) / 8 < len data - 2 + 1); [|lia].
      apply Z.div_lt_upper_bound; lia.
    + intros ? i Hi%elem_of_seqZ. apply Z.div_lt_upper_bound; [lia|].
      pose proof (Z.div_mod (q + 7) 8). pose proof (mod8 (q + 7)). lia.
Qed.

Lemma concat_lookup2 (vs : list (list Z)) i v :
  Forall (λ v, length v = 2%nat) vs → vs !! i = Some v →
  take 2 (drop (2 * i) (concat vs)) = v.
Proof.
  intros Hv. revert i. induction Hv as [|w vs Hw Hvs IH]; intros i Hi; [done|].
  destruct w as [|a [|b []]]; try done. destruct i as [|i]; [by simplify_eq/=|].
  replace (2 * S i)%nat with (S (S (2 * i))) by lia. by apply IH.
Qed.

Lemma concat_length2 (vs : list (list Z)) :
  Forall (λ v, length v = 2%nat) vs → length (concat vs) = (2 * length vs)%nat.
Proof. induction 1 as [|v vs Hv _ IH]; cbn; [done|]. rewrite length_app. lia. Qed.

(** Two byte strings of the same length with the same bits are equal. *)
Lemma bytes_ext l l' :
  Forall is_u8 l → Forall is_u8 l' → length l = length l' →
  (∀ j, 0 ≤ j → coil_bit l j = coil_bit l' j) → l = l'.
Proof.
  intros H8 H8' Hl Hb. apply list_eq_same_length with (length l); [done..|].
  intros k b b' _ Hk Hk'. apply Z.bits_inj'. intros n Hn.
  pose proof (Forall_lookup_1 _ _ _ _ H8 Hk) as R.
  pose proof (Forall_lookup_1 _ _ _ _ H8' Hk') as R'. unfold is_u8 in *.
  destruct (decide (n < 8)).
  - specialize (Hb (8 * Z.of_nat k + n)). unfold coil_bit in Hb.
    replace (8 * Z.of_nat k + n) with (n + Z.of_nat k * 8) in Hb by lia.
    rewrite Z.div_add, Z.mod_add, Z.div_small, Z.mod_small, Z.add_0_l, Nat2Z.id in Hb by lia.
    rewrite Hk, Hk' in Hb. apply Hb. lia.
  - assert (Hz : ∀ x, 0 ≤ x < 2 ^ 8 → Z.testbit x n = false).
    { intros x Hx. destruct (decide (x = 0)) as [->|]; [by rewrite Z.bits_0|].
      apply Z.bits_above_log2; [lia|]. assert (Z.log2 x < 8); [|lia].
      apply Z.log2_lt_pow2; lia. }
    by rewrite !Hz.
Qed.

Lemma coil_bit_zeros n j : coil_bit (replicate n 0) j = false.
Proof.
  unfold coil_bit. destruct (replicate n 0 !! _) eqn:E; [|done].
  apply lookup_replicate in E as [-> _]. apply Z.bits_0.
Qed.

(** Assembling bits: the response has exactly the set bits of the values. *)
Lemma assemble_bits fc q vs :
  is_word_read fc = false → is_bit_read fc = true → 1 ≤ q ≤ 2000 → len vs = q →
  ∃ payload, assembleResponse fc q vs = Ret (buildReadResponse fc payload) ∧
    len payload = (q + 7) / 8 ∧ Forall is_u8 payload ∧
    ∀ j, 0 ≤ j → coil_bit payload j =
      match vs !! Z.to_nat j with Some v => coil_set v | None => false end.
Proof.
  intros Hw Hb Hq Hl. unfold assembleResponse. rewrite Hw, Hb.
  rewrite u16_id by (unfold is_u16; lia).
  pose proof (Z.div_mod (q + 7) 8). pose proof (mod8 (q + 7)).
  rewrite response_buffer_ok by lia. go_simpl.
  destruct (assemble_coils_spec (replicate (Z.to_nat ((q + 7) / 8)) 0) fc (u8 ((q + 7) / 8)) 0 vs)
    as (payload & -> & Hlp & H8 & Hbits); [lia|len_lia|].
  rewrite length_replicate in Hlp. assert (Hlen : len payload = (q + 7) / 8) by len_lia.
  exists payload. split_and!.
  - unfold buildReadResponse. by rewrite Hlen.
  - done.
  - apply H8, Forall_replicate. unfold is_u8. lia.
  - intros j Hj. rewrite Hbits, coil_bit_zeros, bool_decide_true by done. cbn.
    by rewrite Z.sub_0_r.
Qed.

Lemma assemble_carries fc q vs :
  read_quantity fc q → len vs = q → Forall (value_shape fc) vs →
  ∃ resp, assembleResponse fc q vs = Ret resp ∧
    carries fc q resp (λ i, default [] (vs !! Z.to_nat i)).
Proof.
  intros Hq Hl Hv. unfold carries, payload_size, payload_value, value_shape in *.
  apply read_quantity_cases in Hq as [[Hw Hq]|(Hw & Hb & Hq)]; rewrite Hw in *.
  - rewrite (assemble_words_spec fc q vs) by (done || lia). eexists. split; [done|].
    exists (concat vs). pose proof (concat_length2 vs Hv).
    assert (Hc : len (concat vs) = 2 * q) by len_lia. split_and!; [|done|].
    + unfold buildReadResponse. by rewrite Hc.
    + intros i Hi. destruct (lookup_lt_is_Some_2 vs (Z.to_nat i)) as [v Hvi]; [len_lia|].
      rewrite Hvi. replace (Z.to_nat (2 * i)) with (2 * Z.to_nat i)%nat by lia.
      by apply concat_lookup2.
  - destruct (assemble_bits fc q vs) as (payload & -> & Hlen & _ & Hbits); [done..|].
    eexists. split; [done|]. exists payload. split_and!; [done..|]. intros i Hi.
    rewrite Hbits by lia. destruct (lookup_lt_is_Some_2 vs (Z.to_nat i)) as [v Hvi]; [len_lia|].
    rewrite Hvi. by destruct (Forall_lookup_1 _ _ _ _ Hv Hvi) as [-> | ->].
Qed.

Lemma values_length {A} (f : Z → A) q : 0 ≤ q → len (f <$> seqZ 0 q) = q.
Proof. intros. unfold len. rewrite length_fmap, length_seqZ. lia. Qed.

Lemma concat_chunks (payload : list Z) k n :
  0 ≤ k →
  concat ((λ i, take 2 (drop (Z.to_nat (2 * i)) payload)) <$> seqZ k (Z.of_nat n)) =
    take (2 * n) (drop (Z.to_nat (2 * k)) payload).
Proof.
  revert k. induction n as [|n IH]; intros k Hk; [done|].
  rewrite seqZ_cons by lia. replace (Z.pred (Z.of_nat (S n))) with (Z.of_nat n) by lia.
  cbn [fmap list_fmap concat]. rewrite IH by lia.
  replace (2 * S n)%nat with (2 + 2 * n)%nat by lia. rewrite <- take_take_drop, drop_drop.
  by replace (Z.to_nat (2 * k) + 2)%nat with (Z.to_nat (2 * Z.succ k)) by lia.
Qed.

(** Assembly does not panic, whatever the cached values look like. *)
Lemma assemble_words_total resp i vs :
  0 ≤ i → 2 + 2 * (i + len vs) ≤ len resp → ∃ r, assemble_words resp i vs = Ret r.
Proof.
  revert resp i. induction vs as [|v vs IH]; intros resp i Hi Hl; cbn [assemble_words]; [eauto|].
  decide_goal; [|go_simpl; apply IH; len_lia].
  destruct (go_index_ok v 0) as (a & -> & _); [lia|]. go_simpl.
  rewrite go_update_ok by len_lia. go_simpl.
  destruct (go_index_ok v 1) as (b & -> & _); [lia|]. go_simpl.
  rewrite go_update_ok by len_lia. go_simpl. apply IH; len_lia.
Qed.

Lemma assemble_total fc q vs :
  read_quantity fc q → len vs = q → ∃ resp, assembleResponse fc q vs = Ret resp.
Proof.
  intros Hq Hl. apply read_quantity_cases in Hq as [[Hw Hq]|(Hw & Hb & Hq)].
  - unfold assembleResponse. rewrite Hw, u16_id, response_buffer_ok by (unfold is_u16; lia).
    go_simpl. apply assemble_words_total; [lia|]. len_lia.
  - destruct (assemble_bits fc q vs) as (payload & -> & _); [done..|]. eauto.
Qed.

#[export] Hint Resolve assemble_total : mb.

(** The bits of a kept coil payload are those of the coils asked for. *)
Lemma kept_bits fc q payload j :
  is_word_read fc = false → payload_size fc q ≤ len payload → 0 ≤ q → 0 ≤ j →
  coil_bit (kept_payload fc q payload) j = bool_decide (j < q) && coil_bit payload j.
Proof.
  intros Hw Hl Hq Hj. unfold kept_payload, payload_size in *. rewrite Hw in *.
  pose proof (Z.div_mod (q + 7) 8). pose proof (mod8 (q + 7)).
  pose proof (Z.div_mod j 8). pose proof (mod8 j) as Hm.
  assert (Hj8 : 0 ≤ j / 8) by (apply Z.div_pos; lia).
  unfold coil_bit. rewrite list_lookup_imap, lookup_take.
  destruct (decide (Z.to_nat (j / 8) < Z.to_nat ((q + 7) / 8))%nat).
  - destruct (payload !! Z.to_nat (j / 8)) as [b|] eqn:Hb; cbn; [|by rewrite andb_false_r].
    rewrite Z.land_spec, Z2Nat.id by lia. rewrite andb_comm. f_equal.
    destruct (decide (j < q)).
    + rewrite bool_decide_true, Z.ones_spec_low by lia. done.
    + rewrite bool_decide_false, Z.ones_spec_high by lia. done.
  - cbn. by rewrite bool_decide_false by lia.
Qed.

Lemma kept_length fc q payload :
  payload_size fc q ≤ len payload → 0 ≤ payload_size fc q →
  len (kept_payload fc q payload) = payload_size fc q.
Proof.
  intros Hl Hs. unfold kept_payload.
  destruct (is_word_read fc); [len_lia|]. unfold len. rewrite length_imap. len_lia.
Qed.

Lemma payload_size_pos fc q : read_quantity fc q → 0 ≤ payload_size fc q.
Proof.
  unfold payload_size. intros [[-> ?]|(-> & _ & ?)]%read_quantity_cases; [lia|].
  apply Z.div_pos; lia.
Qed.

Lemma kept_u8 fc q payload :
  is_word_read fc = false → 0 ≤ q → Forall is_u8 payload → Forall is_u8 (kept_payload fc q payload).
Proof.
  intros Hw Hq H8. unfold kept_payload. rewrite Hw. apply Forall_lookup_2.
  intros k x Hk. rewrite list_lookup_imap in Hk. apply fmap_Some in Hk as (b & Hb & ->).
  assert (Hk : is_u8 b) by (eapply Forall_lookup_1; [by apply Forall_take|exact Hb]).
  unfold is_u8 in *. split; [apply Z.land_nonneg; lia|].
  destruct (decide (Z.land b (Z.ones (Z.min 8 (q - 8 * Z.of_nat k))) = 0)) as [->|Hn]; [lia|].
  destruct (decide (q - 8 * Z.of_nat k < 0)) as [Hneg|Hneg].
  - rewrite Z.min_r in * by lia. rewrite Z.ones_equiv, Z.pow_neg_r in * by lia.
    cbn in *. rewrite Z.land_m1_r in *. lia.
  - rewrite Z.land_ones by lia.
    pose proof (Z.mod_le b (2 ^ Z.min 8 (q - 8 * Z.of_nat k))). lia.
Qed.

(** Keeping loses nothing exactly for the payloads the protocol prescribes. *)
Lemma kept_exact fc q payload :
  read_quantity fc q → payload_size fc q ≤ len payload → Forall is_u8 payload →
  kept_payload fc q payload = payload ↔ exact_payload fc q payload.
Proof.
  intros Hq Hl H8. pose proof (payload_size_pos fc q Hq) as Hs. unfold exact_payload. split.
  - intros E. rewrite <- E at 1. split; [by apply kept_length|]. intros Hw j Hj.
    destruct Hq as (_ & ? & _). rewrite <- E, kept_bits by (done || lia).
    by rewrite bool_decide_false by lia.
  - intros [Hlen Hpad]. destruct (is_word_read fc) eqn:Hw.
    { unfold kept_payload. rewrite Hw. apply take_ge. len_lia. }
    destruct Hq as (_ & ? & _). apply bytes_ext; [by apply kept_u8; [|lia|]|done| |].
    + pose proof (kept_length fc q payload). len_lia.
    + intros j Hj. rewrite kept_bits by (done || lia).
      case_bool_decide; [done|]. symmetry. apply Hpad; [done|lia].
Qed.

(** Taking a response apart and reassembling it gives back what was kept. *)
Lemma reassemble (fc q : Z) (payload : list Z)
    (Hq : read_quantity fc q) (Hlen : payload_size fc q ≤ len payload)
    (H8 : Forall is_u8 payload) :
  ∃ vs, decomposeResponse fc q (buildReadResponse fc payload) = Ret (Some vs) ∧
    assembleResponse fc q vs = Ret (buildReadResponse fc (kept_payload fc q payload)).
Proof.
  unfold buildReadResponse at 1. rewrite decompose_spec by done.
  rewrite decide_True by len_lia. change (drop 2 (fc :: u8 (len payload) :: payload)) with payload.
  eexists. split; [done|].
  pose proof (payload_size_pos fc q Hq) as Hs. pose proof (kept_length fc q payload Hlen Hs) as Hk.
  pose proof Hq as [[Hw Hr]|(Hw & Hb & Hr)]%read_quantity_cases.
  - assert (Hc : concat (payload_value fc payload <$> seqZ 0 q) = kept_payload fc q payload).
    { unfold payload_value, kept_payload, payload_size. rewrite Hw.
      replace (seqZ 0 q) with (seqZ 0 (Z.of_nat (Z.to_nat q))) by (f_equal; lia).
      rewrite concat_chunks by lia. rewrite drop_0. f_equal. lia. }
    rewrite assemble_words_spec; [|done|lia|by apply values_length; lia|].
    + rewrite Hc. unfold buildReadResponse. rewrite Hk. unfold payload_size. by rewrite Hw.
    + apply Forall_fmap, Forall_forall. intros i Hi%elem_of_seqZ. cbn.
      pose proof (payload_value_shape fc payload i q Hq) as Hsh. unfold value_shape in Hsh.
      rewrite Hw in Hsh. apply Hsh; lia.
  - destruct (assemble_bits fc q (payload_value fc payload <$> seqZ 0 q))
      as (payload' & -> & Hl' & H8' & Hbits); [done..|by apply values_length; lia|].
    assert (payload' = kept_payload fc q payload) as ->; [|done].
    apply bytes_ext; [done|by apply kept_u8; [|lia|]| |].
    { unfold payload_size in Hk. rewrite Hw in Hk. len_lia. }
    intros j Hj. rewrite Hbits, kept_bits by (done || lia). unfold payload_value. rewrite Hw.
    rewrite list_lookup_fmap. destruct (decide (j < q)).
    + rewrite lookup_seqZ_lt, bool_decide_true by lia. cbn. rewrite Z.add_0_l, Z2Nat.id by done.
      by destruct (coil_bit payload j).
    + rewrite lookup_seqZ_ge, bool_decide_false by lia. done.
Qed.

(** * Properties *)

(** Decomposition never panics and is exact: for every validated quantity
    and any response bytes it yields, when the payload is long enough for the
    request, precisely the register (two bytes) or coil ([0] or [1]) values of
    the range in order, and nothing when it is too short. *)
Theorem decomposeResponse_exact (fc q : Z) (data : list Z) (Hq : read_quantity fc q) :
  decomposeResponse fc q data =
    Ret (if decide (2 ≤ len data ∧ payload_size fc q ≤ len data - 2) then
           Some (payload_value fc (drop 2 data) <$> seqZ 0 q)
         else None).
Proof. by apply decompose_spec. Qed.

Example decomposeResponse_exact_witness :
  decomposeResponse 3 2 [3; 4; 0x12; 0x34; 0x56; 0x78] = Ret (Some [[0x12; 0x34]; [0x56; 0x78]]) ∧
  decomposeResponse 1 9 [1; 2; 0x80; 0x01] =
    Ret (Some [[0]; [0]; [0]; [0]; [0]; [0]; [0]; [1]; [1]]) ∧
  decomposeResponse 3 3 [3; 4; 0x12; 0x34; 0x56; 0x78] = Ret None.
Proof.
  split_and!; (rewrite decomposeResponse_exact;
    [|split; [done|]; split; [lia|]; intros; (done || lia)]).
  all: by vm_compute.
Defined.

(** C33 Any sub-range of a cached read is answered as the device would have: the
    values cached from an upstream response to a read of [q] registers or
    coils, cut to the [m] values from offset [k] and assembled, form a
    response of the right size that carries exactly the upstream values of
    those addresses.  No index panics. *)
Theorem cached_subrange_response (fc q k m : Z) (payload : list Z)
    (Hq : read_quantity fc q) (Hlen : payload_size fc q ≤ len payload)
    (Hk : 0 ≤ k) (Hm : 1 ≤ m) (Hkm : k + m ≤ q) :
  ∃ vs resp,
    decomposeResponse fc q (buildReadResponse fc payload) = Ret (Some vs) ∧ len vs = q ∧
    assembleResponse fc m (take (Z.to_nat m) (drop (Z.to_nat k) vs)) = Ret resp ∧
    carries fc m resp (λ i, payload_value fc payload (k + i)).
Proof.
  pose proof Hq as (Hr & Hb & Hw). unfold buildReadResponse. rewrite decompose_spec by done.
  rewrite decide_True by len_lia. change (drop 2 (fc :: u8 (len payload) :: payload)) with payload.
  set (vs := payload_value fc payload <$> seqZ 0 q).
  assert (Hvs : len vs = q) by (unfold len, vs; rewrite length_fmap, length_seqZ; lia).
  destruct (assemble_carries fc m (take (Z.to_nat m) (drop (Z.to_nat k) vs)))
    as (resp & Ha & payload' & -> & Hl' & Hc).
  - split_and!; [done|lia..|]. intros ?%Hw. lia.
  - len_lia.
  - apply Forall_take, Forall_drop, Forall_fmap, Forall_forall. intros i Hi%elem_of_seqZ.
    cbn. apply payload_value_shape with q; [done|lia..].
  - exists vs, (buildReadResponse fc payload'). split_and!; [done..|].
    exists payload'. split_and!; [done..|]. intros i Hi. rewrite Hc by done.
    rewrite lookup_take, decide_True by lia. rewrite lookup_drop. unfold vs.
    rewrite list_lookup_fmap, lookup_seqZ_lt by lia. cbn. f_equal. lia.
Qed.

(** Registers 1 and 2 of a cached read of four. *)
Example cached_subrange_response_witness :
  ∃ vs resp,
    decomposeResponse 3 4 (buildReadResponse 3 [0; 1; 0; 2; 0; 3; 0; 4]) = Ret (Some vs) ∧
    len vs = 4 ∧
    assembleResponse 3 2 (take (Z.to_nat 2) (drop (Z.to_nat 1) vs)) = Ret resp ∧
    carries 3 2 resp (λ i, payload_value 3 [0; 1; 0; 2; 0; 3; 0; 4] (1 + i)).
Proof.
  apply cached_subrange_response; [|vm_compute; congruence|lia..].
  split; [done|]. split; [lia|]. intros. lia.
Defined.

(** C32 What a cache hit answers: the response assembled from the cached values
    of an upstream response is that response with its payload cut to the bytes
    the request asks for and the padding bits of a coil response cleared, and
    so it is the upstream response byte for byte exactly when the device's
    payload has that size and its padding bits are zero. *)
Theorem cached_response_identical (fc q : Z) (payload : list Z)
    (Hq : read_quantity fc q) (Hlen : payload_size fc q ≤ len payload)
    (H8 : Forall is_u8 payload) :
  ∃ vs resp, decomposeResponse fc q (buildReadResponse fc payload) = Ret (Some vs) ∧
    assembleResponse fc q vs = Ret resp ∧
    resp = buildReadResponse fc (kept_payload fc q payload) ∧
    (resp = buildReadResponse fc payload ↔ exact_payload fc q payload).
Proof.
  destruct (reassemble fc q payload Hq Hlen H8) as (vs & Hd & Ha).
  exists vs. eexists. split_and!; [exact Hd|exact Ha|done|].
  rewrite <- (kept_exact fc q payload Hq Hlen H8). unfold buildReadResponse.
  split; [by intros [= _ ?]|by intros ->].
Qed.

(** Ten coils: six padding bits and a spare byte are lost. *)
Example cached_response_identical_witness :
  (∃ vs, decomposeResponse 1 10 (buildReadResponse 1 [0xA5; 0xFE; 7]) = Ret (Some vs) ∧
     assembleResponse 1 10 vs = Ret [1; 2; 0xA5; 0x02]) ∧
  ¬ exact_payload 1 10 [0xA5; 0xFE; 7].
Proof.
  destruct (cached_response_identical 1 10 [0xA5; 0xFE; 7]) as (vs & resp & Hd & Ha & Hk & Hiff).
  - split; [done|]. split; [lia|]. done.
  - vm_compute. discriminate.
  - repeat constructor; lia.
  - split; [exists vs; split; [exact Hd|by rewrite Ha, Hk]|]. rewrite <- Hiff, Hk. discriminate.
Defined.
