(* ===== verification/Health.v ===== *)
(** The upstream health state of the Modbus client (the fields guarded by
    [healthMu] in internal/modbus/client.go), the reports derived from it and
    the HTTP mapping of internal/health/health.go.

    The counters are Go [int] and [uint64] values and wrap at their width.
    The abstract side is the log of request outcomes: [replay] says what the
    state must be after a log, and every report is a function of the log. *)

From stdpp Require Import base list numbers strings.
From S2P Require Import Prelude Request Errors.

Record HealthState := {
  lastErr : option error;
  connected : bool;
  firstFailureAt : Z;
  lastFirstSuccess : Z;
  lastSuccess : Z;
  firstFailures : Z;
  finalFailures : Z;
  totalRetries : Z;
  recoveredRetries : Z;
}.

Definition init_health : HealthState :=
  {| lastErr := None; connected := false; firstFailureAt := time_zero;
     lastFirstSuccess := time_zero; lastSuccess := time_zero; firstFailures := 0;
     finalFailures := 0; totalRetries := 0; recoveredRetries := 0 |}.

(** The connection flags [connectLocked], [disconnectLocked] and [Close] set. *)
Definition set_connection (h : HealthState) (c : bool) (err : option error) : HealthState :=
  {| lastErr := err; connected := c; firstFailureAt := firstFailureAt h;
     lastFirstSuccess := lastFirstSuccess h; lastSuccess := lastSuccess h;
     firstFailures := firstFailures h; finalFailures := finalFailures h;
     totalRetries := totalRetries h; recoveredRetries := recoveredRetries h |}.

(** [recordFirstFailure] with the clock it would read. *)
Definition recordFirstFailure (now : Z) (h : HealthState) : HealthState :=
  {| lastErr := lastErr h; connected := connected h;
     firstFailureAt := if time_IsZero (firstFailureAt h) then now else firstFailureAt h;
     lastFirstSuccess := lastFirstSuccess h; lastSuccess := lastSuccess h;
     firstFailures := i64 (firstFailures h + 1); finalFailures := finalFailures h;
     totalRetries := totalRetries h; recoveredRetries := recoveredRetries h |}.

Definition recordRetry (h : HealthState) : HealthState :=
  {| lastErr := lastErr h; connected := connected h; firstFailureAt := firstFailureAt h;
     lastFirstSuccess := lastFirstSuccess h; lastSuccess := lastSuccess h;
     firstFailures := firstFailures h; finalFailures := finalFailures h;
     totalRetries := u64 (totalRetries h + 1); recoveredRetries := recoveredRetries h |}.

Definition recordSuccess (attempts now : Z) (h : HealthState) : HealthState :=
  let first := bool_decide (attempts = 1) in
  {| lastErr := None; connected := true;
     firstFailureAt := if first then time_zero else firstFailureAt h;
     lastFirstSuccess := if first then now else lastFirstSuccess h;
     lastSuccess := now;
     firstFailures := if first then 0 else firstFailures h;
     finalFailures := 0;
     totalRetries := totalRetries h;
     recoveredRetries := if first then recoveredRetries h else u64 (recoveredRetries h + 1) |}.

(** The health update of [finalError] for a classified request error. *)
Definition recordFinalError (kind : ErrorKind) (reqErr : error) (h : HealthState) : HealthState :=
  match kind with
  | ErrorProtocolException =>
      {| lastErr := None; connected := true; firstFailureAt := firstFailureAt h;
         lastFirstSuccess := lastFirstSuccess h; lastSuccess := lastSuccess h;
         firstFailures := firstFailures h; finalFailures := 0;
         totalRetries := totalRetries h; recoveredRetries := recoveredRetries h |}
  | ErrorContextCanceled => h
  | _ =>
      {| lastErr := Some reqErr; connected := connected h; firstFailureAt := firstFailureAt h;
         lastFirstSuccess := lastFirstSuccess h; lastSuccess := lastSuccess h;
         firstFailures := firstFailures h;
         finalFailures :=
           match kind with
           | ErrorTransportTimeout | ErrorTransportClosed => i64 (finalFailures h + 1)
           | _ => finalFailures h
           end;
         totalRetries := totalRetries h; recoveredRetries := recoveredRetries h |}
  end.

(** * Reports *)

Definition healthyLocked (h : HealthState) : option error :=
  match lastErr h with
  | Some e => Some e
  | None => if connected h then None else Some (ErrText "not connected" [])
  end.

Record HealthStats := {
  LastFirstAttemptSuccess : Z;
  LastSuccessfulRequest : Z;
  ConsecutiveFirstAttemptFailure : Z;
  ConsecutiveFinalFailure : Z;
  TotalRetries : Z;
  RecoveredRetries : Z;
  Degraded : bool;
  SustainedDegradation : bool;
}.

Definition degradedHealthWindow : Z := minute.

Definition healthStatsLocked (degradedWindow now : Z) (h : HealthState) : HealthStats :=
  let degraded := negb (time_IsZero (firstFailureAt h)) in
  {| LastFirstAttemptSuccess := lastFirstSuccess h;
     LastSuccessfulRequest := lastSuccess h;
     ConsecutiveFirstAttemptFailure := firstFailures h;
     ConsecutiveFinalFailure := finalFailures h;
     TotalRetries := totalRetries h;
     RecoveredRetries := recoveredRetries h;
     Degraded := degraded;
     SustainedDegradation :=
       degraded && (bool_decide (degradedWindow ≤ 0) ||
                    bool_decide (time_Sub now (firstFailureAt h) >= degradedWindow)) |}.

(** A value of the details map. *)
Inductive detail := DTime (t : option Z) | DInt (n : Z) | DBool (b : bool).

Definition healthTimestamp (t : Z) : option Z := if time_IsZero t then None else Some t.

Definition healthStatus (stats : HealthStats) : string * list (string * detail) :=
  (if SustainedDegradation stats then "degraded" else "ok",
   [("last_first_attempt_success", DTime (healthTimestamp (LastFirstAttemptSuccess stats)));
    ("last_successful_request", DTime (healthTimestamp (LastSuccessfulRequest stats)));
    ("consecutive_first_attempt_failures", DInt (ConsecutiveFirstAttemptFailure stats));
    ("consecutive_final_failures", DInt (ConsecutiveFinalFailure stats));
    ("total_retries", DInt (TotalRetries stats));
    ("recovered_retries", DInt (RecoveredRetries stats));
    ("degraded", DBool (Degraded stats));
    ("sustained_degradation", DBool (SustainedDegradation stats))]).

Definition HealthReport (degradedWindow now : Z) (h : HealthState) :
    string * list (string * detail) * option error :=
  let '(status, details) := healthStatus (healthStatsLocked degradedWindow now h) in
  (status, details, healthyLocked h).

(** ** Checkers

    What the health server asks through interfaces: [Healthy], and the two
    methods it looks for with a type assertion. *)

Definition details : Type := list (string * detail).

Record Checker := {
  chk_Healthy : option error;
  chk_HealthStatus : option (string * details);
  chk_HealthReport : option (string * details * option error);
}.

(** The client at one reading of its clock. *)
Definition client_checker (degradedWindow now : Z) (h : HealthState) : Checker :=
  {| chk_Healthy := healthyLocked h;
     chk_HealthStatus := Some (healthStatus (healthStatsLocked degradedWindow now h));
     chk_HealthReport := Some (HealthReport degradedWindow now h) |}.

(** [Proxy.HealthStatus] and [Proxy.HealthReport] over the proxy's client. *)
Definition proxy_HealthStatus (client : Checker) : string * details :=
  match chk_HealthStatus client with Some r => r | None => ("ok", []) end.

Definition proxy_HealthReport (client : Checker) : string * details * option error :=
  match chk_HealthReport client with
  | Some report => report
  | None => let '(status, details) := proxy_HealthStatus client in (status, details, chk_Healthy client)
  end.

Definition proxy_checker (client : Checker) : Checker :=
  {| chk_Healthy := chk_Healthy client;
     chk_HealthStatus := Some (proxy_HealthStatus client);
     chk_HealthReport := Some (proxy_HealthReport client) |}.

(** The health server's own [healthReport]. *)
Definition healthReport (checker : Checker) : string * details * option error :=
  match chk_HealthReport checker with
  | Some report => report
  | None =>
      let '(status, details) :=
        match chk_HealthStatus checker with Some r => r | None => ("ok", []) end in
      (status, details, chk_Healthy checker)
  end.

(** [handleHealth] of the HTTP server on the report of its checker. *)
Record Response := {
  resp_code : Z;
  resp_Status : string;
  resp_Error : option error;
  resp_Details : list (string * detail);
}.

Definition StatusOK : Z := 200.
Definition StatusServiceUnavailable : Z := 503.

Definition handleHealth (report : string * list (string * detail) * option error) : Response :=
  let '(status, details, healthErr) := report in
  match healthErr with
  | Some e => {| resp_code := StatusServiceUnavailable; resp_Status := "unhealthy";
                 resp_Error := Some e; resp_Details := details |}
  | None => {| resp_code := StatusOK; resp_Status := status; resp_Error := None;
               resp_Details := details |}
  end.

(** * The request log

    What the client does to its health state, as events; [replay] runs a log
    whose newest event comes first. *)
Inductive event :=
| FirstFailure (at_ : Z)                        (* recordFirstFailure *)
| Retry                                         (* recordRetry *)
| Success (attempts at_ : Z)                    (* recordSuccess *)
| FinalError (kind : ErrorKind) (err : error)   (* finalError *)
| Connected                                     (* connectLocked succeeded *)
| ConnectFailed (err : error)                   (* connectLocked failed *)
| Disconnected.                                 (* disconnectLocked, Close *)

Definition health_step (e : event) (h : HealthState) : HealthState :=
  match e with
  | FirstFailure now => recordFirstFailure now h
  | Retry => recordRetry h
  | Success attempts now => recordSuccess attempts now h
  | FinalError kind err => recordFinalError kind err h
  | Connected => set_connection h true None
  | ConnectFailed err => set_connection h false (Some err)
  | Disconnected => set_connection h false (lastErr h)
  end.

Definition replay (log : list event) : HealthState := foldr health_step init_health log.

(** The events after the last one that satisfies [stop]. *)
Fixpoint recent (stop : event → bool) (log : list event) : list event :=
  match log with
  | [] => []
  | e :: log => if stop e then [] else e :: recent stop log
  end.

Definition first_attempt_success (e : event) : bool :=
  match e with Success attempts _ => bool_decide (attempts = 1) | _ => false end.

(** A reply of the device, be it an exception, ends an outage. *)
Definition device_replied (e : event) : bool :=
  match e with
  | Success _ _ => true
  | FinalError ErrorProtocolException _ => true
  | _ => false
  end.

Definition first_failure_time (e : event) : option Z :=
  match e with FirstFailure now => Some now | _ => None end.

Definition transport_failure (e : event) : option unit :=
  match e with
  | FinalError (ErrorTransportTimeout | ErrorTransportClosed) _ => Some ()
  | _ => None
  end.
Definition retried (e : event) : option unit :=
  match e with Retry => Some () | _ => None end.
Definition recovered (e : event) : option unit :=
  match e with Success attempts _ => if decide (attempts = 1) then None else Some () | _ => None end.

(** The first failures no first-attempt success has answered, newest first. *)
Definition unanswered (log : list event) : list Z :=
  omap first_failure_time (recent first_attempt_success log).

(** What the newest event that bears on availability says. *)
Fixpoint availability (log : list event) : option error :=
  match log with
  | [] => Some (ErrText "not connected" [])
  | e :: log =>
    match e with
    | Success _ _ | Connected | FinalError ErrorProtocolException _ => None
    | ConnectFailed err => Some err
    | FinalError ErrorContextCanceled _ => availability log
    | FinalError _ err => Some err
    | Disconnected =>
        match availability log with
        | Some err => Some err
        | None => Some (ErrText "not connected" [])
        end
    | FirstFailure _ | Retry => availability log
    end
  end.

(** Clock readings are not the zero [Time], and the log does not overflow. *)
Definition clocked (e : event) : Prop :=
  match e with FirstFailure now => now ≠ time_zero | _ => True end.
Definition good_log (log : list event) : Prop :=
  Forall clocked log ∧ len log ≤ max_i64.

(** * Lemmas *)

Lemma omap_length_le {A B} (f : A → option B) l : (length (omap f l) <= length l)%nat.
Proof. induction l as [|a l IH]; cbn; [lia|]. destruct (f a); cbn; lia. Qed.

Lemma recent_length stop log : (length (recent stop log) <= length log)%nat.
Proof. induction log as [|e log IH]; cbn; [lia|]. destruct (stop e); cbn; lia. Qed.

Lemma good_log_cons e log : good_log (e :: log) → clocked e ∧ good_log log.
Proof.
  intros [H ?]. apply Forall_cons in H as [? ?].
  split_and!; [done|]. split; [done|]. len_lia.
Qed.

Lemma i64_small z : 0 ≤ z ≤ max_i64 → i64 z = z.
Proof.
  unfold i64, max_i64. intros. rewrite Z.mod_small by lia. lia.
Qed.

Lemma u64_small z : 0 ≤ z ≤ max_i64 → u64 z = z.
Proof. unfold u64, max_i64. intros. apply Z.mod_small. lia. Qed.

(** The state a log leads to, field by field. *)
Record follows (log : list event) (h : HealthState) : Prop := {
  follows_firstFailures : firstFailures h = len (unanswered log);
  follows_firstFailureAt : firstFailureAt h = default time_zero (last (unanswered log));
  follows_finalFailures : finalFailures h = len (omap transport_failure (recent device_replied log));
  follows_totalRetries : totalRetries h = len (omap retried log);
  follows_recoveredRetries : recoveredRetries h = len (omap recovered log);
  follows_available : healthyLocked h = availability log;
}.

Lemma unanswered_bound log : len (unanswered log) ≤ len log.
Proof.
  unfold unanswered, len.
  pose proof (omap_length_le first_failure_time (recent first_attempt_success log)).
  pose proof (recent_length first_attempt_success log). lia.
Qed.

Lemma unanswered_nonzero log t :
  Forall clocked log → last (unanswered log) = Some t → t ≠ time_zero.
Proof.
  intros Hc Hl. apply last_Some_elem_of in Hl.
  unfold unanswered in Hl. apply list_elem_of_omap in Hl as (e & He & Ht).
  assert (e ∈ log) as Hin.
  { clear -He. induction log as [|x log IH]; cbn in He; [by apply elem_of_nil in He|].
    destruct (first_attempt_success x); [by apply elem_of_nil in He|].
    apply elem_of_cons in He as [->|He]; [left|right; auto]. }
  rewrite Forall_forall in Hc. specialize (Hc e Hin). by destruct e; simplify_eq/=.
Qed.

Lemma follows_init : follows [] init_health.
Proof. by split. Qed.

(** Extending the list of unanswered failures keeps the oldest one. *)
Lemma last_cons_default (t : Z) l :
  default time_zero (last (t :: l)) = default t (last l).
Proof. rewrite last_cons. by destruct (last l). Qed.

(** [unanswered] after one more event. *)
Lemma unanswered_cons e log :
  unanswered (e :: log) =
  if first_attempt_success e then []
  else match first_failure_time e with
       | Some now => now :: unanswered log
       | None => unanswered log
       end.
Proof. unfold unanswered. cbn. by destruct (first_attempt_success e). Qed.

Lemma len_cons {A} (a : A) l : len (a :: l) = len l + 1.
Proof. unfold len. cbn [length]. lia. Qed.

(** Counters of at most the log's length are below their wrap-around. *)
Lemma count_bound {A} (f : event → option A) stop log :
  0 ≤ len (omap f (recent stop log)) ≤ len log.
Proof.
  unfold len. pose proof (omap_length_le f (recent stop log)).
  pose proof (recent_length stop log). lia.
Qed.

Lemma count_bound_all {A} (f : event → option A) log : 0 ≤ len (omap f log) ≤ len log.
Proof. unfold len. pose proof (omap_length_le f log). lia. Qed.

Lemma follows_step e log h :
  good_log (e :: log) → follows log h → follows (e :: log) (health_step e h).
Proof.
  intros Hgood [Hff Hfa Hfin Htr Hrr Hav].
  apply good_log_cons in Hgood as Hg. destruct Hg as [Hclk [Hall _]].
  destruct Hgood as [_ Hlen]. rewrite len_cons in Hlen.
  pose proof (count_bound first_failure_time first_attempt_success log) as Bu.
  pose proof (count_bound transport_failure device_replied log) as Bf.
  pose proof (count_bound_all retried log) as Br.
  pose proof (count_bound_all recovered log) as Bv.
  pose proof (unanswered_nonzero log) as Hnz.
  split; rewrite ?unanswered_cons.
  - destruct e as [| |n| [] | | |]; cbn; rewrite ?Hff; try done.
    + rewrite len_cons, i64_small; unfold unanswered in *; lia.
    + by case_bool_decide.
  - destruct e as [now| |n| [] | | |]; cbn; rewrite ?Hfa; try done.
    + rewrite last_cons_default. destruct (last _) as [t|] eqn:El; cbn; [|done].
      unfold time_IsZero. rewrite bool_decide_eq_false_2; [done|]. by apply Hnz.
    + by case_bool_decide.
  - destruct e as [| |n| [] | | |]; cbn; rewrite ?Hfin, ?len_cons; try done;
      (rewrite i64_small; [done|lia]).
  - destruct e as [| |n| [] | | |]; cbn; rewrite ?Htr, ?len_cons; try done;
      (rewrite u64_small; [done|lia]).
  - destruct e as [| |n| [] | | |]; cbn; rewrite ?Hrr; try done.
    case_bool_decide; [by rewrite decide_True|]. rewrite decide_False, len_cons by done.
    rewrite u64_small; [done|lia].
  - unfold healthyLocked in *.
    destruct e as [| |n| [] | | |]; cbn; rewrite <-?Hav; try done; by destruct (lastErr h) as [|], (connected h).
Qed.

Lemma replay_follows log : good_log log → follows log (replay log).
Proof.
  induction log as [|e log IH]; intros Hg; [apply follows_init|].
  apply follows_step; [done|]. apply IH. by eapply good_log_cons.
Qed.

(** * Properties *)

(** C34 The counters the health endpoint reports are functions of the request
    log: the streak of first-attempt failures counts those no first-attempt
    success has answered, the final-failure streak counts transport failures
    since the device last replied, and neither a recovered retry nor an
    exception reply resets the former; no counter wraps within a log shorter
    than [2^63] events.  The client is degraded exactly while a first-attempt
    failure is unanswered, and the degradation is sustained exactly when the
    oldest such failure is at least the window old. *)
Theorem healthStats_log (log : list event) (window now : Z) :
  good_log log → is_i64 window →
  let stats := healthStatsLocked window now (replay log) in
  ConsecutiveFirstAttemptFailure stats = len (unanswered log) ∧
  ConsecutiveFinalFailure stats = len (omap transport_failure (recent device_replied log)) ∧
  TotalRetries stats = len (omap retried log) ∧
  RecoveredRetries stats = len (omap recovered log) ∧
  (Degraded stats = true ↔ unanswered log ≠ []) ∧
  (SustainedDegradation stats = true ↔
     ∃ oldest, last (unanswered log) = Some oldest ∧ (window ≤ 0 ∨ now - oldest >= window)).
Proof.
  intros Hg Hw stats. destruct (replay_follows log Hg) as [? Hfa ? ? ? _].
  destruct Hg as [Hclk _].
  pose proof (unanswered_nonzero log) as Hnz.
  assert (Degraded stats = true ↔ is_Some (last (unanswered log))) as Hdeg.
  { subst stats. cbn. unfold time_IsZero. rewrite Hfa, negb_true_iff, bool_decide_eq_false.
    destruct (last _) as [t|]; cbn; [|by split; [|intros []]].
    split; [by eauto|]. intros _. by apply Hnz. }
  split_and!; try done.
  - rewrite Hdeg, last_is_Some. done.
  - subst stats. cbn. cbn in Hdeg. rewrite andb_true_iff, Hdeg, orb_true_iff, !bool_decide_eq_true, Hfa.
    assert (∀ t, time_Sub now t >= window ↔ now - t >= window ∨ window ≤ min_i64) as Hsub.
    { intros t. unfold time_Sub, is_i64 in *. unfold min_i64, max_i64 in *. lia. }
    split.
    + intros [[t Ht] Ho]. rewrite Ht in Ho |- *. exists t. split; [done|].
      cbn in Ho. rewrite Hsub in Ho. unfold min_i64 in Ho. lia.
    + intros (t & Ht & Ho). rewrite Ht. split; [eauto|]. cbn. rewrite Hsub. tauto.
Qed.

(** C35 The health endpoint, over the proxy's report of its client's state,
    answers 503 exactly when the newest log entry that bears on availability is a failure, with that failure as the error: a
    failed request stays visible until the device next replies or a
    connection is established, a cancelled request changes nothing, and a
    degraded but recovering upstream still answers 200. *)
Theorem handleHealth_log (log : list event) (window now : Z) :
  good_log log →
  let resp := handleHealth (healthReport (proxy_checker (client_checker window now (replay log)))) in
  resp_Error resp = availability log ∧
  (resp_code resp = StatusServiceUnavailable ↔ is_Some (availability log)) ∧
  (resp_code resp = StatusOK ↔ availability log = None) ∧
  (resp_Status resp = "unhealthy" ↔ is_Some (availability log)) ∧
  (resp_Status resp = "degraded" ↔
     availability log = None ∧
     SustainedDegradation (healthStatsLocked window now (replay log)) = true).
Proof.
  intros Hg resp. destruct (replay_follows log Hg) as [_ _ _ _ _ Hav].
  subst resp. unfold handleHealth, healthReport, proxy_checker, proxy_HealthReport, client_checker,
    HealthReport. cbn. rewrite Hav.
  destruct (availability log) as [e|]; cbn.
  - split_and!; try done; split; try done; try (intros; by eauto); naive_solver.
  - destruct (negb _ && _); split_and!; try done; split; try done; try (by intros []);
      naive_solver.
Qed.

(** ** Witnesses *)

(** Two failures, the second recovered by a retry, then a lost connection. *)
Definition sample_log : list event :=
  [ConnectFailed (ErrSentinel ECONNREFUSED); Disconnected; FirstFailure (90 * second);
   Success 2 (30 * second); Retry; FirstFailure (20 * second); Connected].

Lemma sample_log_good : good_log sample_log.
Proof. split; [repeat constructor; done|done]. Qed.

Lemma healthStats_log_witness :
  good_log sample_log ∧
  SustainedDegradation (healthStatsLocked minute (85 * second) (replay sample_log)) = true ∧
  ConsecutiveFirstAttemptFailure (healthStatsLocked minute (85 * second) (replay sample_log)) = 2.
Proof.
  destruct (healthStats_log sample_log minute (85 * second) sample_log_good)
    as (H1 & _ & _ & _ & _ & H2); [by vm_compute|].
  split_and!; [apply sample_log_good| |by rewrite H1].
  apply H2. exists (20 * second). split; [done|]. right. by vm_compute.
Defined.

Lemma handleHealth_log_witness :
  good_log sample_log ∧
  resp_Error (handleHealth (healthReport (proxy_checker
    (client_checker minute (85 * second) (replay sample_log))))) = Some (ErrSentinel ECONNREFUSED).
Proof.
  split; [apply sample_log_good|].
  apply (handleHealth_log sample_log minute (85 * second) sample_log_good).
Defined.
