(* ===== verification/Config.v ===== *)
(** Configuration from the environment (internal/config/config.go).

    [os.Getenv] is an argument: it is [""] for an unset variable.
    [time.ParseDuration] is an argument too; the loader only asks whether it
    fails and for its value. *)

From stdpp Require Import base list numbers strings.
From Stdlib Require Import Ascii.
From S2P Require Import Prelude.

(** * Modes and the record *)

Definition ReadOnlyOff : string := "false".
Definition ReadOnlyOn : string := "true".
Definition ReadOnlyDeny : string := "deny".

Record Config := {
  Listen : string;
  Upstream : string;
  DefaultSlaveID : Z;
  CacheTTL : Z;
  CacheServeStale : bool;
  ReadOnly : string;
  AttemptTimeout : Z;
  RequestTimeout : Z;
  RequestDelay : Z;
  ConnectDelay : Z;
  ShutdownTimeout : Z;
  HealthListen : string;
  LogLevel : string;
}.

(** * What the loader uses of the standard library *)

(** [strings.ToLower] on bytes.  No letter outside ASCII is lowered to one of
    the letters of the words the loader compares with. *)
Definition lower_ascii (c : ascii) : ascii :=
  let n := nat_of_ascii c in
  if (65 <=? n)%nat && (n <=? 90)%nat then ascii_of_nat (n + 32) else c.
Fixpoint ToLower (s : string) : string :=
  match s with
  | EmptyString => EmptyString
  | String c s => String (lower_ascii c) (ToLower s)
  end.

(** [strconv.ParseUint(s, 10, 8)]. *)
Definition digit (c : ascii) : option Z :=
  let n := nat_of_ascii c in
  if (48 <=? n)%nat && (n <=? 57)%nat then Some (Z.of_nat n - 48) else None.
Fixpoint parse_digits (acc : Z) (s : string) : option Z :=
  match s with
  | EmptyString => Some acc
  | String c s => d ← digit c; parse_digits (acc * 10 + d) s
  end.
Definition ParseUint8 (s : string) : option Z :=
  match s with
  | EmptyString => None
  | _ => n ← parse_digits 0 s; if decide (n ≤ 255) then Some n else None
  end.

(** * The loader *)

Inductive load_error :=
| ErrRequired (name : string)
| ErrInvalid (name : string)
| ErrNotPositive (name : string)
| ErrReadOnlyMode (value : string)
| ErrTimeoutMismatch (attemptTimeout legacyTimeout : Z).

Definition res (A : Type) : Type := A + load_error.
#[local] Instance res_ret : MRet res := λ A a, inl a.
#[local] Instance res_bind : MBind res := λ A B f m,
  match m with inl a => f a | inr e => inr e end.

Section Loader.
Context (Getenv : string → string) (ParseDuration : string → option Z).

Definition GetEnv (key defaultValue : string) : string :=
  if decide (Getenv key ≠ "") then Getenv key else defaultValue.

(** [if s := os.Getenv(name); s != "" { d, err := time.ParseDuration(s) ... }] *)
Definition load_duration (name : string) (dflt : Z) : res Z :=
  let s := Getenv name in
  if decide (s ≠ "") then
    match ParseDuration s with Some d => inl d | None => inr (ErrInvalid name) end
  else inl dflt.

Definition parsePositiveDuration (name : string) : res (Z * bool) :=
  let s := Getenv name in
  if decide (s = "") then inl (0, false)
  else match ParseDuration s with
       | None => inr (ErrInvalid name)
       | Some d => if decide (d ≤ 0) then inr (ErrNotPositive name) else inl (d, true)
       end.

Definition load_slave_id : res Z :=
  let s := Getenv "MODBUS_SLAVE_ID" in
  if decide (s ≠ "") then
    match ParseUint8 s with Some id => inl id | None => inr (ErrInvalid "MODBUS_SLAVE_ID") end
  else inl 1.

Definition load_readonly : res string :=
  let s := Getenv "MODBUS_READONLY" in
  if decide (s ≠ "") then
    let l := ToLower s in
    if decide (l = "false") then inl ReadOnlyOff
    else if decide (l = "true") then inl ReadOnlyOn
    else if decide (l = "deny") then inl ReadOnlyDeny
    else inr (ErrReadOnlyMode s)
  else inl ReadOnlyOn.

Definition load_attempt_timeout : res Z :=
  '(attemptTimeout, attemptTimeoutSet) ← parsePositiveDuration "MODBUS_ATTEMPT_TIMEOUT";
  '(legacyTimeout, legacyTimeoutSet) ← parsePositiveDuration "MODBUS_TIMEOUT";
  if decide (attemptTimeoutSet = true ∧ legacyTimeoutSet = true ∧ attemptTimeout ≠ legacyTimeout)
  then inr (ErrTimeoutMismatch attemptTimeout legacyTimeout)
  else inl (if attemptTimeoutSet : bool then attemptTimeout
            else if legacyTimeoutSet : bool then legacyTimeout
            else 10 * second).

Definition load_request_timeout : res Z :=
  let s := Getenv "MODBUS_REQUEST_TIMEOUT" in
  if decide (s ≠ "") then
    match ParseDuration s with
    | None => inr (ErrInvalid "MODBUS_REQUEST_TIMEOUT")
    | Some d => if decide (d ≤ 0) then inr (ErrNotPositive "MODBUS_REQUEST_TIMEOUT") else inl d
    end
  else inl (30 * second).

Definition Load : res Config :=
  let upstream := Getenv "MODBUS_UPSTREAM" in
  if decide (upstream = "") then inr (ErrRequired "MODBUS_UPSTREAM") else
  slaveID ← load_slave_id;
  cacheTTL ← load_duration "MODBUS_CACHE_TTL" (10 * second);
  let stale := Getenv "MODBUS_CACHE_SERVE_STALE" in
  let serveStale := if decide (stale ≠ "") then bool_decide (ToLower stale = "true") else false in
  readOnly ← load_readonly;
  attemptTimeout ← load_attempt_timeout;
  requestTimeout ← load_request_timeout;
  requestDelay ← load_duration "MODBUS_REQUEST_DELAY" 0;
  connectDelay ← load_duration "MODBUS_CONNECT_DELAY" 0;
  shutdownTimeout ← load_duration "MODBUS_SHUTDOWN_TIMEOUT" (30 * second);
  mret {| Listen := GetEnv "MODBUS_LISTEN" ":5502"; Upstream := upstream;
          DefaultSlaveID := slaveID; CacheTTL := cacheTTL; CacheServeStale := serveStale;
          ReadOnly := readOnly; AttemptTimeout := attemptTimeout;
          RequestTimeout := requestTimeout; RequestDelay := requestDelay;
          ConnectDelay := connectDelay; ShutdownTimeout := shutdownTimeout;
          HealthListen := Getenv "HEALTH_LISTEN"; LogLevel := GetEnv "LOG_LEVEL" "INFO" |}.

(** * Specification: each field by its own variable *)

(** An optional duration variable has this value. *)
Definition duration_is (name : string) (dflt d : Z) : Prop :=
  Getenv name = "" ∧ d = dflt ∨ Getenv name ≠ "" ∧ ParseDuration (Getenv name) = Some d.

Definition mode_is (mode : string) : Prop :=
  Getenv "MODBUS_READONLY" = "" ∧ mode = ReadOnlyOn ∨
  Getenv "MODBUS_READONLY" ≠ "" ∧ ToLower (Getenv "MODBUS_READONLY") = mode ∧
  (mode = ReadOnlyOff ∨ mode = ReadOnlyOn ∨ mode = ReadOnlyDeny).

Definition slave_is (id : Z) : Prop :=
  Getenv "MODBUS_SLAVE_ID" = "" ∧ id = 1 ∨
  Getenv "MODBUS_SLAVE_ID" ≠ "" ∧ ParseUint8 (Getenv "MODBUS_SLAVE_ID") = Some id.

(** The current and the deprecated name agree where both are set, and either
    alone decides. *)
Definition attempt_timeout_is (d : Z) : Prop :=
  let new := Getenv "MODBUS_ATTEMPT_TIMEOUT" in
  let old := Getenv "MODBUS_TIMEOUT" in
  (new ≠ "" → ParseDuration new = Some d ∧ 0 < d) ∧
  (old ≠ "" → ParseDuration old = Some d ∧ 0 < d) ∧
  (new = "" → old = "" → d = 10 * second).

Record loads (cfg : Config) : Prop := {
  loads_listen : Listen cfg = GetEnv "MODBUS_LISTEN" ":5502";
  loads_upstream : Upstream cfg = Getenv "MODBUS_UPSTREAM" ∧ Upstream cfg ≠ "";
  loads_slave : slave_is (DefaultSlaveID cfg);
  loads_ttl : duration_is "MODBUS_CACHE_TTL" (10 * second) (CacheTTL cfg);
  loads_stale : CacheServeStale cfg = bool_decide (ToLower (Getenv "MODBUS_CACHE_SERVE_STALE") = "true");
  loads_mode : mode_is (ReadOnly cfg);
  loads_attempt : attempt_timeout_is (AttemptTimeout cfg);
  loads_request : duration_is "MODBUS_REQUEST_TIMEOUT" (30 * second) (RequestTimeout cfg) ∧
                  0 < RequestTimeout cfg;
  loads_request_delay : duration_is "MODBUS_REQUEST_DELAY" 0 (RequestDelay cfg);
  loads_connect_delay : duration_is "MODBUS_CONNECT_DELAY" 0 (ConnectDelay cfg);
  loads_shutdown : duration_is "MODBUS_SHUTDOWN_TIMEOUT" (30 * second) (ShutdownTimeout cfg);
  loads_health : HealthListen cfg = Getenv "HEALTH_LISTEN";
  loads_level : LogLevel cfg = GetEnv "LOG_LEVEL" "INFO";
}.

(** * Lemmas *)

Lemma res_bind_inl {A B} (m : res A) (f : A → res B) b :
  (m ≫= f) = inl b ↔ ∃ a, m = inl a ∧ f a = inl b.
Proof.
  destruct m as [a|e]; cbn.
  - split; [by eauto|]. by intros (a' & [= <-] & ?).
  - split; [done|]. by intros (a' & ? & ?).
Qed.

Lemma load_duration_ok name dflt d : load_duration name dflt = inl d ↔ duration_is name dflt d.
Proof.
  unfold load_duration, duration_is. case_decide as Hs.
  - destruct (ParseDuration _) as [d'|]; naive_solver.
  - naive_solver.
Qed.

Lemma load_slave_id_ok id : load_slave_id = inl id ↔ slave_is id.
Proof.
  unfold load_slave_id, slave_is. case_decide as Hs.
  - destruct (ParseUint8 _) as [d'|]; naive_solver.
  - naive_solver.
Qed.

Lemma load_readonly_ok mode : load_readonly = inl mode ↔ mode_is mode.
Proof.
  unfold load_readonly, mode_is, ReadOnlyOff, ReadOnlyOn, ReadOnlyDeny.
  case_decide as Hs; [|naive_solver]. generalize (ToLower (Getenv "MODBUS_READONLY")). intros l.
  destruct (decide (l = "false")) as [->|H1]; [|destruct (decide (l = "true")) as [->|H2];
    [|destruct (decide (l = "deny")) as [->|H3]]].
  4: { split; [done|]. intros [[? _]|(_ & <- & [?|[?|?]])]; done. }
  all: split; [intros [= <-]; right; auto|by intros [[? _]|(_ & <- & _)]].
Qed.

Lemma parsePositiveDuration_ok name d b :
  parsePositiveDuration name = inl (d, b) ↔
  Getenv name = "" ∧ d = 0 ∧ b = false ∨
  Getenv name ≠ "" ∧ ParseDuration (Getenv name) = Some d ∧ 0 < d ∧ b = true.
Proof.
  unfold parsePositiveDuration. case_decide as Hs; [naive_solver|].
  destruct (ParseDuration _) as [d'|]; [|naive_solver].
  case_decide; naive_solver lia.
Qed.

Lemma load_attempt_timeout_ok d : load_attempt_timeout = inl d ↔ attempt_timeout_is d.
Proof.
  unfold load_attempt_timeout, attempt_timeout_is. rewrite res_bind_inl. split.
  - intros ([a ab] & Ha & H). apply res_bind_inl in H as ([l lb] & Hl & H).
    apply parsePositiveDuration_ok in Ha, Hl. case_decide as Hd; [done|]. injection H as <-.
    destruct Ha as [(?&->&->)|(?&?&?&->)], Hl as [(?&->&->)|(?&?&?&->)]; try naive_solver.
    destruct (decide (a = l)) as [->|]; naive_solver.
  - intros (Ha & Hl & Hd).
    assert (∀ name : string, (Getenv name ≠ "" → ParseDuration (Getenv name) = Some d ∧ 0 < d) →
      parsePositiveDuration name =
        inl (if decide (Getenv name = "") then 0 else d, bool_decide (Getenv name ≠ ""))) as Hp.
    { intros name Hn. apply parsePositiveDuration_ok. case_decide; [left|right].
      - by rewrite bool_decide_false by naive_solver.
      - rewrite bool_decide_true by done. naive_solver. }
    eexists. split; [by apply Hp|]. cbn beta iota. apply res_bind_inl. eexists. split; [by apply Hp|].
    cbn beta iota.
    destruct (decide (Getenv "MODBUS_ATTEMPT_TIMEOUT" = "")) as [Ea|Ea],
      (decide (Getenv "MODBUS_TIMEOUT" = "")) as [El|El];
      rewrite ?Ea, ?El, ?(bool_decide_true (Getenv "MODBUS_ATTEMPT_TIMEOUT" ≠ "")),
        ?(bool_decide_true (Getenv "MODBUS_TIMEOUT" ≠ "")) by done; cbn;
      rewrite decide_False by naive_solver; f_equal; naive_solver.
Qed.

Lemma load_request_timeout_ok d :
  load_request_timeout = inl d ↔ duration_is "MODBUS_REQUEST_TIMEOUT" (30 * second) d ∧ 0 < d.
Proof.
  unfold load_request_timeout, duration_is. case_decide as Hs.
  - destruct (ParseDuration _) as [d'|]; [case_decide|]; naive_solver lia.
  - split; [intros [= <-]; by split; [left|]|]. naive_solver.
Qed.

(** ** Properties *)

Lemma stale_flag s :
  (if decide (s ≠ "") then bool_decide (ToLower s = "true") else false) =
  bool_decide (ToLower s = "true").
Proof. case_decide as Hs; [done|by subst s]. Qed.

Lemma Load_inl cfg :
  Load = inl cfg ↔
  Getenv "MODBUS_UPSTREAM" ≠ "" ∧
  load_slave_id = inl (DefaultSlaveID cfg) ∧
  load_duration "MODBUS_CACHE_TTL" (10 * second) = inl (CacheTTL cfg) ∧
  load_readonly = inl (ReadOnly cfg) ∧
  load_attempt_timeout = inl (AttemptTimeout cfg) ∧
  load_request_timeout = inl (RequestTimeout cfg) ∧
  load_duration "MODBUS_REQUEST_DELAY" 0 = inl (RequestDelay cfg) ∧
  load_duration "MODBUS_CONNECT_DELAY" 0 = inl (ConnectDelay cfg) ∧
  load_duration "MODBUS_SHUTDOWN_TIMEOUT" (30 * second) = inl (ShutdownTimeout cfg) ∧
  Listen cfg = GetEnv "MODBUS_LISTEN" ":5502" ∧ Upstream cfg = Getenv "MODBUS_UPSTREAM" ∧
  CacheServeStale cfg = bool_decide (ToLower (Getenv "MODBUS_CACHE_SERVE_STALE") = "true") ∧
  HealthListen cfg = Getenv "HEALTH_LISTEN" ∧ LogLevel cfg = GetEnv "LOG_LEVEL" "INFO".
Proof.
  unfold Load. rewrite stale_flag. case_decide as Hu; [naive_solver|]. split.
  - intros H. repeat (apply res_bind_inl in H as (? & -> & H)). injection H as <-. by split_and!.
  - intros (_ & -> & -> & -> & -> & -> & -> & -> & -> & H). cbn. unfold mret, res_ret. f_equal.
    destruct cfg. cbn in *. naive_solver.
Qed.

(** C36 The loader accepts an environment exactly when every variable it reads
    is acceptable, and then every field has the value its own variable (or its
    documented default) gives it: durations parse, the two timeouts are
    positive, the deprecated timeout name agrees with the current one, the
    slave id is a byte, and the read-only mode is one of the three modes in
    any case. *)
Theorem Load_correct (cfg : Config) : Load = inl cfg ↔ loads cfg.
Proof.
  rewrite Load_inl, load_slave_id_ok, load_readonly_ok, load_attempt_timeout_ok,
    load_request_timeout_ok, !load_duration_ok.
  split.
  - intros (Hu & ? & ? & ? & ? & ? & ? & ? & ? & ? & Hup & ? & ? & ?).
    split; try done. by rewrite Hup.
  - intros [? [Hup Hne] ? ? ? ? ? [? ?] ? ? ? ? ?]. by split_and!; try done; rewrite <- Hup.
Qed.

Lemma loaded_mode cfg :
  Load = inl cfg →
  ReadOnly cfg = ReadOnlyOff ∨ ReadOnly cfg = ReadOnlyOn ∨ ReadOnly cfg = ReadOnlyDeny.
Proof.
  intros H. apply Load_inl in H as (_ & _ & _ & H & _). apply load_readonly_ok in H.
  destruct H as [[_ ->]|(_ & _ & H)]; auto.
Qed.

End Loader.

(** ** Examples *)
Example ToLower_deny : ToLower "DeNy" = "deny". Proof. reflexivity. Qed.
Example ParseUint8_255 : ParseUint8 "255" = Some 255. Proof. reflexivity. Qed.
Example ParseUint8_256 : ParseUint8 "256" = None. Proof. reflexivity. Qed.
Example ParseUint8_sign : ParseUint8 "+5" = None. Proof. reflexivity. Qed.
Example Load_upstream_only :
  Load (λ k, if decide (k = "MODBUS_UPSTREAM") then "10.0.0.2:502" else "") (λ _, None) =
  inl {| Listen := ":5502"; Upstream := "10.0.0.2:502"; DefaultSlaveID := 1;
         CacheTTL := 10 * second; CacheServeStale := false; ReadOnly := ReadOnlyOn;
         AttemptTimeout := 10 * second; RequestTimeout := 30 * second; RequestDelay := 0;
         ConnectDelay := 0; ShutdownTimeout := 30 * second; HealthListen := "";
         LogLevel := "INFO" |}.
Proof. reflexivity. Qed.
