(* ===== verification/Guard.v ===== *)
(** The guarded TCP connection and its session ([guardedConn] and
    [tcpSession], internal/modbus/client.go).

    While a request is bound to a connection, no deadline the protocol library
    sets may outlive the request, and a watchdog goroutine expires the
    connection as soon as the request's context ends.  Operations are functions
    on the connection; their readings of the context and of the clock are
    arguments.  The step relation interleaves the request's goroutine, the
    library, the watchdog and the passing of time; a [Write] is a step for the
    check under the mutex and steps for the data that goes out after it. *)

From stdpp Require Import base list numbers strings.
From S2P Require Import Prelude Errors.

(** * Contexts and clocks *)

(** What time shows: the clock, and the bound context's [Err]. *)
Record World := { clock : Z; ended : option error }.

Definition later (w w' : World) : Prop :=
  clock w ≤ clock w' ∧ (ended w = None ∨ ended w' = ended w).

(** [contextError] of a context with the given [Deadline], whose [Err] is
    called at [wa] and whose deadline is compared with the clock at [wb]. *)
Definition context_error (deadline : option Z) (wa wb : World) : option error :=
  match ended wa with
  | Some e => Some e
  | None =>
    match deadline with
    | Some d => if decide (clock wb < d) then None else Some (ErrSentinel DeadlineExceeded)
    | None => None
    end
  end.

(** * guardedConn *)

(** [ctx] is the bound context's deadline, [None] when no request is bound. *)
Record guardedConn := {
  ctx : option (option Z);
  maxDeadline : Z;
  canceledErr : option error;
  writeStarted : bool;
}.

(** A guarded connection with the deadlines of the [net.Conn] below it; the
    zero time is no deadline. *)
Record conn := {
  guard : guardedConn;
  readDeadline : Z;
  writeDeadline : Z;
}.

Definition newGuardedConn : conn :=
  {| guard := {| ctx := None; maxDeadline := time_zero; canceledErr := None; writeStarted := false |};
     readDeadline := time_zero; writeDeadline := time_zero |}.

(** Three readings: [ctx.Err()], the clock of [contextError], [time.Now()]. *)
Record look := { at_err : World; at_deadline : World; at_now : World }.

Definition looks (w : World) (l : look) (w' : World) : Prop :=
  later w (at_err l) ∧ later (at_err l) (at_deadline l) ∧
  later (at_deadline l) (at_now l) ∧ later (at_now l) w'.

(** [time.Unix(1, 0)] *)
Definition unix_1 : Z := 62135596801 * second.

Definition requestErrorLocked (l : look) (g : guardedConn) : option error :=
  match ctx g with
  | None => None
  | Some deadline =>
    match canceledErr g with
    | Some e => Some e
    | None =>
      match context_error deadline (at_err l) (at_deadline l) with
      | Some e => Some e
      | None =>
        if negb (time_IsZero (maxDeadline g)) && negb (bool_decide (clock (at_now l) < maxDeadline g))
        then Some (ErrSentinel DeadlineExceeded)
        else None
      end
    end
  end.

Definition clampDeadlineLocked (l : look) (g : guardedConn) (deadline : Z) : Z :=
  match requestErrorLocked l g with
  | Some _ => unix_1
  | None =>
    if bool_decide (ctx g ≠ None) && (time_IsZero deadline || bool_decide (deadline > maxDeadline g))
    then maxDeadline g
    else deadline
  end.

Definition with_deadlines (r w : Z) (c : conn) : conn :=
  {| guard := guard c; readDeadline := r; writeDeadline := w |}.
Definition with_guard (g : guardedConn) (c : conn) : conn :=
  {| guard := g; readDeadline := readDeadline c; writeDeadline := writeDeadline c |}.

Definition SetDeadline (l : look) (deadline : Z) (c : conn) : conn :=
  let d := clampDeadlineLocked l (guard c) deadline in with_deadlines d d c.
Definition SetReadDeadline (l : look) (deadline : Z) (c : conn) : conn :=
  with_deadlines (clampDeadlineLocked l (guard c) deadline) (writeDeadline c) c.
Definition SetWriteDeadline (l : look) (deadline : Z) (c : conn) : conn :=
  with_deadlines (readDeadline c) (clampDeadlineLocked l (guard c) deadline) c.

(** [wa] and [wb] are read for [canceledErr], [l] for the clamp. *)
Definition bind (deadline : option Z) (maxDeadline : Z) (wa wb : World) (l : look) (c : conn) : conn :=
  let c := with_guard {| ctx := Some deadline; maxDeadline := maxDeadline;
                         canceledErr := context_error deadline wa wb; writeStarted := false |} c in
  SetDeadline l maxDeadline c.

Definition unbind (c : conn) : conn :=
  with_guard {| ctx := None; maxDeadline := time_zero; canceledErr := None; writeStarted := false |} c.

Definition cancel (err : error) (now : Z) (c : conn) : conn :=
  match ctx (guard c) with
  | None => c
  | Some d =>
      with_deadlines now now
        (with_guard {| ctx := Some d; maxDeadline := maxDeadline (guard c);
                       canceledErr := Some err; writeStarted := writeStarted (guard c) |} c)
  end.

(** [Write] as long as it holds the mutex: the error it returns, or the
    connection, once the request has passed the check; the data is handed to
    the connection below after the mutex has been released. *)
Definition Write (l : look) (c : conn) : error + conn :=
  match requestErrorLocked l (guard c) with
  | Some e => inl e
  | None =>
      let g := guard c in
      inr (with_guard {| ctx := ctx g; maxDeadline := maxDeadline g; canceledErr := canceledErr g;
                         writeStarted := true |} c)
  end.

(** [net.Conn]: output after the write deadline fails; the zero time is none. *)
Definition can_send (w : World) (c : conn) : bool :=
  time_IsZero (writeDeadline c) || bool_decide (clock w < writeDeadline c).

(** * The session *)

(** Where the request's goroutine is: [BeginRequest] was not called, returned
    on no connection, bound the connection (with [SetDeadline]'s error), or
    the returned function has closed [stop]. *)
Inductive phase :=
| Idle
| Unconnected
| Active (bindErr : option error)
| Finishing (bindErr : option error).

Inductive watchdog :=
| NoDog
| Running
| Stopped (err : option error).       (* sent on [stopped] *)

(** What a [Write] had read when it passed the check. *)
Record started_write := {
  started_at : Z;
  started_ended : option error;
  started_canceled : option error;
}.

(** Data that went out for a bound request: its [Write], when it went out, and
    the guard's deadline and cancellation at that moment. *)
Record sent_data := {
  sent_by : started_write;
  sent_at : Z;
  sent_max : Z;
  sent_canceled : option error;
}.

Record session := {
  sconn : option conn;
  timeout : Z;                        (* handler.Timeout *)
  sphase : phase;
  dog : watchdog;
  world : World;
  sent : list sent_data;
  joined : list error;                (* errors.Join's arguments, at the last finish *)
  writing : option started_write;     (* a [Write] that has released the mutex *)
}.

(** [maxDeadline] of [BeginRequest]. *)
Definition request_deadline (now attemptTimeout : Z) (deadline : option Z) : Z :=
  match deadline with
  | Some d => if decide (d < now + attemptTimeout) then d else now + attemptTimeout
  | None => now + attemptTimeout
  end.

(** ** Updates *)

Definition on_conn (f : conn → conn) (w : World) (s : session) : session :=
  {| sconn := f <$> sconn s; timeout := timeout s; sphase := sphase s; dog := dog s;
     world := w; sent := sent s; joined := joined s; writing := writing s |}.
Definition with_conn (c : option conn) (s : session) : session :=
  {| sconn := c; timeout := timeout s; sphase := sphase s; dog := dog s; world := world s;
     sent := sent s; joined := joined s; writing := writing s |}.
Definition with_world (w : World) (s : session) : session := on_conn (λ c, c) w s.
Definition with_control (p : phase) (d : watchdog) (s : session) : session :=
  {| sconn := sconn s; timeout := timeout s; sphase := p; dog := d; world := world s;
     sent := sent s; joined := joined s; writing := writing s |}.
Definition finished_with (errs : list error) (s : session) : session :=
  {| sconn := sconn s; timeout := timeout s; sphase := Idle; dog := NoDog; world := world s;
     sent := sent s; joined := errs; writing := writing s |}.

Definition with_write (c : conn) (st : option started_write) (w : World) (s : session) : session :=
  {| sconn := Some c; timeout := timeout s; sphase := sphase s; dog := dog s; world := w;
     sent := sent s; joined := joined s; writing := st |}.
Definition start_write (l : look) (g : guardedConn) : started_write :=
  {| started_at := clock (at_now l); started_ended := ended (at_err l); started_canceled := canceledErr g |}.

(** Some of the data of [st] goes out at [w]; it is recorded if a request is
    bound. *)
Definition send_data (st : started_write) (w : World) (c : conn) (s : session) : session :=
  let data := {| sent_by := st; sent_at := clock w; sent_max := maxDeadline (guard c);
                 sent_canceled := canceledErr (guard c) |} in
  {| sconn := Some c; timeout := timeout s; sphase := sphase s; dog := dog s; world := w;
     sent := match ctx (guard c) with None => sent s | Some _ => data :: sent s end;
     joined := joined s; writing := writing s |}.

(** The dialer that the protocol library's [Connect] calls: a connection that was
    opened is guarded before the library sees it. *)
Definition dial (err : option error) (s : session) : session :=
  match err with
  | Some _ => s
  | None => with_conn (Some newGuardedConn) s
  end.

(** ** Steps

    The client owns the session, so [Connect], [Close] and [BeginRequest]
    happen between requests; and the goroutine that calls the library waits for
    it, so it takes no step of its own while a [Write] is in progress. *)
Inductive session_step : session → session → Prop :=
| step_connect s err :
    sphase s = Idle → writing s = None → session_step s (dial err s)
| step_close s :
    sphase s = Idle → writing s = None → session_step s (with_conn None s)
| step_time s w :
    later (world s) w → session_step s (with_world w s)
| step_begin_unconnected s e0 attemptTimeout :
    sphase s = Idle → writing s = None → sconn s = None →
    session_step s {| sconn := None; timeout := attemptTimeout; sphase := Unconnected; dog := NoDog;
                      world := {| clock := clock (world s); ended := e0 |}; sent := sent s;
                      joined := joined s; writing := writing s |}
| step_begin s c e0 attemptTimeout deadline now wa wb l w bindErr :
    sphase s = Idle → writing s = None → sconn s = Some c →
    0 < attemptTimeout → (∀ d, deadline = Some d → 0 < d) →
    clock (world s) ≤ now →
    later {| clock := now; ended := e0 |} wa → later wa wb → looks wb l w →
    session_step s
      {| sconn := Some (bind deadline (request_deadline now attemptTimeout deadline) wa wb l c);
         timeout := attemptTimeout; sphase := Active bindErr; dog := Running; world := w;
         sent := sent s; joined := joined s; writing := writing s |}
| step_set_deadline s l d w :
    looks (world s) l w → session_step s (on_conn (SetDeadline l d) w s)
| step_set_read_deadline s l d w :
    looks (world s) l w → session_step s (on_conn (SetReadDeadline l d) w s)
| step_set_write_deadline s l d w :
    looks (world s) l w → session_step s (on_conn (SetWriteDeadline l d) w s)
| step_write s c c' l w :
    (∀ b, sphase s ≠ Finishing b) → writing s = None → sconn s = Some c →
    looks (world s) l w → Write l c = inr c' →
    session_step s (with_write c' (Some (start_write l (guard c))) w s)
| step_write_refused s c e l w :
    (∀ b, sphase s ≠ Finishing b) → writing s = None → sconn s = Some c →
    looks (world s) l w → Write l c = inl e →
    session_step s (with_world w s)
| step_send s c st w :
    writing s = Some st → sconn s = Some c → later (world s) w → can_send w c = true →
    session_step s (send_data st w c s)
| step_write_returns s c st :         (* all of it was sent, or not *)
    writing s = Some st → sconn s = Some c →
    session_step s (with_write c None (world s) s)
| step_dog_cancel s e now err :
    dog s = Running → ended (world s) = Some e → clock (world s) ≤ now →
    session_step s
      (with_control (sphase s) (Stopped err)
         (on_conn (cancel e now) {| clock := now; ended := ended (world s) |} s))
| step_dog_stop s bindErr :
    dog s = Running → sphase s = Finishing bindErr →
    session_step s (with_control (sphase s) (Stopped None) s)
| step_finish_unconnected s :
    sphase s = Unconnected → writing s = None → session_step s (finished_with [] s)
| step_stop s bindErr :
    sphase s = Active bindErr → writing s = None → session_step s (with_control (Finishing bindErr) (dog s) s)
| step_finish s bindErr watchdogErr :
    sphase s = Finishing bindErr → dog s = Stopped watchdogErr →
    session_step s
      (finished_with (omap id [bindErr; watchdogErr]) (on_conn unbind (world s) s)).

(** A new session, at [now]. *)
Definition newTCPSession (attemptTimeout now : Z) : session :=
  {| sconn := None; timeout := attemptTimeout; sphase := Idle; dog := NoDog;
     world := {| clock := now; ended := None |}; sent := []; joined := []; writing := None |}.

Inductive session_reachable (now : Z) : session → Prop :=
| session_init attemptTimeout : session_reachable now (newTCPSession attemptTimeout now)
| session_next s s' : session_reachable now s → session_step s s' → session_reachable now s'.

(** * The invariant *)

(** A deadline that is set and does not outlive the request. *)
Definition within_request (g : guardedConn) (w : World) (d : Z) : Prop :=
  d ≠ 0 ∧ (d ≤ maxDeadline g ∨ d ≤ clock w).

(** The request's context has ended with [e]. *)
Definition ended_with (deadline : option Z) (w : World) (e : error) : Prop :=
  ended w = Some e ∨
  e = ErrSentinel DeadlineExceeded ∧ ∃ d, deadline = Some d ∧ d ≤ clock w.

Record bound_ok (w : World) (c : conn) : Prop := {
  bo_ctx : ∃ deadline, ctx (guard c) = Some deadline ∧
    ∀ e, canceledErr (guard c) = Some e → ended_with deadline w e;
  bo_max : maxDeadline (guard c) ≠ 0;
  bo_read : within_request (guard c) w (readDeadline c);
  bo_write : within_request (guard c) w (writeDeadline c);
  bo_released : canceledErr (guard c) ≠ None →
    readDeadline c ≤ clock w ∧ writeDeadline c ≤ clock w;
}.

Definition request_ok (s : session) : Prop :=
  dog s ≠ NoDog ∧ ∃ c, sconn s = Some c ∧ bound_ok (world s) c ∧
    ((∃ b, sphase s = Active b) → ∀ r, dog s = Stopped r → canceledErr (guard c) ≠ None).

(** The [Write] was entered while the request was live, by the clock, by its
    context and by the watchdog. *)
Definition live_write (max : Z) (st : started_write) : Prop :=
  started_at st < max ∧ started_ended st = None ∧ started_canceled st = None.

(** Data that went out in time, for a live request. *)
Definition sent_in_time (r : sent_data) : Prop :=
  live_write (sent_max r) (sent_by r) ∧ started_at (sent_by r) ≤ sent_at r < sent_max r ∧
  sent_canceled r = None.

(** A [Write] in progress. *)
Definition writing_ok (s : session) (st : started_write) : Prop :=
  (∀ b, sphase s ≠ Finishing b) ∧
  ∀ c, sconn s = Some c → ctx (guard c) ≠ None →
    live_write (maxDeadline (guard c)) st ∧ started_at st ≤ clock (world s).

Record session_inv (s : session) : Prop := {
  vi_clock : unix_1 ≤ clock (world s);
  vi_phase : match sphase s with
             | Idle => dog s = NoDog ∧ ∀ c, sconn s = Some c → ctx (guard c) = None
             | Unconnected => dog s = NoDog ∧ sconn s = None
             | Active _ | Finishing _ => request_ok s
             end;
  vi_sent : Forall sent_in_time (sent s);
  vi_writing : ∀ st, writing s = Some st → writing_ok s st;
}.

Lemma later_refl w : later w w.
Proof. split; [done|by right]. Qed.

Lemma later_trans w1 w2 w3 : later w1 w2 → later w2 w3 → later w1 w3.
Proof.
  intros [? H1] [? H2]. split; [lia|]. destruct H1 as [|H1]; [by left|].
  destruct H2 as [H2|H2]; [left|right]; congruence.
Qed.

Lemma looks_later w l w' : looks w l w' → later w w'.
Proof. intros (? & ? & ? & ?). eauto using later_trans. Qed.

Lemma later_ended_with dl w w' e : later w w' → ended_with dl w e → ended_with dl w' e.
Proof.
  intros [Hc He] [H|(-> & d & ? & ?)]; [left|right].
  - destruct He; congruence.
  - split; [done|]. exists d. split; [done|lia].
Qed.

Lemma context_error_ended dl wa wb w e :
  later wa w → clock wb ≤ clock w → context_error dl wa wb = Some e → ended_with dl w e.
Proof.
  intros [_ Ha] Hb. unfold context_error. destruct (ended wa) eqn:E.
  - intros [= ->]. left. destruct Ha; congruence.
  - destruct dl as [d|]; [|done]. case_decide; [done|]. intros [= <-]. right.
    split; [done|]. exists d. split; [done|lia].
Qed.

Lemma within_later g w w' d : later w w' → within_request g w d → within_request g w' d.
Proof. intros [? _] [? ?]. split; [done|lia]. Qed.

(** A clamped deadline stays within the request, and a request that was
    cancelled has only past deadlines. *)
Lemma clamp_within l g w w' d :
  ctx g ≠ None → maxDeadline g ≠ 0 → looks w l w' → unix_1 ≤ clock w →
  within_request g w' (clampDeadlineLocked l g d).
Proof.
  intros Hctx Hm Hl Hu. apply looks_later in Hl as [Hl _]. unfold within_request, clampDeadlineLocked.
  destruct (requestErrorLocked l g); [split; [done|lia]|].
  rewrite bool_decide_true by done. cbn [andb].
  destruct (time_IsZero d) eqn:Hz; [split; [done|by left]|].
  apply bool_decide_eq_false in Hz. unfold time_zero in Hz. cbn [orb].
  case_bool_decide; split; auto; lia.
Qed.

Lemma clamp_released l g w w' d :
  ctx g ≠ None → canceledErr g ≠ None → looks w l w' → unix_1 ≤ clock w →
  clampDeadlineLocked l g d ≤ clock w'.
Proof.
  intros Hctx Hc Hl Hu. apply looks_later in Hl as [Hl _].
  unfold clampDeadlineLocked, requestErrorLocked.
  destruct (ctx g); [|done]. destruct (canceledErr g); [lia|done].
Qed.

Lemma bound_later w w' c : later w w' → bound_ok w c → bound_ok w' c.
Proof.
  intros Hl [(dl & Hctx & He) Hm Hr Hw Hrel]. split; eauto using within_later.
  - exists dl. split; [done|]. intros e ?. by eapply later_ended_with, He.
  - intros Hc. destruct (Hrel Hc), Hl. lia.
Qed.

(** Setting deadlines through the guard. *)
Lemma bound_set w l w' dr dw c (r := if dr is Some d then clampDeadlineLocked l (guard c) d else readDeadline c)
    (v := if dw is Some d then clampDeadlineLocked l (guard c) d else writeDeadline c) :
  looks w l w' → unix_1 ≤ clock w → bound_ok w c → bound_ok w' (with_deadlines r v c).
Proof.
  intros Hl Hu Hb. apply (bound_later _ w') in Hb as [(dl & Hctx & He) Hm Hr Hw Hrel];
    [|by eapply looks_later].
  assert (Hc : ctx (guard c) ≠ None) by congruence.
  split; cbn; eauto.
  - subst r. destruct dr; [by eapply clamp_within|done].
  - subst v. destruct dw; [by eapply clamp_within|done].
  - intros Hce. destruct (Hrel Hce). subst r v.
    split; [destruct dr|destruct dw]; by eauto using clamp_released.
Qed.

Lemma bound_bind w l w' wa wb deadline max c :
  looks wb l w' → later wa wb → later w wa → unix_1 ≤ clock w → max ≠ 0 →
  bound_ok w' (bind deadline max wa wb l c).
Proof.
  intros Hl Hab Hwa Hu Hm. pose proof (looks_later _ _ _ Hl) as Hbw.
  assert (unix_1 ≤ clock wb) by (destruct Hab, Hwa; lia).
  unfold bind, SetDeadline. split; cbn; try done.
  - exists deadline. split; [done|]. intros e. apply context_error_ended; [|by destruct Hbw].
    by eapply later_trans.
  - by eapply clamp_within.
  - by eapply clamp_within.
  - intros Hc. split; by eapply clamp_released.
Qed.

Lemma bound_cancel w e now c :
  unix_1 ≤ clock w → clock w ≤ now → ended w = Some e → bound_ok w c →
  bound_ok {| clock := now; ended := ended w |} (cancel e now c) ∧
  canceledErr (guard (cancel e now c)) ≠ None.
Proof.
  intros Hu Hn He [(dl & Hctx & _) Hm Hr Hw _]. unfold cancel. rewrite Hctx. split; [|done].
  assert (now ≠ 0) by (unfold unix_1, second in Hu; lia).
  split; cbn; try done.
  - exists dl. split; [done|]. intros e' [= <-]. by left.
  - split; [done|right; cbn; lia].
  - split; [done|right; cbn; lia].
Qed.

(** ** Preservation *)

Lemma newTCPSession_inv tmo now : unix_1 ≤ now → session_inv (newTCPSession tmo now).
Proof. intros ?. split; cbn; [done| |done|done]. split; [done|]. by intros. Qed.

(** Steps that change the connection and let time pass, but neither who
    controls it nor what it is bound to. *)
Lemma inv_on_conn f w s :
  session_inv s → later (world s) w →
  (∀ c, ctx (guard (f c)) = ctx (guard c) ∧ maxDeadline (guard (f c)) = maxDeadline (guard c)) →
  (∀ c, bound_ok (world s) c → bound_ok w (f c) ∧ canceledErr (guard (f c)) = canceledErr (guard c)) →
  session_inv (on_conn f w s).
Proof.
  intros [Hu Hp Hs Hwr] Hl Hn Hb. split; cbn; [destruct Hl; lia| |done|].
  - assert (Hreq : request_ok s → request_ok (on_conn f w s)).
    { intros (Hd & c & Hc & Hbo & Hst). split; [done|]. exists (f c). cbn. rewrite Hc.
      destruct (Hb c Hbo) as [? He]. split; [done|]. split; [done|]. rewrite He. done. }
    destruct (sphase s); cbn in *; eauto.
    + destruct Hp as [? Hp]. split; [done|]. intros c (c0 & Hc & ->)%fmap_Some_1.
      rewrite (proj1 (Hn c0)). eauto.
    + destruct Hp as [? ->]. done.
  - intros st Hst. destruct (Hwr st Hst) as [Hf Hlive]. split; [done|].
    cbn. intros c (c0 & Hc & ->)%fmap_Some_1. destruct (Hn c0) as [-> ->]. intros Hx.
    destruct (Hlive c0 Hc Hx). destruct Hl. split; [done|lia].
Qed.

Lemma inv_time w s : session_inv s → later (world s) w → session_inv (with_world w s).
Proof. intros Hi Hl. apply inv_on_conn; [done..|]. intros c Hb. split; [by eapply bound_later|done]. Qed.

Lemma inv_set f w l s :
  session_inv s → looks (world s) l w →
  (∀ c, guard (f c) = guard c) →
  (∀ c, bound_ok (world s) c → bound_ok w (f c)) → session_inv (on_conn f w s).
Proof.
  intros Hi Hl Hg Hb. apply inv_on_conn; [done|by eapply looks_later|..].
  - intros c. by rewrite Hg.
  - intros c Hc. rewrite Hg. split; [by apply Hb|done].
Qed.

(** Who is bound when. *)
Lemma inv_unbound s c :
  session_inv s → sconn s = Some c → ctx (guard c) = None ∨ bound_ok (world s) c.
Proof.
  intros [_ Hp _ _] Hc. destruct (sphase s).
  - left. by apply Hp.
  - destruct Hp; congruence.
  - destruct Hp as (_ & c' & ? & ? & _). right. congruence.
  - destruct Hp as (_ & c' & ? & ? & _). right. congruence.
Qed.

Lemma inv_bound s c :
  session_inv s → sconn s = Some c → ctx (guard c) ≠ None → bound_ok (world s) c.
Proof. intros Hi Hc Hx. by destruct (inv_unbound s c Hi Hc). Qed.

Lemma write_passes l g :
  requestErrorLocked l g = None → ctx g ≠ None →
  canceledErr g = None ∧ ended (at_err l) = None ∧
  (maxDeadline g ≠ 0 → clock (at_now l) < maxDeadline g).
Proof.
  unfold requestErrorLocked. destruct (ctx g) as [dl|]; [|done]. intros H _.
  destruct (canceledErr g); [done|]. unfold context_error in H.
  destruct (ended (at_err l)); [done|]. split; [done|]. split; [done|].
  intros Hm. unfold time_IsZero in H. rewrite bool_decide_false in H by done.
  destruct dl as [d|]; repeat case_decide; repeat case_bool_decide; done.
Qed.

(** ** [Write]: the check, and the data on its way *)

(** Any state that differs from a good one in the [Write] in progress only. *)
Lemma inv_writing s c st w :
  session_inv (with_write c (writing s) w s) →
  (∀ st', st = Some st' → writing_ok (with_write c st w s) st') →
  session_inv (with_write c st w s).
Proof. intros [Hu Hp Hs _] Hst. by split. Qed.

Lemma inv_write s c c' l w :
  session_inv s → (∀ b, sphase s ≠ Finishing b) → sconn s = Some c → looks (world s) l w →
  Write l c = inr c' → session_inv (with_write c' (Some (start_write l (guard c))) w s).
Proof.
  intros Hi Hf Hc Hl Hw. unfold Write in Hw.
  destruct (requestErrorLocked l (guard c)) eqn:Hreq; [done|]. injection Hw as <-.
  set (f := λ c : conn, with_guard {| ctx := ctx (guard c); maxDeadline := maxDeadline (guard c);
    canceledErr := canceledErr (guard c); writeStarted := true |} c).
  change (with_guard _ c) with (f c). apply inv_writing.
  - assert (Heq : with_write (f c) (writing s) w s = on_conn f w s) by (unfold on_conn; by rewrite Hc).
    rewrite Heq. apply inv_on_conn; [done|by eapply looks_later|done|]. intros c0 Hb. split; [|done].
    apply (bound_later _ w) in Hb as []; [by split|by eapply looks_later].
  - intros st' [= <-]. split; [done|]. intros c0 [= <-] Hx. cbn in Hx |- *.
    pose proof (inv_bound s c Hi Hc Hx) as Hb. destruct (write_passes _ _ Hreq Hx) as (? & ? & Hlt).
    split; [|by destruct Hl as (_ & _ & _ & ? & _)].
    split; [apply Hlt, (bo_max _ _ Hb)|done].
Qed.

(** Data that goes out does so before the deadlines that cover it. *)
Lemma inv_send s c st w :
  session_inv s → writing s = Some st → sconn s = Some c → later (world s) w →
  can_send w c = true → session_inv (send_data st w c s).
Proof.
  intros Hi Hst Hc Hl Hsend. destruct (vi_writing _ Hi st Hst) as [Hf Hlive].
  pose proof (inv_time w s Hi Hl) as [Hu Hp Hs Hwr].
  assert (Heq : sconn (with_world w s) = Some c) by (cbn; by rewrite Hc).
  split; cbn in *; [done| | |].
  - unfold request_ok in *. cbn in *. by rewrite Hc in Hp.
  - destruct (ctx (guard c)) eqn:Hx; [|done]. constructor; [|done].
    assert (Hx' : ctx (guard c) ≠ None) by congruence.
    pose proof (bound_later _ _ _ Hl (inv_bound s c Hi Hc Hx')) as [_ _ _ [Hz Hwd] Hrel].
    unfold can_send in Hsend. apply orb_true_iff in Hsend as [Hsend|Hsend];
      apply bool_decide_eq_true in Hsend; [done|].
    destruct (Hlive c Hc Hx') as [? ?], Hl as [? _]. split; cbn; [done|]. split; [lia|].
    destruct (canceledErr (guard c)); [|done]. destruct Hrel as [_ ?]; [done|]. lia.
  - intros st' Hst'. rewrite Hst in Hst'. injection Hst' as <-. split; [done|].
    cbn. intros c' [= <-] Hx. destruct (Hlive c Hc Hx), Hl. split; [done|lia].
Qed.

(** ** The other steps *)

(** The watchdog expires the connection. *)
Lemma inv_cancel s e now err :
  session_inv s → dog s = Running → ended (world s) = Some e → clock (world s) ≤ now →
  session_inv (with_control (sphase s) (Stopped err)
    (on_conn (cancel e now) {| clock := now; ended := ended (world s) |} s)).
Proof.
  intros Hi Hd He Hn. assert (Hr : request_ok s).
  { destruct Hi as [_ Hph _ _]. destruct (sphase s); try done; destruct Hph; congruence. }
  destruct Hr as (_ & c & Hc & Hb & _).
  destruct (bound_cancel (world s) e now c) as [Hb' Hce]; [apply Hi|done..|].
  split; cbn; [pose proof (vi_clock _ Hi); lia| |apply Hi|].
  - assert (Hok : request_ok (with_control (sphase s) (Stopped err)
      (on_conn (cancel e now) {| clock := now; ended := ended (world s) |} s))).
    { split; [done|]. exists (cancel e now c). cbn. rewrite Hc. split; [done|]. split; [done|]. by intros. }
    destruct Hi as [_ Hph _ _]. destruct (sphase s); try done; destruct Hph; congruence.
  - intros st Hst. destruct (vi_writing _ Hi st Hst) as [Hf Hlive]. split; [done|].
    cbn. rewrite Hc. intros c' [= <-] _. destruct (bo_ctx _ _ Hb) as (dl & Hx & _).
    unfold cancel. rewrite Hx. cbn. destruct (Hlive c Hc) as [? ?]; [congruence|]. split; [done|lia].
Qed.

(** A request is bound to the connection. *)
Lemma inv_begin s c e0 attemptTimeout deadline now wa wb l w bindErr :
  session_inv s → writing s = None → sconn s = Some c →
  0 < attemptTimeout → (∀ d, deadline = Some d → 0 < d) → clock (world s) ≤ now →
  later {| clock := now; ended := e0 |} wa → later wa wb → looks wb l w →
  session_inv
    {| sconn := Some (bind deadline (request_deadline now attemptTimeout deadline) wa wb l c);
       timeout := attemptTimeout; sphase := Active bindErr; dog := Running; world := w;
       sent := sent s; joined := joined s; writing := writing s |}.
Proof.
  intros [Hu Hph Hs _] Hno Hc Ht Hd Hn Hwa Hab Hl. pose proof (looks_later _ _ _ Hl) as Hbw.
  assert (unix_1 ≤ clock w) by (destruct Hwa, Hab, Hbw; cbn in *; lia).
  split; cbn; [done| |done|by rewrite Hno]. split; [done|]. eexists. split; [done|]. split; [|done].
  eapply bound_bind; [done..|cbn; lia|]. unfold request_deadline.
  assert (unix_1 > 0) by done.
  destruct deadline as [d|]; [|lia]. specialize (Hd d eq_refl). case_decide; lia.
Qed.

Lemma step_inv s s' : session_inv s → session_step s s' → session_inv s'.
Proof.
  intros Hi. pose proof Hi as [Hu Hph Hs Hwr].
  destruct 1 as [s err Hp Hno|s Hp Hno|s w Hl|s e0 tmo Hp Hno Hc
    |s c e0 tmo dl now wa wb l w be Hp Hno Hc Ht Hd Hn Hwa Hab Hl|s l d w Hl|s l d w Hl|s l d w Hl
    |s c c' l w Hf Hno Hc Hl Hw|s c e l w Hf Hno Hc Hl Hw|s c st w Hst Hc Hl Hsend|s c st Hst Hc
    |s e now err Hd He Hn|s be Hd Hp|s Hp Hno|s be Hp Hno|s be we Hp Hd].
  - destruct err as [e|]; [done|]. split; cbn; [done| |done|by rewrite Hno].
    rewrite Hp in *. split; [apply Hph|]. by intros c [= <-].
  - split; cbn; [done| |done|by rewrite Hno]. rewrite Hp in *. by split; [apply Hph|].
  - by apply inv_time.
  - split; cbn; [done|done|done|by rewrite Hno].
  - by eapply inv_begin.
  - eapply inv_set; [done..|]. intros c Hb. eapply (bound_set _ l w (Some d) (Some d)); done.
  - eapply inv_set; [done..|]. intros c Hb. eapply (bound_set _ l w (Some d) None); done.
  - eapply inv_set; [done..|]. intros c Hb. eapply (bound_set _ l w None (Some d)); done.
  - by eapply inv_write.
  - apply inv_time; [done|by eapply looks_later].
  - by eapply inv_send.
  - apply inv_writing; [|done]. unfold with_write. rewrite <- Hc. by destruct s.
  - by apply inv_cancel.
  - split; cbn; [done| |done|].
    + rewrite Hp in *. destruct Hph as (_ & c & ? & ? & _). split; [done|]. exists c.
      split; [done|]. split; [done|]. intros [b Hb]. cbn in Hb. congruence.
    + intros st Hst. by destruct (Hwr st Hst).
  - rewrite Hp in Hph. destruct Hph as [_ Hc]. split; cbn; [done| |done|by rewrite Hno].
    split; [done|]. intros c. by rewrite Hc.
  - split; cbn; [done| |done|by rewrite Hno]. rewrite Hp in Hph. destruct Hph as (Hd & c & ? & ? & _).
    split; [done|]. exists c. split; [done|]. split; [done|]. by intros [b Hb].
  - split; cbn; [done| |done|]; [split; [done|]; by intros c (c0 & _ & ->)%fmap_Some_1|].
    intros st Hst. destruct (Hwr st Hst) as [Hf _]. by destruct (Hf be).
Qed.

Lemma session_reachable_inv now s : unix_1 ≤ now → session_reachable now s → session_inv s.
Proof. intros Hn. induction 1; [by apply newTCPSession_inv|by eapply step_inv]. Qed.

(** * SendRaw

    The protocol library's coding and transport are arguments. *)

Record ProtocolDataUnit := { pdu_FunctionCode : Z; pdu_Data : list Z }.

Section SendRaw.
Context (Encode : ProtocolDataUnit → list Z + error) (Send : list Z → list Z + error)
  (Verify : list Z → list Z → option error) (Decode : list Z → ProtocolDataUnit + error).

(** The check that tells a normal response from an exception. *)
Definition raw_response (request response : ProtocolDataUnit) : list Z + error :=
  if decide (pdu_FunctionCode response ≠ pdu_FunctionCode request) then
    inr (ErrGridModbus (pdu_FunctionCode response)
           (match pdu_Data response with code :: _ => code | [] => 0 end))
  else inl (pdu_FunctionCode response :: pdu_Data response).

Definition SendRaw (pdu : list Z) : go (list Z + error) :=
  if decide (len pdu < 1) then Ret (inr (ErrText "empty pdu" []))
  else
    fc ← pdu @[ 0 ];
    data ← go_from pdu 1;
    let request := {| pdu_FunctionCode := fc; pdu_Data := data |} in
    match Encode request with
    | inr err => Ret (inr err)
    | inl aduRequest =>
      match Send aduRequest with
      | inr err => Ret (inr err)
      | inl aduResponse =>
        match Verify aduRequest aduResponse with
        | Some err => Ret (inr err)
        | None =>
          match Decode aduResponse with
          | inr err => Ret (inr err)
          | inl response => Ret (raw_response request response)
          end
        end
      end
    end.

(** The device answered the request's frame with a frame that verifies and decodes. *)
Definition answered (request response : ProtocolDataUnit) : Prop :=
  ∃ adu adu', Encode request = inl adu ∧ Send adu = inl adu' ∧ Verify adu adu' = None ∧
    Decode adu' = inl response.

#[local] Ltac refute := intros (? & ? & ? & ? & ? & ? & ?); congruence.

Lemma SendRaw_cons fc data :
  (∃ err, SendRaw (fc :: data) = Ret (inr err) ∧
     ¬ ∃ response, answered {| pdu_FunctionCode := fc; pdu_Data := data |} response) ∨
  (∃ response, answered {| pdu_FunctionCode := fc; pdu_Data := data |} response ∧
     SendRaw (fc :: data) = Ret (raw_response {| pdu_FunctionCode := fc; pdu_Data := data |} response)).
Proof.
  unfold SendRaw. rewrite decide_False by len_lia. rewrite (go_index_lookup _ 0 fc) by done.
  assert (Hf : go_from (fc :: data) 1 = Ret data).
  { unfold go_from. pose proof (go_slice_app [fc] data [] 1 (len (fc :: data))) as E.
    rewrite app_nil_r in E. apply E; len_lia. }
  rewrite Hf. go_simpl. unfold answered.
  destruct (Encode _) as [adu|e] eqn:He; [|left; exists e; split; [done|refute]].
  destruct (Send adu) as [adu'|e] eqn:Hs; [|left; exists e; split; [done|refute]].
  destruct (Verify adu adu') as [e|] eqn:Hv; [left; exists e; split; [done|refute]|].
  destruct (Decode adu') as [resp|e] eqn:Hd; [|left; exists e; split; [done|refute]].
  right. exists resp. split; [|done]. by exists adu, adu'.
Qed.

End SendRaw.

(** * Properties *)


(** C20 Requests on one session do not interfere: between requests no watchdog
    of an earlier request is alive and the connection is unbound, so a late
    cancellation never hits the next request; and ending a request never
    blocks: once [stop] is closed, at most two steps of the watchdog and the
    caller lead back to the idle session, whatever the context does. *)
Theorem request_isolation (now : Z) (s : session)
    (Hn : unix_1 ≤ now) (Hr : session_reachable now s) :
  (sphase s = Idle → dog s = NoDog ∧ ∀ c, sconn s = Some c → ctx (guard c) = None) ∧
  (∀ b, sphase s = Finishing b →
     ∃ s1 s2, (s1 = s ∨ session_step s s1) ∧ session_step s1 s2 ∧ sphase s2 = Idle).
Proof.
  apply session_reachable_inv in Hr as [_ Hp _ _]; [|done].
  split; [by intros E; rewrite E in Hp|]. intros b E. pose proof Hp as Hr. rewrite E in Hr.
  destruct Hr as [Hd _]. destruct (dog s) as [| |r] eqn:Hdog; [done| |].
  - eexists _, _. split; [right; by eapply step_dog_stop|]. split; [by eapply step_finish|done].
  - exists s. eexists. split; [by left|]. split; [by eapply step_finish|done].
Qed.

(** [SendRaw] passes an opaque request through: it never panics, an empty
    PDU is refused, and otherwise the answer is the decoded response with its
    function code in front if that is the request's own, or else the device's
    exception with its code (0 if the response has no data); an error of the
    library is returned exactly when there is no such response. *)
Theorem SendRaw_answers (Encode : ProtocolDataUnit → list Z + error) (Send : list Z → list Z + error)
    (Verify : list Z → list Z → option error) (Decode : list Z → ProtocolDataUnit + error)
    (request : ProtocolDataUnit) :
  SendRaw Encode Send Verify Decode [] = Ret (inr (ErrText "empty pdu" [])) ∧
  (∀ response, answered Encode Send Verify Decode request response →
     SendRaw Encode Send Verify Decode (pdu_FunctionCode request :: pdu_Data request) = Ret (
       if decide (pdu_FunctionCode response = pdu_FunctionCode request)
       then inl (pdu_FunctionCode request :: pdu_Data response)
       else inr (ErrGridModbus (pdu_FunctionCode response) (hd 0 (pdu_Data response))))) ∧
  ((¬ ∃ response, answered Encode Send Verify Decode request response) →
     ∃ err, SendRaw Encode Send Verify Decode (pdu_FunctionCode request :: pdu_Data request) =
            Ret (inr err)).
Proof.
  split; [done|]. destruct request as [fc data]. cbn [pdu_FunctionCode pdu_Data].
  destruct (SendRaw_cons Encode Send Verify Decode fc data) as [(err & E & Hno)|(resp & Ha & E)].
  - split; [intros resp Ha; by destruct Hno; exists resp|eauto].
  - split; [|intros Hno; destruct Hno; by exists resp]. intros resp' Ha'.
    assert (resp' = resp) as ->.
    { destruct Ha as (? & ? & ? & ? & ? & ?), Ha' as (? & ? & ? & ? & ? & ?). congruence. }
    rewrite E. unfold raw_response. cbn [pdu_FunctionCode].
    destruct (decide (pdu_FunctionCode resp = fc)) as [H1|H1].
    + rewrite decide_False by tauto. by rewrite H1.
    + rewrite decide_True by done. by destruct (pdu_Data resp).
Qed.

(** ** The theorems at a sample run *)

Definition day_one : Z := unix_1 + minute.
Definition at_day_one : World := {| clock := day_one; ended := None |}.
Definition same_look (w : World) : look := {| at_err := w; at_deadline := w; at_now := w |}.

Lemma looks_same w : looks w (same_look w) w.
Proof. split_and!; apply later_refl. Qed.

(** Connect and begin a request of ten seconds. *)
Definition sample_conn : conn :=
  bind None (request_deadline day_one (10 * second) None) at_day_one at_day_one
    (same_look at_day_one) newGuardedConn.

Definition sample_active : session :=
  {| sconn := Some sample_conn; timeout := 10 * second; sphase := Active None; dog := Running;
     world := at_day_one; sent := []; joined := []; writing := None |}.

(** Pass the check, send a second later, and let the library ask for a deadline
    of an hour. *)
Definition sample_writing : session :=
  with_write (with_guard {| ctx := Some None; maxDeadline := day_one + 10 * second;
                            canceledErr := None; writeStarted := true |} sample_conn)
    (Some (start_write (same_look at_day_one) (guard sample_conn))) at_day_one sample_active.

Definition a_second_later : World := {| clock := day_one + second; ended := None |}.
Definition sample_written : session :=
  match sconn sample_writing, writing sample_writing with
  | Some c, Some st => with_write c None a_second_later (send_data st a_second_later c sample_writing)
  | _, _ => sample_writing
  end.

Definition sample_session : session :=
  on_conn (SetDeadline (same_look a_second_later) (day_one + 60 * minute)) a_second_later sample_written.

Lemma sample_session_reachable : session_reachable day_one sample_session.
Proof.
  eapply session_next; [|apply step_set_deadline, looks_same].
  eapply session_next; [|by eapply step_write_returns].
  eapply session_next; [|eapply (step_send sample_writing); [reflexivity..| |reflexivity];
    split; [vm_compute; discriminate|by left]].
  eapply session_next; [|by eapply (step_write sample_active sample_conn); [| | |apply looks_same|]].
  eapply session_next; [eapply session_next; [apply (session_init _ (10 * second))|by apply (step_connect _ None)]|].
  apply (step_begin (with_conn (Some newGuardedConn) (newTCPSession (10 * second) day_one)) newGuardedConn None
    (10 * second) None day_one at_day_one at_day_one (same_look at_day_one) at_day_one None);
    try apply later_refl; try apply looks_same; done.
Qed.


Lemma request_isolation_witness :
  ∃ s1 s2, (s1 = with_control (Finishing None) Running sample_session ∨
            session_step (with_control (Finishing None) Running sample_session) s1) ∧
    session_step s1 s2 ∧ sphase s2 = Idle.
Proof.
  apply (request_isolation day_one (with_control (Finishing None) Running sample_session))
    with (b := None); [vm_compute; congruence| |reflexivity].
  eapply session_next; [exact sample_session_reachable|].
  exact (step_stop sample_session None eq_refl eq_refl).
Defined.

(** A device that answers function 0x2B with exception 4 and echoes the rest;
    frames are PDUs without a header. *)
Definition sample_encode (p : ProtocolDataUnit) : list Z + error :=
  inl (pdu_FunctionCode p :: pdu_Data p).
Definition sample_send (adu : list Z) : list Z + error :=
  inl (match adu with 0x2B :: _ => [0xAB; 4] | _ => adu end).
Definition sample_decode (adu : list Z) : ProtocolDataUnit + error :=
  match adu with
  | fc :: data => inl {| pdu_FunctionCode := fc; pdu_Data := data |}
  | [] => inr (ErrText "short frame" [])
  end.

Lemma SendRaw_answers_witness :
  SendRaw sample_encode sample_send (λ _ _, None) sample_decode [0x41; 7; 8] =
    Ret (inl [0x41; 7; 8]) ∧
  SendRaw sample_encode sample_send (λ _ _, None) sample_decode [0x2B; 14] =
    Ret (inr (ErrGridModbus 0xAB 4)).
Proof.
  destruct (SendRaw_answers sample_encode sample_send (λ _ _, None) sample_decode
    {| pdu_FunctionCode := 0x41; pdu_Data := [7; 8] |}) as (_ & H1 & _).
  destruct (SendRaw_answers sample_encode sample_send (λ _ _, None) sample_decode
    {| pdu_FunctionCode := 0x2B; pdu_Data := [14] |}) as (_ & H2 & _).
  split.
  - apply (H1 {| pdu_FunctionCode := 0x41; pdu_Data := [7; 8] |}).
    exists [0x41; 7; 8], [0x41; 7; 8]. repeat split.
  - apply (H2 {| pdu_FunctionCode := 0xAB; pdu_Data := [4] |}).
    exists [0x2B; 14], [0xAB; 4]. repeat split.
Defined.
