(* ===== verification/Lifecycle.v ===== *)
(** The life of the server and of the proxy around it: [Listen], [Serve],
    [Close], [Wait] and the registration of connections (internal/modbus/server.go),
    [Run] and [Shutdown] (internal/proxy/proxy.go) in the order main calls them
    (cmd/mbproxy/main.go).

    A step relation interleaves the goroutine of [Run], the connection
    handlers and the goroutine of [Shutdown].  Each step is one critical
    section, system call or channel operation.  What a handler does between
    its registration and its end is [handleConn] of Server.v; here its loop may
    end at any moment, and that it does end is [handleConn_terminates]. *)

From stdpp Require Import base numbers fin_sets gmap.
From S2P Require Import Prelude.

(** * The state *)

Inductive listener_state := NoListener | Open | Closed.

(** Where [Run] is. *)
Inductive serve_pc :=
| Starting                  (* before [Listen] *)
| Connecting                (* before the initial upstream connection *)
| Accepting
| AcceptFailed              (* [Accept] returned an error *)
| Accepted (c : nat)        (* before the section that registers the connection *)
| Registered (c : nat)      (* in [conns], before [wg.Add] *)
| Counted (c : nat)         (* before the [go] statement *)
| Stopped.

(** Where [Shutdown] is. *)
Inductive shutdown_pc :=
| NotCalled
| FlagSet                   (* [Close] has left its section, the listener is still open *)
| Waiting                   (* in the select *)
| StopCache
| StopClient
| Finished.

#[global] Instance shutdown_pc_eq_dec : EqDecision shutdown_pc.
Proof. solve_decision. Defined.

Record server := {
  listener : listener_state;
  conns : gset nat;
  shutdown : bool;
  wg : Z;
  serve : serve_pc;
  stopping : shutdown_pc;
  running : gset nat;       (* handlers in their loop *)
  closing : gset nat;       (* handlers that have closed their connection *)
  leaving : gset nat;       (* handlers that are no longer in [conns] *)
  closed_conns : gset nat;
  accepted : gset nat;
  cacheOpen : bool;
  clientOpen : bool;
}.

Definition init_server : server :=
  {| listener := NoListener; conns := ∅; shutdown := false; wg := 0; serve := Starting;
     stopping := NotCalled; running := ∅; closing := ∅; leaving := ∅; closed_conns := ∅;
     accepted := ∅; cacheOpen := true; clientOpen := true |}.

(** * Updates *)

Definition at_serve (pc : serve_pc) (s : server) : server :=
  {| listener := listener s; conns := conns s; shutdown := shutdown s; wg := wg s; serve := pc;
     stopping := stopping s; running := running s; closing := closing s; leaving := leaving s;
     closed_conns := closed_conns s; accepted := accepted s; cacheOpen := cacheOpen s;
     clientOpen := clientOpen s |}.
Definition at_shutdown (pc : shutdown_pc) (s : server) : server :=
  {| listener := listener s; conns := conns s; shutdown := shutdown s; wg := wg s;
     serve := serve s; stopping := pc; running := running s; closing := closing s;
     leaving := leaving s; closed_conns := closed_conns s; accepted := accepted s;
     cacheOpen := cacheOpen s; clientOpen := clientOpen s |}.
Definition with_listener (l : listener_state) (s : server) : server :=
  {| listener := l; conns := conns s; shutdown := shutdown s; wg := wg s; serve := serve s;
     stopping := stopping s; running := running s; closing := closing s; leaving := leaving s;
     closed_conns := closed_conns s; accepted := accepted s; cacheOpen := cacheOpen s;
     clientOpen := clientOpen s |}.
Definition with_accepted (c : nat) (s : server) : server :=
  {| listener := listener s; conns := conns s; shutdown := shutdown s; wg := wg s;
     serve := Accepted c; stopping := stopping s; running := running s; closing := closing s;
     leaving := leaving s; closed_conns := closed_conns s; accepted := {[c]} ∪ accepted s;
     cacheOpen := cacheOpen s; clientOpen := clientOpen s |}.
Definition with_conns (m : gset nat) (s : server) : server :=
  {| listener := listener s; conns := m; shutdown := shutdown s; wg := wg s; serve := serve s;
     stopping := stopping s; running := running s; closing := closing s; leaving := leaving s;
     closed_conns := closed_conns s; accepted := accepted s; cacheOpen := cacheOpen s;
     clientOpen := clientOpen s |}.
Definition with_wg (n : Z) (s : server) : server :=
  {| listener := listener s; conns := conns s; shutdown := shutdown s; wg := n; serve := serve s;
     stopping := stopping s; running := running s; closing := closing s; leaving := leaving s;
     closed_conns := closed_conns s; accepted := accepted s; cacheOpen := cacheOpen s;
     clientOpen := clientOpen s |}.
Definition close_conns (m : gset nat) (s : server) : server :=
  {| listener := listener s; conns := conns s; shutdown := shutdown s; wg := wg s;
     serve := serve s; stopping := stopping s; running := running s; closing := closing s;
     leaving := leaving s; closed_conns := m ∪ closed_conns s; accepted := accepted s;
     cacheOpen := cacheOpen s; clientOpen := clientOpen s |}.
Definition with_handlers (r c l : gset nat) (s : server) : server :=
  {| listener := listener s; conns := conns s; shutdown := shutdown s; wg := wg s;
     serve := serve s; stopping := stopping s; running := r; closing := c; leaving := l;
     closed_conns := closed_conns s; accepted := accepted s; cacheOpen := cacheOpen s;
     clientOpen := clientOpen s |}.
Definition set_shutdown (s : server) : server :=
  {| listener := listener s; conns := conns s; shutdown := true; wg := wg s; serve := serve s;
     stopping := stopping s; running := running s; closing := closing s; leaving := leaving s;
     closed_conns := closed_conns s; accepted := accepted s; cacheOpen := cacheOpen s;
     clientOpen := clientOpen s |}.
Definition with_open (cache client : bool) (s : server) : server :=
  {| listener := listener s; conns := conns s; shutdown := shutdown s; wg := wg s;
     serve := serve s; stopping := stopping s; running := running s; closing := closing s;
     leaving := leaving s; closed_conns := closed_conns s; accepted := accepted s;
     cacheOpen := cache; clientOpen := client |}.

(** * The operations, one section at a time *)

(** [Serve] after [Accept] returned connection [c]. *)
Definition serve_register (c : nat) (s : server) : server :=
  if shutdown s then at_serve Stopped (close_conns {[c]} s)
  else at_serve (Registered c) (with_conns ({[c]} ∪ conns s) s).

(** [Serve] after [Accept] returned an error. *)
Definition serve_accept_error (s : server) : server :=
  if shutdown s then at_serve Stopped s else at_serve Accepting s.

Definition serve_count (c : nat) (s : server) : server := at_serve (Counted c) (with_wg (wg s + 1) s).

Definition serve_spawn (c : nat) (s : server) : server :=
  at_serve Accepting (with_handlers ({[c]} ∪ running s) (closing s) (leaving s) s).

(** [handleConn]'s deferred function: close, unregister, [wg.Done]. *)
Definition handler_close (c : nat) (s : server) : server :=
  with_handlers (running s ∖ {[c]}) ({[c]} ∪ closing s) (leaving s) (close_conns {[c]} s).
Definition handler_unregister (c : nat) (s : server) : server :=
  with_handlers (running s) (closing s ∖ {[c]}) ({[c]} ∪ leaving s) (with_conns (conns s ∖ {[c]}) s).
Definition handler_done (c : nat) (s : server) : server :=
  with_handlers (running s) (closing s) (leaving s ∖ {[c]}) (with_wg (wg s - 1) s).

(** [Server.Close]: its section, then the listener. *)
Definition close_section (s : server) : server :=
  at_shutdown FlagSet (close_conns (conns s) (set_shutdown s)).
Definition close_listener (s : server) : server :=
  at_shutdown Waiting
    (match listener s with NoListener => s | _ => with_listener Closed s end).

Inductive server_step : server → server → Prop :=
(* Run *)
| listen_ok s :
    serve s = Starting → server_step s (at_serve Connecting (with_listener Open s))
| listen_error s :
    serve s = Starting → server_step s (at_serve Stopped s)
| connected s :                               (* the error is only logged *)
    serve s = Connecting → server_step s (at_serve Accepting s)
| accept_conn s c :
    serve s = Accepting → listener s = Open → c ∉ accepted s →
    server_step s (with_accepted c s)
| accept_error s :
    serve s = Accepting → server_step s (at_serve AcceptFailed s)
| after_error s :
    serve s = AcceptFailed → server_step s (serve_accept_error s)
| register_conn s c :
    serve s = Accepted c → server_step s (serve_register c s)
| count_conn s c :
    serve s = Registered c → server_step s (serve_count c s)
| spawn_handler s c :
    serve s = Counted c → server_step s (serve_spawn c s)
(* handlers: the loop ends, then the deferred function runs *)
| handler_ends s c :
    c ∈ running s → server_step s (handler_close c s)
| handler_unregisters s c :
    c ∈ closing s → server_step s (handler_unregister c s)
| handler_exits s c :
    c ∈ leaving s → server_step s (handler_done c s)
(* Shutdown *)
| shutdown_called s :
    stopping s = NotCalled → server_step s (close_section s)
| listener_closed s :
    stopping s = FlagSet → server_step s (close_listener s)
| all_done s :                                (* <-done: Wait has returned *)
    stopping s = Waiting → wg s = 0 → server_step s (at_shutdown StopCache s)
| shutdown_timeout s :
    stopping s = Waiting → server_step s (at_shutdown StopCache s)
| cache_closed s :
    stopping s = StopCache →
    server_step s (at_shutdown StopClient (with_open false (clientOpen s) s))
| client_closed s :
    stopping s = StopClient →
    server_step s (at_shutdown Finished (with_open (cacheOpen s) false s)).

Inductive server_reachable : server → Prop :=
| reach_init : server_reachable init_server
| reach_step s s' : server_reachable s → server_step s s' → server_reachable s'.

(** * The invariant *)

(** The connection [Serve] has accepted and not yet given to a handler, and
    whether it is registered. *)
Definition incoming (s : server) : gset nat :=
  match serve s with Accepted c | Registered c | Counted c => {[c]} | _ => ∅ end.
Definition pending (s : server) : gset nat :=
  match serve s with Registered c | Counted c => {[c]} | _ => ∅ end.
Definition counted (s : server) : nat := match serve s with Counted _ => 1 | _ => 0 end.

Definition handlers (s : server) : gset nat := running s ∪ closing s ∪ leaving s.

Record server_ok (s : server) : Prop := {
  so_conns : conns s = running s ∪ closing s ∪ pending s;
  so_running : running s ## closing s ∪ leaving s;
  so_closing : closing s ## leaving s;
  so_incoming : incoming s ## handlers s;
  so_accepted : incoming s ∪ handlers s ⊆ accepted s;
  so_ended : closing s ∪ leaving s ⊆ closed_conns s;
  so_closed : stopping s ≠ NotCalled → conns s ⊆ closed_conns s;
  so_wg : wg s = Z.of_nat (size (handlers s) + counted s);
}.

(** What the phases of [Shutdown] and [Run] imply. *)
Record phases_ok (s : server) : Prop := {
  po_shutdown : shutdown s = bool_decide (stopping s ≠ NotCalled);
  po_listener : listener s = NoListener → serve s = Starting ∨ serve s = Stopped;
  po_open : listener s = Open → serve s ≠ Starting;
  po_closing : listener s = Closed → serve s ≠ Starting ∧ stopping s ≠ NotCalled ∧ stopping s ≠ FlagSet;
  po_cache : cacheOpen s = bool_decide (stopping s ≠ StopClient ∧ stopping s ≠ Finished);
  po_client : clientOpen s = bool_decide (stopping s ≠ Finished);
}.

Lemma init_ok : server_ok init_server ∧ phases_ok init_server.
Proof. split; split; cbn; set_solver. Qed.

Ltac by_phase :=
  cbn in *; rewrite ?bool_decide_eq_true, ?bool_decide_eq_false in *;
  try done; intuition (try congruence; try done).

Lemma step_phases s s' : phases_ok s → server_step s s' → phases_ok s'.
Proof.
  intros [Hs Hl Ho Hc Hca Hcl]. destruct 1 as [s|s|s|s c|s|s|s c|s c|s c|s c|s c|s c|s|s|s|s|s|s];
    unfold serve_register, serve_accept_error, close_listener in *;
    repeat match goal with
    | H : stopping _ = _ |- _ => rewrite H in *
    | H : serve _ = _ |- _ => rewrite H in *
    end.
  all: try (split; by_phase; fail).
  - destruct (shutdown s) eqn:Esh; split; by_phase.
  - destruct (shutdown s) eqn:Esh; split; by_phase.
  - destruct (listener s) eqn:El; split; by_phase.
Qed.

(** Counting the handlers. *)
Lemma size_insert (c : nat) (X : gset nat) : c ∉ X → size ({[c]} ∪ X) = S (size X).
Proof. intros. rewrite size_union by set_solver. by rewrite size_singleton. Qed.

Lemma size_remove (c : nat) (X : gset nat) : c ∈ X → S (size (X ∖ {[c]})) = size X.
Proof.
  intros. rewrite <- (size_insert c (X ∖ {[c]})) by set_solver. f_equal.
  symmetry. rewrite (union_comm_L {[c]}). apply set_eq. intros x. destruct (decide (x = c)); set_solver.
Qed.

(** Moving a handler from one phase to the next. *)
Lemma move_union (c : nat) (X Y : gset nat) : c ∈ X → X ∖ {[c]} ∪ ({[c]} ∪ Y) = X ∪ Y.
Proof. intros. apply set_eq. intros x. destruct (decide (x = c)); set_solver. Qed.

Lemma remove_middle (c : nat) (X Y P : gset nat) :
  c ∉ X → c ∉ P → (X ∪ Y ∪ P) ∖ {[c]} = X ∪ Y ∖ {[c]} ∪ P.
Proof. set_solver. Qed.

(** Unfolds the accessors of an updated state. *)
Ltac server_simpl Hp :=
  split; unfold incoming, pending, counted, handlers; cbn; rewrite ?Hp; cbn; try assumption.

(** The operations that move a connection, one lemma each. *)
Lemma register_ok s c :
  phases_ok s → server_ok s → serve s = Accepted c → server_ok (serve_register c s).
Proof.
  intros [Hsh _ _ _ _ _] [Hcn Hr Hcl Hi Ha He Hc Hw] Hp.
  unfold serve_register, incoming, pending, counted, handlers in *. rewrite ?Hp in *. cbn in *.
  destruct (shutdown s) eqn:E; server_simpl Hp.
  - clear - Hi; set_solver.
  - clear - Ha; set_solver.
  - clear - He; set_solver.
  - intros H. specialize (Hc H). clear - Hc. set_solver.
  - clear - Hcn; set_solver.
  - symmetry in Hsh. by apply bool_decide_eq_false in Hsh.
Qed.

Lemma spawn_ok s c : server_ok s → serve s = Counted c → server_ok (serve_spawn c s).
Proof.
  intros [Hcn Hr Hcl Hi Ha He Hc Hw] Hp.
  unfold incoming, pending, counted, handlers in *. rewrite ?Hp in *. cbn in *.
  assert (Hsz : size ({[c]} ∪ running s ∪ closing s ∪ leaving s) =
    S (size (running s ∪ closing s ∪ leaving s))).
  { rewrite <- (size_insert c (running s ∪ closing s ∪ leaving s)) by (clear - Hi; set_solver).
    f_equal. clear. set_solver. }
  server_simpl Hp.
  - clear - Hcn; set_solver.
  - clear - Hr Hi; set_solver.
  - clear; set_solver.
  - clear - Ha; set_solver.
  - rewrite Hsz. lia.
Qed.

Lemma handler_close_ok s c : server_ok s → c ∈ running s → server_ok (handler_close c s).
Proof.
  intros [Hcn Hr Hcl Hi Ha He Hc Hw] Hp.
  unfold incoming, pending, counted, handlers in *. cbn in *.
  assert (Hh : running s ∖ {[c]} ∪ ({[c]} ∪ closing s) = running s ∪ closing s) by by apply move_union.
  server_simpl Hp; rewrite ?Hh; try assumption.
  - clear - Hr; set_solver.
  - clear - Hr Hcl Hp; set_solver.
  - clear - He; set_solver.
  - intros H. specialize (Hc H). clear - Hc. set_solver.
Qed.

Lemma unregister_ok s c : server_ok s → c ∈ closing s → server_ok (handler_unregister c s).
Proof.
  intros [Hcn Hr Hcl Hi Ha He Hc Hw] Hp.
  unfold incoming, pending, counted, handlers in *. cbn in *.
  assert (Hh : running s ∪ closing s ∖ {[c]} ∪ ({[c]} ∪ leaving s) = running s ∪ closing s ∪ leaving s).
  { rewrite <- (assoc_L (∪)), move_union by done. by rewrite (assoc_L (∪)). }
  server_simpl Hp; rewrite ?Hh; try assumption.
  - rewrite Hcn. apply remove_middle; [clear - Hr Hp; set_solver|].
    clear - Hi Hp. destruct (serve s); set_solver.
  - clear - Hr Hp; set_solver.
  - clear - Hcl; set_solver.
  - clear - He Hp; set_solver.
  - intros H. specialize (Hc H). clear - Hc. set_solver.
Qed.

Lemma handler_done_ok s c : server_ok s → c ∈ leaving s → server_ok (handler_done c s).
Proof.
  intros [Hcn Hr Hcl Hi Ha He Hc Hw] Hp.
  unfold incoming, pending, counted, handlers in *. cbn in *.
  assert (Hsz : S (size (running s ∪ closing s ∪ leaving s ∖ {[c]})) =
    size (running s ∪ closing s ∪ leaving s)).
  { rewrite <- (size_remove c (running s ∪ closing s ∪ leaving s)) by (clear - Hp; set_solver).
    do 2 f_equal. clear - Hr Hcl Hp. set_solver. }
  server_simpl Hp.
  - clear - Hr; set_solver.
  - clear - Hcl; set_solver.
  - clear - Hi; set_solver.
  - clear - Ha; set_solver.
  - clear - He; set_solver.
  - lia.
Qed.

(** [Server.Close] closes every registered connection. *)
Lemma close_section_ok s : server_ok s → server_ok (close_section s).
Proof.
  intros [Hcn Hr Hcl Hi Ha He Hc Hw]. unfold incoming, pending, counted, handlers in *.
  split; unfold incoming, pending, counted, handlers; cbn; try assumption.
  - clear - He; set_solver.
  - intros _. clear; set_solver.
Qed.

(** The other steps move no connection between the sets. *)
Lemma step_ok s s' : phases_ok s → server_ok s → server_step s s' → server_ok s'.
Proof.
  intros Hph Hok. pose proof Hok as [Hcn Hr Hcl Hi Ha He Hc Hw].
  destruct 1 as [s Hp|s Hp|s Hp|s c Hp Hlo Hc'|s Hp|s Hp|s c Hp|s c Hp|s c Hp|s c Hp|s c Hp|s c Hp
    |s Hp|s Hp|s Hp Hwz|s Hp|s Hp|s Hp];
    first [by apply register_ok|by apply spawn_ok|by apply handler_close_ok|by apply unregister_ok
      |by apply handler_done_ok|by apply close_section_ok|idtac];
    unfold serve_accept_error, close_listener, incoming, pending, counted, handlers in *;
    rewrite ?Hp in *; cbn in *.
  - server_simpl Hp.
  - server_simpl Hp.
  - server_simpl Hp.
  - server_simpl Hp; clear - Hi Ha Hc'; set_solver.
  - server_simpl Hp.
  - destruct (shutdown s); server_simpl Hp.
  - server_simpl Hp. lia.
  - destruct (listener s); server_simpl Hp; intros _; apply Hc; done.
  - server_simpl Hp. intros _. by apply Hc.
  - server_simpl Hp. intros _. by apply Hc.
  - server_simpl Hp. intros _. by apply Hc.
  - server_simpl Hp. intros _. by apply Hc.
Qed.

Lemma reachable_ok s : server_reachable s → server_ok s ∧ phases_ok s.
Proof.
  induction 1 as [|s s' Hr [Hok Hp] Hstep]; [apply init_ok|].
  split; [by eapply step_ok|by eapply step_phases].
Qed.

(** * Shutting down *)

(** Everything has ended. *)
Record drained (s : server) : Prop := {
  dr_serve : serve s = Stopped;
  dr_handlers : handlers s = ∅;
  dr_conns : conns s = ∅;
  dr_wg : wg s = 0;
  dr_stopping : stopping s = Finished;
  dr_cache : cacheOpen s = false;
  dr_client : clientOpen s = false;
}.

(** Every run reaches [P]: it holds now, or some step is possible and all lead
    to states from where every run reaches it. *)
Inductive inevitably (P : server → Prop) (s : server) : Prop :=
| inevitably_now : P s → inevitably P s
| inevitably_later :
    (∃ s', server_step s s') → (∀ s', server_step s s' → inevitably P s') → inevitably P s.

(** What is left to do once the listener is closed. *)
Definition serve_work (pc : serve_pc) : nat :=
  match pc with
  | Starting => 4 | Connecting => 3 | Accepting => 2 | AcceptFailed => 1 | Accepted _ => 1
  | Registered _ => 7 | Counted _ => 6 | Stopped => 0
  end.
Definition shutdown_work (pc : shutdown_pc) : nat :=
  match pc with
  | NotCalled => 5 | FlagSet => 4 | Waiting => 3 | StopCache => 2 | StopClient => 1 | Finished => 0
  end.
Definition work (s : server) : nat :=
  serve_work (serve s) + shutdown_work (stopping s) +
  (3 * size (running s) + 2 * size (closing s) + size (leaving s)).

Lemma closed_step s s' :
  phases_ok s → server_ok s → listener s = Closed → server_step s s' →
  listener s' = Closed ∧ (work s' < work s)%nat.
Proof.
  intros [Hsh _ _ Hcl _ _] [_ Hr Hc Hi _ _ _ _] Hl Hstep.
  destruct (Hcl Hl) as (Hns & Hnc & Hnf). rewrite bool_decide_true in Hsh by done. unfold work.
  destruct Hstep as [s Hp|s Hp|s Hp|s c Hp Hlo Hc'|s Hp|s Hp|s c Hp|s c Hp|s c Hp|s c Hp|s c Hp|s c Hp
    |s Hp|s Hp|s Hp Hwz|s Hp|s Hp|s Hp];
    unfold serve_register, serve_accept_error, close_listener, incoming, handlers in *;
    rewrite ?Hsh, ?Hp, ?Hl in *; cbn; rewrite ?Hp; try (split; [done|cbn; lia]); try congruence.
  - split; [done|]. rewrite size_insert by (clear - Hi; set_solver). lia.
  - split; [done|]. pose proof (size_remove c _ Hp).
    rewrite size_insert by (clear - Hr Hp; set_solver). lia.
  - split; [done|]. pose proof (size_remove c _ Hp).
    rewrite size_insert by (clear - Hc Hp; set_solver). lia.
  - split; [done|]. pose proof (size_remove c _ Hp). lia.
Qed.

(** Only a drained server has nothing to do. *)
Lemma step_or_drained s :
  phases_ok s → server_ok s → listener s = Closed → drained s ∨ ∃ s', server_step s s'.
Proof.
  intros [Hsh _ _ Hcl Hca Hcn] [Hco _ _ _ _ _ _ Hw] Hl. destruct (Hcl Hl) as (Hns & Hnc & Hnf).
  destruct (serve s) as [| | | |c|c|c|] eqn:Hp;
    try (right; eexists; by eauto using server_step).
  destruct (set_choose_or_empty (running s)) as [[c Hc]|Hr%leibniz_equiv];
    [right; eexists; by eapply handler_ends|].
  destruct (set_choose_or_empty (closing s)) as [[c Hc]|Hc%leibniz_equiv];
    [right; eexists; by eapply handler_unregisters|].
  destruct (set_choose_or_empty (leaving s)) as [[c Hcl']|Hlv%leibniz_equiv];
    [right; eexists; by eapply handler_exits|].
  destruct (stopping s) eqn:Hst; try (right; eexists; by eauto using server_step); try done.
  left. split; [done|..|done| |]; unfold handlers, pending, counted in *;
    rewrite ?Hco, ?Hw, ?Hca, ?Hcn, ?Hr, ?Hc, ?Hlv, ?Hp, ?Hst; try set_solver.
Qed.

Lemma closed_drains s :
  phases_ok s → server_ok s → listener s = Closed → inevitably drained s.
Proof.
  remember (work s) as n eqn:Hn. revert s Hn.
  induction n as [n IH] using lt_wf_ind. intros s -> Hp Hok Hl.
  destruct (step_or_drained s Hp Hok Hl) as [|He]; [by apply inevitably_now|].
  apply inevitably_later; [done|]. intros s' Hstep.
  destruct (closed_step s s' Hp Hok Hl Hstep) as [Hl' Hlt].
  eapply IH; [exact Hlt|done|by eapply step_phases|by eapply step_ok|done].
Qed.

(** * Properties *)

(** C22 The server's books are right in every reachable state: [wg] counts the
    handlers between [wg.Add] and [wg.Done] (so it never goes negative),
    [conns] holds exactly the connections that are being served or about to
    be, and once [Close] has run its section every one of them is closed,
    whatever connections arrive meanwhile.  When [wg] is zero no handler is
    left, and [conns] holds at most one connection that is not yet counted. *)
Theorem server_accounting (s : server) (Hr : server_reachable s) :
  wg s = Z.of_nat (size (handlers s) + counted s) ∧
  conns s = running s ∪ closing s ∪ pending s ∧
  (stopping s ≠ NotCalled → pending s ∪ handlers s ⊆ closed_conns s) ∧
  (wg s = 0 → handlers s = ∅ ∧ conns s = pending s ∧ ∀ c, serve s ≠ Counted c).
Proof.
  apply reachable_ok in Hr as [[Hco _ _ _ _ He Hc Hw] _].
  split; [done|]. split; [done|]. split.
  - intros H. specialize (Hc H). rewrite Hco in Hc. unfold handlers. clear - He Hc. set_solver.
  - intros Hz. assert (Hh : handlers s = ∅) by (apply leibniz_equiv, size_empty_inv; lia).
    split; [done|]. unfold counted in Hw. split.
    + rewrite Hco. unfold handlers in Hh. clear - Hh. set_solver.
    + intros c E. rewrite E in Hw. lia.
Qed.

(** C21 Shutdown always completes: once [Close] has closed the listener, every
    run, in any order of the goroutines and whether or not the wait times out,
    leads to the state where [Serve] has returned, every handler has ended and
    unregistered its connection, the wait group is at zero, and the cache's
    cleanup and the upstream client are closed. *)
Theorem shutdown_completes (s : server) (Hr : server_reachable s) (Hl : listener s = Closed) :
  inevitably drained s.
Proof. apply reachable_ok in Hr as [Hok Hp]. by apply closed_drains. Qed.

(** ** Runs *)

(** A connection is registered, then [Close] runs before it is counted. *)
Definition racing : server :=
  close_listener (close_section (serve_register 0 (with_accepted 0
    (at_serve Accepting (at_serve Connecting (with_listener Open init_server)))))).

Lemma racing_reachable : server_reachable racing.
Proof.
  eapply reach_step; [|by apply listener_closed]. eapply reach_step; [|by apply shutdown_called].
  eapply reach_step; [|by apply register_conn]. eapply reach_step; [|by apply accept_conn].
  eapply reach_step; [|by apply connected]. eapply reach_step; [|by apply listen_ok].
  apply reach_init.
Qed.

(** [Wait] can return before the handler of a registered connection has
    started: [wg.Add] comes after the section that registers it. *)
Theorem wait_misses_a_connection :
  ∃ s, server_reachable s ∧ stopping s = Waiting ∧ wg s = 0 ∧
    let s' := serve_spawn 0 (serve_count 0 (at_shutdown StopCache s)) in
    server_reachable s' ∧ 0%nat ∈ running s'.
Proof.
  exists racing. split; [apply racing_reachable|]. split; [done|]. split; [done|].
  split; [|cbn; set_solver].
  eapply reach_step; [|by apply spawn_handler]. eapply reach_step; [|by apply count_conn].
  eapply reach_step; [|by apply all_done]. apply racing_reachable.
Qed.

(** A shutdown that comes before [Listen] leaves the listener open. *)
Theorem early_shutdown_keeps_listening :
  ∃ s, server_reachable s ∧ stopping s = Finished ∧ listener s = Open ∧ serve s = Accepting.
Proof.
  exists (at_serve Accepting (at_serve Connecting (with_listener Open
    (at_shutdown Finished (with_open false false (at_shutdown StopClient
      (with_open false true (at_shutdown StopCache
        (close_listener (close_section init_server)))))))))).
  split; [|done].
  eapply reach_step; [|by apply connected]. eapply reach_step; [|by apply listen_ok].
  eapply reach_step; [|by apply client_closed]. eapply reach_step; [|by apply cache_closed].
  eapply reach_step; [|by apply all_done]. eapply reach_step; [|by apply listener_closed].
  eapply reach_step; [apply reach_init|by apply shutdown_called].
Qed.

Lemma server_accounting_witness :
  wg racing = 0 ∧ conns racing = pending racing ∧ pending racing ∪ handlers racing ⊆ closed_conns racing.
Proof.
  destruct (server_accounting racing racing_reachable) as (_ & _ & Hc & Hz).
  split; [reflexivity|]. split; [apply Hz; reflexivity|]. apply Hc. discriminate.
Defined.

Lemma shutdown_completes_witness : listener racing = Closed ∧ inevitably drained racing.
Proof. split; [reflexivity|]. exact (shutdown_completes racing racing_reachable eq_refl). Defined.
