(* ===== verification/Endpoint.v ===== *)
(** The health HTTP server (internal/health/health.go) around [handleHealth] of
    Health.v: its one route, and what its methods make of net/http's errors. *)

From stdpp Require Import base list strings.
From S2P Require Import Prelude Errors Health.

(** What [http.Server]'s accept loop returns: the sentinel of an orderly
    shutdown, or a failure. *)
Inductive http_end :=
| ErrServerClosed
| HttpFailure (err : error).

(** The server: its address and its multiplexer's patterns. *)
Record HealthServer := {
  Addr : string;
  Handlers : list (string * (Checker → Response));
}.

Definition NewServer (addr : string) : HealthServer :=
  {| Addr := addr; Handlers := [("/health", λ checker, handleHealth (healthReport checker))] |}.

(** [http.ServeMux] for patterns without a trailing slash: the whole path. *)
Fixpoint mux_handler {A} (handlers : list (string * A)) (path : string) : option A :=
  match handlers with
  | [] => None
  | (pattern, handler) :: handlers =>
      if decide (pattern = path) then Some handler else mux_handler handlers path
  end.

Definition StatusNotFound : Z := 404.

(** The status code of a request for [path] while the checker is in the given
    state. *)
Definition respond_code (s : HealthServer) (checker : Checker) (path : string) : Z :=
  match mux_handler (Handlers s) path with
  | Some handler => resp_code (handler checker)
  | None => StatusNotFound
  end.

(** [err == http.ErrServerClosed] *)
Definition serve_error (err : http_end) : option error :=
  match err with ErrServerClosed => None | HttpFailure e => Some e end.

(** [bound] is what binding the address returns; the listener's address is
    logged, so a message is returned with it. *)
Definition Listen (s : HealthServer) (bound : option error) : string + error :=
  match bound with
  | Some err => inr err
  | None => inl "health server listening"
  end.

Definition Serve (accepting : http_end) : option error := serve_error accepting.
Definition ListenAndServe (s : HealthServer) (serving : http_end) : string * option error :=
  ("health server listening", serve_error serving).
Definition Shutdown (shutdown : option error) : option error := shutdown.

(** * Lemmas *)

Lemma respond_code_health addr checker :
  respond_code (NewServer addr) checker "/health" = resp_code (handleHealth (healthReport checker)).
Proof. done. Qed.

Lemma respond_code_other addr checker path :
  path ≠ "/health" → respond_code (NewServer addr) checker path = StatusNotFound.
Proof. intros Hp. unfold respond_code. cbn. by rewrite decide_False by done. Qed.

(** The endpoint over the proxy's client at one reading of its clock. *)
Lemma proxy_report_code window now h :
  resp_code (handleHealth (healthReport (proxy_checker (client_checker window now h)))) =
    match healthyLocked h with Some _ => StatusServiceUnavailable | None => StatusOK end.
Proof.
  unfold healthReport, proxy_checker, proxy_HealthReport, client_checker, HealthReport.
  unfold healthStatus. cbn. by destruct (healthyLocked h).
Qed.
