(* ===== verification/Entry.v ===== *)
(** The program's entry: [main] (cmd/mbproxy/main.go), the health check it can
    run instead of the proxy ([CheckHealth], internal/health/health.go), and
    the logger's level ([New], internal/logging/logging.go).

    The network, the signals and what the started servers return are inputs;
    [main] is a function from them to what it starts and stops, in order, and
    to its exit code. *)

From stdpp Require Import base list numbers strings.
From Stdlib Require Import Ascii.
From S2P Require Import Prelude Errors Config Health Endpoint.

Open Scope string_scope.

(** * net.SplitHostPort and net.JoinHostPort *)

Fixpoint IndexByte (s : string) (c : ascii) : option nat :=
  match s with
  | EmptyString => None
  | String a s => if decide (a = c) then Some 0%nat else S <$> IndexByte s c
  end.

Fixpoint LastIndexByte (s : string) (c : ascii) : option nat :=
  match s with
  | EmptyString => None
  | String a s =>
    match LastIndexByte s c with
    | Some i => Some (S i)
    | None => if decide (a = c) then Some 0%nat else None
    end
  end.

(** [s[:n]] and [s[n:]], with [n] at most the length. *)
Fixpoint str_take (n : nat) (s : string) : string :=
  match n, s with
  | S n, String a s => String a (str_take n s)
  | _, _ => EmptyString
  end.
Fixpoint str_drop (n : nat) (s : string) : string :=
  match n, s with
  | S n, String _ s => str_drop n s
  | _, _ => s
  end.

Definition colon : ascii := ":".
Definition open_bracket : ascii := "[".
Definition close_bracket : ascii := "]".

Definition missingPort : error := ErrText "missing port in address" [].
Definition tooManyColons : error := ErrText "too many colons in address" [].

(** The end of [SplitHostPort]: no bracket from [j] or [k] on. *)
Definition split_rest (hostport host : string) (i j k : nat) : string * string + error :=
  if decide (is_Some (IndexByte (str_drop j hostport) open_bracket)) then
    inr (ErrText "unexpected '[' in address" [])
  else if decide (is_Some (IndexByte (str_drop k hostport) close_bracket)) then
    inr (ErrText "unexpected ']' in address" [])
  else inl (host, str_drop (S i) hostport).

Definition SplitHostPort (hostport : string) : string * string + error :=
  match LastIndexByte hostport colon with
  | None => inr missingPort
  | Some i =>
    if decide (str_take 1 hostport = "[") then
      match IndexByte hostport close_bracket with
      | None => inr (ErrText "missing ']' in address" [])
      | Some end_ =>
        if decide (S end_ = String.length hostport) then inr missingPort
        else if decide (S end_ = i) then
          split_rest hostport (str_drop 1 (str_take end_ hostport)) i 1 (S end_)
        else if decide (str_take 1 (str_drop (S end_) hostport) = ":") then inr tooManyColons
        else inr missingPort
      end
    else
      let host := str_take i hostport in
      if decide (is_Some (IndexByte host colon)) then inr tooManyColons
      else split_rest hostport host i 0 0
  end.

Definition JoinHostPort (host port : string) : string :=
  if decide (is_Some (IndexByte host colon)) then "[" +:+ host +:+ "]:" +:+ port
  else host +:+ ":" +:+ port.

(** * CheckHealth *)

(** The dial target of a listen address. *)
Definition normalize_host (host : string) : string :=
  if decide (host = "" ∨ host = "0.0.0.0" ∨ host = "::") then "localhost" else host.

Definition health_url (host port : string) : string :=
  "http://" +:+ JoinHostPort (normalize_host host) port +:+ "/health".

(** [get] is the status code [http.Client.Get] receives, or its error. *)
Definition CheckHealth (get : string → Z + error) (addr : string) : option error :=
  match SplitHostPort addr with
  | inr err => Some (ErrWrap "invalid address %q: %w" err)
  | inl (host, port) =>
    match get (health_url host port) with
    | inr err => Some (ErrWrap "health check request failed: %w" err)
    | inl code =>
        if decide (code ≠ StatusOK) then Some (ErrText "health check returned status %d" [code])
        else None
    end
  end.

(** * logging.New *)

Definition upper_ascii (c : ascii) : ascii :=
  let n := nat_of_ascii c in
  if decide (97 ≤ n ≤ 122)%nat then ascii_of_nat (n - 32) else c.
(** [strings.ToUpper] as far as the levels below can tell: ASCII letters, and the
    two other letters whose upper case is an ASCII letter, the dotless i (C4 B1)
    and the long s (C5 BF). *)
Fixpoint ToUpper (s : string) : string :=
  match s with
  | EmptyString => EmptyString
  | String a s' =>
    match s' with
    | String b s'' =>
      if decide (nat_of_ascii a = 0xC4 ∧ nat_of_ascii b = 0xB1)%nat then String "I" (ToUpper s'')
      else if decide (nat_of_ascii a = 0xC5 ∧ nat_of_ascii b = 0xBF)%nat then String "S" (ToUpper s'')
      else String (upper_ascii a) (ToUpper s')
    | EmptyString => String (upper_ascii a) EmptyString
    end
  end.

Inductive slog_level := SlogDebug | SlogInfo | SlogWarn | SlogError.

Definition logger_level (level : string) : slog_level :=
  let l := ToUpper level in
  if decide (l = "DEBUG") then SlogDebug
  else if decide (l = "WARN" ∨ l = "WARNING") then SlogWarn
  else if decide (l = "ERROR") then SlogError
  else SlogInfo.

(** * main *)

Record main_env := {
  me_health : bool;                              (* the -health flag *)
  me_Getenv : string → string;
  me_ParseDuration : string → option Z;
  me_get : string → Z + error;                   (* GET: the status code *)
  me_health_bound : option error;                (* binding the health listener *)
  me_run : option (option error);                (* None: a signal came before Run returned *)
  me_health_shutdown : option error;
  me_shutdown : option error;                    (* what Shutdown returned *)
}.

(** What [main] does: lines on standard error and in the log, and what it starts
    and stops. *)
Inductive main_event :=
| Stderr (line : string + error)
| LogError (message : string) (err : error + load_error)
| LogInfo (message : string)
| CreateProxy (cfg : Config)                     (* proxy.New: starts the cache's cleanup goroutine *)
| StartHealth (addr : string)                    (* go hs.Serve *)
| StartProxy (cfg : Config)                      (* go p.Run *)
| CancelContext
| StopHealth (returned : option error)           (* hs.Shutdown *)
| StopProxy (timeout : Z) (returned : option error).   (* p.Shutdown *)

Definition when {A} (b : bool) (l : list A) : list A := if b then l else [].
Definition report_failure (message : string) (err : option error) : list main_event :=
  match err with Some e => [LogError message (inl e)] | None => [] end.

(** The branch of the -health flag. *)
Definition main_health (e : main_env) : list main_event * Z :=
  let addr := me_Getenv e "HEALTH_LISTEN" in
  if decide (addr = "") then ([Stderr (inl "HEALTH_LISTEN is not set")], 1)
  else match CheckHealth (me_get e) addr with
       | Some err => ([Stderr (inr err)], 1)
       | None => ([], 0)
       end.

(** From the select on: [hs] says whether there is a health server. *)
Definition main_stop (e : main_env) (cfg : Config) (hs : bool) : list main_event * Z :=
  let stopped :=
    (CancelContext ::
       when hs (StopHealth (Shutdown (me_health_shutdown e)) ::
                  report_failure "health server shutdown error" (Shutdown (me_health_shutdown e))) ++
       [StopProxy (ShutdownTimeout cfg) (me_shutdown e)])%list in
  match me_shutdown e with
  | Some err => (stopped ++ [LogError "shutdown error" (inl err)], 1)
  | None => (stopped ++ [LogInfo "shutdown complete"], 0)
  end%list.

Definition main_run (e : main_env) (cfg : Config) (hs : bool) : list main_event * Z :=
  match me_run e with
  | Some (Some err) => ([LogError "proxy error" (inl err)], 1)
  | Some None => main_stop e cfg hs
  | None =>
      let '(evs, code) := main_stop e cfg hs in
      (LogInfo "received signal, shutting down" :: evs, code)
  end.

(** [proxy.New] never fails; what it logs is in Setup.v, and the goroutines' own
    output is not [main]'s. *)
Definition main_serve (e : main_env) : list main_event * Z :=
  match Load (me_Getenv e) (me_ParseDuration e) with
  | inr err => ([LogError "failed to load configuration" (inr err)], 1)
  | inl cfg =>
    let hs := negb (bool_decide (HealthListen cfg = "")) in
    match (if hs then Listen (NewServer (HealthListen cfg)) (me_health_bound e) else inl "") with
    | inr err => ([CreateProxy cfg; LogError "failed to start health server" (inl err)], 1)
    | inl message =>
      let '(evs, code) := main_run e cfg hs in
      (CreateProxy cfg :: when hs [LogInfo message; StartHealth (HealthListen cfg)] ++ StartProxy cfg :: evs, code)
    end
  end%list.

Definition main (e : main_env) : list main_event * Z :=
  if me_health e then main_health e else main_serve e.

(** * Lemmas *)

(** What was reported as an error, and what is still running at the end. *)
Definition reports (ev : main_event) : bool :=
  match ev with Stderr _ | LogError _ _ => true | _ => false end.
Definition starts (ev : main_event) : bool :=
  match ev with CreateProxy _ | StartHealth _ | StartProxy _ => true | _ => false end.

(** What was started and not stopped: a shutdown that returned an error stops
    nothing for sure. *)
Definition is_health (ev : main_event) : bool := match ev with StartHealth _ => true | _ => false end.
Definition still_running (evs : list main_event) : list main_event :=
  foldl (λ acc ev,
    match ev with
    | StopHealth None => filter (λ ev, is_health ev = false) acc
    | StopProxy _ None => filter (λ ev, is_health ev = true) acc
    | _ => if starts ev then (acc ++ [ev])%list else acc
    end) [] evs.

#[local] Arguments String.append !_ _ : simpl nomatch.

Lemma IndexByte_app_None a b c : IndexByte a c = None → IndexByte (a +:+ b) c =
  (λ i, String.length a + i)%nat <$> IndexByte b c.
Proof.
  induction a as [|x a IH]; cbn; intros H; [by destruct (IndexByte b c)|].
  case_decide; [done|]. destruct (IndexByte a c) eqn:E; [done|]. rewrite IH by done.
  by destruct (IndexByte b c).
Qed.

Lemma IndexByte_app_nil a b c :
  IndexByte a c = None → IndexByte b c = None → IndexByte (a +:+ b) c = None.
Proof. intros Ha Hb. by rewrite IndexByte_app_None, Hb. Qed.

Lemma LastIndexByte_app a b c i :
  LastIndexByte b c = Some i → LastIndexByte (a +:+ b) c = Some (String.length a + i)%nat.
Proof. intros Hb. induction a as [|x a IH]; cbn; [done|]. by rewrite IH. Qed.

Lemma LastIndexByte_None s c : IndexByte s c = None → LastIndexByte s c = None.
Proof.
  induction s as [|a s IH]; cbn; [done|]. case_decide; [done|]. intros Hs.
  rewrite IH; [done|]. by destruct (IndexByte s c).
Qed.

Lemma LastIndexByte_last a c b :
  IndexByte b c = None → LastIndexByte (a +:+ String c b) c = Some (String.length a).
Proof.
  intros Hb. rewrite (LastIndexByte_app a _ c 0); [by rewrite Nat.add_0_r|].
  cbn. by rewrite (LastIndexByte_None _ _ Hb), decide_True.
Qed.

Lemma str_take_app a b : str_take (String.length a) (a +:+ b) = a.
Proof. induction a as [|x a IH]; cbn; [by destruct b|]. by rewrite IH. Qed.

Lemma str_drop_app a b n : str_drop (String.length a + n) (a +:+ b) = str_drop n b.
Proof. by induction a as [|x a IH]; cbn. Qed.

Lemma str_drop_0 s : str_drop 0 s = s.
Proof. by destruct s. Qed.

Lemma str_drop_len a b : str_drop (String.length a) (a +:+ b) = b.
Proof. rewrite <- (Nat.add_0_r (String.length a)), str_drop_app. apply str_drop_0. Qed.

Lemma str_app_assoc (a b c : string) : a +:+ (b +:+ c) = (a +:+ b) +:+ c.
Proof. induction a as [|x a IH]; cbn; [done|]. by rewrite IH. Qed.

Lemma str_length_app (a b : string) : String.length (a +:+ b) = (String.length a + String.length b)%nat.
Proof. induction a as [|x a IH]; cbn; [done|]. by rewrite IH. Qed.

(** A host or port without the given bytes. *)
Definition free_of (cs : list ascii) (s : string) : Prop := Forall (λ c, IndexByte s c = None) cs.

Lemma no_bracket_start host b :
  free_of [open_bracket; close_bracket] host → str_take 1 (host +:+ String colon b) ≠ "[".
Proof.
  intros Hf. inversion_clear Hf as [|? ? Ho _]. destruct host as [|x host]; [done|].
  cbn in *. case_decide; [done|]. by intros [= ->].
Qed.

(** [SplitHostPort] undoes [JoinHostPort]. *)
Lemma SplitHostPort_JoinHostPort host port :
  free_of [open_bracket; close_bracket] host → free_of [colon; open_bracket; close_bracket] port →
  SplitHostPort (JoinHostPort host port) = inl (host, port).
Proof.
  intros Hh Hp. pose proof Hh as Hh'. unfold free_of in Hh', Hp.
  repeat apply Forall_cons in Hh' as [? Hh']. repeat apply Forall_cons in Hp as [? Hp].
  rename select (IndexByte host open_bracket = None) into Ho.
  rename select (IndexByte host close_bracket = None) into Hcl.
  rename select (IndexByte port colon = None) into Hpc.
  rename select (IndexByte port open_bracket = None) into Hpo.
  rename select (IndexByte port close_bracket = None) into Hpcl.
  unfold JoinHostPort. destruct (decide (is_Some (IndexByte host colon))) as [Hc|Hc].
  - set (s := "[" +:+ host +:+ "]:" +:+ port).
    assert (Es : s = (("[" +:+ host) +:+ "]") +:+ String colon port) by (unfold s; by rewrite <- !str_app_assoc).
    assert (Hlen : String.length (("[" +:+ host) +:+ "]") = S (S (String.length host))).
    { rewrite !str_length_app. cbn. lia. }
    assert (Hend : IndexByte s close_bracket = Some (S (String.length host))).
    { unfold s. change ("[" +:+ ?x) with (String open_bracket x). cbn [IndexByte].
      rewrite decide_False by done. rewrite IndexByte_app_None by done. cbn.
      rewrite decide_True by done. cbn. f_equal. lia. }
    unfold SplitHostPort. rewrite Es at 1. rewrite LastIndexByte_last by done. rewrite Hlen.
    rewrite decide_True by (unfold s; cbn; by destruct (host +:+ _)). rewrite Hend.
    rewrite decide_False by (rewrite Es, str_length_app, Hlen; cbn; lia).
    rewrite decide_True by done. unfold split_rest.
    assert (Hd1 : str_drop 1 s = host +:+ "]:" +:+ port) by done.
    assert (Hd2 : str_drop (S (S (String.length host))) s = String colon port).
    { rewrite Es, <- Hlen. apply str_drop_len. }
    rewrite Hd1, decide_False by (rewrite IndexByte_app_nil; [by intros []|done|cbn; by rewrite Hpo]).
    rewrite Hd2, decide_False by (cbn; rewrite Hpcl; by intros []).
    f_equal. f_equal.
    + change (str_take (String.length host) (host +:+ "]:" +:+ port) = host). apply str_take_app.
    + rewrite Es, <- (Nat.add_1_r (S (S _))), <- Hlen, str_drop_app. done.
  - set (s := host +:+ ":" +:+ port). change s with (host +:+ String colon port).
    assert (Hcn : IndexByte host colon = None) by (destruct (IndexByte host colon); [by destruct Hc; eauto|done]).
    unfold SplitHostPort. rewrite LastIndexByte_last by done.
    rewrite decide_False by by apply no_bracket_start.
    rewrite str_take_app, decide_False by (rewrite Hcn; by intros []). unfold split_rest. rewrite str_drop_0.
    rewrite decide_False by (rewrite IndexByte_app_nil; [by intros []|done|cbn; by rewrite Hpo]).
    rewrite decide_False by (rewrite IndexByte_app_nil; [by intros []|done|cbn; by rewrite Hpcl]).
    f_equal. f_equal. by rewrite <- Nat.add_1_r, str_drop_app.
Qed.

Lemma JoinHostPort_nonempty host port : JoinHostPort host port ≠ "".
Proof. unfold JoinHostPort. case_decide; [done|]. by destruct host. Qed.

Lemma CheckHealth_target get host port :
  free_of [open_bracket; close_bracket] host → free_of [colon; open_bracket; close_bracket] port →
  CheckHealth get (JoinHostPort host port) = None ↔ get (health_url host port) = inl StatusOK.
Proof.
  intros Hh Hp. unfold CheckHealth. rewrite SplitHostPort_JoinHostPort by done.
  destruct (get (health_url host port)) as [code|e]; [|done]. unfold StatusOK.
  case_decide as Hc; split; try done; [intros [= ->]; lia|intros _; f_equal; lia].
Qed.

(** The exit status in either mode. *)
Definition exits_cleanly (e : main_env) : Prop :=
  if me_health e then me_Getenv e "HEALTH_LISTEN" ≠ "" ∧ CheckHealth (me_get e) (me_Getenv e "HEALTH_LISTEN") = None
  else ∃ cfg, Load (me_Getenv e) (me_ParseDuration e) = inl cfg ∧
    (HealthListen cfg ≠ "" → me_health_bound e = None) ∧
    (me_run e = None ∨ me_run e = Some None) ∧ me_shutdown e = None.

(** All that may be left at an orderly end: the health server, if its shutdown
    returned an error, and then that was reported. *)
Definition health_left (e : main_env) (steps : list main_event) (ev : main_event) : Prop :=
  is_health ev = true ∧ ∃ err, me_health_shutdown e = Some err ∧
    LogError "health server shutdown error" (inl err) ∈ steps.

(** The three branches end with 0 or 1; [steps] is all that happened. *)
Record ends_well (e : main_env) (clean : Prop) (steps : list main_event) (code : Z) : Prop := {
  ew_code : code = 0%Z ∨ code = 1%Z;
  ew_clean : code = 0%Z ↔ clean;
  ew_reported : code ≠ 0%Z → Exists (λ ev, reports ev = true) steps;
  ew_stopped : code = 0%Z → Forall (health_left e steps) (still_running steps);
}.

Lemma ends_clean e (clean : Prop) steps :
  clean → Forall (health_left e steps) (still_running steps) → ends_well e clean steps 0.
Proof. intros. split; [by left|done|done|done]. Qed.

Lemma ends_failed e (clean : Prop) steps :
  ¬ clean → existsb reports steps = true → ends_well e clean steps 1.
Proof.
  intros Hc Hr. split; [by right|by split|intros _|done].
  apply existsb_exists in Hr as (ev & Hin & Hev). apply Exists_exists. exists ev.
  by rewrite list_elem_of_In.
Qed.

Lemma main_health_ends e :
  me_health e = true → ends_well e (exits_cleanly e) (fst (main_health e)) (snd (main_health e)).
Proof.
  intros Hf. unfold exits_cleanly, main_health. rewrite Hf. case_decide as Ha; cbn.
  { apply ends_failed; [by intros []|done]. }
  destruct (CheckHealth _ _) as [err|]; cbn; [apply ends_failed; [by intros []|done]|by apply ends_clean].
Qed.

(** The end after a signal, or after [Run] returned without an error. *)
Lemma main_stop_ends e cfg hs before (clean : Prop) :
  (clean ↔ me_shutdown e = None) →
  still_running before = CreateProxy cfg :: when hs [StartHealth (HealthListen cfg)] ++ [StartProxy cfg] →
  ends_well e clean (before ++ fst (main_stop e cfg hs)) (snd (main_stop e cfg hs)).
Proof.
  intros Hc Hb. unfold main_stop. destruct (me_shutdown e) as [err|] eqn:Hs; cbn [fst snd].
  { apply ends_failed; [by rewrite Hc|]. rewrite !existsb_app. cbn. by rewrite !orb_true_r. }
  apply ends_clean; [by apply Hc|]. unfold still_running in *. rewrite foldl_app, Hb.
  destruct hs; cbn; [|done]. unfold Shutdown. destruct (me_health_shutdown e) as [err|] eqn:Hh; cbn; [|done].
  constructor; [|done]. split; [done|]. exists err. split; [done|].
  rewrite !elem_of_app, !elem_of_cons. auto 8.
Qed.

Lemma main_serve_ends e :
  me_health e = false → ends_well e (exits_cleanly e) (fst (main_serve e)) (snd (main_serve e)).
Proof.
  intros Hf. unfold exits_cleanly, main_serve. rewrite Hf. destruct (Load _ _) as [cfg|err]; cbn [fst snd].
  2: { apply ends_failed; [by intros (? & ? & _)|done]. }
  set (hs := negb (bool_decide (HealthListen cfg = ""))).
  destruct (if hs then _ else _) as [message|err] eqn:Hlisten; cbn [fst snd].
  2: { apply ends_failed; [|done]. intros (cfg' & [= <-] & Hb & _). revert Hlisten. unfold hs, Listen.
       case_bool_decide; cbn; [done|]. by rewrite Hb. }
  assert (Hbound : HealthListen cfg ≠ "" → me_health_bound e = None).
  { intros Hn. revert Hlisten. unfold hs, Listen. rewrite bool_decide_false by done. cbn.
    by destruct (me_health_bound e). }
  set (before := (CreateProxy cfg :: when hs [LogInfo message; StartHealth (HealthListen cfg)] ++ [StartProxy cfg])%list).
  assert (Hclean : me_run e = None ∨ me_run e = Some None →
    ((∃ cfg0, @inl Config load_error cfg = inl cfg0 ∧ (HealthListen cfg0 ≠ "" → me_health_bound e = None) ∧
       (me_run e = None ∨ me_run e = Some None) ∧ me_shutdown e = None) ↔ me_shutdown e = None)).
  { intros Hr. split; [by intros (? & _ & _ & _ & ?)|intros]. by exists cfg. }
  unfold main_run. destruct (me_run e) as [[err|]|] eqn:Hr; cbn [fst snd].
  - apply ends_failed; [intros (? & _ & _ & [?|?] & _); congruence|]. by destruct hs.
  - pose proof (main_stop_ends e cfg hs before _ (Hclean (or_intror eq_refl))) as He.
    destruct (main_stop e cfg hs) as [evs code]. cbn [fst snd] in *.
    replace (CreateProxy cfg :: _)%list with (before ++ evs)%list by (unfold before; by destruct hs).
    apply He. by destruct hs.
  - pose proof (main_stop_ends e cfg hs (before ++ [LogInfo "received signal, shutting down"])%list
      _ (Hclean (or_introl eq_refl))) as He.
    destruct (main_stop e cfg hs) as [evs code]. cbn [fst snd] in *.
    replace (CreateProxy cfg :: _)%list
      with ((before ++ [LogInfo "received signal, shutting down"]) ++ evs)%list by (unfold before; by destruct hs).
    apply He. by destruct hs.
Qed.

Lemma main_run_starts_nothing e cfg hs ev :
  ev ∈ fst (main_run e cfg hs) → starts ev = false.
Proof.
  intros Hin. assert (Hall : forallb (λ ev, negb (starts ev)) (fst (main_run e cfg hs)) = true).
  { unfold main_run, main_stop. destruct (me_run e) as [[err|]|]; destruct (me_shutdown e), hs;
      unfold Shutdown; try destruct (me_health_shutdown e); done. }
  rewrite forallb_forall in Hall. specialize (Hall ev). rewrite <- list_elem_of_In in Hall.
  by apply negb_true_iff, Hall.
Qed.

Lemma main_health_prints e ev : ev ∈ fst (main_health e) → ∃ line, ev = Stderr line.
Proof.
  unfold main_health. case_decide; [|destruct (CheckHealth _ _)]; cbn;
    rewrite ?list_elem_of_singleton, ?elem_of_nil; intros; subst; by eauto.
Qed.

(** * Properties *)

(** What has to hold before [main] starts something: a valid configuration; for
    the health server, that it is configured and its listener is bound; and for
    the proxy itself, that a configured health listener is bound. *)
Definition may_start (e : main_env) (cfg : Config) (ev : main_event) : Prop :=
  match ev with
  | CreateProxy c => c = cfg
  | StartHealth addr => addr = HealthListen cfg ∧ addr ≠ "" ∧ me_health_bound e = None
  | StartProxy c => c = cfg ∧ (HealthListen cfg ≠ "" → me_health_bound e = None)
  | _ => False
  end.

(** C40 The exit status tells how the program ended.  It is 0 exactly if, with
    -health, the endpoint answered 200, or, serving, the configuration was
    valid, the health listener (if configured) was bound, the proxy did not
    fail, and its shutdown returned no error; and then everything [main] had
    started was told to stop and did so without an error, except possibly the
    health server, whose failed shutdown is then in the log.  Otherwise it is 1
    and an error was reported.  With -health nothing is started; nothing at
    all (the proxy with its cleanup goroutine, the health server, the Modbus
    server) is started unless the configuration is valid, and neither server
    before a configured health listener is bound. *)
Theorem main_exit_status (e : main_env) :
  ends_well e (exits_cleanly e) (fst (main e)) (snd (main e)) ∧
  (me_health e = true → ∀ ev, ev ∈ fst (main e) → ∃ line, ev = Stderr line) ∧
  (∀ ev, ev ∈ fst (main e) → starts ev = true →
     ∃ cfg, Load (me_Getenv e) (me_ParseDuration e) = inl cfg ∧ may_start e cfg ev).
Proof.
  unfold main. destruct (me_health e) eqn:Hf.
  - split; [by apply main_health_ends|].
    split; [intros _; apply main_health_prints|]. by intros ev [? ->]%main_health_prints.
  - split; [by apply main_serve_ends|]. split; [done|]. intros ev Hin Hev.
    unfold main_serve in Hin. destruct (Load _ _) as [cfg|err]; cbn in Hin.
    2: { apply list_elem_of_singleton in Hin as ->. done. }
    exists cfg. split; [done|].
    pose proof (main_run_starts_nothing e cfg (negb (bool_decide (HealthListen cfg = ""))) ev) as Hno.
    destruct (main_run _ _ _) as [evs code]. cbn in Hno.
    destruct (bool_decide_reflect (HealthListen cfg = "")) as [Hh|Hh]; cbn in Hin;
      [|destruct (me_health_bound e) as [err|] eqn:Hb; cbn in Hin];
      rewrite ?elem_of_cons, ?elem_of_nil in Hin; destruct_or?; subst; cbn in *;
      try done; by specialize (Hno Hin); congruence.
Qed.

(** [mbproxy -health] is an HTTP client of the health endpoint: with
    HEALTH_LISTEN set to any host (IPv6 in brackets) and port, it starts
    nothing, sends one GET to that port's /health (on localhost if the host is
    empty or a wildcard address), and exits with 0 exactly if the answer is
    200, and with 1 otherwise. *)
Theorem main_health_check (e : main_env) (host port : string)
    (Hflag : me_health e = true)
    (Haddr : me_Getenv e "HEALTH_LISTEN" = JoinHostPort host port)
    (Hhost : free_of [open_bracket; close_bracket] host)
    (Hport : free_of [colon; open_bracket; close_bracket] port) :
  (∀ ev, ev ∈ fst (main e) → ∃ line, ev = Stderr line) ∧
  (snd (main e) = 0%Z ↔ me_get e (health_url host port) = inl StatusOK) ∧
  (snd (main e) = 0%Z ∨ snd (main e) = 1%Z) ∧
  (host ∈ [""; "0.0.0.0"; "::"] → health_url host port = "http://localhost:" +:+ port +:+ "/health").
Proof.
  pose proof (CheckHealth_target (me_get e) host port Hhost Hport) as Hc.
  pose proof (main_health_ends e Hflag) as [Hcode Hiff _ _].
  unfold exits_cleanly in Hiff. rewrite Hflag, Haddr in Hiff.
  unfold main. rewrite Hflag. split; [by apply main_health_prints|]. split; [|split; [done|]].
  - rewrite Hiff, Hc. pose proof (JoinHostPort_nonempty host port). tauto.
  - rewrite !elem_of_cons, elem_of_nil. by intros [->|[->|[->|[]]]].
Qed.

(** A valid configuration with a health port, a signal, and an orderly end. *)
Definition sample_env (name : string) : string :=
  if decide (name = "MODBUS_UPSTREAM") then "plc:502"
  else if decide (name = "HEALTH_LISTEN") then ":8080" else "".

Definition sample_entry : main_env :=
  {| me_health := false; me_Getenv := sample_env; me_ParseDuration _ := None;
     me_get _ := inl 503%Z; me_health_bound := None; me_run := None;
     me_health_shutdown := Some (ErrSentinel DeadlineExceeded); me_shutdown := None |}.

Example sample_run :
  (λ ev, match ev with StartHealth _ => 1 | StartProxy _ => 2 | CancelContext => 3 | StopHealth _ => 4
         | LogError _ _ => 5 | StopProxy _ _ => 6 | LogInfo _ => 0 | Stderr _ => 7 | CreateProxy _ => 8 end%nat)
    <$> fst (main sample_entry) = [8; 0; 1; 2; 0; 3; 4; 5; 6; 0]%nat ∧ snd (main sample_entry) = 0%Z ∧
  still_running (fst (main sample_entry)) = [StartHealth ":8080"].
Proof. split_and!; vm_compute; reflexivity. Qed.
