(* ===== verification/Effects.v ===== *)
(** The effects of the upstream client: a small monad over the client's state,
    the local variables of one request and an environment, with early exits.

    internal/modbus/client.go talks to a clock, a context, a one-token owner
    channel and a [clientSession] / [requestClient] pair that the
    third-party Modbus library implements.  [Env] is that outside as a class;
    every theorem is proved for all its instances.  Each interaction that
    other components can see is appended to a trace. *)

From stdpp Require Import base list numbers strings.
From S2P Require Import Prelude Request Errors Health.

(** ** Calls on [requestClient] and [clientSession.SendRaw] *)
Inductive Call :=
| ReadCoils (address quantity : Z)
| ReadDiscreteInputs (address quantity : Z)
| ReadHoldingRegisters (address quantity : Z)
| ReadInputRegisters (address quantity : Z)
| WriteSingleCoil (address value : Z)
| WriteSingleRegister (address value : Z)
| WriteMultipleCoils (address quantity : Z) (data : list Z)
| WriteMultipleRegisters (address quantity : Z) (data : list Z)
| SendRaw (pdu : list Z).

#[global] Instance Call_eq_dec : EqDecision Call.
Proof. solve_decision. Defined.

(** A pair [(value, err)] of which exactly one is meaningful. *)
Definition outcome : Type := list Z + error.

(** ** The arguments of the two request log lines *)
Record log_record := {
  log_message : string;
  log_slave_id : Z;
  log_func : Z;
  log_addr : Z;
  log_qty : Z;
  log_attempts : Z;                       (* both "attempt" and "attempts" *)
  log_timing : requestTiming;
  log_error_kind : ErrorKind;
  log_will_retry : bool;
  log_write : bool;
  log_error : option error;               (* left out for a write *)
  log_exception_code : option Z;          (* left out when zero *)
  log_downstream_exception : option Z;    (* left out before a retry *)
}.

(** ** What can be observed *)
Inductive observation :=
| OAcquire                                    (* the owner token was taken *)
| ORelease                                    (* and put back *)
| OConnect (s : Z) (err : option error)
| OClose (s : Z) (err : option error)
| OSlot (delay : Z) (elapsed : bool)          (* waiting for the request slot *)
| OSetSlave (s slave : Z)
| OBegin (s timeout : Z)
| OCall (s : Z) (c : Call) (r : outcome)
| OFinish (s : Z) (err : option error)
| OHealth (e : Health.event)                  (* an update under [healthMu] *)
| OLog (r : log_record).

#[global] Instance log_record_eq_dec : EqDecision log_record.
Proof. solve_decision. Defined.
#[global] Instance event_eq_dec : EqDecision Health.event.
Proof. solve_decision. Defined.
#[global] Instance observation_eq_dec : EqDecision observation.
Proof. solve_decision. Defined.

(** ** The environment

    A [clientSession] with its [requestClient] is a handle.  Answers may
    depend on everything that happened before, through the world. *)
Class Env (W : Type) := {
  env_now : W → Z * W;                             (* c.now() *)
  env_time_Now : W → Z * W;                        (* time.Now() *)
  env_ctx_Err : W → option error * W;              (* ctx.Err() of the request *)
  env_select_owner : W → bool * W;                 (* select: owner (true) or Done *)
  env_select_timer : Z → W → bool * W;             (* select: timer (true) or Done *)
  env_newSession : W → Z * W;
  env_Connect : Z → W → option error * W;
  env_Close : Z → W → option error * W;
  env_SetSlave : Z → Z → W → W;
  env_BeginRequest : Z → Z → W → W;
  env_finishRequest : Z → W → option error * W;
  env_call : Z → Call → W → outcome * W;
}.

(** Documented behaviour of that outside: [ctx.Err] is nil or one of the two
    context errors, and not nil once [Done] is closed; the libraries return
    no error of the proxy's own types. *)
Class EnvLaws (W : Type) `{Env W} : Prop := {
  ctx_Err_kind w e w' :
    env_ctx_Err w = (Some e, w') → e = ErrSentinel DeadlineExceeded ∨ e = ErrSentinel Canceled;
  owner_Done w w' :
    env_select_owner w = (false, w') → ∃ e w'', env_ctx_Err w' = (Some e, w'');
  timer_Done d w w' :
    env_select_timer d w = (false, w') → ∃ e w'', env_ctx_Err w' = (Some e, w'');
  Connect_foreign s w e w' : env_Connect s w = (Some e, w') → foreign_error e = true;
  call_foreign s c w e w' : env_call s c w = (inr e, w') → foreign_error e = true;
}.

(** ** The state *)
Record Client := {
  attemptTimeout : Z;
  requestDelay : Z;
  connectDelay : Z;
  degradedWindow : Z;
  session : option Z;
  nextRequestAt : Z;
  health : HealthState;
}.

(** The local variables of [Execute]. *)
Record Frame := {
  timing : requestTiming;
  lastErr : option error;
  requestSlotReady : bool;
}.

Record St (W : Type) := {
  client : Client;
  frame : Frame;
  world : W;
  trace : list observation;
}.
Arguments client {W} _.
Arguments frame {W} _.
Arguments world {W} _.
Arguments trace {W} _.

Definition set_session (s : option Z) (c : Client) : Client :=
  {| attemptTimeout := attemptTimeout c; requestDelay := requestDelay c;
     connectDelay := connectDelay c; degradedWindow := degradedWindow c;
     session := s; nextRequestAt := nextRequestAt c; health := health c |}.
Definition set_nextRequestAt (t : Z) (c : Client) : Client :=
  {| attemptTimeout := attemptTimeout c; requestDelay := requestDelay c;
     connectDelay := connectDelay c; degradedWindow := degradedWindow c;
     session := session c; nextRequestAt := t; health := health c |}.
Definition set_health (h : HealthState) (c : Client) : Client :=
  {| attemptTimeout := attemptTimeout c; requestDelay := requestDelay c;
     connectDelay := connectDelay c; degradedWindow := degradedWindow c;
     session := session c; nextRequestAt := nextRequestAt c; health := h |}.

Definition set_timing (t : requestTiming) (f : Frame) : Frame :=
  {| timing := t; lastErr := lastErr f; requestSlotReady := requestSlotReady f |}.
Definition set_lastErr (e : option error) (f : Frame) : Frame :=
  {| timing := timing f; lastErr := e; requestSlotReady := requestSlotReady f |}.
Definition set_slotReady (b : bool) (f : Frame) : Frame :=
  {| timing := timing f; lastErr := lastErr f; requestSlotReady := b |}.

(** ** The monad

    A computation ends with a value, with [continue] of the enclosing loop, or
    with [return] of the enclosing function; or it panics. *)
Inductive exit (A : Type) :=
| Val (a : A)
| Continue
| Return (r : outcome).
Arguments Val {A} a.
Arguments Continue {A}.
Arguments Return {A} r.

Definition M (W A : Type) : Type := St W → go (exit A * St W).

Section Monad.
Context {W : Type}.

#[global] Instance M_ret : MRet (M W) := λ A a σ, Ret (Val a, σ).
#[global] Instance M_bind : MBind (M W) := λ A B f m σ,
  match m σ with
  | Panic => Panic
  | Ret (Val a, σ') => f a σ'
  | Ret (Continue, σ') => Ret (Continue, σ')
  | Ret (Return r, σ') => Ret (Return r, σ')
  end.

Definition continue_ {A} : M W A := λ σ, Ret (Continue, σ).
Definition return_ {A} (r : outcome) : M W A := λ σ, Ret (Return r, σ).
Definition lift {A} (m : go A) : M W A := λ σ,
  match m with Ret a => Ret (Val a, σ) | Panic => Panic end.

Definition get {A} (f : St W → A) : M W A := λ σ, Ret (Val (f σ), σ).
Definition update_client (f : Client → Client) : M W () := λ σ,
  Ret (Val (), {| client := f (client σ); frame := frame σ; world := world σ; trace := trace σ |}).
Definition update_frame (f : Frame → Frame) : M W () := λ σ,
  Ret (Val (), {| client := client σ; frame := f (frame σ); world := world σ; trace := trace σ |}).
Definition observe (o : observation) : M W () := λ σ,
  Ret (Val (), {| client := client σ; frame := frame σ; world := world σ;
                  trace := trace σ ++ [o] |}).
Definition ask {A} (f : W → A * W) : M W A := λ σ,
  let '(a, w) := f (world σ) in
  Ret (Val a, {| client := client σ; frame := frame σ; world := w; trace := trace σ |}).

(** An interaction that is observed with its answer. *)
Definition ask_obs {A} (f : W → A * W) (o : A → observation) : M W A :=
  a ← ask f; _ ← observe (o a); mret a.

(** An update of the health state under [healthMu]. *)
Definition update_health (e : Health.event) : M W () :=
  _ ← update_client (λ c, set_health (health_step e (health c)) c); observe (OHealth e).

(** The result of a function whose body is [m]; a stray [continue] is a
    panic, which no theorem below lets happen. *)
Definition call (m : M W outcome) : M W outcome := λ σ,
  match m σ with
  | Panic => Panic
  | Ret (Val r, σ') | Ret (Return r, σ') => Ret (Val r, σ')
  | Ret (Continue, _) => Panic
  end.

(** [defer d]: [d] runs when the body has ended, and its end is ignored. *)
Definition defer {A} (d : M W ()) (m : M W A) : M W A := λ σ,
  match m σ with
  | Panic => Panic
  | Ret (x, σ') => match d σ' with Panic => Panic | Ret (_, σ'') => Ret (x, σ'') end
  end.

(** Sequencing after a question, step by step. *)
Lemma bind_get {A B} (f : St W → A) (k : A → M W B) σ : (get f ≫= k) σ = k (f σ) σ.
Proof. done. Qed.

Lemma bind_observe {B} o (k : () → M W B) σ :
  (observe o ≫= k) σ = k () {| client := client σ; frame := frame σ; world := world σ;
                               trace := trace σ ++ [o] |}.
Proof. done. Qed.

Lemma bind_ask {A B} (f : W → A * W) (k : A → M W B) σ :
  (ask f ≫= k) σ = let '(a, w) := f (world σ) in
    k a {| client := client σ; frame := frame σ; world := w; trace := trace σ |}.
Proof. unfold ask, mbind, M_bind. by destruct (f (world σ)). Qed.

(** ** Total weakest preconditions *)
Definition wp {A} (m : M W A) (Q : exit A → St W → Prop) (σ : St W) : Prop :=
  ∃ x σ', m σ = Ret (x, σ') ∧ Q x σ'.

Lemma wp_mono {A} (m : M W A) (P Q : exit A → St W → Prop) σ :
  (∀ x σ', P x σ' → Q x σ') → wp m P σ → wp m Q σ.
Proof. intros HPQ (x & σ' & ? & ?). exists x, σ'. auto. Qed.

Lemma wp_ret {A} (a : A) Q σ : Q (Val a) σ → wp (mret a) Q σ.
Proof. intros. by eexists _, _. Qed.

Lemma wp_continue {A} (Q : exit A → St W → Prop) σ : Q Continue σ → wp continue_ Q σ.
Proof. intros. by eexists _, _. Qed.

Lemma wp_return {A} r (Q : exit A → St W → Prop) σ : Q (Return r) σ → wp (return_ r) Q σ.
Proof. intros. by eexists _, _. Qed.

(** The postcondition of the first half of a sequence. *)
Definition seq_post {A B} (f : A → M W B) (Q : exit B → St W → Prop) (x : exit A) (σ : St W) : Prop :=
  match x with
  | Val a => wp (f a) Q σ
  | Continue => Q Continue σ
  | Return r => Q (Return r) σ
  end.

Lemma wp_bind {A B} (m : M W A) (f : A → M W B) Q σ :
  wp m (seq_post f Q) σ → wp (m ≫= f) Q σ.
Proof.
  intros ([a| |r] & σ' & Hm & HQ); cbn in HQ.
  - destruct HQ as (y & σ'' & Hf & HQ). exists y, σ''. split; [|done].
    unfold mbind, M_bind. by rewrite Hm.
  - exists Continue, σ'. split; [|done]. unfold mbind, M_bind. by rewrite Hm.
  - exists (Return r), σ'. split; [|done]. unfold mbind, M_bind. by rewrite Hm.
Qed.

Lemma wp_get {A} (f : St W → A) Q σ : Q (Val (f σ)) σ → wp (get f) Q σ.
Proof. intros. by eexists _, _. Qed.

Lemma wp_lift {A} (m : go A) a Q σ : m = Ret a → Q (Val a) σ → wp (lift m) Q σ.
Proof. intros ->. by eexists _, _. Qed.

Lemma wp_ask {A} (f : W → A * W) Q σ :
  (∀ a w, f (world σ) = (a, w) →
     Q (Val a) {| client := client σ; frame := frame σ; world := w; trace := trace σ |}) →
  wp (ask f) Q σ.
Proof.
  intros HQ. unfold wp, ask. destruct (f (world σ)) as [a w] eqn:E. by eexists _, _; eauto.
Qed.

Lemma wp_update_client f (Q : exit () → St W → Prop) σ :
  Q (Val ()) {| client := f (client σ); frame := frame σ; world := world σ; trace := trace σ |} →
  wp (update_client f) Q σ.
Proof. intros. by eexists _, _. Qed.

Lemma wp_update_frame f (Q : exit () → St W → Prop) σ :
  Q (Val ()) {| client := client σ; frame := f (frame σ); world := world σ; trace := trace σ |} →
  wp (update_frame f) Q σ.
Proof. intros. by eexists _, _. Qed.

Lemma wp_observe o (Q : exit () → St W → Prop) σ :
  Q (Val ()) {| client := client σ; frame := frame σ; world := world σ; trace := trace σ ++ [o] |} →
  wp (observe o) Q σ.
Proof. intros. by eexists _, _. Qed.

Lemma wp_call (m : M W outcome) (Q : exit outcome → St W → Prop) σ :
  wp m (λ x σ', match x with Val r | Return r => Q (Val r) σ' | Continue => False end) σ →
  wp (call m) Q σ.
Proof.
  intros ([r| |r] & σ' & Hm & HQ); [..|]; try done;
    exists (Val r), σ'; (split; [|done]); unfold call; by rewrite Hm.
Qed.

Lemma wp_defer {A} (d : M W ()) (m : M W A) Q σ :
  wp m (λ x σ', wp d (λ _ σ'', Q x σ'') σ') σ → wp (defer d m) Q σ.
Proof.
  intros (x & σ' & Hm & y & σ'' & Hd & HQ). exists x, σ''. split; [|done].
  unfold defer. by rewrite Hm, Hd.
Qed.

End Monad.

(** * What every computation does to the state

    [along R m]: wherever [m] ends, the state it leaves is [R]-after the state
    it found.  A preorder is kept by the program's own structure. *)
Section Along.
Context {W : Type} (R : relation (St W)) `{!PreOrder R}.

Definition along {A} (m : M W A) : Prop := ∀ σ x σ', m σ = Ret (x, σ') → R σ σ'.

Lemma along_bind {A B} (m : M W A) (f : A → M W B) :
  along m → (∀ a, along (f a)) → along (m ≫= f).
Proof.
  intros Hm Hf σ x σ' E. unfold mbind, M_bind in E.
  destruct (m σ) as [[[a| |r] σ1]|] eqn:Em; simplify_eq; [|by eapply Hm..].
  transitivity σ1; [by eapply Hm|by eapply Hf].
Qed.

Lemma along_defer {A} (d : M W ()) (m : M W A) : along d → along m → along (defer d m).
Proof.
  intros Hd Hm σ x σ' E. unfold defer in E.
  destruct (m σ) as [[y σ1]|] eqn:Em; [|done]. destruct (d σ1) as [[z σ2]|] eqn:Ed; [|done].
  simplify_eq. transitivity σ1; [by eapply Hm|by eapply Hd].
Qed.

Lemma along_call (m : M W outcome) : along m → along (call m).
Proof.
  intros Hm σ x σ' E. unfold call in E.
  destruct (m σ) as [[[a| |r] σ1]|] eqn:Em; simplify_eq; by eapply Hm.
Qed.

(** Computations that do not move. *)
Lemma along_lift {A} (m : go A) : along (lift m).
Proof. intros σ x σ' E. unfold lift in E. destruct m; by simplify_eq. Qed.

Lemma along_ret {A} (a : A) : along (mret a).
Proof. by intros σ x σ' [= _ <-]. Qed.

Lemma along_get {A} (f : St W → A) : along (get f).
Proof. by intros σ x σ' [= _ <-]. Qed.

Lemma along_return {A} r : along (return_ r : M W A).
Proof. by intros σ x σ' [= _ <-]. Qed.

Lemma along_continue {A} : along (continue_ : M W A).
Proof. by intros σ x σ' [= _ <-]. Qed.

End Along.
#[global] Arguments along {W} R {A} m : simpl never.

#[global] Arguments wp : simpl never.
#[global] Arguments continue_ : simpl never.
#[global] Arguments return_ : simpl never.
#[global] Arguments lift : simpl never.
#[global] Arguments get : simpl never.
#[global] Arguments ask : simpl never.
#[global] Arguments ask_obs : simpl never.
#[global] Arguments observe : simpl never.
#[global] Arguments update_client : simpl never.
#[global] Arguments update_frame : simpl never.
#[global] Arguments update_health : simpl never.

(** One step of symbolic execution on a [wp] goal. *)
Ltac wp_step :=
  lazymatch goal with
  | |- wp (_ ≫= _) _ _ => apply wp_bind
  | |- seq_post _ _ (Val _) _ => cbn [seq_post]
  | |- seq_post _ _ Continue _ => cbn [seq_post]
  | |- seq_post _ _ (Return _) _ => cbn [seq_post]
  | |- wp (mret _) _ _ => apply wp_ret
  | |- wp continue_ _ _ => apply wp_continue
  | |- wp (return_ _) _ _ => apply wp_return
  | |- wp (get _) _ _ => apply wp_get
  | |- wp (update_client _) _ _ => apply wp_update_client
  | |- wp (update_frame _) _ _ => apply wp_update_frame
  | |- wp (observe _) _ _ => apply wp_observe
  | |- wp (update_health _) _ _ => unfold update_health
  | |- wp (ask_obs _ _) _ _ => unfold ask_obs
  | |- wp (ask _) _ _ => apply wp_ask; intros ? ? ?
  end.
Ltac wp_steps := repeat (wp_step; cbn [client frame world trace] in * ).
