(* ===== verification/Client.v ===== *)
(** The upstream client (internal/modbus/client.go): one owner at a time, a
    session that is opened on demand, at most one retry of a read after a
    transport failure, request pacing, timing and health bookkeeping.

    The definitions follow the source statement by statement in the monad of
    Effects.v; [Execute]'s loop body is cut at its comments' natural seams
    into [ensureSession], [awaitSlot], [beginAttempt], [roundTrip] and
    [conclude].  [beforeAcquire] is a test hook and nil in [NewClient]. *)

From stdpp Require Import base list numbers strings.
From S2P Require Import Prelude Request Errors Validate Codec Health Effects.

(** * Pure helpers *)

(** [a + b] of two durations. *)
Definition dur_add (a b : Z) : Z := i64 (a + b).

(** The loop of [completeTiming] over the three components. *)
Fixpoint component_total (acc : Z) (ds : list Z) : Z :=
  match ds with
  | [] => acc
  | d :: ds =>
    if decide (d ≤ 0) then component_total acc ds
    else if decide (d > i64 (max_i64 - acc)) then max_i64
    else component_total (dur_add acc d) ds
  end.

Definition completeTiming (t : requestTiming) : requestTiming :=
  let componentTotal := component_total 0 [queue t; attempt t; reconnect t] in
  if decide (total t < componentTotal)
  then {| queue := queue t; attempt := attempt t; reconnect := reconnect t;
          total := componentTotal |}
  else t.

Definition zero_timing : requestTiming :=
  {| queue := 0; attempt := 0; reconnect := 0; total := 0 |}.
Definition set_queue (d : Z) (t : requestTiming) : requestTiming :=
  {| queue := d; attempt := attempt t; reconnect := reconnect t; total := total t |}.
Definition set_attempt (d : Z) (t : requestTiming) : requestTiming :=
  {| queue := queue t; attempt := d; reconnect := reconnect t; total := total t |}.
Definition set_reconnect (d : Z) (t : requestTiming) : requestTiming :=
  {| queue := queue t; attempt := attempt t; reconnect := d; total := total t |}.
Definition set_total (d : Z) (t : requestTiming) : requestTiming :=
  {| queue := queue t; attempt := attempt t; reconnect := reconnect t; total := d |}.

(** The context of a request: [Background] never ends. *)
Inductive Ctx := Background | ReqCtx (deadline : option Z).

Definition ctx_Deadline (ctx : Ctx) : option Z :=
  match ctx with Background => None | ReqCtx d => d end.

Definition is_transport_kind (k : ErrorKind) : bool :=
  match k with ErrorTransportTimeout | ErrorTransportClosed => true | _ => false end.

Section Client.
Context {W : Type} `{Env W}.

Definition now : M W Z := ask env_now.
Definition time_Now : M W Z := ask env_time_Now.

Definition ctx_Err (ctx : Ctx) : M W (option error) :=
  match ctx with Background => mret None | ReqCtx _ => ask env_ctx_Err end.

Definition contextError (ctx : Ctx) : M W (option error) :=
  err ← ctx_Err ctx;
  match err with
  | Some e => mret (Some e)
  | None =>
    match ctx_Deadline ctx with
    | None => mret None
    | Some deadline =>
        t ← time_Now;
        if decide (t < deadline) then mret None
        else mret (Some (ErrSentinel DeadlineExceeded))
    end
  end.

(** * Ownership *)

Definition release : M W () := observe ORelease.

Definition acquire (ctx : Ctx) : M W (option error) :=
  err ← ctx_Err ctx;
  match err with
  | Some e => mret (Some e)
  | None =>
    owned ← match ctx with Background => mret true | ReqCtx _ => ask env_select_owner end;
    if owned : bool then
      _ ← observe OAcquire;
      err ← ctx_Err ctx;
      match err with
      | Some e => _ ← release; mret (Some e)
      | None => mret None
      end
    else ctx_Err ctx
  end.

(** * Sessions *)

Definition session_Close (s : Z) : M W (option error) := ask_obs (env_Close s) (OClose s).

Definition connectLocked : M W (option error) :=
  old ← get (λ σ, session (client σ));
  _ ← match old with
      | Some s => _ ← session_Close s; mret ()
      | None => mret ()
      end;
  s ← ask env_newSession;
  err ← ask_obs (env_Connect s) (OConnect s);
  match err with
  | Some e =>
      let wrapped := ErrWrap "connect to %s: %w" e in
      _ ← session_Close s;
      _ ← update_health (ConnectFailed wrapped);
      _ ← update_client (set_session None);
      mret (Some wrapped)
  | None =>
      _ ← update_client (set_session (Some s));
      _ ← update_health Connected;
      mret None
  end.

Definition disconnectLocked : M W () :=
  old ← get (λ σ, session (client σ));
  _ ← match old with
      | Some s => _ ← session_Close s; mret ()
      | None => mret ()
      end;
  _ ← update_client (set_session None);
  update_health Disconnected.

Definition Connect : M W (option error) :=
  err ← acquire Background;
  match err with
  | Some e => mret (Some e)
  | None => defer release connectLocked
  end.

Definition Close : M W (option error) :=
  err ← acquire Background;
  match err with
  | Some e => mret (Some e)
  | None => defer release (
      old ← get (λ σ, session (client σ));
      err ← match old with
            | Some s => err ← session_Close s; _ ← update_client (set_session None); mret err
            | None => mret None
            end;
      _ ← update_health Disconnected;
      mret err)
  end.

(** * Waiting and deadlines *)

Definition waitForRequestSlot (ctx : Ctx) : M W (option error) :=
  nextRequestAt ← get (λ σ, nextRequestAt (client σ));
  t ← time_Now;
  let delay := time_Sub nextRequestAt t in
  if decide (delay ≤ 0) then
    _ ← observe (OSlot delay true); contextError ctx
  else
    elapsed ← match ctx with
              | Background => mret true
              | ReqCtx _ => ask (env_select_timer delay)
              end;
    _ ← observe (OSlot delay elapsed);
    if elapsed : bool then contextError ctx else ctx_Err ctx.

Definition socketTimeoutFor (ctx : Ctx) : M W Z :=
  timeout ← get (λ σ, attemptTimeout (client σ));
  timeout ← match ctx_Deadline ctx with
            | Some deadline =>
                t ← time_Now;
                let remaining := time_Sub deadline t in
                mret (if decide (remaining < timeout) then remaining else timeout)
            | None => mret timeout
            end;
  mret (if decide (timeout ≤ 0) then nanosecond else timeout).

(** * Dispatch *)

(** [c.session] and [c.client] are dereferenced; nil is a panic. *)
Definition current_session : M W Z :=
  s ← get (λ σ, session (client σ));
  lift match s with Some s => Ret s | None => Panic end.

Definition rpc (c : Call) : M W outcome :=
  s ← current_session; ask_obs (env_call s c) (OCall s c).

(** [results, err := ...; if err != nil {return nil, err}; return build(results), nil] *)
Definition rpc_build (c : Call) (build : list Z → list Z) : M W outcome :=
  r ← rpc c;
  mret match r with inr e => inr e | inl results => inl (build results) end.

Definition executeRequest (req : Request) : M W outcome :=
  let fc := FunctionCode req in
  if decide (fc = FuncReadCoils) then
    rpc_build (ReadCoils (Address req) (Quantity req)) (buildReadResponse fc)
  else if decide (fc = FuncReadDiscreteInputs) then
    rpc_build (ReadDiscreteInputs (Address req) (Quantity req)) (buildReadResponse fc)
  else if decide (fc = FuncReadHoldingRegisters) then
    rpc_build (ReadHoldingRegisters (Address req) (Quantity req)) (buildReadResponse fc)
  else if decide (fc = FuncReadInputRegisters) then
    rpc_build (ReadInputRegisters (Address req) (Quantity req)) (buildReadResponse fc)
  else if decide (fc = FuncWriteSingleCoil) then
    value ← lift (be_Uint16 (Data req));
    rpc_build (WriteSingleCoil (Address req) value) (buildWriteResponse fc (Address req))
  else if decide (fc = FuncWriteSingleRegister) then
    value ← lift (be_Uint16 (Data req));
    rpc_build (WriteSingleRegister (Address req) value) (buildWriteResponse fc (Address req))
  else if decide (fc = FuncWriteMultipleCoils) then
    rpc_build (WriteMultipleCoils (Address req) (Quantity req) (Data req))
      (buildWriteResponse fc (Address req))
  else if decide (fc = FuncWriteMultipleRegs) then
    rpc_build (WriteMultipleRegisters (Address req) (Quantity req) (Data req))
      (buildWriteResponse fc (Address req))
  else rpc (SendRaw (PDU req)).

(** * Bookkeeping *)

Definition logFailure (req : Request) (attempts : Z) (err : error) (willRetry : bool) : M W () :=
  t ← get (λ σ, timing (frame σ));
  let '(kind, exceptionCode) := classifyError (Some err) in
  observe (OLog {|
    log_message := if willRetry then "upstream request attempt failed" else "upstream request failed";
    log_slave_id := SlaveID req; log_func := FunctionCode req;
    log_addr := Address req; log_qty := Quantity req;
    log_attempts := attempts;
    log_timing := completeTiming t;
    log_error_kind := kind;
    log_will_retry := willRetry;
    log_write := IsWriteFunction (FunctionCode req);
    log_error := if IsWriteFunction (FunctionCode req) then None else Some err;
    log_exception_code := if decide (exceptionCode = 0) then None else Some exceptionCode;
    log_downstream_exception := if willRetry then None else Some (DownstreamException err) |}).

Definition logSuccess (req : Request) (attempts : Z) : M W () :=
  t ← get (λ σ, timing (frame σ));
  observe (OLog {|
    log_message := "upstream request completed";
    log_slave_id := SlaveID req; log_func := FunctionCode req;
    log_addr := Address req; log_qty := Quantity req;
    log_attempts := attempts; log_timing := t; log_error_kind := ErrorNone;
    log_will_retry := false; log_write := IsWriteFunction (FunctionCode req);
    log_error := None; log_exception_code := None; log_downstream_exception := None |}).

Definition finalError (err : error) (attempts : Z) : M W error :=
  t ← get (λ σ, timing (frame σ));
  let reqErr := requestError err attempts (completeTiming t) in
  _ ← update_health (FinalError (fst (classifyError (Some err))) reqErr);
  mret reqErr.

(** [c.recordFirstFailure()] reads the clock only for the first failure. *)
Definition record_first_failure : M W () :=
  h ← get (λ σ, health (client σ));
  if time_IsZero (firstFailureAt h) then t ← now; update_health (FirstFailure t)
  else update_health (FirstFailure (firstFailureAt h)).

Definition update_timing (f : requestTiming → requestTiming) : M W () :=
  update_frame (λ fr, set_timing (f (timing fr)) fr).

(** [timing.total = c.now().Sub(start)] *)
Definition stop_clock (start : Z) : M W () :=
  t ← now; update_timing (set_total (time_Sub t start)).

(** [c.logFailure(...); return nil, c.finalError(err, attempts, timing)] *)
Definition fail {A} (req : Request) (err : error) (attempts : Z) : M W A :=
  _ ← logFailure req attempts err false;
  e ← finalError err attempts;
  return_ (inr e).

(** [if err := contextError(ctx); err != nil { ... return ... }] *)
Definition check_context (ctx : Ctx) (req : Request) (start attempt : Z) : M W () :=
  err ← contextError ctx;
  match err with
  | Some e => _ ← stop_clock start; fail req e (attempt - 1)
  | None => mret ()
  end.

(** * One attempt *)

Definition ensureSession (ctx : Ctx) (req : Request) (start attempt : Z) : M W () :=
  s ← get (λ σ, session (client σ));
  match s with
  | Some _ => mret ()
  | None =>
    reconnectStart ← now;
    err ← connectLocked;
    t ← now;
    _ ← update_timing (λ tm, set_reconnect (dur_add (reconnect tm) (time_Sub t reconnectStart)) tm);
    match err with
    | None => mret ()
    | Some e =>
        _ ← update_frame (set_lastErr (Some e));
        willRetry ← (if decide (attempt = 1 ∧ IsReadFunction (FunctionCode req) = true ∧
                                isTransportError e = true)
                     then err ← contextError ctx; mret (bool_decide (err = None))
                     else mret false);
        _ ← stop_clock start;
        _ ← (if decide (attempt = 1 ∧ isTransportError e = true)
             then record_first_failure else mret ());
        if willRetry : bool then
          _ ← update_health Retry;
          _ ← logFailure req attempt e true;
          continue_
        else fail req e attempt
    end
  end.

Definition awaitSlot (ctx : Ctx) (req : Request) (start attempt : Z) : M W () :=
  ready ← get (λ σ, requestSlotReady (frame σ));
  if ready : bool then mret ()
  else
    queueStart ← now;
    err ← waitForRequestSlot ctx;
    t ← now;
    _ ← update_timing (λ tm, set_queue (dur_add (queue tm) (time_Sub t queueStart)) tm);
    match err with
    | Some e => _ ← stop_clock start; fail req e (attempt - 1)
    | None => update_frame (set_slotReady true)
    end.

(** Up to the armed session: the slave is set and the deadline bound. *)
Definition beginAttempt (ctx : Ctx) (req : Request) (start attempt : Z) : M W () :=
  _ ← check_context ctx req start attempt;
  s ← current_session;
  _ ← ask_obs (λ w, ((), env_SetSlave s (SlaveID req) w)) (λ _, OSetSlave s (SlaveID req));
  _ ← check_context ctx req start attempt;
  attemptTimeout ← socketTimeoutFor ctx;
  _ ← ask_obs (λ w, ((), env_BeginRequest s attemptTimeout w)) (λ _, OBegin s attemptTimeout);
  err ← contextError ctx;
  match err with
  | Some e =>
      _ ← ask_obs (env_finishRequest s) (OFinish s);
      _ ← stop_clock start; fail req e (attempt - 1)
  | None => mret ()
  end.

(** The exchange with its classified error, and when it completed. *)
Definition roundTrip (ctx : Ctx) (req : Request) : M W (outcome * Z) :=
  s ← current_session;
  attemptStart ← now;
  r ← executeRequest req;
  responseCompletedAt ← time_Now;
  t ← now;
  _ ← update_timing (λ tm, set_attempt (dur_add (Errors.attempt tm) (time_Sub t attemptStart)) tm);
  _ ← ask_obs (env_finishRequest s) (OFinish s);
  match r with
  | inl resp => mret (inl resp, responseCompletedAt)
  | inr e =>
    match classifyRequestPathError (FunctionCode req) (Some e) with
    | None => mret (inl [], responseCompletedAt)
    | Some err =>
      if decide (fst (classifyError (Some err)) = ErrorProtocolException)
      then mret (inr err, responseCompletedAt)
      else
        ctxErr ← contextError ctx;
        mret (inr (default err ctxErr), responseCompletedAt)
    end
  end.

Definition succeed (ctx : Ctx) (req : Request) (start attempt : Z) (resp : list Z)
    (responseCompletedAt : Z) : M W () :=
  requestDelay ← get (λ σ, requestDelay (client σ));
  _ ← (if decide (requestDelay > 0)
       then update_client (set_nextRequestAt (responseCompletedAt + requestDelay))
       else mret ());
  ctxErr ← contextError ctx;
  match ctxErr with
  | Some e => _ ← stop_clock start; fail req e attempt
  | None =>
      completedAt ← now;
      _ ← update_timing (set_total (time_Sub completedAt start));
      _ ← update_timing completeTiming;
      _ ← update_health (Success attempt completedAt);
      _ ← logSuccess req attempt;
      return_ (inl resp)
  end.

Definition conclude (ctx : Ctx) (req : Request) (start attempt : Z) (err : error) : M W () :=
  let kind := fst (classifyError (Some err)) in
  _ ← update_frame (set_lastErr (Some err));
  _ ← stop_clock start;
  willRetry ← (if decide (attempt = 1 ∧ IsReadFunction (FunctionCode req) = true ∧
                          is_transport_kind kind = true)
               then e ← contextError ctx; mret (bool_decide (e = None))
               else mret false);
  _ ← (if decide (attempt = 1 ∧ is_transport_kind kind = true)
       then record_first_failure else mret ());
  if willRetry : bool then
    _ ← disconnectLocked;
    _ ← update_health Retry;
    _ ← logFailure req attempt err true;
    continue_
  else
    _ ← (if decide (kind = ErrorProtocolException) then mret () else disconnectLocked);
    fail req err attempt.

(** The body of the loop; it always ends with [continue] or [return]. *)
Definition attempt_body (ctx : Ctx) (req : Request) (start attempt : Z) : M W () :=
  _ ← ensureSession ctx req start attempt;
  _ ← awaitSlot ctx req start attempt;
  _ ← beginAttempt ctx req start attempt;
  '(r, responseCompletedAt) ← roundTrip ctx req;
  match r with
  | inl resp => succeed ctx req start attempt resp responseCompletedAt
  | inr err => conclude ctx req start attempt err
  end.

(** [for attempt := 1; attempt <= 2; attempt++]: [continue] and a body that
    falls through go on with the next attempt. *)
Fixpoint attempt_loop (fuel : nat) (ctx : Ctx) (req : Request) (start attempt : Z) : M W () :=
  match fuel with
  | O => mret ()
  | S n =>
    if decide (attempt ≤ 2) then λ σ,
      match attempt_body ctx req start attempt σ with
      | Panic => Panic
      | Ret (Return r, σ') => Ret (Return r, σ')
      | Ret (_, σ') => attempt_loop n ctx req start (attempt + 1) σ'
      end
    else mret ()
  end.

(** What the source does after the loop: a [RequestError] of [lastErr], which
    is nil if no attempt failed. *)
Definition after_loop (start : Z) : M W outcome :=
  _ ← stop_clock start;
  lastErr ← get (λ σ, lastErr (frame σ));
  e ← finalError (default (ErrOther None "<nil>") lastErr) 2;
  return_ (inr e).

Definition Execute_body (ctx : Ctx) (req : Request) : M W outcome :=
  _ ← update_frame (λ _, {| timing := zero_timing; lastErr := None; requestSlotReady := false |});
  start ← now;
  invalid ← lift (ValidateRequest (Some req));
  match invalid with
  | Some err =>
      _ ← stop_clock start;
      t ← get (λ σ, timing (frame σ));
      return_ (inr (requestError err 0 t))
  | None =>
      queueStart ← now;
      err ← acquire ctx;
      match err with
      | Some err =>
          t ← now;
          _ ← update_timing (set_queue (time_Sub t queueStart));
          _ ← stop_clock start;
          tm ← get (λ σ, timing (frame σ));
          return_ (inr (requestError err 0 tm))
      | None => defer release (
          t ← now;
          _ ← update_timing (set_queue (time_Sub t queueStart));
          _ ← attempt_loop 2 ctx req start 1;
          after_loop start)
      end
  end.

Definition Execute (ctx : Ctx) (req : Request) : M W outcome := call (Execute_body ctx req).

End Client.
