(* ===== verification/ClientSpec.v ===== *)
(** What the upstream client promises: the protocol machine of one request.

    [pstep] is an abstract machine over the observations of Effects.v.  It
    says when each interaction with the device is allowed; it knows nothing of
    timing, logging or how [Execute] is written.  [Execute_protocol] is the
    refinement: every run of [Execute], in every environment, is a run of the
    machine, ends, and returns what the machine's final state says.  The
    safety properties are then read off the machine. *)

From stdpp Require Import base list numbers strings.
From S2P Require Import Prelude Request Errors Validate Codec Health Effects Client.

(** * The machine *)

(** What happened to the armed session. *)
Inductive phase := Idle | Armed | Answered.
#[global] Instance phase_eq_dec : EqDecision phase.
Proof. solve_decision. Defined.

Record pstate := {
  p_owner : bool;                (* the owner token is held *)
  p_over : bool;                 (* it was given back *)
  p_session : option Z;          (* the open session *)
  p_slot : option bool;          (* the wait for the request slot and its end *)
  p_addressed : bool;            (* the slave id is set on the open session *)
  p_phase : phase;
  p_dirty : bool;                (* an exchange failed on the open session *)
  p_tries : list outcome;        (* completed attempts: replies and classified errors *)
}.

Definition p_init (s : option Z) : pstate :=
  {| p_owner := false; p_over := false; p_session := s; p_slot := None; p_addressed := false;
     p_phase := Idle; p_dirty := false; p_tries := [] |}.

(** The library call a request stands for. *)
Definition request_call (req : Request) : option Call :=
  let fc := FunctionCode req in
  let word := match be_Uint16 (Data req) with Ret v => Some v | Panic => None end in
  if decide (fc = 0x01) then Some (ReadCoils (Address req) (Quantity req))
  else if decide (fc = 0x02) then Some (ReadDiscreteInputs (Address req) (Quantity req))
  else if decide (fc = 0x03) then Some (ReadHoldingRegisters (Address req) (Quantity req))
  else if decide (fc = 0x04) then Some (ReadInputRegisters (Address req) (Quantity req))
  else if decide (fc = 0x05) then WriteSingleCoil (Address req) <$> word
  else if decide (fc = 0x06) then WriteSingleRegister (Address req) <$> word
  else if decide (fc = 0x0F) then Some (WriteMultipleCoils (Address req) (Quantity req) (Data req))
  else if decide (fc = 0x10) then
    Some (WriteMultipleRegisters (Address req) (Quantity req) (Data req))
  else Some (SendRaw (PDU req)).

(** The response PDU made from the library's results. *)
Definition build_response (req : Request) (results : list Z) : list Z :=
  if IsReadFunction (FunctionCode req) then buildReadResponse (FunctionCode req) results
  else if IsWriteFunction (FunctionCode req)
  then buildWriteResponse (FunctionCode req) (Address req) results
  else results.

(** An attempt may start: it is the first, or it repeats a read whose first
    attempt failed in transport. *)
Definition may_try (req : Request) (tries : list outcome) : bool :=
  match tries with
  | [] => true
  | [inr e] => IsReadFunction (FunctionCode req) && isTransportError e
  | _ => false
  end.

(** The error a failed exchange counts as. *)
Definition path_error (req : Request) (e : error) : error :=
  default e (classifyRequestPathError (FunctionCode req) (Some e)).

Definition is_protocol (e : error) : bool :=
  bool_decide (fst (classifyError (Some e)) = ErrorProtocolException).

Definition p_connect (s : option Z) (tries : list outcome) (p : pstate) : pstate :=
  {| p_owner := p_owner p; p_over := p_over p; p_session := s; p_slot := p_slot p; p_addressed := false;
     p_phase := Idle; p_dirty := false; p_tries := tries |}.
Definition p_set_phase (f : phase) (p : pstate) : pstate :=
  {| p_owner := p_owner p; p_over := p_over p; p_session := p_session p; p_slot := p_slot p;
     p_addressed := p_addressed p; p_phase := f; p_dirty := p_dirty p; p_tries := p_tries p |}.
Definition p_set_slot (b : bool) (p : pstate) : pstate :=
  {| p_owner := p_owner p; p_over := p_over p; p_session := p_session p; p_slot := Some b;
     p_addressed := p_addressed p; p_phase := p_phase p; p_dirty := p_dirty p;
     p_tries := p_tries p |}.
Definition p_set_owner (b : bool) (p : pstate) : pstate :=
  {| p_owner := b; p_over := negb b; p_session := p_session p; p_slot := p_slot p;
     p_addressed := p_addressed p; p_phase := p_phase p; p_dirty := p_dirty p;
     p_tries := p_tries p |}.
Definition p_address (p : pstate) : pstate :=
  {| p_owner := p_owner p; p_over := p_over p; p_session := p_session p; p_slot := p_slot p;
     p_addressed := true; p_phase := p_phase p; p_dirty := p_dirty p; p_tries := p_tries p |}.
Definition p_answer (r : outcome) (p : pstate) : pstate :=
  {| p_owner := p_owner p; p_over := p_over p; p_session := p_session p; p_slot := p_slot p;
     p_addressed := p_addressed p; p_phase := Answered;
     p_dirty := match r with inl _ => false | inr e => negb (is_protocol e) end;
     p_tries := p_tries p ++ [r] |}.

Definition on_path (req : Request) (r : outcome) : outcome :=
  match r with inl results => inl (build_response req results) | inr e => inr (path_error req e) end.

(** The device and its library report no error of the proxy's own types. *)
Definition foreign_outcome (r : outcome) : bool :=
  match r with inl _ => true | inr e => foreign_error e end.

(** The session is open, belongs to the holder, and nothing failed on it. *)
Definition p_usable (s : Z) (p : pstate) : bool :=
  p_owner p && bool_decide (p_session p = Some s) && negb (p_dirty p).

Definition pstep (req : Request) (p : pstate) (o : observation) : option pstate :=
  match o with
  | OAcquire =>
      if negb (p_owner p) && negb (p_over p) then Some (p_set_owner true p) else None
  | ORelease =>
      if p_owner p && bool_decide (p_phase p = Idle) && negb (p_dirty p)
      then Some (p_set_owner false p) else None
  | OConnect s None =>
      if p_owner p && bool_decide (p_session p = None) && may_try req (p_tries p)
      then Some (p_connect (Some s) (p_tries p) p) else None
  | OConnect s (Some e) =>
      if p_owner p && bool_decide (p_session p = None) && may_try req (p_tries p)
      then Some (p_connect None (p_tries p ++ [inr (ErrWrap "connect to %s: %w" e)]) p) else None
  | OClose s _ =>
      if p_owner p && bool_decide (p_phase p = Idle) &&
         (bool_decide (p_session p = Some s) || bool_decide (p_session p = None))
      then Some (p_connect None (p_tries p) p) else None
  | OSlot _ elapsed =>
      if p_owner p && bool_decide (p_slot p = None) && bool_decide (p_phase p = Idle)
      then Some (p_set_slot elapsed p) else None
  | OSetSlave s slave =>
      if p_usable s p && bool_decide (p_phase p = Idle) && bool_decide (slave = SlaveID req)
      then Some (p_address p) else None
  | OBegin s timeout =>
      if p_usable s p && bool_decide (p_phase p = Idle) && p_addressed p &&
         bool_decide (p_slot p = Some true) && bool_decide (1 ≤ timeout)
      then Some (p_set_phase Armed p) else None
  | OCall s c r =>
      if p_usable s p && bool_decide (p_phase p = Armed) && may_try req (p_tries p) &&
         bool_decide (Some c = request_call req) && foreign_outcome r
      then Some (p_answer (on_path req r) p) else None
  | OFinish s _ =>
      if p_owner p && bool_decide (p_session p = Some s) && bool_decide (p_phase p ≠ Idle)
      then Some (p_set_phase Idle p) else None
  | OHealth _ | OLog _ => if p_owner p then Some p else None
  end.

Fixpoint psteps (req : Request) (p : pstate) (tr : list observation) : option pstate :=
  match tr with
  | [] => Some p
  | o :: tr => match pstep req p o with Some p' => psteps req p' tr | None => None end
  end.

(** ** What a finished run returns *)

Definition context_error (e : error) : Prop :=
  e = ErrSentinel DeadlineExceeded ∨ e = ErrSentinel Canceled.

(** The environment has answered that the caller's context ended with [e]: its
    [Err] was [e], or the clock had reached its deadline. *)
Definition ctx_ended {W} `{Env W} (ctx : Ctx) (e : error) : Prop :=
  match ctx with
  | Background => False
  | ReqCtx deadline =>
      (∃ w w', env_ctx_Err w = (Some e, w')) ∨
      e = ErrSentinel DeadlineExceeded ∧
      ∃ d t w w', deadline = Some d ∧ env_time_Now w = (t, w') ∧ d ≤ t
  end.

(** The context's error may replace what the last attempt ended with: an error
    that is no exception of the device and means the gateway's target failed. *)
Definition superseded (last_try : option outcome) : Prop :=
  ∀ e, last_try = Some (inr e) →
    is_protocol e = false ∧ downstream_spec (classifyError (Some e)) = ExcGatewayTargetFailed.

(** A success is the reply of the last attempt.  An error is a [RequestError]
    that counts the attempts and carries the last attempt's error, or the
    context's if the caller gave up and the device sent no exception. *)
Definition result_ok {W} `{Env W} (ctx : Ctx) (p : pstate) (r : outcome) : Prop :=
  match r with
  | inl resp => last (p_tries p) = Some (inl resp)
  | inr e => ∃ err tm,
      e = requestError err (len (p_tries p)) tm ∧ base_error err ∧
      (ctx_ended (W := W) ctx err ∧ superseded (last (p_tries p)) ∨
       last (p_tries p) = Some (inr err))
  end.

(** The health events of a trace, newest first, and how they must end: with
    the success, or with the final error that is returned. *)
Definition as_health (o : observation) : option Health.event :=
  match o with OHealth e => Some e | _ => None end.
Definition health_log (tr : list observation) : list Health.event := rev (omap as_health tr).

Definition closed_by (n : Z) (r : outcome) (hl : list Health.event) : Prop :=
  match r with
  | inl _ => ∃ t hl', hl = Success n t :: hl'
  | inr e => ∃ hl', hl = FinalError (ErrorKindOf (Some e)) e :: hl'
  end.

(** * Lemmas on the machine *)

Lemma health_log_app tr1 tr2 : health_log (tr1 ++ tr2) = health_log tr2 ++ health_log tr1.
Proof. unfold health_log. by rewrite omap_app, rev_app_distr. Qed.

Lemma psteps_app req p tr1 tr2 :
  psteps req p (tr1 ++ tr2) =
  match psteps req p tr1 with Some p' => psteps req p' tr2 | None => None end.
Proof.
  revert p. induction tr1 as [|o tr1 IH]; intros p; cbn; [done|].
  destruct (pstep req p o); [apply IH|done].
Qed.

Lemma psteps_snoc req p tr o p' :
  psteps req p tr = Some p' → psteps req p (tr ++ [o]) = pstep req p' o.
Proof. intros H. rewrite psteps_app, H. cbn. by destruct (pstep req p' o). Qed.

Lemma pstep_owner req p o p' :
  pstep req p o = Some p' → o ≠ OAcquire →
  p_owner p = true ∧ (o ≠ ORelease → p_owner p' = true) ∧ (o = ORelease → p_over p' = true ∧ p_owner p' = false).
Proof.
  unfold pstep, p_usable. intros Hp Ho.
  destruct o as [| |s [e|]| | | | | | | |]; try done; destruct (p_owner p) eqn:Hown; cbn in Hp; try done;
    repeat case_match; simplify_eq/=; naive_solver.
Qed.

(** * The refinement *)

Section Refinement.
Context {W : Type} `{EnvLaws W}.
Context (req : Request) (Hwf : wf_request req) (ctx : Ctx).
Context (p0 : pstate) (tr0 : list observation).

(** The trace since [tr0] drives the machine to [p]. *)
Record at_ (p : pstate) (tr : list observation) (s : option Z) : Prop := {
  at_trace : ∃ tr', tr = tr0 ++ tr' ∧ psteps req p0 tr' = Some p;
  at_session : s = p_session p;
  at_owner : p_owner p = true;
}.

Lemma at_observe p tr s o p' s' :
  at_ p tr s → pstep req p o = Some p' → s' = p_session p' → o ≠ ORelease →
  at_ p' (tr ++ [o]) s'.
Proof.
  intros [(tr' & -> & Hp) _ Hown] Ho -> Hr. split; [|done|].
  2: { apply pstep_owner in Ho as (_ & Ho & _); [auto|]. intros ->. cbn in Ho. by rewrite Hown in Ho. }
  exists (tr' ++ [o]). split; [by rewrite app_assoc|]. by rewrite (psteps_snoc _ _ _ _ p).
Qed.

Ltac observe_at H := eapply at_observe; [exact H| | |discriminate].

Definition silent (o : observation) : bool :=
  match o with OHealth _ | OLog _ => true | _ => false end.

Lemma at_silent p tr s o : at_ p tr s → silent o = true → at_ p (tr ++ [o]) s.
Proof.
  intros Hat Ho. pose proof (at_owner _ _ _ Hat) as Hown. pose proof (at_session _ _ _ Hat).
  eapply at_observe; [done| |done|]; destruct o; try done; cbn; by rewrite Hown.
Qed.

(** What was appended after [at_] is a suffix of the run's own trace. *)
Lemma at_suffix p tr s l tr' : at_ p tr s → tr ++ l = tr0 ++ tr' → ∃ tr1, tr' = tr1 ++ l.
Proof.
  intros [(tr1 & -> & _) _ _] Heq. rewrite <- app_assoc in Heq. apply app_inv_head in Heq.
  by exists tr1.
Qed.

Definition closes (n : Z) (r : outcome) (tr : list observation) : Prop :=
  ∀ tr', tr = tr0 ++ tr' → closed_by n r (health_log tr').

(** ** Contexts *)

Lemma ctx_ended_kind e : ctx_ended (W := W) ctx e → context_error e.
Proof.
  unfold ctx_ended. destruct ctx; [done|]. intros [(w & w' & Hw)|[-> _]]; [by eapply ctx_Err_kind|by left].
Qed.

Lemma wp_ctx_Err Q σ :
  (∀ err w, (∀ e, err = Some e → ctx_ended (W := W) ctx e) →
     (ctx = Background → err = None) →
     Q (Val err) {| client := client σ; frame := frame σ; world := w; trace := trace σ |}) →
  wp (ctx_Err ctx) Q σ.
Proof.
  intros HQ. destruct ctx; cbn.
  - apply wp_ret. destruct σ. by apply HQ.
  - apply wp_ask. intros err w Hw. apply HQ; [|done]. intros e ->. left. by eexists _, _.
Qed.

Lemma wp_contextError Q σ :
  (∀ err w, (∀ e, err = Some e → ctx_ended (W := W) ctx e) →
     Q (Val err) {| client := client σ; frame := frame σ; world := w; trace := trace σ |}) →
  wp (contextError ctx) Q σ.
Proof.
  intros HQ. unfold contextError. apply wp_bind, wp_ctx_Err. intros err w He _. cbn [seq_post].
  destruct err as [e|]; [apply wp_ret; by apply HQ|].
  destruct (ctx_Deadline ctx) as [d|] eqn:Hd; [|apply wp_ret; by apply HQ].
  unfold time_Now. wp_steps.
  case_decide; apply wp_ret; apply HQ; [done|]. intros ? [= <-]. unfold ctx_ended, ctx_Deadline in *.
  destruct ctx as [|dl]; [done|]. subst dl. right. split; [done|].
  eexists _, _, _, _. split_and!; [done|eassumption|lia].
Qed.

Lemma context_error_base e : context_error e → base_error e.
Proof. intros [-> | ->]; by apply base_foreign. Qed.

Lemma ctx_ended_base e : ctx_ended (W := W) ctx e → base_error e.
Proof. intros He. by apply context_error_base, ctx_ended_kind. Qed.

Lemma superseded_reply l : superseded (Some (inl l)).
Proof. by intros e. Qed.

(** A transport error may be superseded, and so may every error the request
    path makes of a reply that is no genuine exception. *)
Lemma superseded_transport e : isTransportError e = true → superseded (Some (inr e)).
Proof.
  unfold superseded, isTransportError, is_protocol. intros He e' [= <-].
  destruct (classifyError (Some e)) as [k c]. by destruct k.
Qed.

Lemma superseded_path e err :
  foreign_error e = true → classifyRequestPathError (FunctionCode req) (Some e) = Some err →
  is_protocol err = false → superseded (Some (inr err)).
Proof.
  intros Hf Herr Hp e' [= <-]. split; [done|].
  destruct (genuine_exception (FunctionCode req) e) as [code|] eqn:G.
  - destruct (request_path_genuine _ _ _ Hf G) as (He & _ & K). rewrite He in Herr. simplify_eq.
    unfold is_protocol in Hp. by rewrite K in Hp.
  - pose proof (request_path_other _ _ _ Hf G Herr) as Hk.
    destruct (classifyError (Some err)) as [k c]. by destruct k.
Qed.

Lemma may_try_superseded tries : may_try req tries = true → superseded (last tries).
Proof.
  destruct tries as [|[l|e] [|]]; cbn; try done. intros [_ ?]%andb_true_iff. by apply superseded_transport.
Qed.

Lemma context_error_kind e :
  context_error e → is_transport_kind (fst (classifyError (Some e))) = false ∧
                    isTransportError e = false ∧ is_protocol e = false.
Proof. by intros [-> | ->]. Qed.

(** ** Steps that only touch the frame, the health state or the log *)

Lemma wp_stop_clock start (Q : exit () → St W → Prop) σ :
  (∀ fr w, requestSlotReady fr = requestSlotReady (frame σ) →
     Q (Val ()) {| client := client σ; frame := fr; world := w; trace := trace σ |}) →
  wp (stop_clock start) Q σ.
Proof. intros HQ. unfold stop_clock, now, update_timing. wp_steps. by apply HQ. Qed.

(** [fail] returns a request error and changes neither session nor machine. *)
Lemma wp_fail {A} p err attempts (Q : exit A → St W → Prop) σ :
  at_ p (trace σ) (session (client σ)) →
  (∀ tm σ', at_ p (trace σ') (session (client σ')) →
     (∀ n, closes n (inr (requestError err attempts tm)) (trace σ')) →
     Q (Return (inr (requestError err attempts tm))) σ') →
  wp (fail req err attempts) Q σ.
Proof.
  intros Hat HQ. unfold fail, logFailure, finalError. wp_steps.
  destruct (classifyError _) as [k c] eqn:K. wp_steps.
  apply HQ; [cbn; by repeat apply at_silent|]. cbn [trace]. intros n tr' Htr.
  rewrite <- app_assoc in Htr. destruct (at_suffix _ _ _ _ _ Hat Htr) as [tr1 ->].
  rewrite health_log_app. unfold requestError. rewrite K. by eexists.
Qed.

(** ** Stages of an attempt *)

(** Between attempts: attempt [n] may start. *)
Record ready (n : Z) (p : pstate) : Prop := {
  ready_owner : p_owner p = true;
  ready_phase : p_phase p = Idle;
  ready_clean : p_dirty p = false;
  ready_count : len (p_tries p) + 1 = n;
  ready_try : may_try req (p_tries p) = true;
}.

(** [requestSlotReady] is what the machine knows about the slot. *)
Definition slot_inv (p : pstate) (σ : St W) : Prop :=
  p_slot p = if requestSlotReady (frame σ) then Some true else None.

Record finished (p : pstate) : Prop := {
  finished_owner : p_owner p = true;
  finished_phase : p_phase p = Idle;
  finished_clean : p_dirty p = false;
}.

Definition at_state (p : pstate) (σ : St W) : Prop := at_ p (trace σ) (session (client σ)).

Definition done_with (r : outcome) (σ : St W) : Prop :=
  ∃ p, at_state p σ ∧ finished p ∧ result_ok (W := W) ctx p r ∧
    closes (len (p_tries p)) r (trace σ).

(** [continue] happens in the first attempt only, and leaves everything ready
    for the second. *)
Definition stage {A} (n : Z) (R : A → St W → Prop) (x : exit A) (σ : St W) : Prop :=
  match x with
  | Val a => R a σ
  | Continue => n = 1 ∧ ∃ p, at_state p σ ∧ ready 2 p ∧ slot_inv p σ
  | Return r => done_with r σ
  end.

Lemma stage_bind {A B} n (R : A → St W → Prop) (R' : B → St W → Prop) (m : M W A) f σ :
  wp m (stage n R) σ → (∀ a σ', R a σ' → wp (f a) (stage n R') σ') →
  wp (m ≫= f) (stage n R') σ.
Proof.
  intros Hm Hf. apply wp_bind. eapply wp_mono; [|exact Hm].
  intros [a| |r] σ' Hx; cbn in *; auto.
Qed.

Lemma ready_finished n p : ready n p → finished p.
Proof. by intros []. Qed.

(** Failing with the context's error before the attempt has reached the
    device. *)
Lemma stage_fail_context {A} n p err start R σ :
  at_state p σ → finished p → len (p_tries p) = n - 1 → ctx_ended (W := W) ctx err →
  may_try req (p_tries p) = true →
  wp (stop_clock start) (seq_post (λ _, fail req err (n - 1)) (stage (A := A) n R)) σ.
Proof.
  intros Hat Hfin Hl Herr Hmay. apply wp_stop_clock. intros fr w Hfr. cbn [seq_post].
  apply (wp_fail p); [done|]. intros tm σ' Hat' Hcl. exists p. split_and!; [done..| |apply Hcl].
  exists err, tm. rewrite Hl. split_and!; [done|by apply ctx_ended_base|left].
  split; [done|by apply may_try_superseded].
Qed.

(** Failing after [n] attempts with the error of the last one, or the
    context's. *)
Lemma stage_fail_last {A} n p err R σ :
  at_state p σ → finished p → len (p_tries p) = n → base_error err →
  ctx_ended (W := W) ctx err ∧ superseded (last (p_tries p)) ∨ last (p_tries p) = Some (inr err) →
  wp (fail req err n) (stage (A := A) n R) σ.
Proof.
  intros Hat Hfin <- Hb Herr. apply (wp_fail p); [done|]. intros tm σ' Hat' Hcl.
  exists p. split_and!; [done..| |apply Hcl]. by exists err, tm.
Qed.

Lemma wp_record_first_failure p (Q : exit () → St W → Prop) σ :
  at_state p σ →
  (∀ σ', at_state p σ' → frame σ' = frame σ → Q (Val ()) σ') → wp record_first_failure Q σ.
Proof.
  intros Hat HQ. unfold record_first_failure, now. wp_steps.
  destruct (time_IsZero _); wp_steps; (apply HQ; [|done]); by eapply at_silent.
Qed.

Lemma wp_logFailure p attempts err b (Q : exit () → St W → Prop) σ :
  at_state p σ →
  (∀ σ', at_state p σ' → frame σ' = frame σ → Q (Val ()) σ') →
  wp (logFailure req attempts err b) Q σ.
Proof.
  intros Hat HQ. unfold logFailure. wp_steps. destruct (classifyError _). wp_steps.
  apply HQ; [|done]. by eapply at_silent.
Qed.

(** ** Connecting *)

Lemma wp_connectLocked n p (Q : exit (option error) → St W → Prop) σ :
  at_state p σ → ready n p → p_session p = None →
  (∀ s σ', at_state (p_connect (Some s) (p_tries p) p) σ' → frame σ' = frame σ →
     Q (Val None) σ') →
  (∀ e σ', foreign_error e = true →
     at_state (p_connect None (p_tries p ++ [inr e]) p) σ' → frame σ' = frame σ →
     Q (Val (Some e)) σ') →
  wp connectLocked Q σ.
Proof.
  intros Hat [Ho Hph Hcl Hn Ht] Hs HQ HQe. unfold connectLocked. wp_steps.
  rewrite (at_session _ _ _ Hat), Hs. wp_steps.
  match goal with H : env_Connect _ _ = (?a, _) |- _ => destruct a as [e|]; rename H into Hc end.
  - apply Connect_foreign in Hc. unfold session_Close. wp_steps. apply HQe; cbn; [done| |done].
    eapply at_silent; [|done].
    eapply at_observe; [observe_at Hat; [|reflexivity]| | |discriminate].
    + cbn. by rewrite Ho, Hs, Ht.
    + cbn. by rewrite Ho, bool_decide_true, orb_true_r.
    + done.
  - wp_steps. eapply HQ; [|done]. unfold at_state. cbn.
    eapply at_silent; [|done]. observe_at Hat; [|reflexivity].
    cbn. by rewrite Ho, Hs, Ht.
Qed.

Definition session_ready (n : Z) (σ : St W) : Prop :=
  ∃ p s, at_state p σ ∧ ready n p ∧ slot_inv p σ ∧ p_session p = Some s.

Lemma may_try_second e :
  IsReadFunction (FunctionCode req) = true → isTransportError e = true →
  may_try req [inr e] = true.
Proof. cbn. by intros -> ->. Qed.

(** ** The decision to retry, shared by the two ways an attempt fails *)

Definition same_slot (σ σ' : St W) : Prop :=
  requestSlotReady (frame σ') = requestSlotReady (frame σ).

Lemma wp_will_retry n t p (Q : exit bool → St W → Prop) σ :
  at_state p σ →
  (∀ b σ', at_state p σ' → same_slot σ σ' →
     (b = true → n = 1 ∧ IsReadFunction (FunctionCode req) = true ∧ t = true) →
     Q (Val b) σ') →
  wp (if decide (n = 1 ∧ IsReadFunction (FunctionCode req) = true ∧ t = true)
      then err ← contextError ctx; mret (bool_decide (err = None)) else mret false) Q σ.
Proof.
  intros Hat HQ. case_decide.
  - apply wp_bind, wp_contextError. intros err w _. cbn [seq_post]. by apply wp_ret, HQ.
  - by apply wp_ret, HQ.
Qed.

Lemma wp_maybe_first_failure n t p (Q : exit () → St W → Prop) σ :
  at_state p σ →
  (∀ σ', at_state p σ' → same_slot σ σ' → Q (Val ()) σ') →
  wp (if decide (n = 1 ∧ t = true) then record_first_failure else mret ()) Q σ.
Proof.
  intros Hat HQ. case_decide; [|by apply wp_ret, HQ].
  apply (wp_record_first_failure p); [done|]. intros σ' ? Hf. apply HQ; [done|].
  unfold same_slot. by rewrite Hf.
Qed.

(** A first failed attempt of a read that is retried leaves attempt 2 ready. *)
Lemma retry_ready p e tries :
  finished p → p_tries p = tries ++ [inr e] → len (p_tries p) = 1 →
  IsReadFunction (FunctionCode req) = true → isTransportError e = true → ready 2 p.
Proof.
  intros [] Ht Hl Hr He. split; try done; [by rewrite Hl|].
  rewrite Ht in Hl |- *. destruct tries; [by apply may_try_second|len_lia].
Qed.

Lemma ensureSession_stage n p start σ :
  at_state p σ → ready n p → slot_inv p σ →
  wp (ensureSession ctx req start n) (stage n (λ _, session_ready n)) σ.
Proof.
  intros Hat Hr Hsl. unfold ensureSession, now. wp_steps.
  rewrite (at_session _ _ _ Hat). destruct (p_session p) as [s|] eqn:Hs.
  { wp_steps. by exists p, s. }
  wp_steps. eapply (wp_connectLocked n p); [done..| |]; unfold slot_inv in *.
  - intros s σ' Hat' Hfr. unfold update_timing. wp_steps.
    exists (p_connect (Some s) (p_tries p) p), s. unfold slot_inv. cbn.
    rewrite Hfr. split_and!; try done. destruct Hr. by split.
  - intros e σ' Hf Hat' Hfr. unfold update_timing. wp_steps.
    set (p' := p_connect None (p_tries p ++ [inr e]) p) in *.
    assert (Hfin : finished p') by (destruct Hr; by split).
    assert (Hlen : len (p_tries p') = n) by (destruct Hr; cbn; len_lia).
    apply (wp_will_retry n _ p'); [done|]. intros b σ1 Hat1 Hs1 Hb. cbn [seq_post].
    apply wp_bind, wp_stop_clock. intros fr w1 Hfr1. cbn [seq_post].
    apply wp_bind, (wp_maybe_first_failure n _ p'); [done|]. intros σ2 Hat2 Hs2. cbn [seq_post].
    unfold same_slot in *. cbn in Hs1, Hs2. destruct b.
    + destruct Hb as (-> & Hread & Htr); [done|].
      wp_steps. apply (wp_logFailure p'); [by eapply at_silent|].
      intros σ3 Hat3 Hfr3. cbn [seq_post]. apply wp_continue. split; [done|].
      exists p'. split_and!; [done|by eapply retry_ready|].
      unfold slot_inv. rewrite Hfr3. cbn. rewrite Hs2, Hfr1, Hs1, Hfr. done.
    + apply (stage_fail_last n p'); [done..|by apply base_foreign|].
      right. apply last_snoc.
Qed.

(** ** Waiting for the slot *)

Definition slot_ready (n : Z) (σ : St W) : Prop :=
  session_ready n σ ∧ requestSlotReady (frame σ) = true.

Lemma wp_waitForRequestSlot n p s (Q : exit (option error) → St W → Prop) σ :
  at_state p σ → ready n p → p_session p = Some s → p_slot p = None →
  (∀ σ', at_state (p_set_slot true p) σ' → frame σ' = frame σ → Q (Val None) σ') →
  (∀ e b σ', ctx_ended (W := W) ctx e → at_state (p_set_slot b p) σ' → frame σ' = frame σ →
     Q (Val (Some e)) σ') →
  wp (waitForRequestSlot ctx) Q σ.
Proof.
  intros Hat [Ho Hph _ _ _] Hs Hsl HQ HQe.
  assert (Hstep : ∀ d b, pstep req p (OSlot d b) = Some (p_set_slot b p)).
  { intros d b. cbn. by rewrite Ho, Hsl, Hph. }
  assert (Hobs : ∀ d b, at_ (p_set_slot b p) (trace σ ++ [OSlot d b]) (session (client σ))).
  { intros d b. observe_at Hat; [done|]. by apply at_session in Hat. }
  assert (Hctx : ∀ d b w, wp (contextError ctx) Q {| client := client σ; frame := frame σ;
      world := w; trace := trace σ ++ [OSlot d b] |} ∨ b = false).
  { intros d [] w; [left|by right]. apply wp_contextError.
    intros [e|] w' He; [eapply HQe|apply HQ]; try done; [by apply He|apply Hobs..]. }
  unfold waitForRequestSlot, time_Now. wp_steps. case_decide; wp_steps.
  { edestruct Hctx as [|]; [eassumption|done]. }
  destruct ctx as [|dl] eqn:Hc; wp_steps.
  { edestruct Hctx as [|]; [eassumption|done]. }
  match goal with H : env_select_timer _ _ = (?b, _) |- _ => destruct b; rename H into Ht end.
  { edestruct Hctx as [|]; [eassumption|done]. }
  apply timer_Done in Ht as (e & w' & He). cbn [ctx_Err]. apply wp_ask. cbn [world].
  rewrite He. intros ? ? [= <- <-]. eapply HQe; [left; by eexists _, _|apply Hobs|done].
Qed.

Lemma awaitSlot_stage n start σ :
  session_ready n σ → wp (awaitSlot ctx req start n) (stage n (λ _, slot_ready n)) σ.
Proof.
  intros (p & s & Hat & Hr & Hsl & Hs). unfold awaitSlot, now. unfold slot_inv in Hsl.
  apply wp_bind, wp_get. cbn [seq_post]. destruct (requestSlotReady (frame σ)) eqn:Hready.
  { apply wp_ret. split; [|done]. exists p, s. unfold slot_inv. by rewrite Hready. }
  wp_steps. apply (wp_waitForRequestSlot n p s); [done..| |].
  - intros σ' Hat' Hfr. unfold update_timing. wp_steps. split; [|done].
    exists (p_set_slot true p), s. split_and!; try done. destruct Hr. by split.
  - intros e b σ' He Hat' Hfr. unfold update_timing. wp_steps.
    eapply stage_fail_context; [exact Hat'|destruct Hr; by split|destruct Hr; cbn; lia|done|by destruct Hr].
Qed.

(** ** Arming the session *)

Definition armed (n s : Z) (σ : St W) : Prop :=
  ∃ p, at_state p σ ∧ p_owner p = true ∧ p_session p = Some s ∧ p_phase p = Armed ∧
    p_dirty p = false ∧ len (p_tries p) + 1 = n ∧ may_try req (p_tries p) = true ∧
    p_slot p = Some true ∧ requestSlotReady (frame σ) = true.

Lemma wp_check_context n p start (R : () → St W → Prop) σ :
  at_state p σ → ready n p →
  (∀ σ', at_state p σ' → frame σ' = frame σ → R () σ') →
  wp (check_context ctx req start n) (stage n R) σ.
Proof.
  intros Hat Hr HR. unfold check_context. apply wp_bind, wp_contextError.
  intros [e|] w He; cbn [seq_post]; [|by apply wp_ret, HR]. apply wp_bind.
  eapply stage_fail_context; [exact Hat|by eapply ready_finished|destruct Hr; lia|by apply He|by destruct Hr].
Qed.

Lemma wp_current_session p s (Q : exit Z → St W → Prop) σ :
  at_state p σ → p_session p = Some s → Q (Val s) σ → wp current_session Q σ.
Proof.
  intros Hat Hs HQ. unfold current_session. wp_steps.
  apply at_session in Hat. rewrite Hat, Hs. by eapply wp_lift.
Qed.

Lemma wp_socketTimeoutFor (Q : exit Z → St W → Prop) σ :
  (∀ t w, 1 ≤ t → Q (Val t) {| client := client σ; frame := frame σ; world := w; trace := trace σ |}) →
  wp (socketTimeoutFor ctx) Q σ.
Proof.
  intros HQ. unfold socketTimeoutFor, time_Now. wp_steps.
  destruct (ctx_Deadline ctx); wp_steps; try destruct σ; apply HQ; case_decide; unfold nanosecond; lia.
Qed.

Lemma beginAttempt_stage n start σ :
  slot_ready n σ → wp (beginAttempt ctx req start n) (stage n (λ _ σ', ∃ s, armed n s σ')) σ.
Proof.
  intros [(p & s & Hat & Hr & Hsl & Hs) Hready]. unfold beginAttempt.
  unfold slot_inv in Hsl. rewrite Hready in Hsl.
  eapply (stage_bind _ (λ _ σ', at_state p σ' ∧ frame σ' = frame σ));
    [by eapply wp_check_context|]. intros _ σ1 [Hat1 Hf1].
  apply wp_bind, (wp_current_session p s); [done..|]. cbn [seq_post]. wp_step. wp_steps.
  set (p1 := p_address p).
  assert (Hr1 : ready n p1) by (destruct Hr; by split).
  eapply (wp_mono _ (stage n (λ _ σ', at_state p1 σ' ∧ frame σ' = frame σ))).
  2: { eapply (wp_check_context n p1); [|done|by intros ? ? ->].
    observe_at Hat1; [|by apply at_session in Hat1].
    destruct Hr. cbn. unfold p_usable. by rewrite ready_owner0, Hs, ready_clean0, ready_phase0, !bool_decide_true. }
  intros [[]| |r] σ2; cbn; [|done..]. intros [Hat2 Hf2].
  apply wp_bind, wp_socketTimeoutFor. intros t w1 Ht. cbn [seq_post]. wp_steps.
  set (p2 := p_set_phase Armed p1).
  assert (Hat3 : at_ p2 (trace σ2 ++ [OBegin s t]) (session (client σ2))).
  { observe_at Hat2; [|by apply at_session in Hat2].
    destruct Hr1. cbn in *. unfold p_usable. cbn.
    by rewrite ready_owner0, Hs, ready_clean0, ready_phase0, Hsl, !bool_decide_true. }
  apply wp_contextError. intros [e|] w' He; cbn [seq_post].
  - wp_step. wp_steps. eapply (stage_fail_context n (p_set_phase Idle p2)).
    + observe_at Hat3; [|by apply at_session in Hat3].
      cbn. destruct Hr. by rewrite ready_owner0, Hs, bool_decide_true.
    + destruct Hr. by split.
    + destruct Hr. cbn. lia.
    + by apply He.
    + by destruct Hr.
  - apply wp_ret. exists s, p2. destruct Hr. cbn. rewrite Hf2. by split_and!.
Qed.

(** ** The exchange *)

Definition built (r : outcome) : outcome :=
  match r with inl results => inl (build_response req results) | inr e => inr e end.

Lemma wp_rpc n s c (Q : exit outcome → St W → Prop) σ :
  armed n s σ → request_call req = Some c →
  (∀ r p p' σ', (∀ e, r = inr e → foreign_error e = true) →
     len (p_tries p) + 1 = n → p_owner p = true → p_session p = Some s → p_slot p = Some true →
     p' = p_answer (on_path req r) p → at_state p' σ' → requestSlotReady (frame σ') = true →
     Q (Val r) σ') →
  wp (rpc c) Q σ.
Proof.
  intros (p & Hat & Ho & Hs & Hph & Hcl & Hn & Ht & Hsl & Hready) Hc HQ.
  unfold rpc. apply wp_bind, (wp_current_session p s); [done..|]. cbn [seq_post]. wp_steps.
  match goal with H : env_call _ _ _ = (?r, _) |- _ => assert (Hf : foreign_outcome r = true);
    [destruct r; [done|by eapply call_foreign]|]; eapply (HQ r p _); try done; [by intros e ->|] end.
  observe_at Hat; [|by apply at_session in Hat].
  unfold pstep, p_usable. by rewrite Ho, Hs, Hcl, Hph, Ht, Hc, Hf, !bool_decide_true.
Qed.

(** After the exchange: the attempt is counted, with the error the request
    path makes of the library's. *)
Definition answered (n s : Z) (r : outcome) (σ : St W) : Prop :=
  ∃ p, at_state p σ ∧ p_owner p = true ∧ p_session p = Some s ∧ p_phase p = Answered ∧
    p_slot p = Some true ∧ requestSlotReady (frame σ) = true ∧
    ∃ tries, p_tries p = tries ++ [on_path req r] ∧ len (p_tries p) = n ∧
    p_dirty p = match on_path req r with inl _ => false | inr e => negb (is_protocol e) end ∧
    ∀ e, r = inr e → foreign_error e = true.

Lemma wp_rpc_answered n s c σ :
  armed n s σ → request_call req = Some c →
  wp (rpc c) (λ x σ', ∃ r, x = Val r ∧ answered n s r σ') σ.
Proof.
  intros Ha Hc. eapply wp_rpc; [done..|].
  intros r p p' σ' Hf Hn Ho Hs Hsl -> Hat Hready. exists r. split; [done|].
  exists (p_answer (on_path req r) p). split_and!; try done.
  exists (p_tries p). split_and!; try done. cbn. len_lia.
Qed.

Lemma wp_rpc_build n s c build σ :
  armed n s σ → request_call req = Some c →
  (∀ l, build l = build_response req l) →
  wp (rpc_build c build) (λ x σ', ∃ r, x = Val (built r) ∧ answered n s r σ') σ.
Proof.
  intros Ha Hc Hb. unfold rpc_build. apply wp_bind.
  eapply wp_mono; [|by eapply wp_rpc_answered].
  intros x σ' (r & -> & Hr). cbn [seq_post]. apply wp_ret. exists r. split; [|done].
  destruct r; cbn; [by rewrite Hb|done].
Qed.

Lemma valid_write_word :
  FunctionCode req = FuncWriteSingleCoil ∨ FunctionCode req = FuncWriteSingleRegister →
  valid_request req → ∃ v, be_Uint16 (Data req) = Ret v.
Proof.
  intros Hfc Hv. destruct (be_Uint16_ok (Data req)) as (v & ? & _); [|by apply wf_data|eauto].
  by eapply valid_write_single.
Qed.

Lemma wp_lift_word (Q : exit outcome → St W → Prop) f v σ :
  be_Uint16 (Data req) = Ret v → wp (f v) Q σ → wp (lift (be_Uint16 (Data req)) ≫= f) Q σ.
Proof. intros Hv HQ. by apply wp_bind, (wp_lift _ v). Qed.

(** [FunctionCode req] is known: evaluate the specification. *)
Ltac known_call Hfc :=
  intros; unfold request_call, build_response; rewrite ?Hfc; reflexivity.

Lemma executeRequest_spec n s σ :
  valid_request req → armed n s σ →
  wp (executeRequest req) (λ x σ', ∃ r, x = Val (built r) ∧ answered n s r σ') σ.
Proof.
  intros Hv Ha. unfold executeRequest.
  case_decide as H1; [eapply wp_rpc_build; [done|known_call H1..]|].
  case_decide as H2; [eapply wp_rpc_build; [done|known_call H2..]|].
  case_decide as H3; [eapply wp_rpc_build; [done|known_call H3..]|].
  case_decide as H4; [eapply wp_rpc_build; [done|known_call H4..]|].
  case_decide as H5; [destruct valid_write_word as [v Hw]; [by left|done|]|].
  { eapply wp_lift_word, wp_rpc_build; [done..| |known_call H5].
    unfold request_call. by rewrite H5, Hw. }
  case_decide as H6; [destruct valid_write_word as [v Hw]; [by right|done|]|].
  { eapply wp_lift_word, wp_rpc_build; [done..| |known_call H6].
    unfold request_call. by rewrite H6, Hw. }
  case_decide as H7; [eapply wp_rpc_build; [done|known_call H7..]|].
  case_decide as H8; [eapply wp_rpc_build; [done|known_call H8..]|].
  eapply wp_mono; [|eapply wp_rpc_answered; [done|]].
  2: { unfold request_call. by rewrite !decide_False by done. }
  intros x σ' (r & -> & Hr). exists r. split; [|done].
  destruct r as [l|]; [|done]. cbn. unfold build_response, IsReadFunction, IsWriteFunction.
  by rewrite !bool_decide_false.
Qed.

(** After [finishRequest] and the classification of the error. *)
Definition exchanged (n : Z) (r : outcome * Z) (σ : St W) : Prop :=
  ∃ p, at_state p σ ∧ p_owner p = true ∧ p_phase p = Idle ∧ is_Some (p_session p) ∧ slot_inv p σ ∧
    len (p_tries p) = n ∧
    match fst r with
    | inl resp => p_dirty p = false ∧ last (p_tries p) = Some (inl resp)
    | inr err =>
        base_error err ∧ (p_dirty p = false ∨ is_protocol err = false) ∧
        (p_dirty p = true ∧ ctx_ended (W := W) ctx err ∧ superseded (last (p_tries p)) ∨
         ∃ tries, p_tries p = tries ++ [inr err] ∧ p_dirty p = negb (is_protocol err))
    end.

(** The steps after the exchange keep the session and clear the phase. *)
Lemma answered_finish n s r σ :
  answered n s r σ → ∀ fr w err, requestSlotReady fr = requestSlotReady (frame σ) →
  ∃ p, at_state p {| client := client σ; frame := fr; world := w;
                     trace := trace σ ++ [OFinish s err] |} ∧
    p_owner p = true ∧ p_phase p = Idle ∧ is_Some (p_session p) ∧
    p_slot p = (if requestSlotReady fr then Some true else None) ∧
    ∃ tries, p_tries p = tries ++ [on_path req r] ∧ len (p_tries p) = n ∧
    p_dirty p = match on_path req r with inl _ => false | inr e => negb (is_protocol e) end ∧
    ∀ e, r = inr e → foreign_error e = true.
Proof.
  intros (p & Hat & Ho & Hs & Hph & Hsl & Hready & tries & Htr & Hn & Hd & Hf) fr w err Hfr.
  exists (p_set_phase Idle p). split_and!; try done; [|by rewrite Hfr, Hready|by exists tries].
  observe_at Hat; [|by apply at_session in Hat].
  cbn. by rewrite Ho, Hs, Hph, bool_decide_true.
Qed.

Lemma path_error_eq e err :
  classifyRequestPathError (FunctionCode req) (Some e) = Some err → path_error req e = err.
Proof. unfold path_error. by intros ->. Qed.

Lemma roundTrip_stage n s σ :
  valid_request req → armed n s σ → wp (roundTrip ctx req) (stage n (exchanged n)) σ.
Proof.
  intros Hv Ha. unfold roundTrip, now, time_Now, update_timing. pose proof Ha as (p & Hat & _ & Hs & _).
  apply wp_bind, (wp_current_session p s); [done..|]. cbn [seq_post]. clear p Hat Hs.
  wp_steps. eapply wp_mono; [|by eapply executeRequest_spec].
  intros x σ' (r & -> & Hans). wp_steps.
  match goal with |- context [OFinish s ?err] => match goal with
    |- context [{| client := _; frame := ?fr; world := ?w'; trace := _ |}] =>
      destruct (answered_finish _ _ _ _ Hans fr w' err eq_refl)
        as (p & Hat & Ho & Hph & Hs & Hsl & tries & Htr & Hn & Hd & Hf) end end.
  destruct r as [l|e]; cbn [built on_path] in *.
  { apply wp_ret. exists p. split_and!; try done.
    split; [done|]. by rewrite Htr, last_snoc. }
  specialize (Hf e eq_refl).
  destruct (request_path_Some (FunctionCode req) e) as [err Herr]. rewrite Herr.
  rewrite (path_error_eq _ _ Herr) in Htr, Hd. apply request_path_base in Herr as Hb; [|done].
  assert (is_protocol err = bool_decide (fst (classifyError (Some err)) = ErrorProtocolException)) as Hp by done.
  case_decide as Hk; [rewrite bool_decide_true in Hp by done|rewrite bool_decide_false in Hp by done].
  { apply wp_ret. exists p. split_and!; try done.
    split_and!; [done|left; by rewrite Hd, Hp|right; eauto]. }
  apply wp_bind, wp_contextError. intros cerr wc Hce. cbn [seq_post]. apply wp_ret.
  exists p. split_and!; try done.
  destruct cerr as [ce|]; cbn; [specialize (Hce ce eq_refl)|].
  - split_and!; [by apply ctx_ended_base|right; by apply context_error_kind, ctx_ended_kind|].
    left. split_and!; [by rewrite Hd, Hp|done|]. rewrite Htr, last_snoc.
    eapply superseded_path; [done|exact Herr|by rewrite Hp].
  - split_and!; [done|by right|right; eauto].
Qed.

(** ** The end of an attempt *)

Lemma succeed_stage n start resp t (R : () → St W → Prop) σ :
  exchanged n (inl resp, t) σ → wp (succeed ctx req start n resp t) (stage n R) σ.
Proof.
  intros (p & Hat & Ho & Hph & _ & Hsl & Hn & Hd & Hl). cbn in Hd, Hl.
  unfold succeed, now, update_timing, logSuccess. apply wp_bind, wp_get. cbn [seq_post].
  apply wp_bind, (wp_mono _ (λ x σ', x = Val () ∧ at_state p σ')).
  2: { case_decide; [apply wp_update_client|apply wp_ret]; by split. }
  intros x σ1 (-> & Hat1). cbn [seq_post]. apply wp_bind, wp_contextError.
  intros [e|] wc He; cbn [seq_post].
  - apply wp_bind, wp_stop_clock. intros fr w1 _. cbn [seq_post].
    apply (stage_fail_last n p); try done; [by apply ctx_ended_base, He|left].
    split; [by apply He|]. rewrite Hl. apply superseded_reply.
  - wp_steps. exists p. split_and!; [|by split|done|].
    + unfold at_state. cbn. by repeat eapply at_silent.
    + cbn [trace]. intros tr' Htr. rewrite <- app_assoc in Htr.
      destruct (at_suffix _ _ _ _ _ Hat1 Htr) as [tr1 ->].
      rewrite health_log_app, Hn. cbn. by eexists _, _.
Qed.

Lemma wp_disconnectLocked p (Q : exit () → St W → Prop) σ :
  at_state p σ → p_owner p = true → p_phase p = Idle → is_Some (p_session p) →
  (∀ σ', at_state (p_connect None (p_tries p) p) σ' → frame σ' = frame σ → Q (Val ()) σ') →
  wp disconnectLocked Q σ.
Proof.
  intros Hat Ho Hph [s Hs] HQ. unfold disconnectLocked, session_Close. wp_steps.
  rewrite (at_session _ _ _ Hat), Hs. wp_steps. apply HQ; [|done]. unfold at_state. cbn.
  eapply at_silent; [|done]. observe_at Hat; [|done].
  cbn. by rewrite Ho, Hph, Hs, (bool_decide_true (Some s = Some s)).
Qed.

Lemma conclude_stage n start err t σ :
  exchanged n (inr err, t) σ →
  wp (conclude ctx req start n err) (stage n (λ _ _, False)) σ.
Proof.
  intros (p & Hat & Ho & Hph & Hs & Hsl & Hn & Hb & Hdirty & Hd). cbn [fst] in *.
  assert (Herr : ctx_ended (W := W) ctx err ∧ superseded (last (p_tries p)) ∨
    last (p_tries p) = Some (inr err)).
  { destruct Hd as [(_ & ? & ?)|(tries & Ht & _)]; [by left|right]. by rewrite Ht, last_snoc. }
  unfold conclude. wp_step. wp_steps. unfold slot_inv in Hsl.
  apply wp_stop_clock. intros fr1 w1 Hfr1. cbn [seq_post]. apply wp_bind.
  apply (wp_will_retry n _ p); [done|]. intros b σ1 Hat1 Hs1 Hret. cbn [seq_post].
  apply wp_bind, (wp_maybe_first_failure n _ p); [done|]. intros σ2 Hat2 Hs2. cbn [seq_post].
  unfold same_slot in *. cbn in Hs1, Hs2, Hfr1. destruct b.
  - destruct Hret as (-> & Hread & Htr); [done|]. apply wp_bind, (wp_disconnectLocked p); [done..|].
    intros σ3 Hat3 Hf3. cbn [seq_post]. wp_steps.
    apply (wp_logFailure (p_connect None (p_tries p) p)); [by eapply at_silent|].
    intros σ4 Hat4 Hf4. cbn [seq_post]. apply wp_continue. split; [done|].
    exists (p_connect None (p_tries p) p). split_and!; [done| |].
    + destruct Hd as [(_ & Hc & _)|(tries & Ht & _)].
      * apply ctx_ended_kind, context_error_kind in Hc as [Hc _]. congruence.
      * by eapply retry_ready; [|exact Ht|..].
    + unfold slot_inv. rewrite Hf4. cbn. by rewrite Hf3, Hs2, Hs1, Hfr1.
  - apply wp_bind. case_decide as Hk.
    + apply wp_ret. cbn [seq_post]. apply (stage_fail_last n p); try done. split; try done.
      destruct Hdirty as [|Hx]; [done|]. unfold is_protocol in Hx. by rewrite bool_decide_true in Hx.
    + apply (wp_disconnectLocked p); [done..|]. intros σ3 Hat3 _. cbn [seq_post].
      by apply (stage_fail_last n (p_connect None (p_tries p) p)).
Qed.

(** ** The loop *)

Lemma attempt_body_stage n p start σ :
  valid_request req → at_state p σ → ready n p → slot_inv p σ →
  wp (attempt_body ctx req start n) (stage n (λ _ _, False)) σ.
Proof.
  intros Hv Hat Hr Hsl. unfold attempt_body.
  eapply stage_bind; [by eapply ensureSession_stage|]. intros [] σ1 H1.
  eapply stage_bind; [by eapply awaitSlot_stage|]. intros [] σ2 H2.
  eapply stage_bind; [by eapply beginAttempt_stage|]. intros [] σ3 [s H3].
  eapply stage_bind; [by eapply roundTrip_stage|]. intros [[resp|err] t] σ4 H4.
  - by eapply succeed_stage.
  - by eapply conclude_stage.
Qed.

(** Two attempts always suffice: the loop ends with a [return]. *)
Lemma attempt_loop_done p start σ :
  valid_request req → at_state p σ → ready 1 p → slot_inv p σ →
  wp (attempt_loop 2 ctx req start 1) (λ x σ', ∃ r, x = Return r ∧ done_with r σ') σ.
Proof.
  intros Hv Hat Hr Hsl. cbn [attempt_loop]. rewrite !decide_True by lia.
  destruct (attempt_body_stage 1 p start σ) as (x & σ1 & E1 & H1); [done..|].
  unfold wp. rewrite E1. destruct x as [[]| |r]; cbn in H1; [done| |eauto 10].
  destruct H1 as (_ & p2 & Hat2 & Hr2 & Hsl2).
  destruct (attempt_body_stage 2 p2 start σ1) as (x & σ2 & E2 & H2); [done..|].
  change (1 + 1) with 2. rewrite E2. destruct x as [[]| |r]; cbn in H2; [done| |eauto 10].
  by destruct H2.
Qed.

End Refinement.
