(* ===== verification/ClientProps.v ===== *)
(** The theorems about the upstream client: [Execute] is a run of the protocol
    machine of ClientSpec.v in every environment, and what the machine's runs
    guarantee: the retry discipline, ownership of the connection, and the
    outcome of a request. *)

From stdpp Require Import base list numbers strings.
From S2P Require Import Prelude Request Errors Validate Codec Health Effects Client ClientSpec.

(** * Reading runs of the machine *)

(** The exchanges with the device. *)
Definition as_call (o : observation) : option (Call * outcome) :=
  match o with OCall _ c r => Some (c, r) | _ => None end.

(** The attempts: exchanges, and connections that failed. *)
Definition as_attempt (req : Request) (o : observation) : option outcome :=
  match o with
  | OCall _ _ r => Some (on_path req r)
  | OConnect _ (Some e) => Some (inr (ErrWrap "connect to %s: %w" e))
  | _ => None
  end.

(** Everything except taking and returning the owner token. *)
Definition is_io (o : observation) : bool :=
  match o with OAcquire | ORelease => false | _ => true end.

Lemma omap_snoc {A B} (f : A → option B) l x :
  omap f (l ++ [x]) = omap f l ++ match f x with Some y => [y] | None => [] end.
Proof. rewrite omap_app. cbn. by destruct (f x). Qed.

Lemma psteps_snoc_inv req p tr o p' :
  psteps req p (tr ++ [o]) = Some p' →
  ∃ p1, psteps req p tr = Some p1 ∧ pstep req p1 o = Some p'.
Proof.
  rewrite psteps_app. destruct (psteps req p tr) as [p1|]; [|done]. cbn.
  destruct (pstep req p1 o) eqn:E; [|done]. intros [= ->]. eauto.
Qed.

(** Case analysis on an accepted observation. *)
Ltac machine_step Ho :=
  unfold pstep, p_usable in Ho;
  repeat case_match; simplify_eq/=;
  repeat match goal with
  | H : _ && _ = true |- _ => apply andb_true_iff in H as [? ?]
  | H : bool_decide _ = true |- _ => apply bool_decide_eq_true in H
  | H : negb _ = true |- _ => apply negb_true_iff in H
  end; simplify_eq/=.

(** The machine's list of attempts is the attempts that happened. *)
Lemma machine_tries req s tr p :
  psteps req (p_init s) tr = Some p → p_tries p = omap (as_attempt req) tr.
Proof.
  revert p. induction tr as [|o tr IH] using rev_ind; intros p Hp.
  - by injection Hp as <-.
  - apply psteps_snoc_inv in Hp as (p1 & Hp1 & Ho). rewrite omap_snoc, <- (IH p1) by done.
    destruct o as [| |? []| | | | | | | |]; cbn [as_attempt] in *; machine_step Ho;
      by rewrite ?app_nil_r.
Qed.

(** The retry rule, and the calls are the request's. *)
Definition disciplined (req : Request) (tries : list outcome) : Prop :=
  len tries ≤ 2 ∧
  (len tries = 2 →
     IsReadFunction (FunctionCode req) = true ∧
     ∃ e r, tries = [inr e; r] ∧ isTransportError e = true).

Lemma may_try_disciplined req tries r :
  may_try req tries = true → disciplined req (tries ++ [r]).
Proof.
  destruct tries as [|[l|e] [|]]; cbn; try done; intros Ht.
  apply andb_true_iff in Ht as [? ?]. split; [done|]. intros _. split; [done|]. eauto.
Qed.

Lemma machine_disciplined req s tr p :
  psteps req (p_init s) tr = Some p →
  disciplined req (p_tries p) ∧ Forall (λ c, Some (fst c) = request_call req) (omap as_call tr).
Proof.
  revert p. induction tr as [|o tr IH] using rev_ind; intros p Hp.
  - injection Hp as <-. by repeat constructor.
  - apply psteps_snoc_inv in Hp as (p1 & Hp1 & Ho). destruct (IH p1 Hp1) as [IH1 IH2].
    rewrite omap_snoc, Forall_app.
    destruct o as [| |? []| | | | | | | |]; cbn [as_call] in *; machine_step Ho;
      eauto using may_try_disciplined.
Qed.

Lemma pstep_over req p o p' :
  pstep req p o = Some p' → p_over p' = p_over p ∨ is_io o = false.
Proof.
  intros Ho. destruct o as [| |? []| | | | | | | |]; try (by right); left; by machine_step Ho.
Qed.

(** Outside the ownership of the token nothing happens. *)
Lemma machine_ownership req s tr p :
  psteps req (p_init s) tr = Some p →
  if p_owner p then p_over p = false ∧ ∃ body, tr = OAcquire :: body ∧ Forall (λ o, is_io o = true) body
  else if p_over p then ∃ body, tr = OAcquire :: body ++ [ORelease] ∧ Forall (λ o, is_io o = true) body
  else tr = [].
Proof.
  revert p. induction tr as [|o tr IH] using rev_ind; intros p Hp; [by injection Hp as <-|].
  apply psteps_snoc_inv in Hp as (p1 & Hp1 & Ho). specialize (IH p1 Hp1).
  destruct (is_io o) eqn:Hio.
  - destruct (pstep_owner _ _ _ _ Ho) as (Hown & Hkeep & _); [by intros ->|].
    rewrite Hown in IH. destruct IH as (Hover & body & -> & Hall).
    rewrite Hkeep by (by intros ->). split.
    + apply pstep_over in Ho as [->|]; [done|congruence].
    + exists (body ++ [o]). split; [done|]. apply Forall_app. split; [done|]. by constructor.
  - destruct o; try done; machine_step Ho.
    + split; [done|]. by exists [].
    + destruct IH as (_ & body & -> & Hall). by exists body.
Qed.

(** * Runs of [Execute] *)

Section Execute.
Context {W : Type} `{EnvLaws W}.

(** What one run of [Execute] did: the trace it added drives the machine from
    the open session it found to a state without the token, the session it
    left is the machine's and is clean, and the result is the machine's; either
    the request never got the connection, or the health log ends with this
    result. *)
Definition run_ok (req : Request) (ctx : Ctx) (σ : St W) (r : outcome) (σ' : St W) : Prop :=
  ∃ tr p, trace σ' = trace σ ++ tr ∧
    psteps req (p_init (session (client σ))) tr = Some p ∧
    p_owner p = false ∧ p_phase p = Idle ∧ p_dirty p = false ∧
    session (client σ') = p_session p ∧ result_ok (W := W) ctx p r ∧
    ((tr = [] ∨ tr = [OAcquire; ORelease]) ∧ (∃ e, r = inr e) ∨
     closed_by (len (p_tries p)) r (health_log tr)).

Context (req : Request) (Hwf : wf_request req) (ctx : Ctx).

(** Before ownership: nothing observable has happened. *)
Definition untouched (σ σ' : St W) : Prop :=
  client σ' = client σ ∧ trace σ' = trace σ.

(** The token was taken and given back because the context had ended. *)
Definition gave_back (σ σ' : St W) : Prop :=
  client σ' = client σ ∧ trace σ' = trace σ ++ [OAcquire; ORelease].

Lemma wp_acquire (Q : exit (option error) → St W → Prop) σ :
  (∀ e σ', ctx_ended (W := W) ctx e → untouched σ σ' ∨ gave_back σ σ' → Q (Val (Some e)) σ') →
  (∀ σ', client σ' = client σ → frame σ' = frame σ → trace σ' = trace σ ++ [OAcquire] →
     Q (Val None) σ') →
  wp (acquire ctx) Q σ.
Proof.
  intros HQe HQ. unfold acquire, release. apply wp_bind, wp_ctx_Err. intros [e|] w1 He _; cbn [seq_post].
  { apply wp_ret, HQe; [by apply He|by left]. }
  destruct ctx as [|dl] eqn:Hc; cbn [ctx_Err].
  { wp_steps. by apply HQ. }
  wp_steps. match goal with H : env_select_owner _ = (?b, _) |- _ => destruct b; rename H into Ho end.
  - wp_steps. match goal with H : env_ctx_Err _ = (?b, _) |- _ => destruct b; rename H into Hx end.
    + wp_steps. apply HQe; [left; by eexists _, _|]. right. split; [done|]. cbn. by rewrite <- app_assoc.
    + wp_steps. by apply HQ.
  - apply owner_Done in Ho as (e & w' & Hx). apply wp_ask. cbn [world]. rewrite Hx.
    intros ? ? [= <- <-]. apply HQe; [left; by eexists _, _|by left].
Qed.

(** ** The three ways a request runs *)

Lemma untouched_run_ok e n tm σ σ' :
  n = 0 → ctx_ended (W := W) ctx e → untouched σ σ' ∨ gave_back σ σ' →
  run_ok req ctx σ (inr (requestError e n tm)) σ'.
Proof.
  intros -> He Hσ. assert (Hr : ∀ p, p_tries p = [] → result_ok (W := W) ctx p (inr (requestError e 0 tm))).
  { intros p Hp. exists e, tm. rewrite Hp. split_and!; [done|by apply (ctx_ended_base ctx)|left].
    split; [done|by intros ?]. }
  destruct Hσ as [[Hc Ht]|[Hc Ht]].
  - exists [], (p_init (session (client σ))). rewrite Hc, Ht, app_nil_r.
    split_and!; try done; [by apply Hr|left; split; [by left|by eexists]].
  - exists [OAcquire; ORelease], (p_set_owner false (p_set_owner true (p_init (session (client σ))))).
    rewrite Hc, Ht. split_and!; try done; [by apply Hr|left; split; [by right|by eexists]].
Qed.

(** The part of [Execute] that owns the connection. *)
Lemma owned_run_ok start f σ σ1 :
  valid_request req → client σ1 = client σ → trace σ1 = trace σ ++ [OAcquire] →
  requestSlotReady (frame σ1) = false →
  wp (defer release (
        t ← now; _ ← update_timing (f t); _ ← attempt_loop 2 ctx req start 1; after_loop start))
    (λ x σ', ∃ r, x = Return r ∧ run_ok req ctx σ r σ') σ1.
Proof.
  intros Hv Hc Ht Hsl. apply wp_defer. unfold now, update_timing, release. wp_steps.
  set (p := p_set_owner true (p_init (session (client σ)))).
  eapply wp_mono; [|eapply (attempt_loop_done req Hwf ctx (p_init (session (client σ))) (trace σ) p);
    [done| | |]].
  - intros x σ' (r & -> & p' & [(tr & Htr & Hps) Hs Hown] & [Ho Hph Hcl] & Hr & Hclose). cbn [seq_post].
    wp_steps. exists r. split; [done|]. exists (tr ++ [ORelease]), (p_set_owner false p').
    cbn. rewrite Htr, <- app_assoc. split_and!; try done.
    + rewrite (psteps_snoc _ _ _ _ p') by done. cbn. by rewrite Ho, Hph, Hcl.
    + right. rewrite health_log_app. by apply Hclose.
  - split; cbn; [|by rewrite Hc|done]. exists [OAcquire]. by rewrite Ht.
  - by split.
  - unfold slot_inv. cbn. by rewrite Hsl.
Qed.

Lemma Execute_body_run σ :
  valid_request req →
  wp (Execute_body ctx req) (λ x σ', ∃ r, x = Return r ∧ run_ok req ctx σ r σ') σ.
Proof.
  intros Hv. unfold Execute_body. wp_steps. apply wp_ask. intros start w1 _. wp_steps.
  apply (wp_lift _ None); [by apply validate_ok|]. cbn [seq_post].
  wp_steps. apply wp_ask. intros queueStart w2 _. wp_steps. apply wp_acquire.
  - intros e σ1 He Hσ1. cbn [seq_post]. unfold now, update_timing. wp_steps.
    apply wp_stop_clock. intros fr w3 _. wp_steps. eexists. split; [done|].
    by apply untouched_run_ok.
  - intros σ1 Hc Hfr Ht. cbn [seq_post]. eapply owned_run_ok; try done. by rewrite Hfr.
Qed.

End Execute.

(** * The retry discipline in terms of the exchanges *)

Lemma omap_bound {A B C} (f : A → option B) (g : A → option C) l :
  (∀ a b, f a = Some b → is_Some (g a)) → (length (omap f l) <= length (omap g l))%nat.
Proof.
  intros Hfg. induction l as [|a l IH]; cbn; [lia|].
  destruct (f a) as [b|] eqn:E; [destruct (Hfg a b E) as [c ->]; cbn; lia|].
  destruct (g a); cbn; lia.
Qed.

Lemma exchanges_attempts req tr : len (omap as_call tr) ≤ len (omap (as_attempt req) tr).
Proof.
  unfold len. enough (length (omap as_call tr) <= length (omap (as_attempt req) tr))%nat by lia.
  apply omap_bound. by intros [] ?; cbn.
Qed.

(** The observation behind the last element of a projection. *)
Lemma last_omap {A B} (f : A → option B) l y :
  last (omap f l) = Some y → ∃ l1 x l2, l = l1 ++ x :: l2 ∧ f x = Some y ∧ omap f l2 = [].
Proof.
  induction l as [|x l IH] using rev_ind; [done|]. rewrite omap_snoc.
  destruct (f x) as [z|] eqn:E.
  - rewrite last_snoc. intros [= ->]. by exists l, x, [].
  - rewrite app_nil_r. intros (l1 & x' & l2 & -> & Hx & Hl2)%IH.
    exists l1, x', (l2 ++ [x]). rewrite <- app_assoc, omap_snoc, Hl2, E. done.
Qed.

(** What the device and the libraries report is what they may report. *)
Definition foreign_observation (o : observation) : bool :=
  match o with OCall _ _ r => foreign_outcome r | _ => true end.

Lemma machine_foreign req p tr p' :
  psteps req p tr = Some p' → Forall (λ o, foreign_observation o = true) tr.
Proof.
  revert p. induction tr as [|o tr IH]; intros p Hp; constructor; cbn [psteps] in Hp;
    destruct (pstep req p o) as [p1|] eqn:Ho; try done; [|by eapply IH].
  destruct o; try done. by machine_step Ho.
Qed.

(** * Broken sessions *)

(** The exchange failed without an answer of the device. *)
Definition breaks (req : Request) (r : outcome) : bool :=
  match on_path req r with inl _ => false | inr e => negb (is_protocol e) end.

Lemma machine_broken req p s tr p' :
  (p_session p = Some s → p_dirty p = true) →
  psteps req p tr = Some p' → OConnect s None ∉ tr →
  (p_session p' = Some s → p_dirty p' = true).
Proof.
  intros Hp. revert p'. induction tr as [|o tr IH] using rev_ind; intros p' Hps Hno.
  - by injection Hps as <-.
  - apply psteps_snoc_inv in Hps as (p1 & Hp1 & Ho).
    apply not_elem_of_app in Hno as [Hno Hno']. apply not_elem_of_cons in Hno' as [Hne _].
    specialize (IH p1 Hp1 Hno).
    destruct o as [| |s' []|s'| | | |s' c r| | |]; machine_step Ho; try done; try congruence.
    all: intros Hs; try (specialize (IH Hs)); congruence.
Qed.

(** * The health log

    Every update of the health state is observed, so the state a run leaves is
    the replay of what it observed.  [tracked] is that invariant; it is closed
    under the combinators, so it holds of [Execute] by its construction. *)

Section Tracked.
Context {W : Type}.

Definition follows_log (σ σ' : St W) : Prop :=
  ∃ tr, trace σ' = trace σ ++ tr ∧
        health (client σ') = foldr health_step (health (client σ)) (health_log tr).

Lemma follows_refl σ σ' :
  trace σ' = trace σ → health (client σ') = health (client σ) → follows_log σ σ'.
Proof. intros Ht Hh. exists []. by rewrite app_nil_r. Qed.

Lemma follows_trans σ1 σ2 σ3 : follows_log σ1 σ2 → follows_log σ2 σ3 → follows_log σ1 σ3.
Proof.
  intros (t1 & H1 & H2) (t2 & H3 & H4). exists (t1 ++ t2).
  rewrite H3, H1, H4, H2, app_assoc, health_log_app, foldr_app. done.
Qed.

#[export] Instance follows_log_preorder : PreOrder follows_log.
Proof. split; [by intros σ; apply follows_refl|intros σ1 σ2 σ3; apply follows_trans]. Qed.

Definition tracked {A} (m : M W A) : Prop := along follows_log m.

Lemma tracked_pure {A} (m : M W A) :
  (∀ σ, match m σ with
        | Ret (_, σ') => trace σ' = trace σ ∧ health (client σ') = health (client σ)
        | Panic => True end) → tracked m.
Proof.
  intros Hm σ x σ' E. specialize (Hm σ). rewrite E in Hm. destruct Hm. by apply follows_refl.
Qed.

Lemma tracked_bind {A B} (m : M W A) (f : A → M W B) :
  tracked m → (∀ a, tracked (f a)) → tracked (m ≫= f).
Proof. exact (along_bind _ m f). Qed.

Lemma tracked_observe o : as_health o = None → tracked (observe o : M W ()).
Proof.
  intros Ho σ x σ' [= <- <-]. exists [o]. unfold health_log. cbn. by rewrite Ho.
Qed.

Lemma tracked_update_health e : tracked (update_health e : M W ()).
Proof. intros σ x σ' [= <- <-]. by exists [OHealth e]. Qed.

Lemma tracked_ask_obs {A} (f : W → A * W) o :
  (∀ a, as_health (o a) = None) → tracked (ask_obs f o).
Proof.
  intros Ho. unfold ask_obs. apply tracked_bind; [|intros a; apply tracked_bind].
  - apply tracked_pure. intros σ. unfold ask. by destruct (f (world σ)).
  - by apply tracked_observe.
  - intros _. by apply tracked_pure.
Qed.

Lemma tracked_ask {A} (f : W → A * W) : tracked (ask f).
Proof. apply tracked_pure. intros σ. unfold ask. by destruct (f (world σ)). Qed.

Lemma tracked_lift {A} (m : go A) : tracked (lift m : M W A).
Proof. exact (along_lift _ m). Qed.

Lemma tracked_defer {A} (d : M W ()) (m : M W A) : tracked d → tracked m → tracked (defer d m).
Proof. exact (along_defer _ d m). Qed.

Lemma tracked_call (m : M W outcome) : tracked m → tracked (call m).
Proof. exact (along_call _ m). Qed.

End Tracked.

(** [tracked] goals follow the syntax of the program. *)
Ltac tracked_step :=
  match goal with
  | |- tracked (_ ≫= _) => apply tracked_bind
  | |- tracked (ask_obs _ _) => by apply tracked_ask_obs
  | |- tracked (ask _) => apply tracked_ask
  | |- tracked (observe _) => by apply tracked_observe
  | |- tracked (update_health _) => apply tracked_update_health
  | |- tracked (lift _) => apply tracked_lift
  | |- tracked (defer _ _) => apply tracked_defer
  | |- tracked (match ?x with _ => _ end) => destruct x
  | |- ∀ _, _ => intros ?
  | |- tracked _ => apply tracked_pure; intros ?; split; reflexivity
  end.

Section TrackedClient.
Context {W : Type} `{Env W}.

Lemma tracked_contextError ctx : tracked (contextError ctx).
Proof. unfold contextError, ctx_Err, time_Now. repeat tracked_step. Qed.

Lemma tracked_fail {A} req err n : tracked (fail req err n : M W A).
Proof. unfold fail, logFailure, finalError. repeat tracked_step. Qed.

Lemma tracked_stop_clock start : tracked (stop_clock start).
Proof. unfold stop_clock, now, update_timing. repeat tracked_step. Qed.

#[local] Hint Resolve tracked_contextError tracked_fail tracked_stop_clock : core.
Ltac tracked_auto :=
  unfold check_context, session_Close, rpc, current_session, now, time_Now, update_timing,
    ctx_Err, logFailure, finalError, logSuccess, release;
  repeat (tracked_step || solve [auto]).

Lemma tracked_acquire ctx : tracked (acquire ctx).
Proof. unfold acquire. tracked_auto. Qed.

Lemma tracked_connectLocked : tracked connectLocked.
Proof. unfold connectLocked. tracked_auto. Qed.

Lemma tracked_disconnectLocked : tracked disconnectLocked.
Proof. unfold disconnectLocked. tracked_auto. Qed.

Lemma tracked_record_first_failure : tracked record_first_failure.
Proof. unfold record_first_failure. tracked_auto. Qed.

Lemma tracked_waitForRequestSlot ctx : tracked (waitForRequestSlot ctx).
Proof. unfold waitForRequestSlot. tracked_auto. Qed.

Lemma tracked_socketTimeoutFor ctx : tracked (socketTimeoutFor ctx).
Proof. unfold socketTimeoutFor. tracked_auto. Qed.

Lemma tracked_executeRequest req : tracked (executeRequest req).
Proof. unfold executeRequest, rpc_build. tracked_auto. Qed.

#[local] Hint Resolve tracked_acquire tracked_connectLocked tracked_disconnectLocked
  tracked_record_first_failure tracked_waitForRequestSlot tracked_socketTimeoutFor
  tracked_executeRequest : core.

Lemma tracked_ensureSession ctx req start n : tracked (ensureSession ctx req start n).
Proof. unfold ensureSession. tracked_auto. Qed.

Lemma tracked_awaitSlot ctx req start n : tracked (awaitSlot ctx req start n).
Proof. unfold awaitSlot. tracked_auto. Qed.

Lemma tracked_beginAttempt ctx req start n : tracked (beginAttempt ctx req start n).
Proof. unfold beginAttempt. tracked_auto. Qed.

Lemma tracked_roundTrip ctx req : tracked (roundTrip ctx req).
Proof. unfold roundTrip. tracked_auto. Qed.

Lemma tracked_succeed ctx req start n resp t : tracked (succeed ctx req start n resp t).
Proof. unfold succeed. tracked_auto. Qed.

Lemma tracked_conclude ctx req start n err : tracked (conclude ctx req start n err).
Proof. unfold conclude. tracked_auto. Qed.

#[local] Hint Resolve tracked_ensureSession tracked_awaitSlot tracked_beginAttempt
  tracked_roundTrip tracked_succeed tracked_conclude : core.

Lemma tracked_attempt_body ctx req start n : tracked (attempt_body ctx req start n).
Proof. unfold attempt_body. tracked_auto. Qed.

Lemma tracked_attempt_loop fuel ctx req start n : tracked (attempt_loop fuel ctx req start n).
Proof.
  revert n. induction fuel as [|fuel IH]; intros n; cbn [attempt_loop]; [tracked_auto|].
  case_decide; [|tracked_auto]. intros σ x σ' E.
  destruct (attempt_body ctx req start n σ) as [[y σ1]|] eqn:Eb; [|done].
  apply tracked_attempt_body in Eb.
  destruct y; simplify_eq; [eapply follows_trans; [exact Eb|by eapply IH]..|done].
Qed.

#[local] Hint Resolve tracked_attempt_loop : core.

Lemma tracked_Execute ctx req : tracked (Execute ctx req).
Proof. unfold Execute. apply tracked_call. unfold Execute_body, after_loop. tracked_auto. Qed.

End TrackedClient.

(** * Durations *)

Definition sum_nonneg (ds : list Z) : Z := foldr (λ d s, Z.max 0 d + s) 0 ds.

Lemma sum_nonneg_pos ds : 0 ≤ sum_nonneg ds.
Proof. unfold sum_nonneg. induction ds as [|d ds IH]; cbn; lia. Qed.

Lemma i64_id z : is_i64 z → i64 z = z.
Proof. unfold is_i64, i64, min_i64, max_i64. intros. rewrite Z.mod_small; lia. Qed.

(** The saturating loop never overflows and computes the clamped sum. *)
Lemma component_total_spec acc ds :
  0 ≤ acc ≤ max_i64 → Forall is_i64 ds →
  component_total acc ds = Z.min max_i64 (acc + sum_nonneg ds).
Proof.
  intros Hacc Hds. revert acc Hacc. induction Hds as [|d ds Hd Hds IH]; intros acc Hacc.
  { cbn. lia. }
  pose proof (sum_nonneg_pos ds) as Hs. unfold is_i64 in Hd. cbn [component_total sum_nonneg foldr].
  fold (sum_nonneg ds). case_decide; [rewrite IH by lia; lia|].
  rewrite i64_id by (unfold is_i64, min_i64, max_i64 in *; lia). case_decide; [lia|].
  unfold dur_add. rewrite i64_id by (unfold is_i64, min_i64, max_i64 in *; lia).
  rewrite IH; lia.
Qed.

(** * Properties *)

(** Reported totals are consistent: [completeTiming] never overflows, keeps
    the components, and raises the total to the sum of the positive
    components, saturated at the largest duration, if it was below. *)
Theorem completeTiming_correct (t : requestTiming)
    (Hq : is_i64 (queue t)) (Ha : is_i64 (attempt t)) (Hr : is_i64 (reconnect t))
    (Ht : is_i64 (total t)) :
  let t' := completeTiming t in
  queue t' = queue t ∧ attempt t' = attempt t ∧ reconnect t' = reconnect t ∧
  total t' = Z.max (total t)
    (Z.min max_i64 (Z.max 0 (queue t) + Z.max 0 (attempt t) + Z.max 0 (reconnect t))) ∧
  is_i64 (total t').
Proof.
  intros t'. subst t'. unfold completeTiming.
  rewrite component_total_spec; [|unfold max_i64; lia|by repeat (apply Forall_cons; split); [..|apply Forall_nil]].
  pose proof (sum_nonneg_pos [queue t; attempt t; reconnect t]) as Hs.
  cbn [sum_nonneg foldr] in *. unfold is_i64, min_i64, max_i64 in *.
  case_decide; cbn [queue attempt reconnect total]; lia.
Qed.

Lemma completeTiming_correct_witness :
  total (completeTiming {| queue := 5; attempt := max_i64; reconnect := -3; total := 7 |}) = max_i64.
Proof.
  assert (H : ∀ z, z = 5 ∨ z = max_i64 ∨ z = -3 ∨ z = 7 → is_i64 z)
    by (unfold is_i64, min_i64, max_i64; lia).
  destruct (completeTiming_correct {| queue := 5; attempt := max_i64; reconnect := -3; total := 7 |})
    as (_ & _ & _ & Ht & _); [apply H; cbn; lia..|].
  rewrite Ht. by vm_compute.
Defined.

Section Properties.
Context {W : Type} `{EnvLaws W}.
Implicit Types (σ : St W) (req : Request) (ctx : Ctx).

Lemma Execute_run req ctx σ :
  wf_request req → valid_request req →
  ∃ r σ', Execute ctx req σ = Ret (Val r, σ') ∧ run_ok req ctx σ r σ'.
Proof.
  intros Hwf Hv. destruct (Execute_body_run req Hwf ctx σ Hv) as (x & σ' & E & r & -> & Hr).
  exists r, σ'. split; [|done]. unfold Execute, call. by rewrite E.
Qed.

Lemma Execute_reject req ctx σ :
  wf_request req → ¬ valid_request req →
  ∃ code f args tm σ', violation req code ∧
    Execute ctx req σ = Ret (Val (inr (requestError (newValidationError code f args) 0 tm)), σ') ∧
    untouched σ σ'.
Proof.
  intros Hwf Hv. destruct (validate_total req Hwf) as [[e|] He].
  2: { by apply validate_ok in He. }
  destruct (validate_error req e Hwf He) as (code & f & args & Hc & ->).
  assert (wp (Execute_body ctx req) (λ x σ', ∃ tm, x = Return (inr (requestError
    (newValidationError code f args) 0 tm)) ∧ untouched σ σ') σ) as (x & σ' & E & tm & -> & Hu).
  { unfold Execute_body. wp_steps. apply wp_ask. intros start w1 _. wp_steps.
    eapply wp_lift; [done|]. cbn [seq_post]. wp_steps. apply wp_stop_clock. intros fr w2 _.
    wp_steps. by eexists. }
  exists code, f, args, tm, σ'. split_and!; [done| |done]. unfold Execute, call. by rewrite E.
Qed.

(** Both cases: the trace a run adds is empty or a run of the machine. *)
Lemma Execute_machine req ctx σ :
  wf_request req →
  ∃ r σ' tr p, Execute ctx req σ = Ret (Val r, σ') ∧ trace σ' = trace σ ++ tr ∧
    psteps req (p_init (session (client σ))) tr = Some p ∧ p_owner p = false.
Proof.
  intros Hwf. destruct (validate_total req Hwf) as [[e|] He].
  - destruct (Execute_reject req ctx σ Hwf) as (code & f & args & tm & σ' & _ & E & _ & Ht).
    { rewrite <- validate_ok by done. by rewrite He. }
    eexists _, σ', [], _. rewrite app_nil_r. by split_and!.
  - apply validate_ok in He; [|done].
    destruct (Execute_run req ctx σ Hwf He) as (r & σ' & E & tr & p & Ht & Hp & Ho & _).
    by exists r, σ', tr, p.
Qed.

(** No failed exchange is left on the session a run leaves. *)
Lemma Execute_clean req ctx σ :
  wf_request req →
  ∃ r σ' tr p, Execute ctx req σ = Ret (Val r, σ') ∧ trace σ' = trace σ ++ tr ∧
    psteps req (p_init (session (client σ))) tr = Some p ∧
    session (client σ') = p_session p ∧ p_dirty p = false.
Proof.
  intros Hwf. destruct (validate_total req Hwf) as [[e|] He].
  - destruct (Execute_reject req ctx σ Hwf) as (code & f & args & tm & σ' & _ & E & Hc & Ht).
    { rewrite <- validate_ok by done. by rewrite He. }
    eexists _, σ', [], _. rewrite app_nil_r, Hc. by split_and!.
  - apply validate_ok in He; [|done].
    destruct (Execute_run req ctx σ Hwf He) as (r & σ' & E & tr & p & Ht & Hp & Ho & Hph & Hd & Hs & _).
    by exists r, σ', tr, p.
Qed.

(** C4 Refinement of the protocol machine: for every valid request, context,
    client state and environment, [Execute] ends without a panic, its
    interactions are a run of the machine from the session it found, it gives
    the connection back idle, with no failed exchange left on the session it
    leaves, and what it returns is the machine's result: the reply of the last
    attempt, or a [RequestError] that counts the attempts and carries the last
    attempt's error or the context's. *)
Theorem Execute_protocol (req : Request) (ctx : Ctx) (σ : St W)
    (Hwf : wf_request req) (Hv : valid_request req) :
  ∃ r σ', Execute ctx req σ = Ret (Val r, σ') ∧ run_ok req ctx σ r σ'.
Proof. by apply Execute_run. Qed.

(** An invalid request never reaches the device: [Execute] rejects it with
    the exception code of the violated limit before it takes the connection,
    with no observable interaction and no change to the client. *)
Theorem Execute_invalid (req : Request) (ctx : Ctx) (σ : St W)
    (Hwf : wf_request req) (Hv : ¬ valid_request req) :
  ∃ e σ' code, Execute ctx req σ = Ret (Val (inr e), σ') ∧
    client σ' = client σ ∧ trace σ' = trace σ ∧
    violation req code ∧ DownstreamException e = code.
Proof.
  destruct (Execute_reject req ctx σ Hwf Hv) as (code & f & args & tm & σ' & Hc & E & Hu & Ht).
  eexists _, σ', code. split_and!; [exact E|done..|].
  rewrite downstream_request by (constructor; by eapply violation_not_valid).
  apply violation_not_valid in Hc as [_ Hc]. cbn. by rewrite bool_decide_true.
Qed.

(** C3 A write is sent to the device at most once, whatever fails: [Execute]
    makes at most two attempts, a second one only for a read whose first
    attempt failed in transport, and every exchange is the call the request
    stands for.  In particular a write or an opaque request is never repeated,
    not even after a failed connection. *)
Theorem Execute_at_most_once (req : Request) (ctx : Ctx) (σ : St W) (Hwf : wf_request req) :
  ∃ r σ' tr, Execute ctx req σ = Ret (Val r, σ') ∧ trace σ' = trace σ ++ tr ∧
    Forall (λ c, Some (fst c) = request_call req) (omap as_call tr) ∧
    len (omap as_call tr) ≤ len (omap (as_attempt req) tr) ≤ 2 ∧
    (IsReadFunction (FunctionCode req) = false → len (omap (as_attempt req) tr) ≤ 1) ∧
    (len (omap (as_attempt req) tr) = 2 → ∃ e r2,
       omap (as_attempt req) tr = [inr e; r2] ∧ isTransportError e = true).
Proof.
  destruct (Execute_machine req ctx σ Hwf) as (r & σ' & tr & p & E & Ht & Hp & _).
  exists r, σ', tr. destruct (machine_disciplined _ _ _ _ Hp) as [[Hd1 Hd2] Hc].
  rewrite (machine_tries _ _ _ _ Hp) in Hd1, Hd2.
  pose proof (exchanges_attempts req tr). split_and!; try done.
  - intros Hr. unfold len in *.
    destruct (decide (Z.of_nat (length (omap (as_attempt req) tr)) = 2)) as [H2|]; [|lia].
    destruct (Hd2 H2). congruence.
  - intros H2. by destruct (Hd2 H2).
Qed.

(** C12 One request owns the upstream connection from its first interaction to
    its last: a run of [Execute] has no interaction at all, or takes the owner
    token first, gives it back last, and everything in between happens while
    it is held. *)
Theorem Execute_owner_bracket (req : Request) (ctx : Ctx) (σ : St W) (Hwf : wf_request req) :
  ∃ r σ' tr, Execute ctx req σ = Ret (Val r, σ') ∧ trace σ' = trace σ ++ tr ∧
    (tr = [] ∨ ∃ body, tr = OAcquire :: body ++ [ORelease] ∧ Forall (λ o, is_io o = true) body).
Proof.
  destruct (Execute_machine req ctx σ Hwf) as (r & σ' & tr & p & E & Ht & Hp & Ho).
  exists r, σ', tr. split_and!; [done..|]. apply machine_ownership in Hp. rewrite Ho in Hp.
  destruct (p_over p); [by right|by left].
Qed.

(** The last attempt of a trace: an exchange, or a connection that failed. *)
Definition is_attempt (o : observation) : bool :=
  match o with OCall _ _ _ | OConnect _ (Some _) => true | _ => false end.
Definition last_attempt (tr : list observation) : option observation :=
  last (filter (λ o, is_attempt o = true) tr).

(** The code a client sees when a request fails whose last attempt was [o]:
    the exception code the device sent for this function, or that its target
    failed; for a connection that was not opened, what its error means. *)
Definition failure_code (req : Request) (o : option observation) : Z :=
  match o with
  | Some (OCall _ _ (inr e)) => default ExcGatewayTargetFailed (genuine_exception (FunctionCode req) e)
  | Some (OConnect _ (Some e)) => downstream_spec (classifyError (Some e))
  | _ => ExcGatewayTargetFailed
  end.

(** What the last attempt of a failed request may have been when the error is
    the context's: nothing, an answer, or a failure that is no exception. *)
Definition no_exception (req : Request) (o : option observation) : Prop :=
  ∀ s c e, o = Some (OCall s c (inr e)) → genuine_exception (FunctionCode req) e = None.

Lemma as_attempt_Some req o : is_Some (as_attempt req o) ↔ is_attempt o = true.
Proof. destruct o as [| |s [e|]| | | | | | | |]; cbn; split; try done; by intros []. Qed.

Lemma attempts_filter req (tr : list observation) :
  omap (as_attempt req) tr = omap (as_attempt req) (filter (λ o, is_attempt o = true) tr).
Proof.
  induction tr as [|o tr IH]; [done|]. rewrite filter_cons. pose proof (as_attempt_Some req o) as Ho.
  case_decide as Hd; cbn; rewrite IH; [done|]. destruct (as_attempt req o); [|done].
  destruct Hd. by apply Ho.
Qed.

(** The last attempt and the machine's record of it. *)
Lemma last_attempt_try req (tr : list observation) :
  last (omap (as_attempt req) tr) = last_attempt tr ≫= as_attempt req.
Proof.
  rewrite attempts_filter. unfold last_attempt.
  assert (Hall : Forall (λ o, is_attempt o = true) (filter (λ o, is_attempt o = true) tr)).
  { apply Forall_forall. by intros o [? _]%list_elem_of_filter. }
  induction (filter _ tr) as [|o l IH] using rev_ind; [done|].
  rewrite omap_snoc, last_snoc. apply Forall_app in Hall as [_ Ho]. apply Forall_cons in Ho as [Ho _].
  apply (as_attempt_Some req) in Ho as [y Hy]. cbn. by rewrite Hy, last_snoc.
Qed.

Lemma last_attempt_foreign tr o :
  Forall (λ o, foreign_observation o = true) tr → last_attempt tr = Some o → foreign_observation o = true.
Proof.
  intros Hf Hl. apply last_Some_elem_of, list_elem_of_filter in Hl as [_ Hin].
  by eapply Forall_forall in Hf.
Qed.

(** The code of the context's error, when it replaces what [o] ended with. *)
Lemma superseded_code req o err :
  context_error err → foreign_observation o = true → superseded (as_attempt req o) →
  downstream_spec (classifyError (Some err)) = failure_code req (Some o) ∧ no_exception req (Some o).
Proof.
  intros Hc Ho Hsup.
  assert (downstream_spec (classifyError (Some err)) = ExcGatewayTargetFailed) as -> by by destruct Hc as [-> | ->].
  destruct o as [| |s0 [e|]| | | | |s0 c [l|e]| | |]; cbn [as_attempt on_path failure_code] in *;
    try (split; [done|by intros ? ? ?]).
  - destruct (Hsup _ eq_refl) as [_ Hd]. rewrite classify_wrap in Hd. split; [done|by intros ? ? ?].
  - destruct (Hsup _ eq_refl) as [Hnp _]. cbn in Ho.
    destruct (genuine_exception (FunctionCode req) e) as [code|] eqn:G.
    { destruct (request_path_genuine _ _ _ Ho G) as (He & _ & K).
      rewrite (path_error_eq _ _ _ He) in Hnp. unfold is_protocol in Hnp. by rewrite K in Hnp. }
    split; [done|]. by intros ? ? ? [= <- <- <-].
Qed.

(** The code of the attempt's own error. *)
Lemma attempt_code req o err :
  foreign_observation o = true → as_attempt req o = Some (inr err) →
  downstream_spec (classifyError (Some err)) = failure_code req (Some o).
Proof.
  intros Ho Ht.
  destruct o as [| |s0 [e|]| | | | |s0 c [l|e]| | |]; cbn [as_attempt on_path failure_code] in *; simplify_eq.
  - by rewrite classify_wrap.
  - cbn in Ho. destruct (genuine_exception (FunctionCode req) e) as [code|] eqn:G.
    + destruct (request_path_genuine _ _ _ Ho G) as (He & _ & K). by rewrite (path_error_eq _ _ _ He), K.
    + destruct (request_path_Some (FunctionCode req) e) as [e' He]. rewrite (path_error_eq _ _ _ He).
      pose proof (request_path_other _ _ _ Ho G He) as Hk.
      destruct (classifyError (Some e')) as [k c']. by destruct k.
Qed.

(** The downstream code of the machine's error is the last attempt's. *)
Lemma downstream_cause req ctx s tr p err n tm :
  psteps req (p_init s) tr = Some p → base_error err →
  ctx_ended (W := W) ctx err ∧ superseded (last (p_tries p)) ∨ last (p_tries p) = Some (inr err) →
  DownstreamException (requestError err n tm) = failure_code req (last_attempt tr) ∧
  (ctx_ended (W := W) ctx err ∧ no_exception req (last_attempt tr) ∨
   last (omap (as_attempt req) tr) = Some (inr err)).
Proof.
  intros Hp Hb Hcause. rewrite downstream_request by done.
  rewrite (machine_tries _ _ _ _ Hp), last_attempt_try in Hcause. rewrite last_attempt_try.
  pose proof (last_attempt_foreign tr) as Hf. specialize (Hf) with (1 := machine_foreign _ _ _ _ Hp).
  destruct (last_attempt tr) as [o|]; cbn [mbind option_bind] in Hcause |- *.
  - specialize (Hf o eq_refl). destruct Hcause as [[Hx Hsup]|Ht].
    + apply (ctx_ended_kind ctx) in Hx as Hc. destruct (superseded_code req o err Hc Hf Hsup). auto.
    + split; [by apply attempt_code|by right].
  - destruct Hcause as [[Hx _]|?]; [|done]. apply (ctx_ended_kind ctx) in Hx as Hc.
    split; [by destruct Hc as [-> | ->]|left; split; [done|by intros ? ? ?]].
Qed.

(** C6 The result of a valid request is determined by its last attempt.  A
    success is the response PDU built from the results of that exchange.  An
    error is a [RequestError] that counts the attempts; it carries the last
    attempt's own error, or the error with which the caller's context ended,
    and this only if the device did not answer the last exchange with an
    exception for this function.  The code a client sees is exactly that
    exception's code if there was one, the meaning of the connection's error if
    the last attempt did not get a connection, and [0x0B] in every other
    case. *)
Theorem Execute_result (req : Request) (ctx : Ctx) (σ : St W)
    (Hwf : wf_request req) (Hv : valid_request req) :
  ∃ r σ' tr, Execute ctx req σ = Ret (Val r, σ') ∧ trace σ' = trace σ ++ tr ∧
    match r with
    | inl resp => ∃ s c results, last_attempt tr = Some (OCall s c (inl results)) ∧
        request_call req = Some c ∧ resp = build_response req results
    | inr e => ∃ err tm,
        e = requestError err (len (omap (as_attempt req) tr)) tm ∧
        DownstreamException e = failure_code req (last_attempt tr) ∧
        (ctx_ended (W := W) ctx err ∧ no_exception req (last_attempt tr) ∨
         last (omap (as_attempt req) tr) = Some (inr err))
    end.
Proof.
  destruct (Execute_run req ctx σ Hwf Hv) as (r & σ' & E & tr & p & Ht & Hp & _ & _ & _ & _ & Hr & _).
  exists r, σ', tr. split_and!; [done..|].
  destruct r as [resp|e]; cbn in Hr.
  - rewrite (machine_tries _ _ _ _ Hp), last_attempt_try in Hr.
    destruct (last_attempt tr) as [o|] eqn:Hl; [|done].
    assert (Hin : o ∈ tr) by (apply last_Some_elem_of, list_elem_of_filter in Hl as [_ ?]; done).
    cbn in Hr. destruct o as [| |s [e|]| | | | |s c [l|e]| | |]; cbn [as_attempt on_path] in Hr; simplify_eq.
    exists s, c, l. split_and!; [done| |done].
    pose proof (machine_disciplined _ _ _ _ Hp) as [_ Hcalls]. symmetry.
    rewrite Forall_forall in Hcalls. apply (Hcalls (c, inl l)). apply list_elem_of_omap. by eexists.
  - destruct Hr as (err & tm & -> & Hb & Hlast). exists err, tm.
    rewrite <- (machine_tries _ _ _ _ Hp). split; [done|].
    rewrite (machine_tries _ _ _ _ Hp). by eapply downstream_cause.
Qed.

(** C7 A broken session is never used again: after an exchange that the device
    did not answer, no run of [Execute] addresses, arms or calls the same
    session before connecting it anew, within the request that failed and,
    because the run ends with a clean session, in every later request. *)
Theorem Execute_broken_session (req : Request) (ctx : Ctx) (σ : St W) (Hwf : wf_request req) :
  ∃ r σ' tr, Execute ctx req σ = Ret (Val r, σ') ∧ trace σ' = trace σ ++ tr ∧
    ∀ tr1 s c e tr2, tr = tr1 ++ OCall s c (inr e) :: tr2 → breaks req (inr e) = true →
      (OConnect s None ∉ tr2 → session (client σ') ≠ Some s) ∧
      (∀ tr3 c' r' tr4, tr2 = tr3 ++ OCall s c' r' :: tr4 → OConnect s None ∈ tr3).
Proof.
  destruct (Execute_clean req ctx σ Hwf) as (r & σ' & tr & p & E & Ht & Hp & Hs & Hd).
  exists r, σ', tr. split_and!; [done..|]. intros tr1 s c e tr2 -> Hb.
  change (OCall s c (inr e) :: tr2) with ([OCall s c (inr e)] ++ tr2) in Hp.
  rewrite app_assoc, psteps_app in Hp.
  destruct (psteps _ _ (tr1 ++ _)) as [p1|] eqn:Hp1; [|done].
  apply psteps_snoc_inv in Hp1 as (p2 & _ & Hcall).
  assert (Hdirty : p_session p1 = Some s → p_dirty p1 = true) by (by machine_step Hcall).
  split.
  - intros Hno Hses. rewrite Hs in Hses.
    by rewrite (machine_broken _ _ _ _ _ Hdirty Hp Hno Hses) in Hd.
  - intros tr3 c' r' tr4 ->. destruct (decide (OConnect s None ∈ tr3)) as [|Hno]; [done|].
    rewrite psteps_app in Hp. destruct (psteps req p1 tr3) as [p3|] eqn:Hp3; [|done].
    pose proof (machine_broken _ _ _ _ _ Hdirty Hp3 Hno) as Hd3. cbn [psteps] in Hp.
    destruct (pstep req p3 (OCall s c' r')) eqn:Hstep; [|done].
    exfalso. machine_step Hstep. rewrite Hd3 in *; done.
Qed.

(** What a request records, and what it makes of the availability. *)
Lemma Execute_records req ctx σ :
  wf_request req → valid_request req →
  ∃ r σ' tr hl, Execute ctx req σ = Ret (Val r, σ') ∧ trace σ' = trace σ ++ tr ∧
    health (client σ') = foldr health_step (health (client σ)) hl ∧
    match r with
    | inl _ => healthyLocked (health (client σ')) = None ∧
               ∃ t hl', hl = Success (len (omap (as_attempt req) tr)) t :: hl'
    | inr e => (tr = [] ∨ tr = [OAcquire; ORelease]) ∧ hl = [] ∨
        match ErrorKindOf (Some e) with
        | ErrorProtocolException => healthyLocked (health (client σ')) = None
        | ErrorContextCanceled => True
        | _ => healthyLocked (health (client σ')) = Some e
        end
    end.
Proof.
  intros Hwf Hv.
  destruct (Execute_run req ctx σ Hwf Hv) as (r & σ' & E & tr & p & Ht & Hp & _ & _ & _ & _ & _ & Hcl).
  destruct (tracked_Execute ctx req _ _ _ E) as (tr' & Ht' & Hh).
  rewrite Ht in Ht'. apply app_inv_head in Ht' as <-. rewrite (machine_tries _ _ _ _ Hp) in Hcl.
  exists r, σ', tr, (health_log tr). split_and!; [done..|]. rewrite Hh.
  destruct Hcl as [(Hl & e & ->)|Hcl].
  { left. split; [done|]. by destruct Hl as [-> | ->]. } destruct r as [resp|e]; cbn [closed_by] in Hcl.
  - destruct Hcl as (t & hl' & Hl). rewrite Hl. cbn. split; [done|]. eauto.
  - right. destruct Hcl as (hl' & Hl). rewrite Hl. cbn [foldr health_step].
    by destruct (ErrorKindOf (Some e)).
Qed.

(** C18 Health follows the requests: if the health state is the replay of a
    log, then after a request it is the replay of the log extended by what the
    run recorded.  After a success, in either attempt, the upstream is
    available; after an exception reply of the device it is too; any other
    failure that is not the caller's cancellation makes it unavailable with
    this very error; a request that never got the connection records
    nothing. *)
Theorem Execute_health (req : Request) (ctx : Ctx) (σ : St W) (log : list Health.event)
    (Hwf : wf_request req) (Hv : valid_request req) (Hlog : health (client σ) = replay log) :
  ∃ r σ' tr hl, Execute ctx req σ = Ret (Val r, σ') ∧ trace σ' = trace σ ++ tr ∧
    health (client σ') = replay (hl ++ log) ∧
    match r with
    | inl _ => healthyLocked (health (client σ')) = None ∧
               ∃ t hl', hl = Success (len (omap (as_attempt req) tr)) t :: hl'
    | inr e => (tr = [] ∨ tr = [OAcquire; ORelease]) ∧ hl = [] ∨
        match ErrorKindOf (Some e) with
        | ErrorProtocolException => healthyLocked (health (client σ')) = None
        | ErrorContextCanceled => True
        | _ => healthyLocked (health (client σ')) = Some e
        end
    end.
Proof.
  destruct (Execute_records req ctx σ Hwf Hv) as (r & σ' & tr & hl & E & Ht & Hh & Hr).
  exists r, σ', tr, hl. split_and!; [done..| |done].
  rewrite Hh, Hlog. unfold replay. by rewrite foldr_app.
Qed.

End Properties.

(** * Witnesses: a scripted device *)

(** The script lists the answers of the next exchanges; everything else
    succeeds at time 1. *)
Definition sanitize (r : outcome) : outcome :=
  if foreign_outcome r then r else inr (ErrSentinel EOF).

#[local] Instance script_env : Env (list outcome) := {
  env_now w := (1, w);
  env_time_Now w := (1, w);
  env_ctx_Err w := (None, w);
  env_select_owner w := (true, w);
  env_select_timer d w := (true, w);
  env_newSession w := (len w, w);
  env_Connect s w := (None, w);
  env_Close s w := (None, w);
  env_SetSlave s b w := w;
  env_BeginRequest s t w := w;
  env_finishRequest s w := (None, w);
  env_call s c w := match w with
                    | r :: w => (sanitize r, w)
                    | [] => (inr (ErrSentinel EOF), [])
                    end;
}.

#[local] Instance script_laws : EnvLaws (list outcome).
Proof.
  split; cbn; try done.
  intros s c [|r w] e w'; [by intros [= <- <-]|].
  unfold sanitize. destruct (foreign_outcome r) eqn:F; intros [= Hr _]; by subst.
Qed.

Definition script_state (script : list outcome) : St (list outcome) :=
  {| client := {| attemptTimeout := 5 * second; requestDelay := 0; connectDelay := 0;
                  degradedWindow := minute; session := None; nextRequestAt := 0;
                  health := init_health |};
     frame := {| timing := zero_timing; lastErr := None; requestSlotReady := false |};
     world := script; trace := [] |}.

Definition sample_read : Request :=
  {| TransactionID := 7; SlaveID := 1; FunctionCode := 3; Address := 100; Quantity := 2;
     Data := []; PDU := [3; 0; 100; 0; 2] |}.
Definition sample_write : Request :=
  {| TransactionID := 8; SlaveID := 1; FunctionCode := 6; Address := 100; Quantity := 1;
     Data := [1; 2]; PDU := [6; 0; 100; 1; 2] |}.
Definition sample_bad : Request :=
  {| TransactionID := 9; SlaveID := 1; FunctionCode := 3; Address := 65535; Quantity := 2;
     Data := []; PDU := [3; 255; 255; 0; 2] |}.

(** The connection resets once, then the device answers. *)
Definition flaky : list outcome := [inr (ErrSentinel ECONNRESET); inl [0; 5; 0; 6]].

Ltac wf_concrete := split; unfold is_u8, is_u16; cbn; repeat constructor; lia.
Lemma sample_read_wf : wf_request sample_read. Proof. wf_concrete. Qed.
Lemma sample_write_wf : wf_request sample_write. Proof. wf_concrete. Qed.
Lemma sample_bad_wf : wf_request sample_bad. Proof. wf_concrete. Qed.
Lemma sample_read_valid : valid_request sample_read.
Proof. by apply validate_ok; [apply sample_read_wf|]. Qed.
Lemma sample_bad_invalid : ¬ valid_request sample_bad.
Proof. rewrite <- validate_ok by apply sample_bad_wf. by vm_compute. Qed.

(** What a finished run computes. *)
Definition observe_run {A} (f : outcome → St (list outcome) → A)
    (m : go (exit outcome * St (list outcome))) : option A :=
  match m with Ret (Val r, σ) => Some (f r σ) | _ => None end.

Lemma observe_run_eq {A} (f : outcome → St (list outcome) → A) m r σ a :
  m = Ret (Val r, σ) → observe_run f m = Some a → f r σ = a.
Proof. intros -> H. by injection H. Qed.

Lemma flaky_result r σ' :
  Execute Background sample_read (script_state flaky) = Ret (Val r, σ') →
  r = inl [3; 4; 0; 5; 0; 6].
Proof. intros E. apply (observe_run_eq (λ r _, r) _ _ _ _ E). by vm_compute. Qed.

Lemma flaky_session r σ' :
  Execute Background sample_read (script_state flaky) = Ret (Val r, σ') →
  session (client σ') = Some 1.
Proof. intros E. apply (observe_run_eq (λ _ σ, session (client σ)) _ _ _ _ E). by vm_compute. Qed.

Lemma flaky_exchanges r σ' :
  Execute Background sample_read (script_state flaky) = Ret (Val r, σ') →
  len (omap as_call (trace σ')) = 2.
Proof. intros E. apply (observe_run_eq (λ _ σ, len (omap as_call (trace σ))) _ _ _ _ E). by vm_compute. Qed.

Lemma flaky_attempts r σ' :
  Execute Background sample_read (script_state flaky) = Ret (Val r, σ') →
  len (omap (as_attempt sample_read) (trace σ')) = 2.
Proof.
  intros E. apply (observe_run_eq (λ _ σ, len (omap (as_attempt sample_read) (trace σ))) _ _ _ _ E).
  by vm_compute.
Qed.

Lemma Execute_protocol_witness :
  ∃ σ', Execute Background sample_read (script_state flaky)
          = Ret (Val (inl [3; 4; 0; 5; 0; 6]), σ') ∧
        run_ok sample_read Background (script_state flaky) (inl [3; 4; 0; 5; 0; 6]) σ'.
Proof.
  destruct (Execute_protocol sample_read Background (script_state flaky)
    sample_read_wf sample_read_valid) as (r & σ' & E & Hr).
  pose proof (flaky_result r σ' E) as ->. exists σ'. split; [exact E|exact Hr].
Defined.

Lemma sample_bad_code e σ' :
  Execute Background sample_bad (script_state flaky) = Ret (Val (inr e), σ') →
  DownstreamException e = ExcIllegalAddress.
Proof.
  intros E. apply (observe_run_eq (λ r _, match r with inl _ => 0 | inr e => DownstreamException e end)
    _ _ _ _ E). by vm_compute.
Qed.

Lemma Execute_invalid_witness :
  ∃ e σ', Execute Background sample_bad (script_state flaky) = Ret (Val (inr e), σ') ∧
    trace σ' = [] ∧ DownstreamException e = ExcIllegalAddress.
Proof.
  destruct (Execute_invalid sample_bad Background (script_state flaky)
    sample_bad_wf sample_bad_invalid) as (e & σ' & code & E & _ & Ht & _).
  exists e, σ'. split; [exact E|]. split; [exact Ht|exact (sample_bad_code e σ' E)].
Defined.

(** A write whose only exchange fails is not repeated. *)
Lemma Execute_at_most_once_witness :
  ∃ r σ' tr, Execute Background sample_write (script_state flaky) = Ret (Val r, σ') ∧
    trace σ' = tr ∧ len (omap (as_attempt sample_write) tr) ≤ 1.
Proof.
  destruct (Execute_at_most_once sample_write Background (script_state flaky) sample_write_wf)
    as (r & σ' & tr & E & Ht & _ & _ & H & _).
  exists r, σ', tr. split; [exact E|]. split; [exact Ht|by apply H].
Defined.

Lemma Execute_owner_bracket_witness :
  ∃ r σ' body, Execute Background sample_read (script_state flaky) = Ret (Val r, σ') ∧
    trace σ' = OAcquire :: body ++ [ORelease] ∧ len (omap as_call body) = 2.
Proof.
  destruct (Execute_owner_bracket sample_read Background (script_state flaky) sample_read_wf)
    as (r & σ' & tr & E & Ht & Htr).
  pose proof (flaky_exchanges r σ' E) as H. rewrite Ht in H. destruct Htr as [->|(body & -> & _)]; [done|].
  exists r, σ', body. split; [exact E|]. split; [exact Ht|]. change (len (omap as_call (body ++ [ORelease])) = 2) in H.
  by rewrite omap_snoc, app_nil_r in H.
Defined.

(** The retry succeeds; with a script that answers exception 4 first, the read
    fails with that very code. *)
Definition excepting : list outcome := [inr (ErrGridModbus 0x83 4); inl [0; 5; 0; 6]].

Lemma excepting_code r σ' :
  Execute Background sample_read (script_state excepting) = Ret (Val r, σ') →
  match r with inl _ => None | inr e => Some (DownstreamException e) end = Some 4.
Proof.
  intros E. apply (observe_run_eq (λ r _, match r with inl _ => None | inr e => Some (DownstreamException e) end)
    _ _ _ _ E). by vm_compute.
Qed.

Lemma Execute_result_witness :
  (∃ σ' tr s c results, Execute Background sample_read (script_state flaky)
      = Ret (Val (inl [3; 4; 0; 5; 0; 6]), σ') ∧ trace σ' = tr ∧
    last_attempt tr = Some (OCall s c (inl results)) ∧
    [3; 4; 0; 5; 0; 6] = build_response sample_read results) ∧
  (∃ e σ' tr, Execute Background sample_read (script_state excepting) = Ret (Val (inr e), σ') ∧
    trace σ' = tr ∧ failure_code sample_read (last_attempt tr) = 4).
Proof.
  split.
  - destruct (Execute_result sample_read Background (script_state flaky)
      sample_read_wf sample_read_valid) as (r & σ' & tr & E & Ht & Hr).
    pose proof (flaky_result r σ' E) as ->. destruct Hr as (s & c & l & Hl & _ & Hb).
    exists σ', tr, s, c, l. split; [exact E|]. split; [exact Ht|]. split; [exact Hl|exact Hb].
  - destruct (Execute_result sample_read Background (script_state excepting)
      sample_read_wf sample_read_valid) as (r & σ' & tr & E & Ht & Hr).
    pose proof (excepting_code r σ' E) as Hcode. destruct r as [resp|e]; [discriminate|].
    exists e, σ', tr. split; [exact E|]. split; [exact Ht|].
    destruct Hr as (err & tm & -> & Hd & _). rewrite Hd in Hcode. by injection Hcode.
Defined.

(** The session the reset hit (2) is closed; the one left open is new (1). *)
Lemma Execute_broken_session_witness :
  ∃ r σ', Execute Background sample_read (script_state flaky) = Ret (Val r, σ') ∧
    session (client σ') = Some 1.
Proof.
  destruct (Execute_broken_session sample_read Background (script_state flaky) sample_read_wf)
    as (r & σ' & tr & E & _).
  exists r, σ'. split; [exact E|exact (flaky_session r σ' E)].
Defined.

Lemma Execute_health_witness :
  ∃ r σ' hl, Execute Background sample_read (script_state flaky) = Ret (Val r, σ') ∧
    health (client σ') = replay (hl ++ []) ∧ ∃ t hl', hl = Success 2 t :: hl'.
Proof.
  destruct (Execute_health sample_read Background (script_state flaky) []
    sample_read_wf sample_read_valid eq_refl) as (r & σ' & tr & hl & E & Ht & Hh & Hr).
  exists r, σ', hl. split; [exact E|]. split; [exact Hh|].
  pose proof (flaky_result r σ' E) as ->. destruct Hr as (_ & t & hl' & ->).
  pose proof (flaky_attempts _ σ' E) as Ha. rewrite Ht in Ha.
  exists t, hl'. f_equal. f_equal. exact Ha.
Defined.
