(* ===== verification/Pacing.v ===== *)
(** Request pacing: the upstream client leaves the configured delay between a
    successful exchange and the next one, whoever asks for it
    ([waitForRequestSlot] and [nextRequestAt] of internal/modbus/client.go).

    [Clock] states what time is to an environment; [stamped] wraps any
    environment so that it notes when each exchange with the device began and
    ended.  The client cannot see the notes, so what is proved of the wrapped
    environment holds of the program in the one it wraps. *)

From stdpp Require Import base list numbers strings.
From S2P Require Import Prelude Request Errors Validate Codec Health Effects Client ClientSpec ClientProps.

(** * Time in an environment

    The monotonic clock never goes back, [time.Now] reads it, and a timer does
    not fire before its duration has passed. *)
Class Clock (W : Type) `{Env W} := {
  wall : W → Z;
  wall_now w a w' : env_now w = (a, w') → wall w ≤ wall w';
  wall_time w t w' : env_time_Now w = (t, w') → wall w ≤ t ≤ wall w';
  wall_ctx w e w' : env_ctx_Err w = (e, w') → wall w ≤ wall w';
  wall_owner w b w' : env_select_owner w = (b, w') → wall w ≤ wall w';
  wall_timer d w b w' :
    env_select_timer d w = (b, w') → wall w ≤ wall w' ∧ (b = true → wall w + d ≤ wall w');
  wall_session w s w' : env_newSession w = (s, w') → wall w ≤ wall w';
  wall_Connect s w e w' : env_Connect s w = (e, w') → wall w ≤ wall w';
  wall_Close s w e w' : env_Close s w = (e, w') → wall w ≤ wall w';
  wall_SetSlave s b w : wall w ≤ wall (env_SetSlave s b w);
  wall_Begin s t w : wall w ≤ wall (env_BeginRequest s t w);
  wall_finish s w e w' : env_finishRequest s w = (e, w') → wall w ≤ wall w';
  wall_call s c w r w' : env_call s c w = (r, w') → wall w ≤ wall w';
}.

(** * Noting the exchanges *)

Record stamp := {
  st_from : Z;
  st_until : Z;
  st_call : Call;
  st_result : outcome;
}.

Definition st_ok (e : stamp) : bool :=
  match st_result e with inl _ => true | inr _ => false end.

(** A question that is passed on. *)
Definition pass {W A} (f : W → A * W) (w : W * list stamp) : A * (W * list stamp) :=
  let '(a, w') := f (fst w) in (a, (w', snd w)).

Section Stamped.
Context {W : Type} `{EnvLaws W} `{!Clock W}.

#[local] Instance stamped : Env (W * list stamp) := {
  env_now := pass env_now;
  env_time_Now := pass env_time_Now;
  env_ctx_Err := pass env_ctx_Err;
  env_select_owner := pass env_select_owner;
  env_select_timer d := pass (env_select_timer d);
  env_newSession := pass env_newSession;
  env_Connect s := pass (env_Connect s);
  env_Close s := pass (env_Close s);
  env_SetSlave s b w := (env_SetSlave s b (fst w), snd w);
  env_BeginRequest s t w := (env_BeginRequest s t (fst w), snd w);
  env_finishRequest s := pass (env_finishRequest s);
  env_call s c w :=
    let '(r, w') := env_call s c (fst w) in
    (r, (w', snd w ++ [{| st_from := wall (fst w); st_until := wall w';
                          st_call := c; st_result := r |}]));
}.

Lemma pass_inv {A} (f : W → A * W) w a w' :
  pass f w = (a, w') → f (fst w) = (a, fst w') ∧ snd w' = snd w.
Proof. unfold pass. destruct (f (fst w)) as [b v]. by intros [= <- <-]. Qed.

#[local] Instance stamped_laws : EnvLaws (W * list stamp).
Proof.
  split.
  - intros w e w' [E _]%pass_inv. by eapply ctx_Err_kind.
  - intros w w' [E _]%pass_inv. destruct (owner_Done _ _ E) as (e & w'' & E').
    eexists e, _. cbn. unfold pass. by rewrite E'.
  - intros d w w' [E _]%pass_inv. destruct (timer_Done _ _ _ E) as (e & w'' & E').
    eexists e, _. cbn. unfold pass. by rewrite E'.
  - intros s w e w' [E _]%pass_inv. by eapply Connect_foreign.
  - intros s c w e w'. cbn. destruct (env_call s c (fst w)) as [r v] eqn:E. intros [= -> _].
    by eapply call_foreign.
Qed.

Abbreviation St' := (St (W * list stamp)).
Abbreviation M' := (M (W * list stamp)).

Definition clock (σ : St') : Z := wall (fst (world σ)).
Definition notes (σ : St') : list stamp := snd (world σ).

(** * What does not touch the pacing *)

Record drift (σ σ' : St') : Prop := {
  drift_clock : clock σ ≤ clock σ';
  drift_notes : notes σ' = notes σ;
  drift_calls : omap as_call (trace σ') = omap as_call (trace σ);
  drift_next : nextRequestAt (client σ') = nextRequestAt (client σ);
  drift_delay : requestDelay (client σ') = requestDelay (client σ);
  drift_ready : requestSlotReady (frame σ') = requestSlotReady (frame σ);
}.

#[local] Instance drift_preorder : PreOrder drift.
Proof.
  split; [intros σ; by split|]. intros σ1 σ2 σ3 [] []. split; (lia || congruence).
Qed.

Definition drifts {A} (m : M' A) : Prop := along drift m.

(** A question that is not an exchange. *)
Definition quiet {A} (f : W * list stamp → A * (W * list stamp)) : Prop :=
  ∀ w a w', f w = (a, w') → wall (fst w) ≤ wall (fst w') ∧ snd w' = snd w.

Lemma quiet_pass {A} (f : W → A * W) :
  (∀ w a w', f w = (a, w') → wall w ≤ wall w') → quiet (pass f).
Proof. intros Hf w a w' [E ?]%pass_inv. split; [by eapply Hf|done]. Qed.

Lemma quiet_now : quiet env_now. Proof. apply quiet_pass, wall_now. Qed.
Lemma quiet_time : quiet env_time_Now.
Proof. apply quiet_pass. intros w a w' ?%wall_time. lia. Qed.
Lemma quiet_ctx : quiet env_ctx_Err. Proof. apply quiet_pass, wall_ctx. Qed.
Lemma quiet_owner : quiet env_select_owner. Proof. apply quiet_pass, wall_owner. Qed.
Lemma quiet_timer d : quiet (env_select_timer d).
Proof. apply quiet_pass. intros w a w' ?%wall_timer. tauto. Qed.
Lemma quiet_session : quiet env_newSession. Proof. apply quiet_pass, wall_session. Qed.
Lemma quiet_Connect s : quiet (env_Connect s). Proof. apply quiet_pass, wall_Connect. Qed.
Lemma quiet_Close s : quiet (env_Close s). Proof. apply quiet_pass, wall_Close. Qed.
Lemma quiet_finish s : quiet (env_finishRequest s). Proof. apply quiet_pass, wall_finish. Qed.
Lemma quiet_SetSlave s b : quiet (λ w, ((), env_SetSlave s b w)).
Proof. intros w a w' [= _ <-]. split; [apply wall_SetSlave|done]. Qed.
Lemma quiet_Begin s t : quiet (λ w, ((), env_BeginRequest s t w)).
Proof. intros w a w' [= _ <-]. split; [apply wall_Begin|done]. Qed.
Create HintDb pacing.
#[local] Hint Resolve quiet_now quiet_time quiet_ctx quiet_owner quiet_timer quiet_session
  quiet_Connect quiet_Close quiet_finish quiet_SetSlave quiet_Begin : pacing.

Lemma drifts_ask {A} (f : W * list stamp → A * (W * list stamp)) : quiet f → drifts (ask f).
Proof.
  intros Hf σ x σ'. unfold ask. destruct (f (world σ)) as [a w] eqn:E. intros [= _ <-].
  apply Hf in E as [? ?]. by split.
Qed.

Lemma drifts_observe o : as_call o = None → drifts (observe o).
Proof.
  intros Ho σ x σ' [= _ <-]. split; try done. cbn. by rewrite omap_app; cbn; rewrite Ho, app_nil_r.
Qed.

Lemma drifts_update_client f :
  (∀ c, nextRequestAt (f c) = nextRequestAt c ∧ requestDelay (f c) = requestDelay c) →
  drifts (update_client f).
Proof. intros Hf σ x σ' [= _ <-]. by split; cbn; try apply Hf. Qed.

Lemma drifts_update_frame f :
  (∀ fr, requestSlotReady (f fr) = requestSlotReady fr) → drifts (update_frame f).
Proof. intros Hf σ x σ' [= _ <-]. by split; cbn; try apply Hf. Qed.

Lemma drifts_bind {A B} (m : M' A) (f : A → M' B) :
  drifts m → (∀ a, drifts (f a)) → drifts (m ≫= f).
Proof. exact (along_bind _ m f). Qed.

Lemma drifts_ask_obs {A} (f : W * list stamp → A * (W * list stamp)) o :
  quiet f → (∀ a, as_call (o a) = None) → drifts (ask_obs f o).
Proof.
  intros Hf Ho. apply drifts_bind; [by apply drifts_ask|intros a].
  apply drifts_bind; [by apply drifts_observe|intros _; apply along_ret, _].
Qed.

Lemma drifts_update_health e : drifts (update_health e).
Proof.
  apply drifts_bind; [by apply drifts_update_client|]. intros _. by apply drifts_observe.
Qed.

Ltac drifts_step :=
  match goal with
  | |- along drift ?m => change (drifts m)
  | |- drifts (_ ≫= _) => apply drifts_bind
  | |- drifts (ask_obs _ _) => apply drifts_ask_obs; [by auto with pacing|done]
  | |- drifts (ask _) => apply drifts_ask; by auto with pacing
  | |- drifts (observe _) => by apply drifts_observe
  | |- drifts (update_health _) => apply drifts_update_health
  | |- drifts (update_client _) => by apply drifts_update_client
  | |- drifts (update_frame _) => by apply drifts_update_frame
  | |- drifts (mret _) => apply along_ret, _
  | |- drifts (get _) => apply along_get, _
  | |- drifts (lift _) => apply along_lift, _
  | |- drifts (return_ _) => apply along_return, _
  | |- drifts continue_ => apply along_continue, _
  | |- drifts (match ?x with _ => _ end) => destruct x
  | |- ∀ _, _ => intros ?
  end.
Ltac drifts_auto :=
  unfold check_context, contextError, session_Close, current_session, fail, stop_clock,
    logFailure, finalError, logSuccess, now, time_Now, update_timing, ctx_Err, release;
  repeat (drifts_step || solve [auto with pacing]).

Lemma drifts_contextError ctx : drifts (contextError ctx).
Proof. drifts_auto. Qed.
Lemma drifts_acquire ctx : drifts (acquire ctx).
Proof. unfold acquire. drifts_auto. Qed.
Lemma drifts_connectLocked : drifts connectLocked.
Proof. unfold connectLocked. drifts_auto. Qed.
Lemma drifts_disconnectLocked : drifts disconnectLocked.
Proof. unfold disconnectLocked. drifts_auto. Qed.
Lemma drifts_record_first_failure : drifts record_first_failure.
Proof. unfold record_first_failure. drifts_auto. Qed.
Lemma drifts_socketTimeoutFor ctx : drifts (socketTimeoutFor ctx).
Proof. unfold socketTimeoutFor. drifts_auto. Qed.
#[local] Hint Resolve drifts_acquire drifts_connectLocked drifts_disconnectLocked
  drifts_record_first_failure drifts_socketTimeoutFor : pacing.

Lemma drifts_ensureSession ctx req start n : drifts (ensureSession ctx req start n).
Proof. unfold ensureSession. drifts_auto. Qed.
Lemma drifts_beginAttempt ctx req start n : drifts (beginAttempt ctx req start n).
Proof. unfold beginAttempt. drifts_auto. Qed.
Lemma drifts_conclude ctx req start n err : drifts (conclude ctx req start n err).
Proof. unfold conclude. drifts_auto. Qed.

#[local] Hint Resolve drifts_ensureSession drifts_beginAttempt drifts_conclude : pacing.

(** * The invariant *)

Section Delay.
Context (d : Z) (Hd : 0 < d ≤ max_i64).

Definition paced (l : list stamp) : Prop :=
  ∀ i j a b, (i < j)%nat → l !! i = Some a → l !! j = Some b →
    st_ok a = true → st_until a + d ≤ st_from b.

(** The successful exchanges were over by [t]. *)
Definition over_by (t : Z) (l : list stamp) : Prop :=
  ∀ e, e ∈ l → st_ok e = true → st_until e ≤ t.

Definition recorded (σ : St') : Prop :=
  requestDelay (client σ) = d ∧ paced (notes σ) ∧
  omap as_call (trace σ) = (λ e, (st_call e, st_result e)) <$> notes σ.

(** [nextRequestAt] is a delay after every success, and not further ahead. *)
Definition spaced (σ : St') : Prop :=
  recorded σ ∧ over_by (nextRequestAt (client σ) - d) (notes σ) ∧
  nextRequestAt (client σ) ≤ clock σ + d.

Definition due (σ : St') : Prop := nextRequestAt (client σ) ≤ clock σ.

(** Inside [Execute]: the slot has been waited for if the flag says so. *)
Definition spaced_slot (σ : St') : Prop :=
  spaced σ ∧ (requestSlotReady (frame σ) = true → due σ).

Lemma paced_snoc l e : paced l → over_by (st_from e - d) l → paced (l ++ [e]).
Proof.
  intros Hl He i j a b Hij Ha Hb Hok.
  destruct (decide (j < length l)%nat).
  - rewrite lookup_app_l in Ha, Hb by lia. exact (Hl i j a b Hij Ha Hb Hok).
  - apply lookup_snoc_Some in Hb as [[? _]|[-> <-]]; [done|].
    rewrite lookup_app_l in Ha by done. apply list_elem_of_lookup_2 in Ha.
    specialize (He a Ha Hok). lia.
Qed.

Lemma over_by_mono t t' l : over_by t l → t ≤ t' → over_by t' l.
Proof. intros Hl Ht e He Hok. specialize (Hl e He Hok). lia. Qed.

Lemma over_by_snoc t l e : over_by t l → (st_ok e = true → st_until e ≤ t) → over_by t (l ++ [e]).
Proof. intros Hl He a [Ha| ->%list_elem_of_singleton]%elem_of_app Hok; auto. Qed.

(** Assertions that survive a drift. *)
Definition stable (P : St' → Prop) : Prop := ∀ σ σ', drift σ σ' → P σ → P σ'.

Lemma recorded_stable : stable recorded.
Proof.
  intros σ σ' [] (? & Hp & ?). unfold recorded. split_and!; [congruence| |congruence].
  by replace (notes σ') with (notes σ).
Qed.

Lemma due_stable : stable due.
Proof. intros σ σ' []. unfold due. intros. lia. Qed.

Lemma spaced_stable : stable spaced.
Proof.
  intros σ σ' Hs (Hr & Ho & Hn). split; [by eapply recorded_stable|].
  destruct Hs as [? Hno _ Hne _ _]. rewrite Hno, Hne. split; [done|lia].
Qed.

Lemma spaced_slot_stable : stable spaced_slot.
Proof.
  intros σ σ' Hs [Hi Hslot]. split; [by eapply spaced_stable|]. intros Hf.
  eapply due_stable; [done|]. apply Hslot. by rewrite <- (drift_ready _ _ Hs).
Qed.

Lemma over_by_stable t : stable (λ σ, over_by t (notes σ)).
Proof. by intros σ σ' [_ -> _ _ _ _]. Qed.

Lemma and_stable P Q : stable P → stable Q → stable (λ σ, P σ ∧ Q σ).
Proof. intros HP HQ σ σ' ? []. split; eauto. Qed.
#[local] Hint Resolve recorded_stable due_stable spaced_stable spaced_slot_stable over_by_stable
  and_stable : pacing.

(** * Triples *)

Definition holds {A} (P : St' → Prop) (m : M' A) (Q : exit A → St' → Prop) : Prop :=
  ∀ σ x σ', P σ → m σ = Ret (x, σ') → Q x σ'.

Lemma holds_drift {A} P (m : M' A) : drifts m → stable P → holds P m (λ _, P).
Proof. intros Hm HP σ x σ' Hσ E. eapply HP; [by eapply Hm|done]. Qed.

Lemma holds_mono {A} P (m : M' A) (Q Q' : exit A → St' → Prop) :
  holds P m Q → (∀ x σ, Q x σ → Q' x σ) → holds P m Q'.
Proof. intros Hm HQ σ x σ' Hσ E. by eapply HQ, Hm. Qed.

Lemma holds_pre {A} (P P' : St' → Prop) (m : M' A) Q :
  holds P m Q → (∀ σ, P' σ → P σ) → holds P' m Q.
Proof. intros Hm HP σ x σ' Hσ E. by eapply Hm; [apply HP|]. Qed.

(** Both exits of a first part that do not go on. *)
Lemma holds_bind {A B} P (m : M' A) (f : A → M' B) (R : A → St' → Prop) (Q : exit B → St' → Prop) :
  holds P m (λ x σ, match x with
                    | Val a => R a σ | Continue => Q Continue σ | Return r => Q (Return r) σ
                    end) →
  (∀ a, holds (R a) (f a) Q) → holds P (m ≫= f) Q.
Proof.
  intros Hm Hf σ x σ' Hσ E. unfold mbind, M_bind in E.
  destruct (m σ) as [[y σ1]|] eqn:Em; [|done]. specialize (Hm _ _ _ Hσ Em).
  destruct y; simplify_eq; [by eapply Hf|done..].
Qed.

(** A first part that only drifts. *)
Lemma holds_drift_bind {A B} P (m : M' A) (f : A → M' B) (Q : exit B → St' → Prop) :
  drifts m → stable P → (∀ σ r, P σ → Q Continue σ ∧ Q (Return r) σ) →
  (∀ a, holds P (f a) Q) → holds P (m ≫= f) Q.
Proof.
  intros Hm HP Hx Hf. eapply holds_bind; [|exact Hf].
  eapply holds_mono; [by apply holds_drift|]. intros [a| |r] σ Hσ; [done|apply (Hx σ (inl [])), Hσ|].
  by apply Hx.
Qed.

Lemma holds_defer {A} P (dm : M' ()) (m : M' A) (Q : exit A → St' → Prop) :
  holds P m Q → (∀ x, holds (Q x) dm (λ _, Q x)) → holds P (defer dm m) Q.
Proof.
  intros Hm Hdm σ x σ' Hσ E. unfold defer in E.
  destruct (m σ) as [[y σ1]|] eqn:Em; [|done]. destruct (dm σ1) as [[z σ2]|] eqn:Ed; [|done].
  simplify_eq. by eapply Hdm, Ed; eapply Hm.
Qed.

(** Computations that always go on. *)
Definition plain {A} (m : M' A) : Prop := ∀ σ x σ', m σ = Ret (x, σ') → ∃ a, x = Val a.

Lemma plain_bind {A B} (m : M' A) (f : A → M' B) :
  plain m → (∀ a, plain (f a)) → plain (m ≫= f).
Proof.
  intros Hm Hf σ x σ' E. unfold mbind, M_bind in E.
  destruct (m σ) as [[y σ1]|] eqn:Em; [|done]. destruct (Hm _ _ _ Em) as [a ->]. by eapply Hf.
Qed.

Lemma plain_ret {A} (a : A) : plain (mret a).
Proof. intros σ x σ' [= <- _]. by exists a. Qed.

Lemma plain_ask {A} (f : W * list stamp → A * (W * list stamp)) : plain (ask f).
Proof. intros σ x σ'. unfold ask. destruct (f (world σ)) as [a w]. intros [= <- _]. by exists a. Qed.

Lemma plain_update_frame f : plain (update_frame f).
Proof. intros σ x σ' [= <- _]. by exists (). Qed.

Lemma plain_ask_obs {A} (f : W * list stamp → A * (W * list stamp)) o : plain (ask_obs f o).
Proof.
  apply plain_bind; [apply plain_ask|intros a]. apply plain_bind; [|intros _; apply plain_ret].
  intros σ x σ' [= <- _]. by exists ().
Qed.

Lemma plain_get {A} (f : St' → A) : plain (get f).
Proof. intros σ x σ' [= <- _]. by exists (f σ). Qed.

Lemma plain_lift {A} (m : go A) : plain (lift m).
Proof. intros σ x σ'. unfold lift. destruct m as [a|]; [|done]. intros [= <- _]. by exists a. Qed.

Lemma plain_contextError c : plain (contextError c).
Proof.
  unfold contextError, ctx_Err, time_Now. apply plain_bind; [destruct c|intros [e|]].
  - apply plain_ret.
  - apply plain_ask.
  - apply plain_ret.
  - destruct (ctx_Deadline c); [|apply plain_ret].
    apply plain_bind; [apply plain_ask|intros t; case_decide; apply plain_ret].
Qed.
#[local] Hint Resolve plain_bind plain_ret plain_ask plain_update_frame plain_ask_obs plain_get
  plain_lift plain_contextError : pacing.

Lemma holds_plain_bind {A B} P (m : M' A) (f : A → M' B) (Q : exit B → St' → Prop) :
  drifts m → plain m → stable P → (∀ a, holds P (f a) Q) → holds P (m ≫= f) Q.
Proof.
  intros Hm Hp HP Hf. eapply holds_bind; [|exact Hf]. intros σ x σ' Hσ E.
  destruct (Hp _ _ _ E) as [a ->]. by eapply holds_drift.
Qed.

(** * The parts that pace *)

Context (deadline : option Z).
Abbreviation ctx := (ReqCtx deadline).

Lemma time_Sub_nonpos a b : time_Sub a b ≤ 0 ↔ a ≤ b.
Proof. unfold time_Sub, min_i64, max_i64. lia. Qed.

(** Once the wait for the slot succeeds, the next request is due. *)
Lemma holds_waitForRequestSlot :
  holds spaced (waitForRequestSlot ctx) (λ x σ, spaced σ ∧ (x = Val None → due σ)).
Proof.
  intros σ x σ' Hsp E. unfold waitForRequestSlot in E.
  set (next := nextRequestAt (client σ)).
  unfold time_Now in E. rewrite bind_get, bind_ask in E. fold next in E.
  destruct (env_time_Now (world σ)) as [t w1] eqn:Et. cbn zeta in E.
  apply pass_inv in Et as [Et Hw1]. apply wall_time in Et.
  set (σ1 := {| client := client σ; frame := frame σ; world := w1; trace := trace σ |}) in *.
  assert (D1 : drift σ σ1) by (split; try done; unfold clock; cbn; lia).
  assert (Hgo : ∀ σ2, drift σ1 σ2 → next ≤ clock σ2 →
    contextError ctx σ2 = Ret (x, σ') → spaced σ' ∧ (x = Val None → due σ')).
  { intros σ2 D2 Hn2 E2. apply drifts_contextError in E2 as D3.
    split; [by eapply spaced_stable, spaced_stable, spaced_stable|].
    intros _. eapply due_stable; [done|]. unfold due.
    by rewrite (drift_next _ _ D2), (drift_next _ _ D1). }
  case_decide as Hdelay.
  { apply (proj1 (time_Sub_nonpos _ _)) in Hdelay. rewrite bind_observe in E.
    eapply Hgo; [..|exact E]; [|unfold clock; cbn; lia].
    split; try done. cbn. rewrite omap_app. cbn. by rewrite app_nil_r. }
  rewrite bind_ask in E.
  destruct (env_select_timer (time_Sub next t) (world σ1)) as [b w2] eqn:Eb.
  rewrite bind_observe in E. cbn [client frame world trace] in E.
  pose proof Eb as [Eb' Hw2]%pass_inv. apply wall_timer in Eb' as [Hc2 Hfire].
  set (σ2 := {| client := client σ1; frame := frame σ1; world := w2;
                trace := trace σ1 ++ [OSlot (time_Sub next t) b] |}) in *.
  assert (D2 : drift σ1 σ2).
  { split; try done. unfold σ2; cbn. rewrite omap_app. cbn. by rewrite app_nil_r. }
  destruct b.
  - eapply Hgo; [exact D2| |exact E]. specialize (Hfire eq_refl).
    destruct Hsp as (_ & _ & Hn). fold next in Hn.
    unfold time_Sub, min_i64, max_i64, clock in *. cbn in *. lia.
  - apply timer_Done in Eb as (e & w3 & He). unfold ctx_Err, ask in E. cbn in E, He.
    rewrite He in E. injection E as <- <-. split; [|done].
    eapply spaced_stable, spaced_stable, spaced_stable, Hsp; [|exact D2|exact D1].
    apply pass_inv in He as [He ?]. apply wall_ctx in He. by split.
Qed.

Lemma drifts_waitForRequestSlot c : drifts (waitForRequestSlot c).
Proof. unfold waitForRequestSlot. drifts_auto. Qed.
#[local] Hint Resolve drifts_waitForRequestSlot : pacing.

Definition unready (σ : St') : Prop := requestSlotReady (frame σ) = false.

Lemma unready_stable : stable unready.
Proof. intros σ σ' []. unfold unready. congruence. Qed.
#[local] Hint Resolve unready_stable : pacing.

Lemma due_slot σ : spaced σ → due σ → spaced_slot σ.
Proof. by split. Qed.

Lemma unready_slot σ : spaced σ → unready σ → spaced_slot σ.
Proof. intros ? Hu. split; [done|]. unfold unready in Hu. congruence. Qed.

(** How a part of an attempt ends: it goes on with [R], or the attempt is over. *)
Definition ends {A} (R : A → St' → Prop) (x : exit A) (σ : St') : Prop :=
  match x with Val a => R a σ | Continue => spaced_slot σ | Return _ => spaced σ end.

Lemma ends_drift {A} (m : M' A) P (R : A → St' → Prop) :
  drifts m → stable P → (∀ σ, P σ → spaced_slot σ) → (∀ a σ, P σ → R a σ) → holds P m (ends R).
Proof.
  intros Hm HP Hs HR. eapply holds_mono; [by apply holds_drift|].
  intros [a| |r] σ Hσ; [by apply HR|by apply Hs|by apply Hs].
Qed.

Lemma ends_bind {A B} P (m : M' A) (f : A → M' B) R R' :
  holds P m (ends R) → (∀ a, holds (R a) (f a) (ends R')) → holds P (m ≫= f) (ends R').
Proof.
  intros Hm Hf. eapply holds_bind; [|exact Hf]. eapply holds_mono; [exact Hm|].
  by intros [a| |r] σ.
Qed.

Lemma fail_returns {A} req e n σ x σ' :
  (fail req e n : M' A) σ = Ret (x, σ') → ∃ r, x = Return r.
Proof.
  unfold fail, logFailure, finalError, update_health, mbind, M_bind, get. intros E.
  destruct (classifyError (Some e)). injection E as <- _. by eexists.
Qed.

Lemma ends_fail {A} P req e start n (R : A → St' → Prop) :
  stable P → (∀ σ, P σ → spaced σ) → holds P (_ ← stop_clock start; fail req e n) (ends R).
Proof.
  intros HP Hs. apply holds_plain_bind; [drifts_auto| |done|intros _].
  { apply plain_bind; [apply plain_ask|intros t; apply plain_update_frame]. }
  intros σ x σ' Hσ E. destruct (fail_returns _ _ _ _ _ _ E) as [r ->].
  apply Hs. eapply HP; [|done]. assert (Hf : drifts (fail req e n : M' A)) by drifts_auto.
  by eapply Hf.
Qed.

Lemma awaitSlot_ends req start n :
  holds spaced_slot (awaitSlot ctx req start n) (ends (λ _ σ, spaced σ ∧ due σ)).
Proof.
  intros σ x σ' [Hsp Hslot] E. unfold awaitSlot in E. rewrite bind_get in E.
  destruct (requestSlotReady (frame σ)) eqn:Hr.
  { injection E as <- <-. split; [done|by apply Hslot]. }
  refine ((_ : holds (λ σ, spaced σ ∧ unready σ) _ _) σ x σ' (conj Hsp Hr) E).
  clear σ x σ' Hsp Hslot Hr E.
  apply holds_plain_bind; [unfold now; drifts_auto|apply plain_ask|auto with pacing|intros queueStart].
  eapply ends_bind with (R := λ err σ, (spaced σ ∧ unready σ) ∧ (err = None → due σ)).
  { intros σ x σ' [Hsp Hu] E. pose proof E as Hu'%drifts_waitForRequestSlot.
    apply (unready_stable _ _ Hu') in Hu. apply holds_waitForRequestSlot in E as [Hsp' Hdue]; [|done].
    destruct x as [err| |r]; cbn; [split; [done|intros ->; by apply Hdue]|by apply unready_slot|done]. }
  intros err. assert (Hst : stable (λ σ, (spaced σ ∧ unready σ) ∧ (err = None → due σ))).
  { apply and_stable; [auto with pacing|]. intros σ σ' ? HP ?. eapply due_stable; eauto. }
  apply holds_plain_bind; [unfold now; drifts_auto|apply plain_ask|done|intros t].
  apply holds_plain_bind; [drifts_auto|apply plain_update_frame|done|intros _].
  destruct err as [e|].
  - apply ends_fail; [done|]. by intros σ [[? _] _].
  - intros σ x σ' [[Hsp _] Hdue] [= <- <-]. split; [exact Hsp|by apply Hdue].
Qed.

(** After an exchange: it is noted, and it came late enough. *)
Definition called (r : outcome) (σ : St') : Prop :=
  recorded σ ∧ over_by (clock σ) (notes σ) ∧ (∀ e, r = inr e → spaced_slot σ).

Lemma called_stable r : stable (called r).
Proof.
  intros σ σ' Hs (Hr & Ho & He). split; [by eapply recorded_stable|]. split.
  - rewrite (drift_notes _ _ Hs). eapply over_by_mono; [exact Ho|apply Hs].
  - intros e ->. eapply spaced_slot_stable; [done|by eapply He].
Qed.

Lemma rpc_called c :
  holds (λ σ, spaced σ ∧ due σ) (rpc c) (λ x σ, ∃ r, x = Val r ∧ called r σ).
Proof.
  unfold rpc. intros σ x σ' [[(Hdl & Hp & Hc) [Ho Hn]] Hdue] E.
  unfold current_session in E. destruct (session (client σ)) as [s|] eqn:Hs.
  2: { unfold mbind, M_bind, get, lift in E. by rewrite Hs in E. }
  unfold mbind at 1, M_bind at 1, mbind at 1, M_bind at 1, get, lift in E. rewrite Hs in E.
  unfold ask_obs in E. rewrite bind_ask in E. cbn in E.
  destruct (env_call s c (world σ).1) as [r w'] eqn:Ec. pose proof (wall_call _ _ _ _ _ Ec) as Hw.
  injection E as <- <-. exists r. split; [done|].
  set (e := {| st_from := _; st_until := _; st_call := _; st_result := _ |}).
  unfold due, clock in *. unfold notes in *.
  assert (Hrec : recorded {| client := client σ; frame := frame σ; world := (w', (world σ).2 ++ [e]);
                             trace := trace σ ++ [OCall s c r] |}).
  { split_and!; cbn; [done| |].
    - apply paced_snoc; [done|]. eapply over_by_mono; [exact Ho|]. cbn. lia.
    - rewrite omap_app, Hc. cbn. unfold notes; cbn. by rewrite fmap_app. }
  assert (Hover : over_by (wall w') ((world σ).2 ++ [e])).
  { apply over_by_snoc; [|cbn; lia]. eapply over_by_mono; [exact Ho|lia]. }
  split; [exact Hrec|]. split; [exact Hover|]. intros er ->. apply due_slot; [|unfold due, clock; cbn; lia].
  split; [exact Hrec|]. split; [|unfold clock; cbn; lia]. by apply over_by_snoc.
Qed.

Lemma rpc_build_called c build :
  holds (λ σ, spaced σ ∧ due σ) (rpc_build c build) (λ x σ, ∃ r, x = Val r ∧ called r σ).
Proof.
  unfold rpc_build. eapply holds_bind with (R := called).
  - eapply holds_mono; [apply rpc_called|]. by intros x σ (r & -> & ?).
  - intros r σ x σ' (Hr & Ho & He) [= <- <-]. eexists. split; [done|]. split; [done|]. split; [done|].
    intros e. destruct r; [done|]. intros _. by eapply He.
Qed.

Lemma executeRequest_called req :
  holds (λ σ, spaced σ ∧ due σ) (executeRequest req) (λ x σ, ∃ r, x = Val r ∧ called r σ).
Proof.
  unfold executeRequest. repeat case_decide; try apply rpc_build_called; [..|apply rpc_called].
  all: apply holds_plain_bind; [drifts_auto|apply plain_lift|auto with pacing|intros v].
  all: apply rpc_build_called.
Qed.

(** A round trip: a success is over by the time it reports. *)
Definition fetched (rt : outcome * Z) (σ : St') : Prop :=
  let '(r, t) := rt in
  recorded σ ∧ over_by t (notes σ) ∧ t ≤ clock σ ∧ (∀ e, r = inr e → spaced_slot σ).

Lemma fetched_stable rt : stable (fetched rt).
Proof.
  destruct rt as [r t]. intros σ σ' Hs (Hr & Ho & Ht & He). split_and!.
  - by eapply recorded_stable.
  - by eapply over_by_stable.
  - destruct Hs. lia.
  - intros e ->. eapply spaced_slot_stable; [done|by eapply He].
Qed.

Lemma time_Now_fetched r :
  holds (called r) time_Now (ends (λ t, fetched (r, t))).
Proof.
  intros σ x σ' (Hr & Ho & He) E.
  assert (Hs : drift σ σ') by (revert E; apply (drifts_ask env_time_Now), quiet_time).
  unfold time_Now, ask in E. destruct (env_time_Now (world σ)) as [t w] eqn:Et. injection E as <- <-.
  apply pass_inv in Et as [Et _]. apply wall_time in Et. split_and!.
  - by eapply recorded_stable.
  - eapply over_by_stable; [exact Hs|]. eapply over_by_mono; [exact Ho|unfold clock; lia].
  - unfold clock; cbn; lia.
  - intros e ->. eapply spaced_slot_stable; [exact Hs|by eapply He].
Qed.

Lemma roundTrip_ends req :
  holds (λ σ, spaced σ ∧ due σ) (roundTrip ctx req) (ends fetched).
Proof.
  unfold roundTrip.
  apply holds_plain_bind; [drifts_auto|unfold current_session; auto with pacing|auto with pacing|intros s].
  apply holds_plain_bind; [unfold now; drifts_auto|apply plain_ask|auto with pacing|intros attemptStart].
  eapply ends_bind with (R := called).
  { eapply holds_mono; [apply executeRequest_called|]. by intros x σ (r & -> & ?). }
  intros r. eapply ends_bind; [apply time_Now_fetched|intros t]. cbn beta.
  pose proof (fetched_stable (r, t)) as Hst.
  apply holds_plain_bind; [unfold now; drifts_auto|apply plain_ask|done|intros t'].
  apply holds_plain_bind; [drifts_auto|apply plain_update_frame|done|intros _].
  apply holds_plain_bind; [drifts_auto|apply plain_ask_obs|done|intros fe].
  assert (Hret : ∀ r', (∀ e, r' = inr e → ∃ e', r = inr e') →
    holds (fetched (r, t)) (mret (r', t)) (ends fetched)).
  { intros r' Hr' σ x σ' (? & ? & ? & He) [= <- <-]. split_and!; [done..|].
    intros e ->. destruct (Hr' e eq_refl) as [e' ->]. by eapply He. }
  destruct r as [resp|e]; [by apply Hret|].
  destruct (classifyRequestPathError _ _) as [err|]; [|by apply Hret].
  case_decide; [apply Hret; eauto|].
  apply holds_plain_bind; [apply drifts_contextError|apply plain_contextError|done|intros ce].
  apply Hret. eauto.
Qed.

(** The only write of [nextRequestAt]; the attempt is then over. *)
Lemma succeed_ends req start n resp t (R : () → St' → Prop) :
  holds (fetched (inl resp, t)) (succeed ctx req start n resp t) (ends R).
Proof.
  intros σ x σ' (Hr & Ho & Ht & _) E. unfold succeed in E. rewrite bind_get in E.
  rewrite decide_True in E by (destruct Hr; lia). pose proof Hr as [Hdl _].
  unfold mbind at 1, M_bind at 1, update_client in E. rewrite Hdl in E.
  set (σ1 := {| client := set_nextRequestAt (t + d) (client σ); frame := frame σ;
                world := world σ; trace := trace σ |}) in E.
  assert (Hsp : spaced σ1).
  { split; [exact Hr|]. unfold σ1, clock in *; cbn. split; [|lia].
    eapply over_by_mono; [exact Ho|lia]. }
  clearbody σ1. refine ((_ : holds spaced (contextError ctx ≫= _) (ends R)) σ1 x σ' Hsp E).
  clear σ x σ' Hr Ho Ht Hdl σ1 Hsp E.
  apply holds_plain_bind; [apply drifts_contextError|apply plain_contextError|auto with pacing|].
  intros [e|]; [by apply ends_fail; auto with pacing|].
  apply holds_plain_bind; [unfold now; drifts_auto|apply plain_ask|auto with pacing|intros completedAt].
  intros σ x σ' Hsp E. assert (x = Return (inl resp)) as ->.
  { unfold logSuccess, update_health, mbind, M_bind in E. cbn in E. by injection E. }
  eapply (spaced_stable σ); [|exact Hsp]. revert E.
  apply (along_bind drift (update_timing _)); [by apply drifts_update_frame|intros _; drifts_auto].
Qed.

Lemma attempt_body_ends req start n :
  holds spaced_slot (attempt_body ctx req start n) (ends (λ _, spaced_slot)).
Proof.
  unfold attempt_body. eapply ends_bind with (R := λ _, spaced_slot).
  { apply ends_drift; auto with pacing. }
  intros _. eapply ends_bind; [apply awaitSlot_ends|intros []].
  eapply ends_bind with (R := λ _ σ, spaced σ ∧ due σ).
  { apply ends_drift; auto with pacing. by intros σ []; apply due_slot. }
  intros []. eapply ends_bind; [apply roundTrip_ends|]. intros [[resp|err] t].
  - apply succeed_ends.
  - apply (holds_pre spaced_slot); [|intros σ (_ & _ & _ & He); by eapply He].
    apply ends_drift; auto with pacing.
Qed.

Lemma attempt_loop_ends req start fuel n :
  holds spaced_slot (attempt_loop fuel ctx req start n) (λ _, spaced).
Proof.
  revert n. induction fuel as [|fuel IH]; intros n σ x σ' Hσ E; cbn [attempt_loop] in E.
  { injection E as _ <-. apply Hσ. }
  case_decide; [|injection E as _ <-; apply Hσ].
  destruct (attempt_body ctx req start n σ) as [[y σ1]|] eqn:Eb; [|done].
  apply attempt_body_ends in Eb; [|done].
  destruct y; cbn in Eb; [by eapply IH|by eapply IH|by simplify_eq].
Qed.

Lemma holds_weaken {A} P (m : M' A) : drifts m → stable P → (∀ σ, P σ → spaced σ) → holds P m (λ _, spaced).
Proof. intros. eapply holds_mono; [by apply holds_drift|]. auto. Qed.

Lemma Execute_spaced req : holds spaced (Execute ctx req) (λ _, spaced).
Proof.
  enough (Hbody : holds spaced (Execute_body ctx req) (λ _, spaced)).
  { intros σ x σ' Hσ E. unfold Execute, call in E.
    destruct (Execute_body ctx req σ) as [[y σ1]|] eqn:Eb; [|done].
    apply Hbody in Eb; [|done]. by destruct y; simplify_eq. }
  unfold Execute_body. eapply holds_bind with (R := λ _ σ, spaced σ ∧ unready σ).
  { by intros σ x σ' Hσ [= <- <-]. }
  intros _. assert (Hst : stable (λ σ, spaced σ ∧ unready σ)) by auto with pacing.
  apply holds_plain_bind; [unfold now; drifts_auto|apply plain_ask|done|intros start].
  apply holds_plain_bind; [drifts_auto|apply plain_lift|done|intros [err|]].
  { apply holds_weaken; [drifts_auto|done|by intros σ []]. }
  apply holds_plain_bind; [unfold now; drifts_auto|apply plain_ask|done|intros queueStart].
  apply (holds_drift_bind _ (acquire ctx)); [auto with pacing|done|by intros σ r [? _]|intros [err|]].
  { apply holds_weaken; [drifts_auto|done|by intros σ []]. }
  apply holds_defer; [|intros _; apply holds_weaken; [drifts_auto|auto with pacing|done]].
  apply holds_plain_bind; [unfold now; drifts_auto|apply plain_ask|done|intros t].
  apply holds_plain_bind; [drifts_auto|apply plain_update_frame|done|intros _].
  eapply holds_bind with (R := λ _, spaced).
  - apply (holds_pre spaced_slot); [|by intros σ [? ?]; apply unready_slot].
    eapply holds_mono; [apply attempt_loop_ends|]. by intros [] σ.
  - intros _. apply holds_weaken; [|auto with pacing|done]. unfold after_loop. drifts_auto.
Qed.

End Delay.

(** * Properties *)

(** Requests one after the other: the owner token admits no other order. *)
Fixpoint run_requests (reqs : list (option Z * Request)) (σ : St') : go St' :=
  match reqs with
  | [] => Ret σ
  | (deadline, req) :: reqs =>
    '(_, σ) ← Execute (ReqCtx deadline) req σ; run_requests reqs σ
  end.

Lemma run_requests_spaced d reqs σ :
  0 < d ≤ max_i64 → Forall (λ r, wf_request (snd r)) reqs → spaced d σ →
  ∃ σ', run_requests reqs σ = Ret σ' ∧ spaced d σ'.
Proof.
  intros Hd Hreqs. revert σ. induction Hreqs as [|[deadline req] reqs Hwf Hreqs IH]; intros σ Hσ.
  { by exists σ. }
  destruct (Execute_machine req (ReqCtx deadline) σ Hwf) as (r & σ1 & _ & _ & E & _).
  destruct (IH σ1) as (σ' & E' & Hσ'); [by eapply (Execute_spaced d Hd), E|].
  exists σ'. split; [|done]. cbn [run_requests]. rewrite E. exact E'.
Qed.

(** C14 The request delay is kept: from the start of a client, whatever requests
    it executes, with retries, reconnections and ended contexts, and whatever
    the device does, every exchange begins at least the configured delay after
    the end of every successful exchange before it. *)
Theorem requests_are_paced (reqs : list (option Z * Request)) (σ : St')
    (Hreqs : Forall (λ r, wf_request (snd r)) reqs)
    (Hdelay : 0 < requestDelay (client σ) ≤ max_i64)
    (Hnext : nextRequestAt (client σ) = time_zero) (Hclock : time_zero ≤ wall (fst (world σ)))
    (Hnotes : snd (world σ) = []) (Htrace : trace σ = []) :
  ∃ σ', run_requests reqs σ = Ret σ' ∧
    (λ e, (st_call e, st_result e)) <$> snd (world σ') = omap as_call (trace σ') ∧
    ∀ i j earlier later, (i < j)%nat →
      snd (world σ') !! i = Some earlier → snd (world σ') !! j = Some later →
      st_ok earlier = true → st_until earlier + requestDelay (client σ) ≤ st_from later.
Proof.
  destruct (run_requests_spaced (requestDelay (client σ)) reqs σ Hdelay Hreqs)
    as (σ' & E & (_ & Hp & Hc) & _).
  { unfold spaced, recorded, notes, clock, over_by, time_zero in *. rewrite Hnotes, Htrace, Hnext.
    split_and!; [done|by intros ? []|done| |lia]. by intros ? ?%not_elem_of_nil. }
  exists σ'. split; [exact E|]. by split.
Qed.

End Stamped.

(** * Witness: a device with a clock

    A call takes a second and fails if the script says so; a timer takes
    exactly its duration. *)
Record ticking := { tk_clock : Z; tk_script : list outcome }.
Definition tick (d : Z) (w : ticking) : ticking :=
  {| tk_clock := tk_clock w + Z.max 0 d; tk_script := tk_script w |}.

#[local] Instance ticking_env : Env ticking := {
  env_now w := (tk_clock w, w);
  env_time_Now w := (tk_clock w, w);
  env_ctx_Err w := (None, w);
  env_select_owner w := (true, w);
  env_select_timer d w := (true, tick d w);
  env_newSession w := (tk_clock w, tick second w);
  env_Connect s w := (None, w);
  env_Close s w := (None, w);
  env_SetSlave s b w := w;
  env_BeginRequest s t w := w;
  env_finishRequest s w := (None, w);
  env_call s c w := match tk_script w with
                    | r :: rs => (sanitize r, tick second {| tk_clock := tk_clock w; tk_script := rs |})
                    | [] => (inr (ErrSentinel EOF), w)
                    end;
}.

#[local] Instance ticking_laws : EnvLaws ticking.
Proof.
  split; cbn; try done. intros s c w e w'. destruct (tk_script w) as [|r rs]; [by intros [= <- _]|].
  unfold sanitize. destruct (foreign_outcome r) eqn:F; intros [= Hr _]; by subst.
Qed.

#[local] Instance ticking_clock : Clock ticking.
Proof.
  refine {| wall := tk_clock |}.
  all: try (intros *; cbn; intros [= <- <-]; cbn; lia).
  all: try (intros *; cbn; lia).
  intros s c w r w'. cbn. destruct (tk_script w); intros [= _ <-]; cbn; lia.
Defined.

#[local] Existing Instance stamped.

(** Two reads with a delay of three seconds, the first over a connection that
    resets once. *)
Definition ticking_state : St (ticking * list stamp) :=
  {| client := {| attemptTimeout := 5 * second; requestDelay := 3 * second; connectDelay := 0;
                  degradedWindow := minute; session := None; nextRequestAt := time_zero;
                  health := init_health |};
     frame := {| timing := zero_timing; lastErr := None; requestSlotReady := false |};
     world := ({| tk_clock := 0; tk_script := flaky ++ [inl [0; 5; 0; 6]] |}, []); trace := [] |}.

Example ticking_run :
  match run_requests [(None, sample_read); (None, sample_read)] ticking_state with
  | Ret σ => (λ e, (st_from e / second, st_until e / second, st_ok e)) <$> snd (world σ)
  | Panic => []
  end = [(1, 2, false); (3, 4, true); (7, 8, true)].
Proof. vm_compute. reflexivity. Qed.

Lemma requests_are_paced_witness :
  ∃ σ', run_requests [(None, sample_read); (None, sample_read)] ticking_state = Ret σ' ∧
    ∀ i j earlier later, (i < j)%nat →
      snd (world σ') !! i = Some earlier → snd (world σ') !! j = Some later →
      st_ok earlier = true → st_until earlier + 3 * second ≤ st_from later.
Proof.
  destruct (requests_are_paced [(None, sample_read); (None, sample_read)] ticking_state)
    as (σ' & E & _ & Hp).
  - apply Forall_cons; split; [apply sample_read_wf|]. apply Forall_cons; split; [apply sample_read_wf|apply Forall_nil; exact I].
  - vm_compute. split; [reflexivity|discriminate].
  - reflexivity.
  - discriminate.
  - reflexivity.
  - reflexivity.
  - exists σ'. split; [exact E|exact Hp].
Defined.
