(* ===== verification/Ownership.v ===== *)
(** Requests share one connection: any number of goroutines call [Execute],
    [Connect] and [Close] of one client (internal/modbus/client.go), and the
    channel [owner] holds one token.

    Each goroutine follows the protocol machine of ClientSpec.v, which
    [Execute] refines ([Execute_protocol]); the session is shared, and a
    receive from [owner] is possible only while the token is in it.  The theorem
    is what lets Program.v take an upstream request for one atomic action. *)

From stdpp Require Import base list numbers gmap.
From S2P Require Import Prelude Request Errors Validate Health Effects Client ClientSpec ClientProps.

(** * The shared client *)

Record owners := {
  token : bool;                              (* the channel holds the token *)
  shared : option Z;                         (* c.session *)
  procs : gmap nat (Request * pstate);
  history : list (nat * observation);
}.

(** A goroutine's view of the shared session. *)
Definition see (s : option Z) (p : pstate) : pstate :=
  {| p_owner := p_owner p; p_over := p_over p; p_session := s; p_slot := p_slot p;
     p_addressed := p_addressed p; p_phase := p_phase p; p_dirty := p_dirty p;
     p_tries := p_tries p |}.

(** [<-c.owner] and [c.owner <- struct{}{}] on a channel of capacity one: when
    they are possible, and whether the token is in the channel after them. *)
Definition channel (o : observation) (token : bool) : option bool :=
  match o with
  | OAcquire => if token then Some false else None
  | ORelease => if token then None else Some true
  | _ => Some token
  end.

Inductive owners_step : owners → owners → Prop :=
| step_start g t req :
    procs g !! t = None →
    owners_step g {| token := token g; shared := shared g;
                     procs := <[t := (req, p_init None)]> (procs g); history := history g |}
| step_interact g t req p o p' token' :
    procs g !! t = Some (req, p) → channel o (token g) = Some token' →
    pstep req (see (shared g) p) o = Some p' →
    owners_step g {| token := token'; shared := p_session p';
                     procs := <[t := (req, p')]> (procs g); history := history g ++ [(t, o)] |}.

(** [NewClient] puts the token into the channel. *)
Definition init_owners (s : option Z) : owners :=
  {| token := true; shared := s; procs := ∅; history := [] |}.

Inductive owners_reachable (s : option Z) : owners → Prop :=
| owners_init : owners_reachable s (init_owners s)
| owners_next g g' : owners_reachable s g → owners_step g g' → owners_reachable s g'.

(** * One request after the other *)

(** The interactions of one goroutine, from taking the token to returning it. *)
Record block := { b_proc : nat; b_request : Request; b_trace : list observation }.

(** The blocks are runs of the machine, each from the session the one before
    it left; the result is the session after the last. *)
Fixpoint serial (s : option Z) (bs : list block) : option (option Z) :=
  match bs with
  | [] => Some s
  | b :: bs =>
    match psteps (b_request b) (p_init s) (b_trace b) with
    | Some p => if p_over p && negb (p_owner p) then serial (p_session p) bs else None
    | None => None
    end
  end.

Definition by_proc (t : nat) (tr : list observation) : list (nat * observation) := (λ o, (t, o)) <$> tr.
Definition flat (bs : list block) : list (nat * observation) :=
  concat ((λ b, by_proc (b_proc b) (b_trace b)) <$> bs).

Lemma serial_snoc s bs b s' p :
  serial s bs = Some s' → psteps (b_request b) (p_init s') (b_trace b) = Some p →
  p_over p = true → p_owner p = false → serial s (bs ++ [b]) = Some (p_session p).
Proof.
  revert s. induction bs as [|b0 bs IH]; intros s Hs Hp Ho Hw; cbn in *.
  - injection Hs as ->. by rewrite Hp, Ho, Hw.
  - destruct (psteps _ _ (b_trace b0)) as [p0|]; [|done].
    destruct (p_over p0 && negb (p_owner p0)); [|done]. by apply IH.
Qed.

Lemma flat_snoc bs b : flat (bs ++ [b]) = flat bs ++ by_proc (b_proc b) (b_trace b).
Proof. unfold flat. rewrite fmap_app, concat_app. cbn. by rewrite app_nil_r. Qed.

Lemma by_proc_snoc t tr o : by_proc t (tr ++ [o]) = by_proc t tr ++ [(t, o)].
Proof. unfold by_proc. by rewrite fmap_app. Qed.

(** * The invariant *)

(** A goroutine that has not taken the token yet, or has returned it. *)
Definition waiting (p : pstate) : Prop := p_owner p = false ∧ p_over p = false ∧ ∀ s, see s p = p_init s.
Definition finished (p : pstate) : Prop := p_owner p = false ∧ p_over p = true.
Definition outside (p : pstate) : Prop := waiting p ∨ finished p.

Definition holding (g : owners) (s : option Z) (t : nat) (req : Request) (tr : list observation) : Prop :=
  ∃ p, procs g !! t = Some (req, p) ∧ p_owner p = true ∧
    psteps req (p_init s) tr = Some (see (shared g) p).

Record owners_ok (s0 : option Z) (g : owners) (bs : list block) (s : option Z) : Prop := {
  ok_serial : serial s0 bs = Some s;
  ok_token : if token g
    then history g = flat bs ∧ shared g = s ∧
         ∀ t req p, procs g !! t = Some (req, p) → outside p
    else ∃ t req tr, history g = flat bs ++ by_proc t tr ∧ hd_error tr = Some OAcquire ∧
         holding g s t req tr ∧
         ∀ t' req' p, t' ≠ t → procs g !! t' = Some (req', p) → outside p;
}.

Lemma see_id p : see (p_session p) p = p.
Proof. by destruct p. Qed.

(** Outside, the only possible step is to take the token. *)
Lemma outside_step req s p o p' :
  outside p → pstep req (see s p) o = Some p' →
  o = OAcquire ∧ waiting p ∧ p' = p_set_owner true (p_init s).
Proof.
  intros Hout Hs. destruct (decide (o = OAcquire)) as [->|Hne].
  - split; [done|]. destruct Hout as [Hw|[Hw Ho]].
    + split; [done|]. destruct Hw as (_ & _ & Hsee). rewrite Hsee in Hs. by injection Hs.
    + cbn in Hs. by rewrite Hw, Ho in Hs.
  - destruct (pstep_owner _ _ _ _ Hs Hne) as [Hown _]. cbn in Hown.
    destruct Hout as [(Hw & _)|[Hw _]]; congruence.
Qed.

Lemma init_waiting : waiting (p_init None).
Proof. by split_and!. Qed.

Lemma owners_start_ok s0 g bs s t req :
  owners_ok s0 g bs s → procs g !! t = None →
  owners_ok s0 {| token := token g; shared := shared g;
                  procs := <[t := (req, p_init None)]> (procs g); history := history g |} bs s.
Proof.
  intros [Hs Ht] Hnew. split; [done|]. cbn. destruct (token g).
  - destruct Ht as (Hh & Hsh & Hp). split_and!; [done..|]. intros t' req' p.
    rewrite lookup_insert_Some. intros [[_ [= _ <-]]|[_ ?]]; [left; apply init_waiting|by eapply Hp].
  - destruct Ht as (t0 & r0 & tr & Hh & Hhd & (p0 & Hp0 & Hown & Htr) & Hp).
    exists t0, r0, tr. split_and!; [done..| |].
    + exists p0. cbn. by rewrite lookup_insert_ne by congruence.
    + intros t' req' p Hne. rewrite lookup_insert_Some.
      intros [[_ [= _ <-]]|[_ ?]]; [left; apply init_waiting|by eapply Hp].
Qed.

(** The token is taken. *)
Lemma owners_take_ok s0 g bs s t req p o p' token' :
  owners_ok s0 g bs s → token g = true → procs g !! t = Some (req, p) →
  channel o (token g) = Some token' → pstep req (see (shared g) p) o = Some p' →
  owners_ok s0 {| token := token'; shared := p_session p';
                  procs := <[t := (req, p')]> (procs g); history := history g ++ [(t, o)] |} bs s.
Proof.
  intros [Hs Ht] Htok Hp Hch Hstep. rewrite Htok in *. destruct Ht as (Hh & Hsh & Hout).
  destruct (outside_step _ _ _ _ _ (Hout _ _ _ Hp) Hstep) as (-> & _ & ->). injection Hch as <-.
  split; [done|]. cbn. exists t, req, [OAcquire]. split_and!; [by rewrite Hh|done| |].
  - exists (p_set_owner true (p_init (shared g))). cbn. by rewrite lookup_insert_eq, Hsh.
  - intros t' req' p1 Hne. rewrite lookup_insert_ne by done. apply Hout.
Qed.

(** The holder goes on, or returns the token. *)
Lemma owners_hold_ok s0 g bs s t req p o p' token' :
  owners_ok s0 g bs s → token g = false → procs g !! t = Some (req, p) →
  channel o (token g) = Some token' → pstep req (see (shared g) p) o = Some p' →
  ∃ bs' s', owners_ok s0 {| token := token'; shared := p_session p';
    procs := <[t := (req, p')]> (procs g); history := history g ++ [(t, o)] |} bs' s'.
Proof.
  intros [Hs Ht] Htok Hp Hch Hstep. rewrite Htok in *.
  destruct Ht as (t0 & r0 & tr & Hh & Hhd & (p0 & Hp0 & Hown & Htr) & Hout).
  destruct (decide (t = t0)) as [->|Hne].
  2: { by destruct (outside_step _ _ _ _ _ (Hout _ _ _ Hne Hp) Hstep) as (-> & _ & _). }
  rewrite Hp in Hp0. injection Hp0 as <- <-.
  assert (Htr' : psteps req (p_init s) (tr ++ [o]) = Some p') by (by rewrite (psteps_snoc _ _ _ _ _ Htr)).
  assert (Ho : o ≠ OAcquire) by (intros ->; cbn in Hch; discriminate).
  destruct (pstep_owner _ _ _ _ Hstep Ho) as (_ & Hkeep & Hrel).
  assert (Hhd' : hd_error (tr ++ [o]) = Some OAcquire) by (by destruct tr).
  assert (Hothers : ∀ t' req' p1, t' ≠ t0 → <[t0:=(req, p')]> (procs g) !! t' = Some (req', p1) → outside p1).
  { intros t' req' p1 Hne. rewrite lookup_insert_ne by done. by apply Hout. }
  destruct (decide (o = ORelease)) as [->|Hor].
  - destruct (Hrel eq_refl) as [Hov Hnow]. injection Hch as <-.
    set (b := {| b_proc := t0; b_request := req; b_trace := tr ++ [ORelease] |}).
    exists (bs ++ [b]), (p_session p'). split.
    + by eapply (serial_snoc _ _ b).
    + cbn. split_and!; [|done|].
      * rewrite flat_snoc, Hh. cbn [b_proc b_trace b]. by rewrite by_proc_snoc, app_assoc.
      * intros t' req' p1 Hl. destruct (decide (t' = t0)) as [->|]; [|by eapply Hothers].
        rewrite lookup_insert_eq in Hl. injection Hl as _ <-. by right.
  - assert (token' = false) as -> by (destruct o; cbn in Hch; congruence).
    exists bs, s. split; [done|]. cbn. exists t0, req, (tr ++ [o]). split_and!; [|done| |done].
    + by rewrite Hh, by_proc_snoc, app_assoc.
    + exists p'. cbn. rewrite lookup_insert_eq, see_id. auto.
Qed.

Lemma owners_reachable_ok s0 g : owners_reachable s0 g → ∃ bs s, owners_ok s0 g bs s.
Proof.
  induction 1 as [|g g' _ (bs & s & Hok) Hstep].
  { exists [], s0. split; [done|]. cbn. split_and!; [done..|]. intros t req p. by rewrite lookup_empty. }
  destruct Hstep as [g t req Hnew|g t req p o p' tk Hp Hch Hstep].
  - exists bs, s. by apply owners_start_ok.
  - destruct (token g) eqn:Htok.
    + exists bs, s. eapply owners_take_ok; [done..| |done]. by rewrite Htok.
    + eapply owners_hold_ok; [done..| |done]. by rewrite Htok.
Qed.

(** * [Connect] and [Close] follow the protocol too *)

Section Methods.
Context {W : Type} `{EnvLaws W}.

(** A method's run: it ends, and its interactions take the token, are a run of
    the machine (of any request), and return the token. *)
Definition brackets (m : M W (option error)) : Prop :=
  ∀ σ req, ∃ err σ' tr p, m σ = Ret (Val err, σ') ∧ trace σ' = trace σ ++ tr ∧
    psteps req (p_init (session (client σ))) tr = Some p ∧
    p_session p = session (client σ') ∧ finished p.

Ltac bracket :=
  match goal with
  | |- ∃ tr p, ?t = _ ++ tr ∧ _ =>
      eexists _, _; split; [rewrite <- ?app_assoc; reflexivity|];
      split; [cbn; unfold p_usable; cbn; rewrite ?bool_decide_eq_true_2 by auto; reflexivity|];
      done
  end.

Lemma brackets_intro m :
  (∀ σ req, wp m (λ x σ', ∃ err, x = Val err ∧ ∃ tr p, trace σ' = trace σ ++ tr ∧
    psteps req (p_init (session (client σ))) tr = Some p ∧
    p_session p = session (client σ') ∧ finished p) σ) → brackets m.
Proof.
  intros Hm σ req. destruct (Hm σ req) as (x & σ' & E & err & -> & tr & p & ?). by exists err, σ', tr, p.
Qed.

Lemma wp_acquire_Background (Q : exit (option error) → St W → Prop) σ :
  Q (Val None) {| client := client σ; frame := frame σ; world := world σ;
                  trace := trace σ ++ [OAcquire] |} → wp (acquire Background) Q σ.
Proof. intros HQ. unfold acquire, ctx_Err. wp_steps. exact HQ. Qed.

Lemma Connect_brackets : brackets Connect.
Proof.
  apply brackets_intro. intros σ req. unfold Connect. apply wp_bind, wp_acquire_Background. cbn [seq_post].
  unfold release, connectLocked. apply wp_defer. wp_steps.
  destruct (session (client σ)) as [s|] eqn:Hs; unfold session_Close; wp_steps; rewrite ?Hs;
    match goal with |- wp (match ?e with _ => _ end) _ _ => destruct e end; unfold session_Close; wp_steps;
    eexists; (split; [done|]); bracket.
Qed.

Lemma Close_brackets : brackets Close.
Proof.
  apply brackets_intro. intros σ req. unfold Close. apply wp_bind, wp_acquire_Background. cbn [seq_post].
  unfold release. apply wp_defer. wp_steps.
  destruct (session (client σ)) as [s|] eqn:Hs; unfold session_Close; wp_steps; rewrite ?Hs;
    eexists; (split; [done|]); bracket.
Qed.

(** A request that is not refused before it takes the token. *)
Lemma Execute_brackets req ctx σ :
  wf_request req →
  ∃ r σ' tr p, Execute ctx req σ = Ret (Val r, σ') ∧ trace σ' = trace σ ++ tr ∧
    psteps req (p_init (session (client σ))) tr = Some p ∧
    p_session p = session (client σ') ∧ (tr = [] ∨ finished p).
Proof.
  intros Hwf. destruct (Execute_clean req ctx σ Hwf) as (r & σ' & tr & p & E & Ht & Hp & Hs & _).
  exists r, σ', tr, p. split_and!; [done..|].
  destruct (Execute_machine req ctx σ Hwf) as (r2 & σ2 & tr2 & p2 & E2 & Ht2 & Hp2 & Ho2).
  assert (tr2 = tr) as ->.
  { rewrite E in E2. injection E2 as _ <-. rewrite Ht in Ht2. by apply app_inv_head in Ht2. }
  rewrite Hp in Hp2. injection Hp2 as <-. apply machine_ownership in Hp. rewrite Ho2 in Hp.
  destruct (p_over p) eqn:Hov; [by right|left; done].
Qed.

End Methods.

(** * Properties *)

(** C11 Requests have the connection to themselves: however the goroutines that
    execute requests, connect and close are interleaved, all they did with the
    device is a sequence of whole uses of the connection, one goroutine each,
    from taking the owner token to returning it, and each a run of the
    protocol from the session the previous one left; while the token is out,
    one more use is under way, of the only goroutine that holds it.  The token
    is never lost: if no goroutine holds it, it is in the channel. *)
Theorem exchanges_are_serial (s0 : option Z) (g : owners) (Hr : owners_reachable s0 g) :
  ∃ bs s rest,
    history g = flat bs ++ rest ∧ serial s0 bs = Some s ∧
    (token g = true → rest = [] ∧ shared g = s) ∧
    (token g = false → ∃ t req tr p, rest = by_proc t (OAcquire :: tr) ∧
       procs g !! t = Some (req, p) ∧ p_owner p = true ∧
       psteps req (p_init s) (OAcquire :: tr) = Some (see (shared g) p) ∧
       ∀ t' req' p', procs g !! t' = Some (req', p') → p_owner p' = true → t' = t) ∧
    ((∀ t req p, procs g !! t = Some (req, p) → p_owner p = false) → token g = true).
Proof.
  destruct (owners_reachable_ok s0 g Hr) as (bs & s & [Hs Ht]). exists bs, s.
  destruct (token g) eqn:Htok.
  - destruct Ht as (Hh & Hsh & _). exists []. rewrite app_nil_r. by split_and!.
  - destruct Ht as (t & req & tr & Hh & Hhd & (p & Hp & Hown & Htr) & Hout).
    destruct tr as [|o tr]; [done|]. injection Hhd as ->. exists (by_proc t (OAcquire :: tr)).
    split_and!; [done..| |].
    + intros _. exists t, req, tr, p. split_and!; [done..|]. intros t' req' p' Hp' Hown'.
      destruct (decide (t' = t)) as [|Hne]; [done|].
      destruct (Hout _ _ _ Hne Hp') as [(Hw & _)|[Hw _]]; congruence.
    + intros Hno. rewrite (Hno _ _ _ Hp) in Hown. discriminate.
Qed.

(** Two readers: the first has gone through (its context had ended when it got
    the token), the second has connected. *)
Definition two_readers : owners :=
  {| token := false; shared := Some 4;
     procs := <[2%nat := (sample_read, p_connect (Some 4) [] (p_set_owner true (p_init None)))]>
       (<[2%nat := (sample_read, p_set_owner true (p_init None))]>
       (<[1%nat := (sample_read, p_set_owner false (p_set_owner true (p_init None)))]>
       (<[1%nat := (sample_read, p_set_owner true (p_init None))]>
       (<[2%nat := (sample_read, p_init None)]> (<[1%nat := (sample_read, p_init None)]> ∅)))));
     history := [(1%nat, OAcquire); (1%nat, ORelease); (2%nat, OAcquire); (2%nat, OConnect 4 None)] |}.

Lemma two_readers_reachable : owners_reachable None two_readers.
Proof.
  assert (H1 : owners_reachable None (init_owners None)) by constructor.
  eapply owners_next in H1; [|by apply (step_start _ 1 sample_read)].
  eapply owners_next in H1; [|by apply (step_start _ 2 sample_read)].
  eapply owners_next in H1; [|by eapply (step_interact _ 1 sample_read _ OAcquire)].
  eapply owners_next in H1; [|by eapply (step_interact _ 1 sample_read _ ORelease)].
  eapply owners_next in H1; [|by eapply (step_interact _ 2 sample_read _ OAcquire)].
  eapply owners_next in H1; [|by eapply (step_interact _ 2 sample_read _ (OConnect 4 None))].
  exact H1.
Qed.

Lemma exchanges_are_serial_witness :
  ∃ bs s tr, history two_readers = flat bs ++ by_proc 2 (OAcquire :: tr) ∧ serial None bs = Some s.
Proof.
  destruct (exchanges_are_serial None two_readers two_readers_reachable)
    as (bs & s & rest & Hh & Hs & _ & Hout & _).
  destruct (Hout eq_refl) as (t & req & tr & p & -> & _ & _ & _ & Honly).
  assert (2%nat = t) as <- by (eapply Honly; [vm_compute; reflexivity|reflexivity]).
  by exists bs, s, tr.
Defined.
