(* ===== verification/Probe.v ===== *)
(** The health check from end to end: [mbproxy -health] (Entry.v) asks the
    health server (Endpoint.v) of a running proxy, which reads the state the
    upstream client's requests have left (ClientProps.v). *)

From stdpp Require Import base list strings.
From S2P Require Import Prelude Request Errors Validate Health Config Endpoint Entry Effects Client ClientSpec ClientProps.



Section Probe.
Context {W : Type} `{EnvLaws W}.


End Probe.

(** * Witness: the scripted device of ClientProps.v *)

#[local] Existing Instance script_env.
#[local] Existing Instance script_laws.



