(* ===== verification/Proxy.v ===== *)
(** The caching proxy (internal/proxy/proxy.go) and request coalescing
    ([CoalesceWithStatus] of internal/cache/cache.go).

    A handler is a program of type [prog]: a tree of atomic actions on what
    goroutines share (the critical sections of [cacheStateMu] and [inflightMu],
    the upstream client, contexts and clocks), with the pure code between them
    and [for] loops as a constructor.  Program.v gives programs their
    concurrent meaning; here they are only written down.  A log call is an
    action with the line it writes. *)

From stdpp Require Import base list numbers strings gmap.
From S2P Require Import Prelude Request Errors Validate Codec Cache Config Effects Client.

(** * The shared state and its critical sections *)

Record Proxy (C : Type) := {
  cache : C;
  writeGeneration : Z;
}.
Arguments cache {C} _.
Arguments writeGeneration {C} _.

Section Sections.
Context {C : Type} `{RangeStore C}.

(** [handleRead]'s first section: the cached values, or the generation. *)
Definition lookup_section (now : Z → Z) (req : Request) (p : Proxy C) : list (list Z) + Z :=
  match rs_GetRange (cache p) now (SlaveID req) (FunctionCode req) (Address req) (Quantity req) with
  | Some values => inl values
  | None => inr (writeGeneration p)
  end.

(** The section of the fetch: store unless a write intervened. *)
Definition store_section (generation now : Z) (req : Request) (regValues : list (list Z))
    (p : Proxy C) : Proxy C :=
  if decide (writeGeneration p = generation) then
    {| cache := rs_SetRange (cache p) now (SlaveID req) (FunctionCode req) (Address req) regValues;
       writeGeneration := writeGeneration p |}
  else p.

Definition stale_section (req : Request) (p : Proxy C) : option (list (list Z)) :=
  rs_GetRangeStale (cache p) (SlaveID req) (FunctionCode req) (Address req) (Quantity req).

Definition readFuncs : list Z :=
  [FuncReadCoils; FuncReadDiscreteInputs; FuncReadHoldingRegisters; FuncReadInputRegisters].

Definition invalidateCache (req : Request) (c : C) : C :=
  foldl (λ c fc, rs_DeleteRange c (SlaveID req) fc (Address req) (Quantity req)) c readFuncs.

(** The section before and after a forwarded write. *)
Definition write_section (req : Request) (p : Proxy C) : Proxy C :=
  {| cache := invalidateCache req (cache p);
     writeGeneration := u64 (writeGeneration p + 1) |}.

End Sections.

(** * Log lines

    A call of the structured logger: its level, its message and its arguments. *)

Inductive arg :=
| AInt (n : Z)
| AHex (n : Z)                                             (* fmt.Sprintf("0x%02X", n) *)
| ABool (b : bool)
| AString (s : string)
| ADuration (d : Z)
| AKind (k : ErrorKind)
| AError (e : error).

Record log_line := {
  line_warn : bool;                                        (* Warn, else Debug *)
  line_message : string;
  line_args : list (string * arg);
}.

Record CoalesceResult := {
  Coalesced : bool;
  Waited : bool;
  WaitDuration : Z;
}.

(** The arguments that identify a request. *)
Definition identity_args (req : Request) : list (string * arg) :=
  [("slave_id", AInt (SlaveID req)); ("func", AHex (FunctionCode req));
   ("addr", AInt (Address req)); ("qty", AInt (Quantity req))].

Definition debug (message : string) (args : list (string * arg)) : log_line :=
  {| line_warn := false; line_message := message; line_args := args |}.

Definition logCoalescedCompletion (req : Request) (result : CoalesceResult) : log_line :=
  debug "coalesced request completed" (identity_args req ++
    [("write", ABool false); ("attempt", AInt 0); ("attempts", AInt 0);
     ("queue_duration", ADuration (WaitDuration result)); ("attempt_duration", ADuration 0);
     ("reconnect_duration", ADuration 0); ("total_duration", ADuration (WaitDuration result));
     ("error_kind", AString ""); ("will_retry", ABool false); ("coalesced", ABool true);
     ("coalesced_waited", ABool true);
     ("coalesced_wait_duration", ADuration (WaitDuration result))]).

Definition logCoalescedFailure (req : Request) (result : CoalesceResult) (err : error)
    (staleFallbackSelected : bool) : log_line :=
  debug "coalesced request failed" (identity_args req ++
    [("write", ABool false); ("attempt", AInt 0); ("attempts", AInt 0);
     ("queue_duration", ADuration (WaitDuration result)); ("attempt_duration", ADuration 0);
     ("reconnect_duration", ADuration 0); ("total_duration", ADuration (WaitDuration result));
     ("error_kind", AKind (ErrorKindOf (Some err))); ("will_retry", ABool false);
     ("coalesced", ABool true); ("coalesced_waited", ABool true);
     ("coalesced_wait_duration", ADuration (WaitDuration result));
     ("stale_fallback_selected", ABool staleFallbackSelected); ("error", AError err)] ++
    if negb staleFallbackSelected then [("downstream_exception", AHex (DownstreamException err))] else []).

Definition logCoalescingWait (req : Request) (result : CoalesceResult) (err : option error) : log_line :=
  debug "coalescing wait ended before replacement fetch" (identity_args req ++
    [("write", ABool false); ("coalesced", ABool false); ("coalesced_waited", ABool true);
     ("coalesced_wait_duration", ADuration (WaitDuration result))] ++
    match err with
    | Some err => [("error_kind", AKind (ErrorKindOf (Some err))); ("error", AError err)]
    | None => []
    end).

Definition logStaleFallback (req : Request) (result : CoalesceResult) (err : error) : log_line :=
  {| line_warn := true; line_message := "stale fallback selected";
     line_args := identity_args req ++
       [("write", ABool false); ("coalesced", ABool (Coalesced result));
        ("coalesced_waited", ABool (Waited result));
        ("coalesced_wait_duration", ADuration (WaitDuration result));
        ("stale_fallback_selected", ABool true);
        ("error_kind", AKind (ErrorKindOf (Some err))); ("error", AError err)] |}.

(** * Programs *)

(** Atomic actions with the type of their answers. *)
Inductive Op : Type → Type :=
| Lookup (req : Request) : Op (list (list Z) + Z)
| Store (generation : Z) (req : Request) (regValues : list (list Z)) : Op ()
| Stale (req : Request) : Op (option (list (list Z)))
| Invalidate (final : bool) (req : Request) : Op ()
| Exec (req : Request) : Op outcome                        (* p.client.Execute(ctx, req) *)
| CtxErr : Op (option error)                               (* ctx.Err() *)
| CtxDeadline : Op (option Z)                              (* ctx.Deadline() *)
| TimeNow : Op Z                                           (* time.Now() *)
| Log (line : log_line) : Op ()
| Inflight (key : string) : Op (nat * bool)                (* the section that joins or registers *)
| Await (id : nat) : Op (option (list Z * option error))   (* select: done, or ctx.Done() *)
| SetResult (id : nat) (data : list Z) (err : option error) : Op ()
| Forget (key : string) : Op ()                            (* the section that deletes the key *)
| CloseDone (id : nat) : Op ().

Inductive prog : Type → Type :=
| Done {A} (a : A) : prog A
| Crash {A} : prog A                                       (* a Go panic *)
| Act {R A} (op : Op R) (k : R → prog A) : prog A
| Iter {S B A} (body : S → prog (S + B)) (s : S) (k : B → prog A) : prog A.

Fixpoint prog_bind {A B} (p : prog A) : (A → prog B) → prog B :=
  match p with
  | Done a => λ f, f a
  | Crash => λ _, Crash
  | Act op k => λ f, Act op (λ r, prog_bind (k r) f)
  | Iter body s k => λ f, Iter body s (λ b, prog_bind (k b) f)
  end.

#[global] Instance prog_mret : MRet prog := λ A a, Done a.
#[global] Instance prog_mbind : MBind prog := λ A B f p, prog_bind p f.

Definition act {R} (op : Op R) : prog R := Act op Done.
Definition lift_go {A} (m : go A) : prog A := match m with Ret a => Done a | Panic => Crash end.

(** * Coalescing *)

Definition attributedCoalescingError (err : error) (coalesced : bool) (waitDuration : Z) : error :=
  ErrCoalescing err coalesced waitDuration.

(** [break] out of the loop with the function's results. *)
Definition leave {S} (r : outcome) (coalesced waited : bool) (totalWait : Z) :
    prog (S + outcome * CoalesceResult) :=
  Done (inr (r, {| Coalesced := coalesced; Waited := waited; WaitDuration := totalWait |})).

(** [if waited { err = attributedCoalescingError(err, false, totalWait) }] *)
Definition attribute_wait (err : error) (waited : bool) (totalWait : Z) : error :=
  if waited then attributedCoalescingError err false totalWait else err.

Section Coalesce.
Context (key : string) (fetch : prog outcome).

(** The state of the loop: [totalWait] and [waited]. *)
Definition loop_state : Type := Z * bool.

Definition follow (id : nat) (totalWait : Z) : prog (loop_state + outcome * CoalesceResult) :=
  waitStart ← act TimeNow;
  err ← act CtxErr;
  match err with
  | Some e =>
      t ← act TimeNow;
      let totalWait := dur_add totalWait (time_Sub t waitStart) in
      leave (inr (attributedCoalescingError e true totalWait)) true true totalWait
  | None =>
      done_ ← act (Await id);
      t ← act TimeNow;
      let totalWait := dur_add totalWait (time_Sub t waitStart) in
      err ← act CtxErr;
      match done_, err with
      | None, _ =>
          let e := default (ErrOther None "<nil>") err in
          leave (inr (attributedCoalescingError e true totalWait)) true true totalWait
      | Some _, Some e =>
          leave (inr (attributedCoalescingError e true totalWait)) true true totalWait
      | Some (result, Some e), None =>
          if errors_Is e Canceled || errors_Is e DeadlineExceeded
          then Done (inl (totalWait, true))
          else leave (inr (attributedCoalescingError e true totalWait)) true true totalWait
      | Some (result, None), None => leave (inl result) true true totalWait
      end
  end.

Definition lead (id : nat) (totalWait : Z) (waited : bool) :
    prog (loop_state + outcome * CoalesceResult) :=
  r ← fetch;
  err ← match r with inl _ => act CtxErr | inr e => Done (Some e) end;
  let data := match r with inl data => data | inr _ => [] end in
  _ ← act (SetResult id data err);
  _ ← act (Forget key);
  _ ← act (CloseDone id);
  match err with
  | Some e => leave (inr (attribute_wait e waited totalWait)) false waited totalWait
  | None => leave (inl data) false waited totalWait
  end.

Definition coalesce_body (s : loop_state) : prog (loop_state + outcome * CoalesceResult) :=
  let '(totalWait, waited) := s in
  err ← act CtxErr;
  match err with
  | Some e => leave (inr (attribute_wait e waited totalWait)) false waited totalWait
  | None =>
      '(id, ok) ← act (Inflight key);
      if ok : bool then follow id totalWait else lead id totalWait waited
  end.

Definition CoalesceWithStatus : prog (outcome * CoalesceResult) :=
  Iter coalesce_body (0, false) Done.

Definition Coalesce : prog outcome :=
  '(r, _) ← CoalesceWithStatus;
  Done r.

End Coalesce.

(** * Handlers *)

Section Handlers.
Context (cfg : Config).

Definition coalesce_key (generation : Z) (req : Request) : string :=
  (fmt_d generation +:+ ":" +:+
   RangeKey (SlaveID req) (FunctionCode req) (Address req) (Quantity req))%string.

(** The function [handleRead] gives to [CoalesceWithStatus]. *)
Definition fetch (generation : Z) (req : Request) : prog outcome :=
  r ← act (Exec req);
  match r with
  | inr e => Done (inr e)
  | inl data =>
      regValues ← lift_go (decomposeResponse (FunctionCode req) (Quantity req) data);
      match regValues with
      | Some regValues => _ ← act (Store generation req regValues); Done (inl data)
      | None => Done (inl data)
      end
  end.

Definition requestContextActive : prog bool :=
  err ← act CtxErr;
  match err with
  | Some _ => Done false
  | None =>
      deadline ← act CtxDeadline;
      match deadline with
      | None => Done true
      | Some deadline => t ← act TimeNow; Done (bool_decide (t < deadline))
      end
  end.

Definition respond (req : Request) (values : list (list Z)) : prog outcome :=
  resp ← lift_go (assembleResponse (FunctionCode req) (Quantity req) values);
  Done (inl resp).

(** The lines about a fetch that this goroutine shared or waited for. *)
Definition log_success (req : Request) (coalesced : CoalesceResult) : prog () :=
  if Coalesced coalesced then act (Log (logCoalescedCompletion req coalesced))
  else if Waited coalesced then act (Log (logCoalescingWait req coalesced None))
  else Done ().

Definition log_failure (req : Request) (coalesced : CoalesceResult) (err : error) (stale : bool) : prog () :=
  if Coalesced coalesced then act (Log (logCoalescedFailure req coalesced err stale))
  else if Waited coalesced then act (Log (logCoalescingWait req coalesced (Some err)))
  else Done ().

Definition handleRead (req : Request) : prog outcome :=
  found ← act (Lookup req);
  match found with
  | inl values =>
      _ ← act (Log (debug "cache hit" (identity_args req)));
      respond req values
  | inr generation =>
      _ ← act (Log (debug "cache miss" (identity_args req)));
      '(r, coalesced) ← CoalesceWithStatus (coalesce_key generation req) (fetch generation req);
      match r with
      | inl data => _ ← log_success req coalesced; Done (inl data)
      | inr err =>
          active ← (if CacheServeStale cfg && bool_decide (ErrorKindOf (Some err) ≠ ErrorProtocolException)
                    then requestContextActive else Done false);
          staleValues ← (if active : bool then act (Stale req) else Done None);
          match staleValues with
          | Some staleValues =>
              _ ← log_failure req coalesced err true;
              _ ← act (Log (logStaleFallback req coalesced err));
              respond req staleValues
          | None => _ ← log_failure req coalesced err false; Done (inr err)
          end
      end
  end.

(** The lines of [handleWrite] and [handlePassthrough]. *)
Definition write_args (req : Request) : list (string * arg) :=
  [("slave_id", AInt (SlaveID req)); ("func", AHex (FunctionCode req)); ("addr", AInt (Address req))].
Definition forward_args (req : Request) : list (string * arg) :=
  [("slave_id", AInt (SlaveID req)); ("func", AHex (FunctionCode req))].

Definition handleWrite (req : Request) : prog outcome :=
  if decide (ReadOnly cfg = ReadOnlyOn) then
    _ ← act (Log (debug "write ignored (readonly mode)" (write_args req)));
    Done (inl (buildFakeWriteResponse req))
  else if decide (ReadOnly cfg = ReadOnlyDeny) then
    _ ← act (Log (debug "write denied (readonly mode)" (write_args req)));
    Done (inl (BuildExceptionResponse (FunctionCode req) ExcIllegalFunction))
  else if decide (ReadOnly cfg = ReadOnlyOff) then
    _ ← act (Invalidate false req);
    r ← act (Exec req);
    _ ← act (Invalidate true req);
    Done r
  else Done (inr (ErrText "unknown readonly mode: %s" [])).

Definition handlePassthrough (req : Request) : prog outcome :=
  _ ← act (Log (debug "forwarding function code" (forward_args req)));
  act (Exec req).

Definition HandleRequest (r : option Request) : prog outcome :=
  invalid ← lift_go (ValidateRequest r);
  match r, invalid with
  | None, _ => Done (inr (default (ErrText "request is nil" []) invalid))
  | Some req, Some err =>
      Done (inl (BuildExceptionResponse (FunctionCode req) (DownstreamException err)))
  | Some req, None =>
      if IsWriteFunction (FunctionCode req) then handleWrite req
      else if IsReadFunction (FunctionCode req) then handleRead req
      else handlePassthrough req
  end.

End Handlers.
