(* ===== verification/Program.v ===== *)
(** The concurrent meaning of the handlers' programs, and a rely-guarantee
    logic for it.

    Any number of goroutines run programs of Proxy.v against one shared state:
    the cache with its generation, the in-flight table of the coalescer, and
    the device.  [op_step] is what one atomic action may do; everything outside
    the proxy (the device's answers, contexts, clocks) is unconstrained.
    [safe] says that a program keeps the global invariant and the promises
    [guarantee], whatever the other goroutines do within theirs. *)

From stdpp Require Import base list numbers strings gmap.
From S2P Require Import Prelude Request Errors Codec Cache Config Effects Proxy.

(** * The shared state *)

(** [inflightRequest], with its key and the goroutine that created it. *)
Record inflightRequest := {
  o_key : string;
  o_leader : nat;
  o_done : bool;
  o_result : option (list Z * option error);
  o_followers : Z;
}.

(** A forwarded write that has ended: its range, when it was on the wire, and
    how many generation increments had happened when it ended. *)
Record write_record := {
  wr_slave : Z;
  wr_addr : Z;
  wr_qty : Z;
  wr_wire : nat;
  wr_gen : Z;
}.

Record Shared (C : Type) := {
  px : Proxy C;
  inflight : gmap string nat;
  objs : gmap nat inflightRequest;
  wire : nat;                     (* exchanges with the device so far *)
  last_wire : gmap nat nat;       (* each goroutine's latest exchange *)
  writes : list write_record;     (* the forwarded writes that have ended *)
  bumps : Z;                      (* generation increments, unbounded *)
}.
Arguments px {C} _.
Arguments inflight {C} _.
Arguments objs {C} _.
Arguments wire {C} _.
Arguments last_wire {C} _.
Arguments writes {C} _.
Arguments bumps {C} _.

Section Shared.
Context {C : Type}.

Definition with_px (p : Proxy C) (g : Shared C) : Shared C :=
  {| px := p; inflight := inflight g; objs := objs g; wire := wire g;
     last_wire := last_wire g; writes := writes g; bumps := bumps g |}.
Definition with_inflight (m : gmap string nat) (g : Shared C) : Shared C :=
  {| px := px g; inflight := m; objs := objs g; wire := wire g;
     last_wire := last_wire g; writes := writes g; bumps := bumps g |}.
Definition with_objs (m : gmap nat inflightRequest) (g : Shared C) : Shared C :=
  {| px := px g; inflight := inflight g; objs := m; wire := wire g;
     last_wire := last_wire g; writes := writes g; bumps := bumps g |}.

Definition exchanged (tid : nat) (g : Shared C) : Shared C :=
  {| px := px g; inflight := inflight g; objs := objs g; wire := S (wire g);
     last_wire := <[tid := wire g]> (last_wire g); writes := writes g; bumps := bumps g |}.

Definition add_follower (o : inflightRequest) : inflightRequest :=
  {| o_key := o_key o; o_leader := o_leader o; o_done := o_done o; o_result := o_result o;
     o_followers := o_followers o + 1 |}.
Definition set_result (data : list Z) (err : option error) (o : inflightRequest) : inflightRequest :=
  {| o_key := o_key o; o_leader := o_leader o; o_done := o_done o;
     o_result := Some (data, err); o_followers := o_followers o |}.
Definition close_done (o : inflightRequest) : inflightRequest :=
  {| o_key := o_key o; o_leader := o_leader o; o_done := true; o_result := o_result o;
     o_followers := o_followers o |}.

Definition ended_write (tid : nat) (req : Request) (g : Shared C) : write_record :=
  {| wr_slave := SlaveID req; wr_addr := Address req; wr_qty := Quantity req;
     wr_wire := default 0%nat (last_wire g !! tid); wr_gen := bumps g + 1 |}.

End Shared.

(** * Atomic actions *)

Section Semantics.
Context {C : Type} `{RangeStore C}.
(** The device with everything between: what the [n]-th exchange answers. *)
Context (device : nat → Request → outcome).

(** [tid] performs [op] in [g], gets the answer and leaves the next state. *)
Definition op_step (tid : nat) {R} (op : Op R) (g : Shared C) : R → Shared C → Prop :=
  match op in Op R return R → Shared C → Prop with
  | Lookup req => λ r g', g' = g ∧ ∃ now, r = lookup_section now req (px g)
  | Store generation req regValues => λ _ g',
      ∃ now, g' = with_px (store_section generation now req regValues (px g)) g
  | Stale req => λ r g', g' = g ∧ r = stale_section req (px g)
  | Invalidate final req => λ _ g',
      g' = {| px := write_section req (px g); inflight := inflight g; objs := objs g;
              wire := wire g; last_wire := last_wire g;
              writes := if final then ended_write tid req g :: writes g else writes g;
              bumps := bumps g + 1 |}
  | Exec req => λ r g', r = device (wire g) req ∧ g' = exchanged tid g
  | CtxErr => λ _ g', g' = g
  | CtxDeadline => λ _ g', g' = g
  | TimeNow => λ _ g', g' = g
  | Log _ => λ _ g', g' = g
  | Inflight key => λ r g',
      match inflight g !! key with
      | Some id => r = (id, true) ∧ g' = with_objs (alter add_follower id (objs g)) g
      | None => ∃ id, objs g !! id = None ∧ r = (id, false) ∧
          g' = with_inflight (<[key := id]> (inflight g)) (with_objs (<[id :=
                 {| o_key := key; o_leader := tid; o_done := false; o_result := None;
                    o_followers := 0 |}]> (objs g)) g)
      end
  | Await id => λ r g', g' = g ∧
      (r = None ∨ ∃ o, objs g !! id = Some o ∧ o_done o = true ∧
         r = Some (default ([], None) (o_result o)))
  | SetResult id data err => λ _ g', g' = with_objs (alter (set_result data err) id (objs g)) g
  | Forget key => λ _ g', g' = with_inflight (delete key (inflight g)) g
  | CloseDone id => λ _ g', g' = with_objs (alter close_done id (objs g)) g
  end.

(** Closing a closed channel panics. *)
Definition op_panics {R} (op : Op R) (g : Shared C) : bool :=
  match op with
  | CloseDone id => match objs g !! id with Some o => o_done o | None => false end
  | _ => false
  end.

(** A goroutine's next step. *)
Definition thread_step (tid : nat) {A} (p : prog A) (g : Shared C) : prog A → Shared C → Prop :=
  match p in prog A return prog A → Shared C → Prop with
  | Done _ | Crash => λ _ _, False
  | Act op k => λ p' g',
      if op_panics op g then g' = g ∧ p' = Crash else ∃ r, op_step tid op g r g' ∧ p' = k r
  | Iter body s k => λ p' g', g' = g ∧
      p' = prog_bind (body s) (λ r, match r with inl s' => Iter body s' k | inr b => k b end)
  end.

(** The counter only grows. *)
Lemma op_bumps tid {R} (op : Op R) g r g' : op_step tid op g r g' → bumps g ≤ bumps g'.
Proof.
  destruct op; cbn; try (by intros [-> _]); try (by intros ->); try (by intros [_ ->]).
  - by intros [? ->].
  - intros ->. cbn. lia.
  - case_match; [by intros [_ ->]|by intros (? & _ & _ & ->)].
Qed.

(** * The logic *)

(** What a goroutine promises the others about one of its actions. *)
Record guarantee (tid : nat) (g g' : Shared C) : Prop := {
  gu_wire : (wire g <= wire g')%nat;
  gu_bumps : bumps g ≤ bumps g';
  gu_writes : writes g ⊆ writes g';
  gu_new_writes cw : cw ∈ writes g' → cw ∈ writes g ∨ bumps g < wr_gen cw;
  gu_objs id o : objs g !! id = Some o → ∃ o', objs g' !! id = Some o' ∧
    o_key o' = o_key o ∧ o_leader o' = o_leader o ∧
    (o_done o = true ∨ o_leader o ≠ tid → o_done o' = o_done o ∧ o_result o' = o_result o);
  gu_new_objs id o : objs g' !! id = Some o → objs g !! id = None → o_leader o = tid;
  gu_inflight key id o : inflight g !! key = Some id → objs g !! id = Some o →
    o_leader o ≠ tid → inflight g' !! key = Some id;
  gu_last_wire tid' : tid' ≠ tid → last_wire g' !! tid' = last_wire g !! tid';
}.

(** An assertion no other goroutine can invalidate. *)
Definition stable (tid : nat) (L : Shared C → Prop) : Prop :=
  ∀ tid' g g', tid' ≠ tid → guarantee tid' g g' → L g → L g'.

(** [tid] is not responsible for any request others may wait for. *)
Definition leads_nothing (tid : nat) (g : Shared C) : Prop :=
  ∀ id o, objs g !! id = Some o → o_leader o = tid → o_done o = true.

(** Before an action: one waits only for a known request and while leading
    nothing, and closes a channel only once. *)
Definition op_pre (tid : nat) {R} (op : Op R) (g : Shared C) : Prop :=
  match op with
  | Await id => is_Some (objs g !! id) ∧ leads_nothing tid g
  | CloseDone id => ∃ o, objs g !! id = Some o ∧ o_done o = false
  | _ => True
  end.

Lemma op_pre_no_panic tid {R} (op : Op R) g : op_pre tid op g → op_panics op g = false.
Proof. destruct op; cbn; try done. by intros (o & -> & ->). Qed.

(** The generation counter has not wrapped around. *)
Definition no_wrap (g : Shared C) : Prop := bumps g < 2 ^ 64.

Context (Inv : Shared C → Prop).

Fixpoint safe (tid : nat) {A} (p : prog A) : (Shared C → Prop) → (A → Shared C → Prop) → Prop :=
  match p in prog A return (Shared C → Prop) → (A → Shared C → Prop) → Prop with
  | Done a => λ L Q, ∀ g, Inv g → L g → Q a g
  | Crash => λ L _, ∀ g, Inv g → ¬ L g
  | Act op k => λ L Q,
      (∀ g, Inv g → L g → op_pre tid op g) ∧
      ∀ g r g', Inv g → L g → op_step tid op g r g' → no_wrap g' →
        Inv g' ∧ guarantee tid g g' ∧ ∃ L', stable tid L' ∧ L' g' ∧ safe tid (k r) L' Q
  | Iter body s k => λ L Q, ∃ J K,
      (∀ s, stable tid (J s)) ∧ (∀ b, stable tid (K b)) ∧
      (∀ g, Inv g → L g → J s g) ∧
      (∀ s, safe tid (body s) (J s) (λ r g, match r with inl s' => J s' g | inr b => K b g end)) ∧
      (∀ b, safe tid (k b) (K b) Q)
  end.

Lemma guarantee_refl tid g : guarantee tid g g.
Proof.
  split; try done; [by left| |congruence].
  intros id o Ho. by exists o.
Qed.

(** Strengthening the assertion before a program. *)
Lemma safe_weaken tid {A} (p : prog A) (L L' : Shared C → Prop) Q :
  (∀ g, Inv g → L' g → L g) → safe tid p L Q → safe tid p L' Q.
Proof.
  destruct p as [A a|A|R A op k|S B A body s k]; cbn; intros HL Hp; eauto.
  - intros g Hi ?. by apply (Hp g), HL.
  - destruct Hp as [Hpre Hstep]. eauto 10.
  - destruct Hp as (J & K & ? & ? & ? & ? & ?). exists J, K. split_and!; eauto.
Qed.

Lemma safe_bind tid {A B} (p : prog A) (f : A → prog B) L (Q' : A → Shared C → Prop) Q :
  safe tid p L Q' → (∀ a, safe tid (f a) (Q' a) Q) → safe tid (prog_bind p f) L Q.
Proof.
  revert L. induction p as [A a|A|R A op k IH|S0 B0 A body IHb s k IHk]; cbn; intros L Hp Hf.
  - by eapply safe_weaken.
  - done.
  - destruct Hp as [Hpre Hstep]. split; [done|]. intros g r g' Hi HL Hop Hw.
    destruct (Hstep g r g' Hi HL Hop Hw) as (? & ? & L' & ? & ? & ?). eauto 10.
  - destruct Hp as (J & K & ? & ? & ? & ? & ?). exists J, K. split_and!; eauto.
Qed.

(** ** Adequacy: one step of a safe program *)
Lemma safe_step tid {A} (p p' : prog A) g g' L Q :
  safe tid p L Q → stable tid L → Inv g → L g → thread_step tid p g p' g' → no_wrap g' →
  Inv g' ∧ guarantee tid g g' ∧ ∃ L', stable tid L' ∧ L' g' ∧ safe tid p' L' Q.
Proof.
  destruct p as [A a|A|R A op k|S B A body s k]; cbn; intros Hp Hst Hi HL Hstep Hw; try done.
  - destruct Hp as [Hpre Hp]. rewrite (op_pre_no_panic _ _ _ (Hpre g Hi HL)) in Hstep.
    destruct Hstep as (r & Hop & ->). eauto.
  - destruct Hp as (J & K & HJ & HK & HLJ & Hb & Hk), Hstep as [-> ->].
    split_and!; [done|apply guarantee_refl|]. exists (J s). split_and!; [done|by apply HLJ|].
    eapply safe_bind; [by apply Hb|]. intros [s'|b]; [|apply Hk].
    cbn. exists J, K. split_and!; eauto.
Qed.

(** ** Rules *)

Lemma safe_done tid {A} (a : A) (L : Shared C → Prop) Q :
  (∀ g, Inv g → L g → Q a g) → safe tid (Done a) L Q.
Proof. done. Qed.

(** An action that leaves the shared state alone. *)
Lemma safe_query tid {R A} (op : Op R) (k : R → prog A) L Q :
  (∀ g, Inv g → L g → op_pre tid op g) →
  (∀ g r g', op_step tid op g r g' → g' = g) →
  stable tid L → (∀ r, safe tid (k r) L Q) → safe tid (Act op k) L Q.
Proof.
  intros Hpre Hq Hst Hk. split; [done|]. intros g r g' Hi HL Hop _.
  apply Hq in Hop as ->. split_and!; [done|apply guarantee_refl|]. by exists L.
Qed.

(** Stable assertions compose. *)
Lemma stable_and tid (L1 L2 : Shared C → Prop) :
  stable tid L1 → stable tid L2 → stable tid (λ g, L1 g ∧ L2 g).
Proof. intros H1 H2 tid' g g' Hne Hg [? ?]. split; [by eapply H1|by eapply H2]. Qed.

Lemma stable_pure tid (P : Prop) : stable tid (λ _, P).
Proof. by intros ? ? ? ? ? ?. Qed.

Lemma stable_leads_nothing tid : stable tid (leads_nothing tid).
Proof.
  intros tid' g g' Hne Hg Hl id o' Ho' Hlead.
  destruct (objs g !! id) as [o|] eqn:Ho.
  - destruct (gu_objs _ _ _ Hg _ _ Ho) as (o1 & Ho1 & _ & Hl1 & Hsame). simplify_eq.
    destruct Hsame as [-> _]; [right; congruence|]. by eapply Hl; [|rewrite <- Hl1].
  - by destruct Hne; rewrite <- Hlead, (gu_new_objs _ _ _ Hg _ _ Ho' Ho).
Qed.

End Semantics.

#[global] Arguments safe : simpl never.
