(* ===== verification/System.v ===== *)
(** The proxy with all its goroutines: the transition system, its invariant,
    and the theorems about every interleaving.

    The guarantee of the generation counter: a value read from the cache, or
    shared by coalescing, or served stale, was fetched from the device after
    every write that had ended before the read began and covers it. *)

From stdpp Require Import base list numbers strings gmap.
From S2P Require Import Prelude Request Errors Validate Codec Cache Config Effects Proxy Program.

Section System.
Context {C : Type} `{RangeStoreLaws C}.
Context (device : nat → Request → outcome) (cfg : Config).

(** * What the responses promise *)

(** The write covers register or coil [a] of [s]. *)
Definition covers (cw : write_record) (s a : Z) : Prop :=
  wr_slave cw = s ∧ in_range (wr_addr cw) (wr_qty cw) a.

(** [v] is the value of [a] in the answer to the [w]-th exchange. *)
Definition provenance (s f a : Z) (v : list Z) (w : nat) : Prop :=
  ∃ req data values k,
    device w req = inl data ∧ SlaveID req = s ∧ FunctionCode req = f ∧
    decomposeResponse f (Quantity req) data = Ret (Some values) ∧
    values !! k = Some v ∧ a = Address req + Z.of_nat k.

(** Fetched after all of [ws] that cover it. *)
Definition fresh_value (ws : list write_record) (s f a : Z) (v : list Z) (w : nat) : Prop :=
  provenance s f a v w ∧ ∀ cw, cw ∈ ws → covers cw s a → (wr_wire cw < w)%nat.

Definition same_range (r1 r2 : Request) : Prop :=
  SlaveID r1 = SlaveID r2 ∧ FunctionCode r1 = FunctionCode r2 ∧
  Address r1 = Address r2 ∧ Quantity r1 = Quantity r2.

(** The response is the device's own to the same read, after all of [ws]; or
    it is assembled from cached values, each fetched after those of [ws] that
    cover it. *)
Definition fresh_fetch (ws : list write_record) (req : Request) (data : list Z) : Prop :=
  ∃ w req', same_range req' req ∧ device w req' = inl data ∧
    ∀ cw, cw ∈ ws → (wr_wire cw < w)%nat.

Definition fresh_cached (ws : list write_record) (req : Request) (resp : list Z) : Prop :=
  ∃ values, assembleResponse (FunctionCode req) (Quantity req) values = Ret resp ∧
    len values = Quantity req ∧
    ∀ i v, values !! i = Some v → ∃ w,
      fresh_value ws (SlaveID req) (FunctionCode req) (Address req + Z.of_nat i) v w.

Definition fresh_response (ws : list write_record) (req : Request) (resp : list Z) : Prop :=
  fresh_fetch ws req resp ∨ fresh_cached ws req resp.

(** * The invariant *)

Definition read_request (req : Request) : Prop :=
  wf_request req ∧ valid_request req ∧ IsReadFunction (FunctionCode req) = true.

Definition write_request (req : Request) : Prop :=
  wf_request req ∧ valid_request req ∧ IsWriteFunction (FunctionCode req) = true.

(** A published result was fetched after every write that had ended when its
    generation was current. *)
Definition published (key : string) (data : list Z) (g : Shared C) : Prop :=
  ∃ req gen w, key = coalesce_key gen req ∧ read_request req ∧ device w req = inl data ∧
    0 ≤ gen ≤ bumps g ∧ ∀ cw, cw ∈ writes g → wr_gen cw ≤ gen → (wr_wire cw < w)%nat.

Record Inv (g : Shared C) : Prop := {
  inv_generation : writeGeneration (px g) = bumps g ∧ 0 ≤ bumps g;
  inv_cache s f a e : valid_range s f a 1 → rs_entry (cache (px g)) s f a = Some e →
    IsReadFunction f = true ∧ ∃ w, (w < wire g)%nat ∧ fresh_value (writes g) s f a (entry_Data e) w;
  inv_writes cw : cw ∈ writes g → wr_gen cw ≤ bumps g ∧ (wr_wire cw < wire g)%nat;
  inv_inflight key id : inflight g !! key = Some id →
    ∃ o, objs g !! id = Some o ∧ o_key o = key;
  inv_open id o : objs g !! id = Some o → o_result o = None → inflight g !! o_key o = Some id;
  inv_done id o : objs g !! id = Some o → o_done o = true → is_Some (o_result o);
  inv_result id o data : objs g !! id = Some o → o_result o = Some (data, None) →
    published (o_key o) data g;
}.

(** * Lemmas on ranges *)

Lemma read_request_range req :
  read_request req →
  valid_range (SlaveID req) (FunctionCode req) (Address req) (Quantity req) ∧
  read_quantity (FunctionCode req) (Quantity req).
Proof.
  intros ([? Hs Hf Ha Hq ? ?] & Hv & Hr). destruct (valid_read_quantity req Hr Hv) as (H1 & H2 & H3).
  split; [exact (conj Hs (conj Hf (conj Ha (conj Hq H2))))|exact (conj Hr (conj H1 H3))].
Qed.

(** A write's range, in any of the tables. *)
Lemma write_request_range req fc :
  write_request req → is_u8 fc → valid_range (SlaveID req) fc (Address req) (Quantity req).
Proof.
  intros ([? Hs Hf Ha Hq ? ?] & Hv & Hw) Hfc. repeat split; try apply Hs; try apply Hfc; try apply Ha; try apply Hq.
  unfold valid_request, standard_function in Hv. rewrite Hw, orb_true_r in Hv. apply Hv.
Qed.

Lemma valid_element s f a q i :
  valid_range s f a q → 0 ≤ i < q → valid_range s f (a + i) 1.
Proof. unfold valid_range, is_u8, is_u16. intros. lia. Qed.

Lemma coalesce_key_inj gen req gen' req' :
  0 ≤ gen → 0 ≤ gen' → wf_request req → wf_request req' →
  coalesce_key gen req = coalesce_key gen' req' → gen = gen' ∧ same_range req req'.
Proof.
  unfold coalesce_key. intros ?? [? Hs Hf Ha Hq ? ?] [? Hs' Hf' Ha' Hq' ? ?] E.
  unfold is_u8, is_u16 in *.
  apply no_colon_split in E as [?%fmt_d_inj E]; auto with mb.
  apply RangeKey_inj in E as (?&?&?&?); [|lia..]. split; [done|by split_and!].
Qed.

Lemma published_mono tid key data g g' :
  guarantee tid g g' → published key data g → published key data g'.
Proof.
  intros Hg (req & gen & w & Hk & Hr & Hd & Hgen & Hw). exists req, gen, w.
  pose proof (gu_bumps _ _ _ Hg). split_and!; try done; try lia.
  intros cw Hcw Hle. destruct (gu_new_writes _ _ _ Hg cw Hcw); [auto|lia].
Qed.

(** ** The critical sections keep the cache coherent *)

Definition coherent (c : C) (ws : list write_record) (bound : nat) : Prop :=
  ∀ s f a e, valid_range s f a 1 → rs_entry c s f a = Some e →
    IsReadFunction f = true ∧ ∃ w, (w < bound)%nat ∧ fresh_value ws s f a (entry_Data e) w.

(** A range fetched by the [w]-th exchange, after all of [ws]. *)
Lemma coherent_store c ws bound req now data values w :
  coherent c ws bound → read_request req → device w req = inl data → (w < bound)%nat →
  decomposeResponse (FunctionCode req) (Quantity req) data = Ret (Some values) →
  (∀ cw, cw ∈ ws → (wr_wire cw < w)%nat) →
  coherent (rs_SetRange c now (SlaveID req) (FunctionCode req) (Address req) values) ws bound.
Proof.
  intros Hc Hr Hdev Hw Hdec Hafter s f a e Hva He.
  destruct (read_request_range req Hr) as [Hv Hq].
  assert (Hlen : len values = Quantity req).
  { rewrite (decompose_spec _ _ _ Hq) in Hdec. case_decide; simplify_eq.
    unfold len. rewrite length_fmap, length_seqZ. destruct Hq as (_ & ? & _). lia. }
  rewrite <- Hlen in Hv.
  destruct (decide (s = SlaveID req ∧ f = FunctionCode req ∧ in_range (Address req) (len values) a))
    as [(-> & -> & Ha)|Hout].
  - unfold in_range in Ha. set (i := Z.to_nat (a - Address req)).
    destruct (lookup_lt_is_Some_2 values i) as [v Hi]; [unfold len in *; lia|].
    replace a with (Address req + Z.of_nat i) in He by lia.
    rewrite (rs_SetRange_in _ _ _ _ _ _ _ _ Hv Hi) in He. simplify_eq. cbn.
    split; [by apply Hr|]. exists w. split; [done|]. split; [|by intros; apply Hafter].
    exists req, data, values, i. split_and!; try done. lia.
  - rewrite rs_SetRange_out in He by done. by apply Hc in He.
Qed.

Lemma readFuncs_u8 fc : fc ∈ readFuncs → is_u8 fc.
Proof.
  intros H1. unfold is_u8. unfold readFuncs in H1.
  repeat (apply elem_of_cons in H1 as [->|H1]; [done|]). by apply elem_of_nil in H1.
Qed.

(** Deleting one range in several tables. *)
Lemma delete_all_entry fcs c slave addr qty s f a :
  (∀ fc, fc ∈ fcs → valid_range slave fc addr qty) → valid_range s f a 1 →
  rs_entry (foldl (λ c fc, rs_DeleteRange c slave fc addr qty) c fcs) s f a =
    if decide (s = slave ∧ f ∈ fcs ∧ in_range addr qty a) then None else rs_entry c s f a.
Proof.
  intros Hv Hva. revert c. induction fcs as [|fc fcs IH]; intros c; cbn [foldl].
  { rewrite decide_False; [done|]. by intros (_ & ?%elem_of_nil & _). }
  rewrite IH by (intros; apply Hv; by right).
  assert (Hfc : valid_range slave fc addr qty) by (apply Hv; by left).
  destruct (decide (s = slave ∧ f ∈ fcs ∧ in_range addr qty a)) as [(-> & ? & ?)|N1].
  { rewrite decide_True; [done|]. split_and!; [done|by right|done..]. }
  destruct (decide (s = slave ∧ f = fc ∧ in_range addr qty a)) as [(-> & -> & ?)|N2].
  - rewrite rs_DeleteRange_in by done. rewrite decide_True; [done|]. split; [done|]. by split; [left|].
  - rewrite rs_DeleteRange_out by done. rewrite decide_False; [done|].
    intros (-> & [->|?]%elem_of_cons & ?); tauto.
Qed.

(** A write removes its range from all four tables. *)
Lemma invalidate_entry c req s f a :
  write_request req → IsReadFunction f = true → valid_range s f a 1 →
  rs_entry (invalidateCache req c) s f a =
    if decide (s = SlaveID req ∧ in_range (Address req) (Quantity req) a)
    then None else rs_entry c s f a.
Proof.
  intros Hr Hf Hva. assert (Hin : f ∈ readFuncs) by (by apply IsReadFunction_spec in Hf).
  unfold invalidateCache. rewrite delete_all_entry; [|intros fc Hfc|done].
  - apply decide_ext. split; [by intros (? & _ & ?)|by intros (? & ?)].
  - by apply write_request_range, readFuncs_u8.
Qed.

Lemma invalidate_none c req s f a :
  write_request req → rs_entry c s f a = None → valid_range s f a 1 →
  rs_entry (invalidateCache req c) s f a = None.
Proof.
  intros Hr Hn Hva. unfold invalidateCache.
  rewrite delete_all_entry; [by case_decide|intros fc Hfc|done].
  by apply write_request_range, readFuncs_u8.
Qed.

(** Invalidation keeps the cache coherent, also with the ended write. *)
Lemma coherent_invalidate c ws bound req cw :
  coherent c ws bound → write_request req →
  wr_slave cw = SlaveID req → wr_addr cw = Address req → wr_qty cw = Quantity req →
  coherent (invalidateCache req c) (cw :: ws) bound ∧ coherent (invalidateCache req c) ws bound.
Proof.
  intros Hc Hr Hs Ha Hq.
  assert (Hold : ∀ s f a e, valid_range s f a 1 → rs_entry (invalidateCache req c) s f a = Some e →
    rs_entry c s f a = Some e ∧ ¬ covers cw s a).
  { intros s f a e Hva He. destruct (rs_entry c s f a) as [e'|] eqn:He'.
    2: { by rewrite invalidate_none in He. }
    destruct (Hc _ _ _ _ Hva He') as [Hf _]. rewrite invalidate_entry, He' in He by done.
    case_decide as Hd; [done|]. simplify_eq. split; [done|].
    intros [E1 E2]. apply Hd. rewrite Ha, Hq in E2. split; [congruence|done]. }
  split; intros s f a e Hva He; destruct (Hold _ _ _ _ Hva He) as [He' Hn];
    destruct (Hc _ _ _ _ Hva He') as (Hf & w & Hw & Hp & Hfr); (split; [done|]);
    exists w; (split; [done|]); (split; [done|]); [|done].
  intros cw' [->|Hin]%elem_of_cons Hcov; [done|by apply Hfr].
Qed.

Lemma coherent_later c ws b b' : (b <= b')%nat → coherent c ws b → coherent c ws b'.
Proof.
  intros Hle Hc s f a e Hva He. destruct (Hc _ _ _ _ Hva He) as (? & w & ? & ?).
  split; [done|]. exists w. split; [lia|done].
Qed.

(** * Assertions of one goroutine *)

(** A read that saw [seen] ended and took generation [gen] when [t0] exchanges
    had happened: whatever ended by [gen] was on the wire before [t0]. *)
Record reading (seen : list write_record) (gen : Z) (t0 : nat) (g : Shared C) : Prop := {
  rd_seen cw : cw ∈ seen → cw ∈ writes g ∧ wr_gen cw ≤ gen;
  rd_gen : 0 ≤ gen ≤ bumps g;
  rd_wire : (t0 <= wire g)%nat;
  rd_writes cw : cw ∈ writes g → wr_gen cw ≤ gen → (wr_wire cw < t0)%nat;
}.

Lemma stable_reading tid seen gen t0 : stable tid (reading seen gen t0).
Proof.
  intros tid' g g' Hne Hg [Hs Hgen Hw Hws].
  pose proof (gu_bumps _ _ _ Hg). pose proof (gu_wire _ _ _ Hg). split; [|lia|lia|].
  - intros cw Hcw. destruct (Hs cw Hcw). split; [by apply (gu_writes _ _ _ Hg)|done].
  - intros cw Hcw Hle. destruct (gu_new_writes _ _ _ Hg cw Hcw); [auto|lia].
Qed.

Lemma reading_seen seen gen t0 g cw : reading seen gen t0 g → cw ∈ seen → (wr_wire cw < t0)%nat.
Proof. intros Hr Hcw. destruct (rd_seen _ _ _ _ Hr cw Hcw). by eapply rd_writes. Qed.

(** The goroutine is the leader of [id] and of nothing else that is open;
    [registered]: others can still join. *)
Record leading (tid id : nat) (key : string) (res : option (list Z * option error))
    (registered : bool) (g : Shared C) : Prop := {
  ld_obj : ∃ o, objs g !! id = Some o ∧ o_key o = key ∧ o_leader o = tid ∧
                o_done o = false ∧ o_result o = res;
  ld_registered : registered = true → inflight g !! key = Some id;
  ld_others id' o : id' ≠ id → objs g !! id' = Some o → o_leader o = tid → o_done o = true;
}.

Lemma stable_leading tid id key res b : stable tid (leading tid id key res b).
Proof.
  intros tid' g g' Hne Hg [(o & Ho & Hk & Hl & Hd & Hr) Hreg Hoth]. split.
  - destruct (gu_objs _ _ _ Hg _ _ Ho) as (o' & Ho' & Hk' & Hl' & Hsame).
    destruct Hsame as [Hd' Hr']; [right; congruence|]. exists o'. split_and!; congruence.
  - intros Hb. eapply (gu_inflight _ _ _ Hg); [by apply Hreg|done|congruence].
  - intros id' o' Hid Ho' Hl'. destruct (objs g !! id') as [o1|] eqn:Ho1.
    + destruct (gu_objs _ _ _ Hg _ _ Ho1) as (o2 & Ho2 & _ & Hl2 & Hsame). simplify_eq.
      destruct Hsame as [-> _]; [right; congruence|]. eapply Hoth; [done..|congruence].
    + pose proof (gu_new_objs _ _ _ Hg _ _ Ho' Ho1). congruence.
Qed.

(** * Rules for the actions *)

(** Altering a request without touching its leader or its closing. *)
Lemma leads_nothing_alter tid (g : Shared C) f id :
  (∀ o, o_leader (f o) = o_leader o ∧ o_done (f o) = o_done o) →
  leads_nothing tid g → leads_nothing tid (with_objs (alter f id (objs g)) g).
Proof.
  intros Hf Hln id' o' Ho'. cbn in Ho'. destruct (decide (id' = id)) as [->|].
  - rewrite lookup_alter_eq in Ho'. apply fmap_Some in Ho' as (o & Ho & ->).
    destruct (Hf o) as [-> ->]. by apply (Hln id).
  - rewrite lookup_alter_ne in Ho' by done. by apply (Hln id').
Qed.

(** A change of the in-flight table or its requests only. *)
Lemma Inv_tables g m os :
  Inv g →
  (∀ key id, m !! key = Some id → ∃ o, os !! id = Some o ∧ o_key o = key) →
  (∀ id o, os !! id = Some o → o_result o = None → m !! o_key o = Some id) →
  (∀ id o, os !! id = Some o → o_done o = true → is_Some (o_result o)) →
  (∀ id o data, os !! id = Some o → o_result o = Some (data, None) → published (o_key o) data g) →
  Inv (with_inflight m (with_objs os g)).
Proof. intros [] ? ? ? ?. by split. Qed.

(** [guarantee] when only the in-flight requests change. *)
Lemma guarantee_objs tid (g : Shared C) (f : inflightRequest → inflightRequest) id :
  (∀ o, o_key (f o) = o_key o ∧ o_leader (f o) = o_leader o) →
  (∀ o, objs g !! id = Some o → o_done o = true ∨ o_leader o ≠ tid →
     o_done (f o) = o_done o ∧ o_result (f o) = o_result o) →
  guarantee tid g (with_objs (alter f id (objs g)) g).
Proof.
  intros Hf Hsame. split; try done; [by left| |].
  - intros id' o Ho. cbn. destruct (decide (id' = id)) as [->|].
    + rewrite lookup_alter_eq, Ho. cbn. exists (f o). destruct (Hf o).
      split; [done|]. split; [done|]. split; [done|]. by apply (Hsame o).
    + rewrite lookup_alter_ne by done. by exists o.
  - intros id' o Ho Hno. exfalso. cbn in Ho. destruct (decide (id' = id)) as [->|].
    + by rewrite lookup_alter_eq, Hno in Ho.
    + by rewrite lookup_alter_ne, Hno in Ho by done.
Qed.

Lemma Inv_alter g f id :
  Inv g → (∀ o, o_key (f o) = o_key o ∧ (o_result (f o) = None → o_result o = None)) →
  (∀ o, objs g !! id = Some o → o_done (f o) = true → is_Some (o_result (f o))) →
  (∀ o data, objs g !! id = Some o → o_result (f o) = Some (data, None) →
     published (o_key o) data g) →
  Inv (with_objs (alter f id (objs g)) g).
Proof.
  intros Hi Hk Hd Hr. change (Inv (with_inflight (inflight g) (with_objs (alter f id (objs g)) g))).
  apply Inv_tables; [done|..].
  - intros key id' Hin. destruct (inv_inflight _ Hi _ _ Hin) as (o & Ho & Hok).
    destruct (decide (id' = id)) as [->|].
    + exists (f o). rewrite lookup_alter_eq, Ho. by destruct (Hk o) as [-> _].
    + exists o. by rewrite lookup_alter_ne.
  - intros id' o Ho Hn. destruct (decide (id' = id)) as [->|].
    + rewrite lookup_alter_eq in Ho. apply fmap_Some in Ho as (o1 & Ho1 & ->).
      destruct (Hk o1) as [Hk1 Hn1]. rewrite Hk1. by apply (inv_open _ Hi id o1); [|apply Hn1].
    + rewrite lookup_alter_ne in Ho by done. by apply (inv_open _ Hi id').
  - intros id' o Ho. destruct (decide (id' = id)) as [->|].
    + rewrite lookup_alter_eq in Ho. apply fmap_Some in Ho as (o1 & Ho1 & ->). by apply Hd.
    + rewrite lookup_alter_ne in Ho by done. by apply (inv_done _ Hi id').
  - intros id' o data Ho. destruct (decide (id' = id)) as [->|].
    + rewrite lookup_alter_eq in Ho. apply fmap_Some in Ho as (o1 & Ho1 & ->).
      destruct (Hk o1) as [-> _]. by apply Hr.
    + rewrite lookup_alter_ne in Ho by done. by apply (inv_result _ Hi id').
Qed.

(** [guarantee] when a new request is registered. *)
Lemma guarantee_register tid (g : Shared C) key id o :
  inflight g !! key = None → objs g !! id = None → o_leader o = tid →
  guarantee tid g (with_inflight (<[key := id]> (inflight g)) (with_objs (<[id := o]> (objs g)) g)).
Proof.
  intros Hkey Hfresh Hl. split; try done; cbn; [by left| | |].
  - intros id' o' Ho'. rewrite lookup_insert_ne; [by exists o'|]. intros ->. congruence.
  - intros id' o' Ho' Hno. destruct (decide (id' = id)) as [->|].
    + rewrite lookup_insert_eq in Ho'. by injection Ho' as <-.
    + rewrite lookup_insert_ne in Ho' by done. congruence.
  - intros key' id' o' Hin _ _. rewrite lookup_insert_ne; [done|]. intros ->. congruence.
Qed.

Lemma Inv_register tid g key id :
  Inv g → inflight g !! key = None → objs g !! id = None →
  Inv (with_inflight (<[key := id]> (inflight g)) (with_objs (<[id :=
    {| o_key := key; o_leader := tid; o_done := false; o_result := None; o_followers := 0 |}]>
    (objs g)) g)).
Proof.
  intros Hi Hkey Hfresh. apply Inv_tables; [done|..].
  - intros key' id' Hin. destruct (decide (key' = key)) as [->|].
    + rewrite lookup_insert_eq in Hin. injection Hin as <-. eexists. by rewrite lookup_insert_eq.
    + rewrite lookup_insert_ne in Hin by done.
      destruct (inv_inflight _ Hi _ _ Hin) as (o & Ho & Hok). exists o.
      rewrite lookup_insert_ne; [done|]. intros ->. congruence.
  - intros id' o Ho Hn. destruct (decide (id' = id)) as [->|].
    + rewrite lookup_insert_eq in Ho. injection Ho as <-. by rewrite lookup_insert_eq.
    + rewrite lookup_insert_ne in Ho by done. pose proof (inv_open _ Hi _ _ Ho Hn) as Hin.
      rewrite lookup_insert_ne; [done|]. intros E. congruence.
  - intros id' o Ho. destruct (decide (id' = id)) as [->|].
    + rewrite lookup_insert_eq in Ho. by injection Ho as <-.
    + rewrite lookup_insert_ne in Ho by done. by apply (inv_done _ Hi id').
  - intros id' o data Ho. destruct (decide (id' = id)) as [->|].
    + rewrite lookup_insert_eq in Ho. by injection Ho as <-.
    + rewrite lookup_insert_ne in Ho by done. by apply (inv_result _ Hi id').
Qed.

Section Rules.
Context (tid : nat) {A : Type}.
Implicit Types (L : Shared C → Prop) (Q : A → Shared C → Prop).

(** One exchange with the device: the answer and its number. *)
Lemma safe_exec req (k : outcome → prog A) L (L' : nat → Shared C → Prop) Q :
  (∀ w, stable tid (L' w)) →
  (∀ g, Inv g → L g → L' (wire g) (exchanged tid g)) →
  (∀ g, Inv g → L g → safe device Inv tid (k (device (wire g) req)) (L' (wire g)) Q) →
  safe device Inv tid (Act (Exec req) k) L Q.
Proof.
  intros Hst HL Hk. split; [done|]. intros g r g' Hi HLg [-> ->] _. split_and!.
  - destruct Hi as [? Hc Hw ? ? ? Hr]. split; try done.
    + intros s f a e Hva He. destruct (Hc _ _ _ _ Hva He) as (? & w & ? & ?).
      split; [done|]. exists w. cbn. split; [lia|done].
    + intros cw Hcw. destruct (Hw cw Hcw). cbn. split; [done|lia].
  - split; try done; cbn; [lia|by left| |congruence|].
    + intros id o Ho. by exists o.
    + intros tid' Hne. by rewrite lookup_insert_ne.
  - exists (L' (wire g)). split_and!; auto.
Qed.

(** A query with what its answer says. *)
Lemma safe_answer {R} (op : Op R) (k : R → prog A) L (L' : R → Shared C → Prop) Q :
  (∀ g, Inv g → L g → op_pre tid op g) →
  (∀ g r g', op_step device tid op g r g' → g' = g) →
  (∀ r, stable tid (L' r)) →
  (∀ g r, Inv g → L g → op_step device tid op g r g → L' r g) →
  (∀ g r, Inv g → L g → op_step device tid op g r g → safe device Inv tid (k r) (L' r) Q) →
  safe device Inv tid (Act op k) L Q.
Proof.
  intros Hpre Hq Hst HL Hk. split; [done|]. intros g r g' Hi HLg Hop _.
  pose proof (Hq _ _ _ Hop) as ->. split_and!; [done|apply guarantee_refl|].
  exists (L' r). split_and!; eauto.
Qed.

(** Storing a fetched range. *)
Lemma safe_store gen req values data w seen t0 (k : () → prog A) L Q :
  stable tid L →
  (∀ g, L g → reading seen gen t0 g ∧ (w < wire g)%nat) → (∀ p g, L g → L (with_px p g)) →
  (t0 <= w)%nat → read_request req → device w req = inl data →
  decomposeResponse (FunctionCode req) (Quantity req) data = Ret (Some values) →
  safe device Inv tid (k ()) L Q →
  safe device Inv tid (Act (Store gen req values) k) L Q.
Proof.
  intros Hst HL Hpx Ht0 Hreq Hdev Hdec Hk. split; [done|]. intros g [] g' Hi HLg [now ->] _.
  destruct (HL g HLg) as [Hrd Hw]. destruct (inv_generation _ Hi) as [Hgen Hpos].
  set (p' := store_section gen now req values (px g)).
  assert (Hsame : guarantee tid g (with_px p' g)).
  { split; try done; [by left| |cbn; congruence]. intros id o Ho. by exists o. }
  assert (Hcoh : coherent (cache p') (writes g) (wire g) ∧ writeGeneration p' = writeGeneration (px g)).
  { subst p'. unfold store_section. case_decide as Heq; cbn; (split; [|done]); [|exact (inv_cache _ Hi)].
    apply (coherent_store _ _ _ req now data values w); try done; [exact (inv_cache _ Hi)|].
    intros cw Hcw. destruct (inv_writes _ Hi cw Hcw).
    enough (wr_wire cw < t0)%nat by lia. eapply (rd_writes _ _ _ _ Hrd); [done|lia]. }
  destruct Hcoh as [Hcoh Hg]. split_and!; [|done|].
  - destruct Hi. split; try done; cbn. by rewrite Hg.
  - exists L. split_and!; [done|by apply Hpx|done].
Qed.

(** The section before or after a forwarded write.  After it, the write is one
    that has ended, and nothing of its range is left in the cache. *)
Lemma safe_invalidate final req (k : () → prog A) L L' Q :
  stable tid L' → write_request req →
  (∀ g, Inv g → L g → (final = true → (default 0 (last_wire g !! tid) < wire g)%nat)) →
  (∀ g g', L g → objs g' = objs g → L' g') →
  safe device Inv tid (k ()) L' Q →
  safe device Inv tid (Act (Invalidate final req) k) L Q.
Proof.
  intros Hst Hreq HL HLL Hk. split; [done|]. intros g [] g' Hi HLg Hop Hwrap. cbn in Hop. subst g'.
  destruct (inv_generation _ Hi) as [Hgen Hpos]. unfold no_wrap in Hwrap. cbn in Hwrap.
  destruct (coherent_invalidate (cache (px g)) (writes g) (wire g) req (ended_write tid req g))
    as [Hcoh1 Hcoh0]; [exact (inv_cache _ Hi)|done..|].
  specialize (HL g Hi HLg). split_and!.
  - destruct Hi as [_ _ Hws Hin Hop Hd Hr]. split; cbn.
    + rewrite Hgen. unfold u64. rewrite Z.mod_small by lia. lia.
    + destruct final; [exact Hcoh1|exact Hcoh0].
    + assert (∀ cw, cw ∈ writes g → wr_gen cw ≤ bumps g + 1 ∧ (wr_wire cw < wire g)%nat) as Hold.
      { intros cw Hcw. destruct (Hws cw Hcw). lia. }
      destruct final; [|exact Hold]. intros cw [->|Hcw]%elem_of_cons; [|by apply Hold].
      cbn. split; [lia|]. by apply HL.
    + done.
    + done.
    + done.
    + intros id o data Ho Hres. destruct (Hr _ _ _ Ho Hres) as (r' & gen & w & ? & ? & ? & ? & Hw).
      exists r', gen, w. cbn. split_and!; try done; try lia.
      destruct final; [|done]. intros cw [->|Hcw]%elem_of_cons; [cbn; lia|by apply Hw].
  - split; try done; cbn; [lia| | | |congruence].
    + destruct final; [by apply list_subseteq_cons|done].
    + intros cw Hcw. destruct final; [|by left].
      apply elem_of_cons in Hcw as [->|]; [right; cbn; lia|by left].
    + intros id o Ho. by exists o.
  - exists L'. split; [exact Hst|]. split; [|exact Hk]. apply (HLL g); [exact HLg|reflexivity].
Qed.

(** ** The in-flight table *)

(** Independent of the in-flight table and its requests. *)
Definition table_free (P : Shared C → Prop) : Prop :=
  ∀ g m os, P g → P (with_inflight m (with_objs os g)).

Definition known (id : nat) (key : string) (g : Shared C) : Prop :=
  ∃ o, objs g !! id = Some o ∧ o_key o = key.

Lemma stable_known id key : stable tid (known id key).
Proof.
  intros tid' g g' Hne Hg (o & Ho & Hk).
  destruct (gu_objs _ _ _ Hg _ _ Ho) as (o' & Ho' & Hk' & _). exists o'. split; [done|congruence].
Qed.

Lemma stable_published key data : stable tid (published key data).
Proof. intros tid' g g' _ Hg. by eapply published_mono. Qed.

(** Joining or registering. *)
Lemma safe_inflight key (k : nat * bool → prog A) (P : Shared C → Prop) Q :
  stable tid P → table_free P →
  (∀ id, safe device Inv tid (k (id, true)) (λ g, (P g ∧ leads_nothing tid g) ∧ known id key g) Q) →
  (∀ id, safe device Inv tid (k (id, false)) (λ g, P g ∧ leading tid id key None true g) Q) →
  safe device Inv tid (Act (Inflight key) k) (λ g, P g ∧ leads_nothing tid g) Q.
Proof.
  intros Hst Hfree Hjoin Hlead. split; [done|]. intros g r g' Hi [HP Hln] Hop _. cbn in Hop.
  destruct (inflight g !! key) as [id|] eqn:Hkey.
  - destruct Hop as [-> ->]. destruct (inv_inflight _ Hi _ _ Hkey) as (o & Ho & Hok). split_and!.
    + apply Inv_alter; [done|done|intros o1 ??; by apply (inv_done _ Hi id o1)|].
      intros o1 data ??. by apply (inv_result _ Hi id).
    + by apply guarantee_objs.
    + eexists. split; [|split; [|exact (Hjoin id)]].
      { apply stable_and; [apply stable_and; [done|apply stable_leads_nothing]|apply stable_known]. }
      split; [split; [exact (Hfree g (inflight g) _ HP)|]|].
      * by apply leads_nothing_alter.
      * exists (add_follower o). cbn. by rewrite lookup_alter_eq, Ho.
  - destruct Hop as (id & Hfresh & -> & ->). split_and!.
    + by apply Inv_register.
    + by apply guarantee_register.
    + eexists. split; [|split; [|exact (Hlead id)]].
      { by apply stable_and; [|apply stable_leading]. }
      split; [by apply Hfree|]. split; cbn.
      * eexists. by rewrite lookup_insert_eq.
      * intros _. by rewrite lookup_insert_eq.
      * intros id' o Hid Ho. rewrite lookup_insert_ne in Ho by done. by apply (Hln id').
Qed.

(** What the leader does to its request while it is open. *)
Lemma leading_alter id key res b f (g : Shared C) :
  leading tid id key res b g →
  (∀ o, o_key (f o) = o_key o ∧ o_leader (f o) = o_leader o) →
  guarantee tid g (with_objs (alter f id (objs g)) g).
Proof.
  intros [(o & Ho & _ & Hl & Hd & _) _ _] Hf. apply guarantee_objs; [done|].
  intros o' Ho' Hor. simplify_eq. destruct Hor; congruence.
Qed.

Lemma safe_set_result id key data err (k : () → prog A) (P : Shared C → Prop) Q :
  stable tid P → table_free P →
  (∀ g, Inv g → P g → err = None → published key data g) →
  safe device Inv tid (k ()) (λ g, P g ∧ leading tid id key (Some (data, err)) true g) Q →
  safe device Inv tid (Act (SetResult id data err) k) (λ g, P g ∧ leading tid id key None true g) Q.
Proof.
  intros Hst Hfree Hpub Hk. split; [done|]. intros g [] g' Hi [HP Hld] Hop _. cbn in Hop. subst g'.
  pose proof Hld as [(o & Ho & Hok & Hl & Hd & Hr) Hreg Hoth]. split_and!.
  - apply Inv_alter; [done|done|by eauto|]. intros o' data' Ho' Hres. simplify_eq. cbn in Hres.
    injection Hres as <- ->. by apply Hpub.
  - by eapply leading_alter.
  - eexists. split; [|split; [|exact Hk]].
    { by apply stable_and; [|apply stable_leading]. }
    split; [exact (Hfree g (inflight g) _ HP)|]. split; cbn; [|done|].
    + exists (set_result data err o). by rewrite lookup_alter_eq, Ho.
    + intros id' o' Hid Ho'. rewrite lookup_alter_ne in Ho' by done. by eapply Hoth.
Qed.

Lemma safe_forget id key x (k : () → prog A) (P : Shared C → Prop) Q :
  stable tid P → table_free P →
  safe device Inv tid (k ()) (λ g, P g ∧ leading tid id key (Some x) false g) Q →
  safe device Inv tid (Act (Forget key) k) (λ g, P g ∧ leading tid id key (Some x) true g) Q.
Proof.
  intros Hst Hfree Hk. split; [done|]. intros g [] g' Hi [HP Hld] Hop _. cbn in Hop. subst g'.
  pose proof Hld as [(o & Ho & Hok & Hl & Hd & Hr) Hreg Hoth]. split_and!.
  - change (Inv (with_inflight (delete key (inflight g)) (with_objs (objs g) g))).
    apply Inv_tables; [done| | |exact (inv_done _ Hi)|exact (inv_result _ Hi)].
    + intros key' id' Hin. apply lookup_delete_Some in Hin as [_ Hin]. by apply (inv_inflight _ Hi).
    + intros id' o' Ho' Hn. pose proof (inv_open _ Hi _ _ Ho' Hn) as Hin.
      rewrite lookup_delete_ne; [done|]. intros E. rewrite <- E, (Hreg eq_refl) in Hin. congruence.
  - split; try done; cbn; [by left| |congruence|].
    + intros id' o' Ho'. by exists o'.
    + intros key' id' o' Hin Ho' Hne. rewrite lookup_delete_ne; [done|]. intros <-.
      rewrite (Hreg eq_refl) in Hin. congruence.
  - eexists. split; [|split; [|exact Hk]].
    { by apply stable_and; [|apply stable_leading]. }
    split; [exact (Hfree g _ (objs g) HP)|]. split; cbn; [by exists o|done|done].
Qed.

Lemma safe_close id key x (k : () → prog A) (P : Shared C → Prop) Q :
  stable tid P → table_free P →
  safe device Inv tid (k ()) (λ g, P g ∧ leads_nothing tid g) Q →
  safe device Inv tid (Act (CloseDone id) k) (λ g, P g ∧ leading tid id key (Some x) false g) Q.
Proof.
  intros Hst Hfree Hk. split.
  { intros g _ [_ [(o & Ho & _ & _ & Hd & _) _ _]]. by exists o. }
  intros g [] g' Hi [HP Hld] Hop _. cbn in Hop. subst g'.
  pose proof Hld as [(o & Ho & Hok & Hl & Hd & Hr) Hreg Hoth]. split_and!.
  - apply Inv_alter; [done|done|intros; simplify_eq; cbn; by rewrite Hr|].
    intros o' data' Ho' Hres. by eapply (inv_result _ Hi id).
  - by eapply leading_alter.
  - eexists. split; [|split; [|exact Hk]].
    { by apply stable_and; [|apply stable_leads_nothing]. }
    split; [exact (Hfree g (inflight g) _ HP)|]. intros id' o' Ho' Hl'. cbn in Ho'.
    destruct (decide (id' = id)) as [->|].
    + rewrite lookup_alter_eq, Ho in Ho'. by injection Ho' as <-.
    + rewrite lookup_alter_ne in Ho' by done. by eapply Hoth.
Qed.

(** Waiting for the leader: a result without an error was published. *)
Lemma safe_await id key (k : option (list Z * option error) → prog A) (P : Shared C → Prop) Q :
  stable tid P →
  (∀ r, safe device Inv tid (k r) (λ g, (P g ∧ leads_nothing tid g) ∧
     ∀ data, r = Some (data, None) → published key data g) Q) →
  safe device Inv tid (Act (Await id) k) (λ g, (P g ∧ leads_nothing tid g) ∧ known id key g) Q.
Proof.
  intros Hst Hk. eapply safe_answer; [| | | |intros; apply Hk].
  - intros g _ [[_ Hln] (o & Ho & _)]. by split; [exists o|].
  - by intros g r g' [-> _].
  - intros r. apply stable_and; [apply stable_and; [done|apply stable_leads_nothing]|].
    intros tid' g g' Hne Hg Hpub data Hr. eapply published_mono; [done|by apply Hpub].
  - intros g r Hi [HL (o & Ho & Hok)] [_ Hr]. split; [done|]. intros data ->.
    destruct Hr as [?|(o' & Ho' & Hd & Hr)]; [done|]. simplify_eq.
    destruct (inv_done _ Hi id _ Ho Hd) as [[d e] Hres]. rewrite Hres in Hr. cbn in Hr. simplify_eq.
    by apply (inv_result _ Hi id).
Qed.

End Rules.

(** * The handlers *)

Section Handlers.
Context (tid : nat) (seen : list write_record).

(** What a finished handler leaves: no open request, and a fresh answer. *)
Definition post (req : Request) (r : outcome) (g : Shared C) : Prop :=
  leads_nothing tid g ∧
  (read_request req → ∀ resp, r = inl resp → fresh_response seen req resp).

Lemma safe_act {R A} (op : Op R) (k : R → prog A) L Q :
  safe device Inv tid (Act op k) L Q → safe device Inv tid (act op ≫= k) L Q.
Proof. done. Qed.

(** Context and clock queries and log lines keep any stable assertion. *)
Definition is_query {R} (op : Op R) : bool :=
  match op with CtxErr | CtxDeadline | TimeNow | Log _ => true | _ => false end.

Lemma safe_ask {R A} (op : Op R) (k : R → prog A) L Q :
  is_query op = true → stable tid L → (∀ r, safe device Inv tid (k r) L Q) →
  safe device Inv tid (act op ≫= k) L Q.
Proof.
  intros Hop Hst Hk. apply safe_act, safe_query; [| |done|done].
  - by destruct op.
  - by destruct op.
Qed.

Lemma log_success_safe req c L :
  stable tid L → safe device Inv tid (log_success req c) L (λ _, L).
Proof.
  intros Hst. assert (Hd : ∀ u : (), safe device Inv tid (Done u) L (λ _, L)) by (intros; by apply safe_done).
  unfold log_success. destruct (Coalesced c); [by apply (safe_ask (Log _) Done)|].
  destruct (Waited c); [by apply (safe_ask (Log _) Done)|done].
Qed.

Lemma log_failure_safe req c e b L :
  stable tid L → safe device Inv tid (log_failure req c e b) L (λ _, L).
Proof.
  intros Hst. assert (Hd : ∀ u : (), safe device Inv tid (Done u) L (λ _, L)) by (intros; by apply safe_done).
  unfold log_failure. destruct (Coalesced c); [by apply (safe_ask (Log _) Done)|].
  destruct (Waited c); [by apply (safe_ask (Log _) Done)|done].
Qed.

(** ** Cached values *)

Definition cached_ok (req : Request) (values : list (list Z)) : Prop :=
  len values = Quantity req ∧
  ∀ i v, values !! i = Some v → ∃ w,
    fresh_value seen (SlaveID req) (FunctionCode req) (Address req + Z.of_nat i) v w.

Lemma entry_fresh g req i e :
  Inv g → seen ⊆ writes g → read_request req → Z.of_nat i < Quantity req →
  rs_entry (cache (px g)) (SlaveID req) (FunctionCode req) (Address req + Z.of_nat i) = Some e →
  ∃ w, fresh_value seen (SlaveID req) (FunctionCode req) (Address req + Z.of_nat i) (entry_Data e) w.
Proof.
  intros Hi Hseen Hr Hlt He. destruct (read_request_range req Hr) as [Hv _].
  destruct (inv_cache _ Hi _ _ _ _ (valid_element _ _ _ _ (Z.of_nat i) Hv ltac:(lia)) He)
    as (_ & w & _ & Hp & Hw).
  exists w. split; [done|]. auto.
Qed.

Lemma lookup_ok g req now values :
  Inv g → seen ⊆ writes g → read_request req →
  lookup_section now req (px g) = inl values → cached_ok req values.
Proof.
  intros Hi Hseen Hr Hl. destruct (read_request_range req Hr) as [Hv _]. unfold lookup_section in Hl.
  destruct (rs_GetRange _ _ _ _ _ _) as [vs|] eqn:Hg; [|done]. injection Hl as ->.
  pose proof (GetRange_length _ _ _ _ _ _ _ Hv Hg) as Hlen. split; [done|]. intros i v Hiv.
  destruct (GetRange_lookup _ _ _ _ _ _ _ _ _ Hv Hg Hiv) as (e & He & _ & ->).
  apply (entry_fresh g); try done. apply lookup_lt_Some in Hiv. unfold len in Hlen. lia.
Qed.

Lemma stale_ok g req values :
  Inv g → seen ⊆ writes g → read_request req →
  stale_section req (px g) = Some values → cached_ok req values.
Proof.
  intros Hi Hseen Hr Hg. destruct (read_request_range req Hr) as [Hv _]. unfold stale_section in Hg.
  pose proof (GetRangeStale_length _ _ _ _ _ _ Hv Hg) as Hlen. split; [done|]. intros i v Hiv.
  destruct (GetRangeStale_lookup _ _ _ _ _ _ _ _ Hv Hg Hiv) as (e & He & ->).
  apply (entry_fresh g); try done. apply lookup_lt_Some in Hiv. unfold len in Hlen. lia.
Qed.

Lemma respond_safe req values :
  read_request req → cached_ok req values →
  safe device Inv tid (respond req values) (leads_nothing tid) (post req).
Proof.
  intros Hr [Hlen Hv]. destruct (read_request_range req Hr) as [_ Hq].
  destruct (assemble_total _ _ _ Hq Hlen) as [resp Hresp]. unfold respond. rewrite Hresp.
  apply safe_done. intros g _ Hln. split; [done|]. intros _ resp' [= <-]. right. by exists values.
Qed.

(** ** The fetch *)

Definition fetched (req : Request) (t0 : nat) (data : list Z) : Prop :=
  ∃ w, (t0 <= w)%nat ∧ device w req = inl data.

Lemma fetch_safe req gen t0 id key :
  read_request req →
  safe device Inv tid (fetch gen req)
    (λ g, reading seen gen t0 g ∧ leading tid id key None true g)
    (λ r g, (reading seen gen t0 g ∧ leading tid id key None true g) ∧
            ∀ data, r = inl data → fetched req t0 data).
Proof.
  intros Hr. set (P g := reading seen gen t0 g ∧ leading tid id key None true g).
  assert (HP : stable tid P) by (apply stable_and; [apply stable_reading|apply stable_leading]).
  unfold fetch. apply safe_act, (safe_exec tid req _ _ (λ w g, P g ∧ (w < wire g)%nat)).
  - intros w. apply stable_and; [done|].
    intros tid' g g' _ Hg Hlt. pose proof (gu_wire _ _ _ Hg). lia.
  - intros g Hi [[Hs Hg Hw Hws] [Ho Hreg Hoth]]. cbn. split; [|lia].
    split; split; try done; cbn; lia.
  - intros g _ [Hrd _]. pose proof (rd_wire _ _ _ _ Hrd) as Ht0.
    generalize dependent (wire g). intros w Ht0. clear g Hrd.
    destruct (device w req) as [data|e] eqn:Hdev; [|apply safe_done; by intros g _ [? _]].
    destruct (read_request_range req Hr) as [_ Hq].
    destruct (decomposeResponse (FunctionCode req) (Quantity req) data) as [values|] eqn:Hdec.
    2: { by rewrite (decompose_spec _ _ _ Hq) in Hdec. }
    assert (Hfin : ∀ g, Inv g → P g ∧ (w < wire g)%nat →
      P g ∧ ∀ data', @inl (list Z) error data = inl data' → fetched req t0 data').
    { intros g _ [? _]. split; [done|]. intros data' [= <-]. by exists w. }
    cbn [lift_go]. destruct values as [values|]; [|by apply safe_done].
    apply safe_act. eapply (safe_store tid gen req values data w seen t0); try done.
    + apply stable_and; [done|]. intros tid' g g' _ Hg Hlt. pose proof (gu_wire _ _ _ Hg). lia.
    + by intros g [[? _] ?].
    + intros p g [[[] []] ?]. split; [|done]. by split; split.
Qed.

(** ** Coalescing *)

Section Coalesce.
Context (req : Request) (gen : Z) (t0 : nat) (Hr : read_request req).

Definition idle (g : Shared C) : Prop := reading seen gen t0 g ∧ leads_nothing tid g.
Definition settled (r : outcome * CoalesceResult) (g : Shared C) : Prop :=
  idle g ∧ ∀ data, fst r = inl data → fresh_fetch seen req data.
Definition body_post (r : loop_state + outcome * CoalesceResult) (g : Shared C) : Prop :=
  match r with inl _ => idle g | inr r => settled r g end.

Lemma stable_idle : stable tid idle.
Proof. apply stable_and; [apply stable_reading|apply stable_leads_nothing]. Qed.

Lemma stable_settled r : stable tid (settled r).
Proof. apply stable_and; [apply stable_idle|apply stable_pure]. Qed.

Lemma table_free_reading : table_free (reading seen gen t0).
Proof. intros g m os []. by split. Qed.

Lemma leave_error e c w t L :
  (∀ g, Inv g → L g → idle g) → safe device Inv tid (leave (inr e) c w t) L body_post.
Proof. intros HL. apply safe_done. intros g Hi HLg. split; [by apply HL|done]. Qed.

Lemma published_fresh data g :
  idle g → published (coalesce_key gen req) data g → fresh_fetch seen req data.
Proof.
  intros [Hrd _] (req' & gen' & w & Hk & Hr' & Hdev & Hgen & Hw).
  pose proof (rd_gen _ _ _ _ Hrd).
  destruct (coalesce_key_inj gen req gen' req') as [<- Hsame]; [lia|lia|apply Hr|apply Hr'|done|].
  exists w, req'. destruct Hsame as (? & ? & ? & ?). split_and!; [done..|].
  intros cw Hcw. destruct (rd_seen _ _ _ _ Hrd cw Hcw). by apply Hw.
Qed.

Lemma follow_safe id tw :
  safe device Inv tid (follow id tw) (λ g, idle g ∧ known id (coalesce_key gen req) g) body_post.
Proof.
  set (P := λ g, idle g ∧ known id (coalesce_key gen req) g).
  assert (HP : stable tid P) by (apply stable_and; [apply stable_idle|apply stable_known]).
  unfold follow. apply safe_ask; [done..|]. intros start. apply safe_ask; [done..|]. intros [e|].
  { apply safe_ask; [done..|]. intros t. by apply leave_error; intros g _ [? _]. }
  apply safe_act, (safe_await tid id (coalesce_key gen req) _ (reading seen gen t0)); [apply stable_reading|].
  intros done_. set (P' := λ g, idle g ∧ ∀ data, done_ = Some (data, None) →
    published (coalesce_key gen req) data g).
  assert (HP' : stable tid P').
  { apply stable_and; [apply stable_idle|]. intros tid' g g' _ Hg Hpub data Hd.
    eapply published_mono; [done|by apply Hpub]. }
  apply safe_ask; [done..|]. intros t. apply safe_ask; [done..|]. intros err.
  destruct done_ as [[result [e|]]|]; destruct err as [e'|];
    try by apply leave_error; intros g _ [? _].
  - case_match; [|by apply leave_error; intros g _ [? _]]. by apply safe_done; intros g _ [? _].
  - apply safe_done. intros g Hi [Hid Hpub]. split; [done|]. intros data [= <-].
    eapply published_fresh; [done|by apply Hpub].
Qed.

Lemma lead_safe id tw waited :
  safe device Inv tid (lead (coalesce_key gen req) (fetch gen req) id tw waited)
    (λ g, reading seen gen t0 g ∧ leading tid id (coalesce_key gen req) None true g) body_post.
Proof.
  unfold lead. eapply safe_bind; [by apply fetch_safe|]. intros r. cbn beta.
  set (P := λ g, (reading seen gen t0 g ∧ leading tid id (coalesce_key gen req) None true g) ∧
    ∀ data, r = inl data → fetched req t0 data).
  assert (HP : stable tid P).
  { apply stable_and; [apply stable_and; [apply stable_reading|apply stable_leading]|apply stable_pure]. }
  eapply (safe_bind _ _ _ _ _ _ (λ err g, P g ∧ (err = None → ∃ data, r = inl data))).
  { destruct r as [data|e].
    - apply (safe_ask CtxErr Done); [done..|]. intros err. apply safe_done. eauto.
    - by apply safe_done. }
  intros err. set (data := match r with inl data => data | inr _ => [] end).
  apply safe_act. eapply (safe_weaken _ _ _ _ (λ g, (reading seen gen t0 g ∧ (err = None → fetched req t0 data))
    ∧ leading tid id (coalesce_key gen req) None true g)).
  { intros g _ [[[? ?] Hf] Hn]. split; [|done]. split; [done|]. intros He.
    destruct (Hn He) as [d ->]. by apply Hf. }
  assert (Hst : stable tid (λ g, reading seen gen t0 g ∧ (err = None → fetched req t0 data))).
  { apply stable_and; [apply stable_reading|apply stable_pure]. }
  assert (Hfree : table_free (λ g, reading seen gen t0 g ∧ (err = None → fetched req t0 data))).
  { intros g m os [? ?]. split; [by apply table_free_reading|done]. }
  apply safe_set_result; [done..| |].
  { intros g Hi [Hrd Hf] He. destruct (Hf He) as (w & Hw & Hdev). exists req, gen, w.
    split_and!; try done; try apply Hrd. intros cw Hcw Hle.
    pose proof (rd_writes _ _ _ _ Hrd cw Hcw Hle). lia. }
  apply safe_act, safe_forget; [done..|]. apply safe_act, safe_close; [done..|].
  destruct err as [e|]; [by apply leave_error; intros g _ [[? _] ?]|].
  apply safe_done. intros g Hi [[Hrd Hf] Hln]. split; [done|]. intros d [= <-].
  destruct (Hf eq_refl) as (w & Hw & Hdev). exists w, req. split_and!; try done.
  intros cw Hcw. pose proof (reading_seen _ _ _ _ _ Hrd Hcw). lia.
Qed.

Lemma coalesce_body_safe s :
  safe device Inv tid (coalesce_body (coalesce_key gen req) (fetch gen req) s) idle body_post.
Proof.
  destruct s as [tw waited]. unfold coalesce_body. apply safe_ask; [done|apply stable_idle|].
  intros [e|]; [by apply leave_error|].
  apply safe_act, safe_inflight; [apply stable_reading|apply table_free_reading| |].
  - intros id. apply follow_safe.
  - intros id. apply lead_safe.
Qed.

Lemma CoalesceWithStatus_safe :
  safe device Inv tid (CoalesceWithStatus (coalesce_key gen req) (fetch gen req)) idle settled.
Proof.
  exists (λ _, idle), settled. split_and!; [intros; apply stable_idle|apply stable_settled|done| |].
  - intros s. apply coalesce_body_safe.
  - intros b. by apply safe_done.
Qed.

End Coalesce.

(** ** Requests *)

(** How a goroutine starts: it has seen [seen] end and leads nothing. *)
Definition started (g : Shared C) : Prop := seen ⊆ writes g ∧ leads_nothing tid g.

Lemma stable_started : stable tid started.
Proof.
  apply stable_and; [|apply stable_leads_nothing].
  intros tid' g g' _ Hg Hs. pose proof (gu_writes _ _ _ Hg). set_solver.
Qed.

Lemma requestContextActive_safe L :
  stable tid L → safe device Inv tid requestContextActive L (λ _, L).
Proof.
  intros Hst. unfold requestContextActive. apply safe_ask; [done..|]. intros [e|]; [by apply safe_done|].
  apply safe_ask; [done..|]. intros [d|]; [|by apply safe_done].
  apply safe_ask; [done..|]. intros t. by apply safe_done.
Qed.

(** The first section: a hit, or the generation with all that ended by it. *)
Lemma safe_lookup req (k : list (list Z) + Z → prog outcome) Q :
  read_request req →
  (∀ values, cached_ok req values → safe device Inv tid (k (inl values)) started Q) →
  (∀ gen t0, safe device Inv tid (k (inr gen)) (λ g, started g ∧ idle gen t0 g) Q) →
  safe device Inv tid (Act (Lookup req) k) started Q.
Proof.
  intros Hr Hhit Hmiss. split; [done|]. intros g0 r g' Hi [Hseen Hln] [-> [now Hres]] _.
  split; [done|]. split; [apply guarantee_refl|]. destruct (inv_generation _ Hi) as [Hgen Hpos].
  destruct r as [values|gen].
  - exists started. split; [apply stable_started|split; [done|]]. apply Hhit. by eapply lookup_ok.
  - exists (λ g, started g ∧ idle gen (wire g0) g).
    split; [apply stable_and; [apply stable_started|apply stable_idle]|]. split; [|apply Hmiss].
    unfold lookup_section in Hres. destruct (rs_GetRange _ _ _ _ _ _); [done|].
    injection Hres as ->. rewrite Hgen. split; [done|]. split; [|done]. split; [|lia|lia|].
    + intros cw Hcw. assert (cw ∈ writes g0) by (by apply Hseen).
      split; [done|]. by apply (inv_writes _ Hi).
    + intros cw Hcw _. by apply (inv_writes _ Hi).
Qed.

(** The stale section of a failed read, or nothing. *)
Lemma stale_safe req gen t0 active (k : option (list (list Z)) → prog outcome) Q :
  read_request req →
  (∀ values, cached_ok req values → safe device Inv tid (k (Some values)) (leads_nothing tid) Q) →
  safe device Inv tid (k None) (leads_nothing tid) Q →
  safe device Inv tid ((if active : bool then act (Stale req) else Done None) ≫= k) (idle gen t0) Q.
Proof.
  intros Hr Hsome Hnone. destruct active.
  2: { eapply safe_weaken; [|exact Hnone]. by intros g _ [_ ?]. }
  apply safe_act, (safe_answer tid (Stale req) _ _ (λ _, leads_nothing tid)); [done|by intros ??? [-> _]| | |].
  - intros r. apply stable_leads_nothing.
  - by intros g r _ [_ Hln] _.
  - intros g r Hi [Hrd _] [_ ->]. destruct (stale_section req (px g)) as [values|] eqn:Hs; [|done].
    apply Hsome, (stale_ok g); try done. intros cw Hcw. by apply (rd_seen _ _ _ _ Hrd).
Qed.

Lemma handleRead_safe req :
  read_request req → safe device Inv tid (handleRead cfg req) started (post req).
Proof.
  intros Hr. pose proof (@stable_leads_nothing C tid) as Hst. unfold handleRead. apply safe_act, safe_lookup; [done| |].
  { intros values Hv. apply safe_ask; [done|apply stable_started|]. intros _.
    eapply safe_weaken; [|by apply respond_safe]. by intros g _ [_ ?]. }
  intros gen t0. apply (safe_weaken _ _ _ _ (idle gen t0)); [by intros g _ [_ ?]|].
  apply safe_ask; [done|apply stable_idle|]. intros _.
  eapply safe_bind; [by apply CoalesceWithStatus_safe|].
  intros [r cres]. destruct r as [data|err].
  { eapply safe_bind; [apply log_success_safe, stable_settled|]. intros [].
    apply safe_done. intros g _ [[_ Hln] Hf]. split; [done|]. intros _ resp [= <-]. left. by apply Hf. }
  apply (safe_weaken _ _ _ _ (idle gen t0)); [by intros g _ [? _]|].
  eapply (safe_bind _ _ _ _ _ _ (λ _, idle gen t0)).
  { destruct (_ && _); [|by apply safe_done]. apply requestContextActive_safe, stable_idle. }
  intros active. apply stale_safe; [done| |].
  - intros values Hv. eapply safe_bind; [by apply log_failure_safe|]. intros [].
    apply safe_ask; [done..|]. intros _. by apply respond_safe.
  - eapply safe_bind; [by apply log_failure_safe|]. intros [].
    apply safe_done. intros g _ Hln. by split.
Qed.

(** A forwarded write is bracketed by two invalidations. *)
Lemma handleWrite_safe req :
  write_request req → safe device Inv tid (handleWrite cfg req) started (post req).
Proof.
  intros Hr. assert (Hnot : ¬ read_request req).
  { intros (_ & _ & Hread). destruct Hr as (_ & _ & Hw). rewrite read_not_write in Hw; done. }
  assert (Hnow : ∀ r, safe device Inv tid (Done r) started (post req)).
  { intros r. apply safe_done. by intros g _ [_ ?]. }
  assert (Hlog : ∀ l r, safe device Inv tid (act (Log l) ≫= λ _, Done r) started (post req)).
  { intros l r. apply safe_ask; [done|apply stable_started|done]. }
  unfold handleWrite. case_decide; [apply Hlog|]. case_decide; [apply Hlog|]. case_decide; [|done].
  apply safe_act, (safe_invalidate tid false req _ _ (leads_nothing tid)); [apply stable_leads_nothing|done|done| |].
  { intros g g' [_ Hln] Ho id o. rewrite Ho. apply Hln. }
  apply safe_act, (safe_exec tid req _ _ (λ w g, (leads_nothing tid g ∧ last_wire g !! tid = Some w) ∧
    (w < wire g)%nat)).
  - intros w. apply stable_and; [apply stable_and; [apply stable_leads_nothing|]|].
    + intros tid' g g' Hne Hg <-. by apply (gu_last_wire _ _ _ Hg).
    + intros tid' g g' _ Hg Hlt. pose proof (gu_wire _ _ _ Hg). lia.
  - intros g _ Hln. cbn. rewrite lookup_insert_eq. split; [by split|lia].
  - intros g0 _ _. apply safe_act, (safe_invalidate tid true req _ _ (leads_nothing tid)).
    + apply stable_leads_nothing.
    + done.
    + intros g _ [[_ Hlw] Hlt] _. by rewrite Hlw.
    + intros g g' [[Hln _] _] Ho id o. rewrite Ho. apply Hln.
    + apply safe_done. by intros g _ ?.
Qed.

Lemma handlePassthrough_safe req :
  ¬ read_request req → safe device Inv tid (handlePassthrough req) started (post req).
Proof.
  intros Hnot. apply safe_ask; [done|apply stable_started|]. intros _.
  apply (safe_exec tid req Done _ (λ _, leads_nothing tid)).
  - intros _. apply stable_leads_nothing.
  - by intros g _ [_ Hln].
  - intros g _ _. apply safe_done. by intros g' _ ?.
Qed.

(** Every request, valid or not. *)
Lemma HandleRequest_safe req :
  wf_request req → safe device Inv tid (HandleRequest cfg (Some req)) started (post req).
Proof.
  intros Hwf. unfold HandleRequest. destruct (validate_total req Hwf) as [[e|] He]; rewrite He; cbn [lift_go].
  - apply safe_done. intros g _ [_ Hln]. split; [done|]. intros (_ & Hv & _).
    apply validate_ok in Hv; [congruence|done].
  - assert (Hv : valid_request req) by by apply validate_ok.
    change (safe device Inv tid (if IsWriteFunction (FunctionCode req) then handleWrite cfg req
      else if IsReadFunction (FunctionCode req) then handleRead cfg req else handlePassthrough req)
      started (post req)).
    destruct (IsWriteFunction (FunctionCode req)) eqn:Hw; [by apply handleWrite_safe|].
    destruct (IsReadFunction (FunctionCode req)) eqn:Hrd; [by apply handleRead_safe|].
    apply handlePassthrough_safe. intros (_ & _ & ?). congruence.
Qed.

End Handlers.

End System.
