(* ===== verification/Runs.v ===== *)
(** Every run of the proxy: goroutines start for well-formed requests, perform
    their atomic actions in any order, and the cache may drop entries at any
    time (its cleanup).  The theorems hold in every reachable state. *)

From stdpp Require Import base list numbers strings gmap.
From S2P Require Import Prelude Request Errors Validate Codec Cache Config Effects Proxy Program System.

(** * The transition system *)

Record thread := {
  t_req : Request;
  t_seen : list write_record;     (* ghost: the writes that had ended when it started *)
  t_prog : prog outcome;
}.

Record sys (C : Type) := {
  shared : Shared C;
  threads : nat → option thread;
}.
Arguments shared {C} _.
Arguments threads {C} _.

(** The goroutine is blocked on an in-flight request. *)
Definition waits_on {A} (p : prog A) : option nat :=
  match p with
  | Act op _ => match op with Await id => Some id | _ => None end
  | _ => None
  end.

Definition finished {A} (p : prog A) : bool := match p with Done _ => true | _ => false end.
Definition crashed {A} (p : prog A) : bool := match p with Crash => true | _ => false end.

Definition set_thread (tid : nat) (th : thread) (m : nat → option thread) : nat → option thread :=
  λ tid', if decide (tid' = tid) then Some th else m tid'.

Lemma set_thread_eq tid th m : set_thread tid th m tid = Some th.
Proof. unfold set_thread. by rewrite decide_True. Qed.

Lemma set_thread_ne tid tid' th m : tid' ≠ tid → set_thread tid th m tid' = m tid'.
Proof. intros. unfold set_thread. by rewrite decide_False. Qed.

Lemma set_thread_is_Some tid tid' th m :
  tid' = tid ∨ is_Some (m tid') → is_Some (set_thread tid th m tid').
Proof. unfold set_thread. case_decide; [by eauto|]. by intros [?|?]. Qed.

Section Runs.
Context {C : Type} `{RangeStoreLaws C}.
Context (device : nat → Request → outcome) (cfg : Config).

(** Dropping entries, as [cleanupOnce] does. *)
Definition evicts (c c' : C) : Prop :=
  ∀ s f a e, rs_entry c' s f a = Some e → rs_entry c s f a = Some e.

Definition start (req : Request) (σ : sys C) : thread :=
  {| t_req := req; t_seen := writes (shared σ); t_prog := HandleRequest cfg (Some req) |}.

Definition continue_with (p : prog outcome) (th : thread) : thread :=
  {| t_req := t_req th; t_seen := t_seen th; t_prog := p |}.

Inductive sys_step : sys C → sys C → Prop :=
| step_start (tid : nat) req (σ : sys C) :
    threads σ tid = None → wf_request req →
    sys_step σ {| shared := shared σ; threads := set_thread tid (start req σ) (threads σ) |}
| step_act (tid : nat) th p' g' (σ : sys C) :
    threads σ tid = Some th → thread_step device tid (t_prog th) (shared σ) p' g' →
    sys_step σ {| shared := g'; threads := set_thread tid (continue_with p' th) (threads σ) |}
| step_evict c' (σ : sys C) :
    evicts (cache (px (shared σ))) c' →
    sys_step σ {| shared := with_px {| cache := c'; writeGeneration :=
                    writeGeneration (px (shared σ)) |} (shared σ);
                  threads := threads σ |}.

(** An empty proxy. *)
Definition initial (c : C) : sys C :=
  {| shared := {| px := {| cache := c; writeGeneration := 0 |}; inflight := ∅; objs := ∅;
                  wire := 0; last_wire := ∅; writes := []; bumps := 0 |};
     threads := λ _, None |}.

Definition empty_cache (c : C) : Prop := ∀ s f a, rs_entry c s f a = None.

Inductive reachable (c : C) : sys C → Prop :=
| reachable_initial : reachable c (initial c)
| reachable_step σ σ' : reachable c σ → sys_step σ σ' → reachable c σ'.

(** * The invariant of runs *)

Record sys_inv (σ : sys C) : Prop := {
  si_shared : Inv device (shared σ);
  si_leaders id o : objs (shared σ) !! id = Some o → is_Some (threads σ (o_leader o));
  si_threads tid th : threads σ tid = Some th →
    ∃ L, stable tid L ∧ L (shared σ) ∧
      safe device (Inv device) tid (t_prog th) L (post device tid (t_seen th) (t_req th));
}.

Lemma initial_inv c : empty_cache c → sys_inv (initial c).
Proof.
  intros Hc. split; cbn; [|by intros|by intros]. split; cbn; try by intros.
  - intros s f a e _ He. by rewrite Hc in He.
  - intros cw Hcw. by apply elem_of_nil in Hcw.
Qed.

(** The other goroutines keep their assertions. *)
Lemma others_safe tid σ g' :
  sys_inv σ → guarantee tid (shared σ) g' →
  ∀ tid' th, tid' ≠ tid → threads σ tid' = Some th →
    ∃ L, stable tid' L ∧ L g' ∧
      safe device (Inv device) tid' (t_prog th) L (post device tid' (t_seen th) (t_req th)).
Proof.
  intros Hsi Hg tid' th Hne Hth. destruct (si_threads _ Hsi _ _ Hth) as (L & Hst & HL & Hs).
  exists L. split_and!; [done| |done]. eapply Hst; [|done..]. done.
Qed.

Lemma step_start_inv tid req σ :
  sys_inv σ → threads σ tid = None → wf_request req →
  sys_inv {| shared := shared σ; threads := set_thread tid (start req σ) (threads σ) |}.
Proof.
  intros Hsi Hfresh Hwf. split; cbn; [apply Hsi| |].
  - intros id o Ho. destruct (si_leaders _ Hsi _ _ Ho) as [th Hth].
    apply set_thread_is_Some. right. by exists th.
  - intros tid' th Hth. destruct (decide (tid' = tid)) as [->|].
    + rewrite set_thread_eq in Hth. injection Hth as <-.
      exists (started tid (writes (shared σ))). split; [apply (stable_started device)|]. split.
      * split; [done|]. intros id o Ho <-. destruct (si_leaders _ Hsi _ _ Ho) as [th Hth]. congruence.
      * by apply HandleRequest_safe.
    + rewrite set_thread_ne in Hth by done. by apply (si_threads _ Hsi).
Qed.

Lemma step_act_inv tid th p' g' σ :
  sys_inv σ → threads σ tid = Some th →
  thread_step device tid (t_prog th) (shared σ) p' g' → no_wrap g' →
  sys_inv {| shared := g'; threads := set_thread tid (continue_with p' th) (threads σ) |}.
Proof.
  intros Hsi Hth Hstep Hw. destruct (si_threads _ Hsi _ _ Hth) as (L & Hst & HL & Hs).
  destruct (safe_step _ _ _ _ _ _ _ _ _ Hs Hst (si_shared _ Hsi) HL Hstep Hw)
    as (Hi & Hg & L' & Hst' & HL' & Hs').
  split; cbn; [done| |].
  - intros id o' Ho'. destruct (objs (shared σ) !! id) as [o|] eqn:Ho.
    + destruct (gu_objs _ _ _ Hg _ _ Ho) as (o1 & Ho1 & _ & Hl & _). simplify_eq. rewrite Hl.
      apply set_thread_is_Some. right. by apply (si_leaders _ Hsi id).
    + rewrite (gu_new_objs _ _ _ Hg _ _ Ho' Ho). apply set_thread_is_Some. by left.
  - intros tid' th' Hth'. destruct (decide (tid' = tid)) as [->|].
    + rewrite set_thread_eq in Hth'. injection Hth' as <-. by exists L'.
    + rewrite set_thread_ne in Hth' by done. by eapply others_safe.
Qed.

Lemma step_evict_inv c' σ :
  sys_inv σ → evicts (cache (px (shared σ))) c' →
  sys_inv {| shared := with_px {| cache := c'; writeGeneration :=
               writeGeneration (px (shared σ)) |} (shared σ); threads := threads σ |}.
Proof.
  intros Hsi He.
  assert (Hg : ∀ tid p, guarantee tid (shared σ) (with_px p (shared σ))).
  { intros tid p. split; try done; [by left| |cbn; congruence]. intros id o Ho. by exists o. }
  split; cbn; [|apply Hsi|].
  - destruct (si_shared _ Hsi). split; try done. cbn. intros s f a e Hv Hen. by apply He, inv_cache in Hen.
  - intros tid th Hth. destruct (si_threads _ Hsi _ _ Hth) as (L & Hst & HL & Hs).
    exists L. split_and!; [done| |done]. by eapply (Hst (S tid)); [lia|apply Hg|].
Qed.

Lemma step_bumps σ σ' : sys_step σ σ' → bumps (shared σ) ≤ bumps (shared σ').
Proof.
  intros [| tid th p' g' σ1 _ Hstep|]; cbn; try done.
  destruct (t_prog th); cbn in Hstep; try done; [|by destruct Hstep as [-> _]].
  case_match; [by destruct Hstep as [-> _]|]. destruct Hstep as (r & Hop & _). by eapply op_bumps.
Qed.

Lemma reachable_inv c σ :
  empty_cache c → reachable c σ → no_wrap (shared σ) → sys_inv σ.
Proof.
  intros Hc Hr. induction Hr as [|σ1 σ2 Hr IH Hstep]; [by intros; apply initial_inv|].
  intros Hw. assert (Hsi : sys_inv σ1).
  { apply IH. pose proof (step_bumps _ _ Hstep). unfold no_wrap in *. lia. }
  destruct Hstep; [by apply step_start_inv|by eapply step_act_inv|by apply step_evict_inv].
Qed.

(** ** What a goroutine's program tells *)

Lemma safe_waits tid {A} (p : prog A) L Q g id :
  safe device (Inv device) tid p L Q → Inv device g → L g → waits_on p = Some id →
  is_Some (objs g !! id) ∧ leads_nothing tid g.
Proof.
  destruct p as [| |R A op k|]; try done. intros [Hpre _] Hi HL Hwait. specialize (Hpre g Hi HL).
  cbn in Hwait. destruct op; try done. by injection Hwait as ->.
Qed.

Lemma waiting_pre σ tid th id :
  sys_inv σ → threads σ tid = Some th → waits_on (t_prog th) = Some id →
  is_Some (objs (shared σ) !! id) ∧ leads_nothing tid (shared σ).
Proof.
  intros Hsi Hth. destruct (si_threads _ Hsi _ _ Hth) as (L & _ & HL & Hs).
  exact (safe_waits _ _ _ _ _ _ Hs (si_shared _ Hsi) HL).
Qed.

Lemma safe_finished tid {A} (p : prog A) L Q g :
  safe device (Inv device) tid p L Q → Inv device g → L g → finished p = true → ∃ a, Q a g.
Proof. destruct p; try done. intros Hs Hi HL _. eexists. by apply (Hs g). Qed.

Lemma safe_crashed tid {A} (p : prog A) L Q g :
  safe device (Inv device) tid p L Q → Inv device g → L g → crashed p = false.
Proof. destruct p; try done. intros Hs Hi HL. by destruct (Hs g Hi). Qed.

Lemma finished_leads σ tid th :
  sys_inv σ → threads σ tid = Some th → finished (t_prog th) = true →
  leads_nothing tid (shared σ).
Proof.
  intros Hsi Hth Hf. destruct (si_threads _ Hsi _ _ Hth) as (L & _ & HL & Hs).
  by destruct (safe_finished _ _ _ _ _ Hs (si_shared _ Hsi) HL Hf) as (r & Hln & _).
Qed.

Lemma not_crashed σ tid th :
  sys_inv σ → threads σ tid = Some th → crashed (t_prog th) = false.
Proof.
  intros Hsi Hth. destruct (si_threads _ Hsi _ _ Hth) as (L & _ & HL & Hs).
  exact (safe_crashed _ _ _ _ _ Hs (si_shared _ Hsi) HL).
Qed.

(** Every action but a wait is enabled. *)
Definition is_wait {R} (op : Op R) : bool := match op with Await _ => true | _ => false end.

Lemma op_enabled tid {R} (op : Op R) (g : Shared C) :
  is_wait op = false → ∃ r g', op_step device tid op g r g'.
Proof.
  destruct op as [req|gen req values|req|final req|req| | | |l|key|id|id data err|key|id]; cbn;
    try done; intros _.
  - exists (lookup_section (λ _, 0) req (px g)), g. eauto.
  - exists (). eexists. by exists 0.
  - by exists (stale_section req (px g)), g.
  - by exists (); eexists.
  - by do 2 eexists.
  - by exists None, g.
  - by exists None, g.
  - by exists 0, g.
  - by exists (), g.
  - destruct (inflight g !! key) as [id|]; [by eauto|].
    exists (fresh (dom (objs g)), false). eexists. exists (fresh (dom (objs g))).
    split; [|done]. apply not_elem_of_dom, is_fresh.
  - by exists (); eexists.
  - by exists (); eexists.
  - by exists (); eexists.
Qed.

Lemma prog_enabled tid {A} (p : prog A) (g : Shared C) :
  finished p = false → crashed p = false → waits_on p = None →
  ∃ p' g', thread_step device tid p g p' g'.
Proof.
  destruct p as [| |R A op k|S0 B A body s k]; cbn; try done; intros _ _ Hw; [|by eauto].
  destruct (op_panics op g); [by eauto|].
  destruct (op_enabled tid op g) as (r & g' & Hop); [by destruct op|]. eauto.
Qed.

(** * Properties *)

(** C1 Reads are fresh in every interleaving: whatever goroutines run, and
    however their critical sections, exchanges, waits, retries after a
    cancelled leader, stale fallbacks and cache cleanups interleave, a
    successful read answers with values the device sent, for each register or
    coil in an exchange after every forwarded write that had ended before the
    read began and covers it. *)
Theorem reads_are_fresh (c : C) (σ : sys C) (tid : nat) (th : thread) (resp : list Z)
    (Hc : empty_cache c) (Hr : reachable c σ) (Hw : no_wrap (shared σ))
    (Hth : threads σ tid = Some th) (Hread : read_request (t_req th))
    (Hdone : t_prog th = Done (inl resp)) :
  fresh_response device (t_seen th) (t_req th) resp.
Proof.
  pose proof (reachable_inv c σ Hc Hr Hw) as Hsi.
  destruct (si_threads _ Hsi _ _ Hth) as (L & _ & HL & Hs). rewrite Hdone in Hs.
  by apply (Hs _ (si_shared _ Hsi) HL).
Qed.

(** C2 The cache never holds a pre-write value: in every reachable state each
    entry is a value the device sent in an exchange after every forwarded
    write that has ended and covers its register, even if an older fetch of
    it was in flight while the write was. *)
Theorem cache_is_coherent (c : C) (σ : sys C) (s f a : Z) (e : Entry)
    (Hc : empty_cache c) (Hr : reachable c σ) (Hw : no_wrap (shared σ))
    (Hv : valid_range s f a 1) (He : rs_entry (cache (px (shared σ))) s f a = Some e) :
  IsReadFunction f = true ∧ ∃ w, (w < wire (shared σ))%nat ∧
    fresh_value device (writes (shared σ)) s f a (entry_Data e) w.
Proof.
  pose proof (reachable_inv c σ Hc Hr Hw) as Hsi. by apply (inv_cache _ _ (si_shared _ Hsi)).
Qed.

(** C5 No goroutine waits for ever on a lost leader: if one is blocked on an
    in-flight request that is not done, the request's leader is another
    goroutine that has neither finished nor crashed, is not blocked itself and
    can take a step.  So there is no deadlock. *)
Theorem waiters_have_a_leader (c : C) (σ : sys C) (tid id : nat) (th : thread)
    (Hc : empty_cache c) (Hr : reachable c σ) (Hw : no_wrap (shared σ))
    (Hth : threads σ tid = Some th) (Hwait : waits_on (t_prog th) = Some id) :
  ∃ o, objs (shared σ) !! id = Some o ∧
    (o_done o = true ∨ o_leader o ≠ tid ∧ ∃ th', threads σ (o_leader o) = Some th' ∧
       finished (t_prog th') = false ∧ crashed (t_prog th') = false ∧
       waits_on (t_prog th') = None ∧
       ∃ p' g', thread_step device (o_leader o) (t_prog th') (shared σ) p' g').
Proof.
  pose proof (reachable_inv c σ Hc Hr Hw) as Hsi. pose proof (si_shared _ Hsi) as Hi.
  destruct (waiting_pre σ tid th id Hsi Hth Hwait) as [[o Ho] Hln]. exists o. split; [done|].
  destruct (o_done o) eqn:Hd; [by left|right]. split; [intros Hl; by rewrite (Hln id o Ho Hl) in Hd|].
  destruct (si_leaders _ Hsi _ _ Ho) as [th' Hth']. exists th'. split; [done|].
  assert (Hopen : ¬ leads_nothing (o_leader o) (shared σ)).
  { intros Hl. by rewrite (Hl id o Ho eq_refl) in Hd. }
  assert (Hf : finished (t_prog th') = false).
  { apply not_true_is_false. intros Hf. apply Hopen. by eapply finished_leads. }
  assert (Hnc : crashed (t_prog th') = false) by (by eapply not_crashed).
  assert (Hnw : waits_on (t_prog th') = None).
  { destruct (waits_on (t_prog th')) as [id'|] eqn:Hw'; [|done]. exfalso. apply Hopen.
    by eapply waiting_pre. }
  split_and!; [done..|]. by apply prog_enabled.
Qed.

(** C13 No handler panics, in any interleaving: no goroutine of a reachable
    state has crashed, whatever bytes the device sent; in particular none closes
    a channel twice. *)
Theorem handlers_never_panic (c : C) (σ : sys C) (tid : nat) (th : thread)
    (Hc : empty_cache c) (Hr : reachable c σ) (Hw : no_wrap (shared σ))
    (Hth : threads σ tid = Some th) :
  crashed (t_prog th) = false.
Proof. eapply not_crashed; [by eapply reachable_inv|done]. Qed.

(** C10 At most one fetch per key: two in-flight requests of one key whose
    results are both outstanding are the same request, so coalesced readers of
    a range never fetch it twice at a time. *)
Theorem single_flight (c : C) (σ : sys C) (id1 id2 : nat) (o1 o2 : inflightRequest)
    (Hc : empty_cache c) (Hr : reachable c σ) (Hw : no_wrap (shared σ))
    (H1 : objs (shared σ) !! id1 = Some o1) (H2 : objs (shared σ) !! id2 = Some o2)
    (Hkey : o_key o1 = o_key o2) (Hr1 : o_result o1 = None) (Hr2 : o_result o2 = None) :
  id1 = id2.
Proof.
  pose proof (si_shared _ (reachable_inv c σ Hc Hr Hw)) as Hi.
  apply (inv_open _ _ Hi) in H1; [|done]. apply (inv_open _ _ Hi) in H2; [|done]. congruence.
Qed.

End Runs.

(** * Schedules

    An executable scheduler: a schedule says who starts, who moves, and what
    the clock shows; contexts never end.  Its runs are runs of the system. *)

Inductive choice :=
| Start (tid : nat) (req : Request)
| Move (tid : nat) (clock : Z).

Section Schedule.
Context {C : Type} `{RangeStore C}.
Context (device : nat → Request → outcome) (cfg : Config).

Definition perform (tid : nat) (clock : Z) {R} (op : Op R) (g : Shared C) : option (R * Shared C) :=
  match op in Op R return option (R * Shared C) with
  | Lookup req => Some (lookup_section (λ _, clock) req (px g), g)
  | Store generation req values =>
      Some ((), with_px (store_section generation clock req values (px g)) g)
  | Stale req => Some (stale_section req (px g), g)
  | Invalidate final req => Some ((),
      {| px := write_section req (px g); inflight := inflight g; objs := objs g;
         wire := wire g; last_wire := last_wire g;
         writes := if final then ended_write tid req g :: writes g else writes g;
         bumps := bumps g + 1 |})
  | Exec req => Some (device (wire g) req, exchanged tid g)
  | CtxErr => Some (None, g)
  | CtxDeadline => Some (None, g)
  | TimeNow => Some (clock, g)
  | Log _ => Some ((), g)
  | Inflight key =>
      match inflight g !! key with
      | Some id => Some ((id, true), with_objs (alter add_follower id (objs g)) g)
      | None =>
          let id := size (objs g) in
          if decide (objs g !! id = None) then
            Some ((id, false), with_inflight (<[key := id]> (inflight g)) (with_objs (<[id :=
              {| o_key := key; o_leader := tid; o_done := false; o_result := None;
                 o_followers := 0 |}]> (objs g)) g))
          else None
      end
  | Await id =>
      match objs g !! id with
      | Some o => if o_done o then Some (Some (default ([], None) (o_result o)), g) else None
      | None => None
      end
  | SetResult id data err => Some ((), with_objs (alter (set_result data err) id (objs g)) g)
  | Forget key => Some ((), with_inflight (delete key (inflight g)) g)
  | CloseDone id => Some ((), with_objs (alter close_done id (objs g)) g)
  end.

Definition move (tid : nat) (clock : Z) {A} (p : prog A) (g : Shared C) : option (prog A * Shared C) :=
  match p in prog A return option (prog A * Shared C) with
  | Done _ | Crash => None
  | Act op k =>
      if op_panics op g then Some (Crash, g)
      else match perform tid clock op g with Some (r, g') => Some (k r, g') | None => None end
  | Iter body s k =>
      Some (prog_bind (body s) (λ r, match r with inl s' => Iter body s' k | inr b => k b end), g)
  end.

Definition choose (σ : sys C) (ch : choice) : option (sys C) :=
  match ch with
  | Start tid req =>
      match threads σ tid with
      | None => Some {| shared := shared σ; threads := set_thread tid (start cfg req σ) (threads σ) |}
      | Some _ => None
      end
  | Move tid clock =>
      match threads σ tid with
      | Some th =>
          match move tid clock (t_prog th) (shared σ) with
          | Some (p', g') =>
              Some {| shared := g'; threads := set_thread tid (continue_with p' th) (threads σ) |}
          | None => None
          end
      | None => None
      end
  end.

Fixpoint run (σ : sys C) (sch : list choice) : option (sys C) :=
  match sch with
  | [] => Some σ
  | ch :: sch => match choose σ ch with Some σ' => run σ' sch | None => None end
  end.

Definition well_formed (ch : choice) : Prop :=
  match ch with Start _ req => wf_request req | Move _ _ => True end.

Lemma perform_step tid clock {R} (op : Op R) g r g' :
  perform tid clock op g = Some (r, g') → op_step device tid op g r g'.
Proof.
  destruct op; cbn; try (intros [= <- <-]; by eauto).
  - destruct (inflight g !! key); [by intros [= <- <-]|].
    case_decide; [|done]. intros [= <- <-]. eauto.
  - destruct (objs g !! id) as [o|] eqn:Ho; [|done]. destruct (o_done o) eqn:Hd; [|done].
    intros [= <- <-]. eauto 10.
Qed.

Lemma move_step tid clock {A} (p p' : prog A) g g' :
  move tid clock p g = Some (p', g') → thread_step device tid p g p' g'.
Proof.
  destruct p as [| |R A op k|S0 B A body s k]; cbn; try done; [|by intros [= <- <-]].
  destruct (op_panics op g); [by intros [= <- <-]|].
  destruct (perform tid clock op g) as [[r g1]|] eqn:E; [|done]. intros [= <- <-].
  exists r. split; [by eapply perform_step|done].
Qed.

Lemma run_reachable c sch σ σ' :
  reachable device cfg c σ → Forall well_formed sch → run σ sch = Some σ' →
  reachable device cfg c σ'.
Proof.
  revert σ. induction sch as [|ch sch IH]; intros σ Hr Hwf Hrun; [by injection Hrun as <-|].
  apply Forall_cons in Hwf as [Hch Hwf]. cbn [run] in Hrun.
  destruct (choose σ ch) as [σ1|] eqn:Hc; [|done]. eapply IH; [|done..].
  eapply reachable_step; [done|]. destruct ch as [tid req|tid clock]; cbn in Hc.
  - destruct (threads σ tid) eqn:Ht; [done|]. injection Hc as <-. by constructor.
  - destruct (threads σ tid) as [th|] eqn:Ht; [|done].
    destruct (move tid clock (t_prog th) (shared σ)) as [[p' g']|] eqn:Hm; [|done].
    injection Hc as <-. econstructor; [done|]. by eapply move_step.
Qed.

End Schedule.

(** ** A run with a write, two coalesced reads and a cache hit *)

Definition sample_cfg : Config :=
  {| Listen := ":5502"; Upstream := "10.0.0.2:502"; DefaultSlaveID := 1; CacheTTL := 10 * second;
     CacheServeStale := false; ReadOnly := ReadOnlyOff; AttemptTimeout := 10 * second;
     RequestTimeout := 30 * second; RequestDelay := 0; ConnectDelay := 0;
     ShutdownTimeout := 30 * second; HealthListen := ""; LogLevel := "INFO" |}.

(** Every exchange answers with its own number in both registers. *)
Definition sample_device (w : nat) (req : Request) : outcome :=
  inl (if IsReadFunction (FunctionCode req)
       then buildReadResponse (FunctionCode req) [0; Z.of_nat w; 0; Z.of_nat w]
       else [FunctionCode req]).

Definition read_two : Request :=
  {| TransactionID := 1; SlaveID := 1; FunctionCode := 3; Address := 100; Quantity := 2;
     Data := []; PDU := [3; 0; 100; 0; 2] |}.
Definition write_one : Request :=
  {| TransactionID := 2; SlaveID := 1; FunctionCode := 6; Address := 101; Quantity := 1;
     Data := [0; 9]; PDU := [6; 0; 101; 0; 9] |}.

Definition moves (tid n : nat) : list choice := replicate n (Move tid 0).

(** The write is over; reads 1 and 2 miss, 1 leads the fetch and 2 waits for it. *)
Definition waiting_schedule : list choice :=
  [Start 0 write_one] ++ moves 0 3 ++ [Start 1 read_two; Start 2 read_two] ++ moves 1 5 ++ moves 2 7.

(** Both end with the leader's response, and read 3 finds it in the cache. *)
Definition sample_schedule : list choice :=
  waiting_schedule ++ moves 1 6 ++ moves 2 4 ++ [Start 3 read_two] ++ moves 3 2.

Definition empty_proxy : sys Cache := initial (New (10 * second) false).

Definition after (sch : list choice) : sys Cache :=
  match run sample_device sample_cfg empty_proxy sch with Some σ => σ | None => empty_proxy end.

Definition result_of {A} (p : prog A) : option A := match p with Done a => Some a | _ => None end.

(** What a goroutine was asked, the ended writes it started after, what it
    answered, and what it waits for. *)
Definition thread_view {C} (σ : sys C) (tid : nat) :
    option (Request * list write_record * option outcome * option nat) :=
  match threads σ tid with
  | Some th => Some (t_req th, t_seen th, result_of (t_prog th), waits_on (t_prog th))
  | None => None
  end.

Lemma result_of_Done {A} (p : prog A) a : result_of p = Some a → p = Done a.
Proof. destruct p; try done. by intros [= ->]. Qed.

Lemma thread_view_Some {C} (σ : sys C) tid req seen r w :
  thread_view σ tid = Some (req, seen, r, w) →
  ∃ th, threads σ tid = Some th ∧ t_req th = req ∧ t_seen th = seen ∧
    result_of (t_prog th) = r ∧ waits_on (t_prog th) = w.
Proof.
  unfold thread_view. destruct (threads σ tid) as [th|]; [|done]. intros [= <- <- <- <-]. by exists th.
Qed.

Lemma after_reachable sch :
  Forall well_formed sch → reachable sample_device sample_cfg (New (10 * second) false) (after sch).
Proof.
  intros Hwf. unfold after.
  destruct (run sample_device sample_cfg empty_proxy sch) eqn:Hrun; [|constructor].
  eapply run_reachable; [constructor|done..].
Qed.

Lemma New_empty : empty_cache (New (10 * second) false).
Proof. done. Qed.

Lemma moves_well_formed tid n : Forall well_formed (moves tid n).
Proof. induction n; by constructor. Qed.

Lemma samples_well_formed : wf_request read_two ∧ wf_request write_one.
Proof. repeat split; repeat constructor; cbn; lia. Qed.

Lemma read_two_ok : read_request read_two.
Proof.
  split; [apply samples_well_formed|]. split; [|reflexivity].
  unfold valid_request, payload_valid, address_valid. cbn. repeat split; lia.
Qed.

Lemma waiting_schedule_ok : Forall well_formed waiting_schedule.
Proof.
  unfold waiting_schedule. rewrite !Forall_app, !Forall_cons.
  repeat first [apply moves_well_formed | apply samples_well_formed | split | constructor].
Qed.

Lemma sample_schedule_ok : Forall well_formed sample_schedule.
Proof.
  unfold sample_schedule. rewrite !Forall_app, !Forall_cons.
  repeat first [apply moves_well_formed | apply waiting_schedule_ok | apply samples_well_formed | split | constructor].
Qed.

(** The write the sample run begins with. *)
Definition first_write : write_record :=
  {| wr_slave := 1; wr_addr := 101; wr_qty := 1; wr_wire := 0; wr_gen := 2 |}.

(** ** The theorems at these runs *)

Lemma reads_are_fresh_witness :
  ∃ th, threads (after sample_schedule) 2 = Some th ∧ t_seen th = [first_write] ∧
    t_prog th = Done (inl [3; 4; 0; 1; 0; 1]) ∧
    fresh_response sample_device (t_seen th) (t_req th) [3; 4; 0; 1; 0; 1].
Proof.
  destruct (thread_view_Some (after sample_schedule) 2 read_two [first_write]
    (Some (inl [3; 4; 0; 1; 0; 1])) None) as (th & Hth & Hreq & Hseen & Hres & _);
    [vm_compute; reflexivity|].
  apply result_of_Done in Hres. exists th. split_and!; [exact Hth|exact Hseen|exact Hres|].
  apply (reads_are_fresh sample_device sample_cfg (New (10 * second) false) (after sample_schedule) 2 th).
  - exact New_empty.
  - apply after_reachable, sample_schedule_ok.
  - vm_compute. reflexivity.
  - exact Hth.
  - rewrite Hreq. exact read_two_ok.
  - exact Hres.
Defined.

Lemma cache_is_coherent_witness :
  ∃ e, rs_entry (cache (px (shared (after sample_schedule)))) 1 3 101 = Some e ∧
    IsReadFunction 3 = true ∧ ∃ w, (w < wire (shared (after sample_schedule)))%nat ∧
    fresh_value sample_device (writes (shared (after sample_schedule))) 1 3 101 (entry_Data e) w.
Proof.
  destruct (rs_entry (cache (px (shared (after sample_schedule)))) 1 3 101) as [e|] eqn:He;
    [|exfalso; vm_compute in He; discriminate He].
  exists e. split; [reflexivity|].
  apply (cache_is_coherent sample_device sample_cfg (New (10 * second) false)).
  - exact New_empty.
  - apply after_reachable, sample_schedule_ok.
  - vm_compute. reflexivity.
  - repeat split; lia.
  - exact He.
Defined.

Lemma waiters_have_a_leader_witness :
  ∃ th, threads (after waiting_schedule) 2 = Some th ∧ waits_on (t_prog th) = Some 0%nat ∧
    ∃ o, objs (shared (after waiting_schedule)) !! 0%nat = Some o ∧
      (o_done o = true ∨ o_leader o ≠ 2%nat ∧
         ∃ th', threads (after waiting_schedule) (o_leader o) = Some th' ∧
           finished (t_prog th') = false ∧ crashed (t_prog th') = false ∧
           waits_on (t_prog th') = None ∧
           ∃ p' g', thread_step sample_device (o_leader o) (t_prog th')
                      (shared (after waiting_schedule)) p' g').
Proof.
  destruct (thread_view_Some (after waiting_schedule) 2 read_two [first_write] None (Some 0%nat))
    as (th & Hth & _ & _ & _ & Hwait); [vm_compute; reflexivity|].
  exists th. split; [exact Hth|]. split; [exact Hwait|].
  apply (waiters_have_a_leader sample_device sample_cfg (New (10 * second) false)
    (after waiting_schedule) 2 0 th).
  - exact New_empty.
  - apply after_reachable, waiting_schedule_ok.
  - vm_compute. reflexivity.
  - exact Hth.
  - exact Hwait.
Defined.

Lemma handlers_never_panic_witness :
  ∃ th, threads (after sample_schedule) 3 = Some th ∧ crashed (t_prog th) = false.
Proof.
  destruct (thread_view_Some (after sample_schedule) 3 read_two [first_write]
    (Some (inl [3; 4; 0; 1; 0; 1])) None) as (th & Hth & _); [vm_compute; reflexivity|].
  exists th. split; [exact Hth|].
  apply (handlers_never_panic sample_device sample_cfg (New (10 * second) false)
    (after sample_schedule) 3 th).
  - exact New_empty.
  - apply after_reachable, sample_schedule_ok.
  - vm_compute. reflexivity.
  - exact Hth.
Defined.

Lemma single_flight_witness :
  ∃ o, objs (shared (after waiting_schedule)) !! 0%nat = Some o ∧ o_followers o = 1 ∧
    o_result o = None ∧ ∀ id, objs (shared (after waiting_schedule)) !! id = Some o → 0%nat = id.
Proof.
  destruct (objs (shared (after waiting_schedule)) !! 0%nat) as [o|] eqn:Ho;
    [|exfalso; vm_compute in Ho; discriminate Ho].
  assert (Hr : o_followers o = 1 ∧ o_result o = None).
  { vm_compute in Ho. injection Ho as <-. split; reflexivity. }
  destruct Hr as [Hf Hr]. exists o. split; [reflexivity|]. split; [exact Hf|]. split; [exact Hr|].
  intros id Hid.
  apply (single_flight sample_device sample_cfg (New (10 * second) false) (after waiting_schedule) 0 id o o).
  - exact New_empty.
  - apply after_reachable, waiting_schedule_ok.
  - vm_compute. reflexivity.
  - exact Ho.
  - exact Hid.
  - reflexivity.
  - exact Hr.
  - exact Hr.
Defined.
