(* ===== verification/Cleanup.v ===== *)
(** The cache's background goroutine ([New], [cleanup] and [Close] of
    internal/cache/cache.go) next to the handlers.

    Runs.v lets entries be evicted at any moment; here the goroutine, its
    ticker and its [done] channel are explicit, and every run with them is a
    run of Runs.v, so the theorems about handlers hold of it. *)

From stdpp Require Import base list numbers strings gmap.
From S2P Require Import Prelude Request Errors Cache Config Effects ClientProps Proxy Program System Runs.

(** * The goroutine *)

Record with_cleaner := {
  base : sys Cache;
  tick : bool;            (* a tick is in the ticker's channel *)
  closed : bool;          (* the channel [done] is closed *)
  stopped : bool;         (* [cleanup] has returned and stopped its ticker *)
  panicked : bool;        (* [done] was closed again *)
}.

Definition with_base (b : sys Cache) (s : with_cleaner) : with_cleaner :=
  {| base := b; tick := tick s; closed := closed s; stopped := stopped s; panicked := panicked s |}.

(** The critical section of [cleanupOnce] on the shared cache; [now] is when
    each key's entry is visited. *)
Definition cleanup_section (now : string → Z) (σ : sys Cache) : sys Cache :=
  {| shared := with_px {| cache := cleanupOnce (cache (px (shared σ))) now;
                          writeGeneration := writeGeneration (px (shared σ)) |} (shared σ);
     threads := threads σ |}.

(** [close(c.done)]. *)
Definition Close (s : with_cleaner) : with_cleaner :=
  {| base := base s; tick := tick s; closed := true; stopped := stopped s;
     panicked := panicked s || closed s |}.

Section Cleanup.
Context (device : nat → Request → outcome) (cfg : Config).

Inductive cleaner_step : with_cleaner → with_cleaner → Prop :=
(* a request arrives, or its handler moves *)
| handler_starts s tid req :
    threads (base s) tid = None → wf_request req →
    cleaner_step s (with_base {| shared := shared (base s);
      threads := set_thread tid (start cfg req (base s)) (threads (base s)) |} s)
| handler_moves s tid th p' g' :
    threads (base s) tid = Some th → thread_step device tid (t_prog th) (shared (base s)) p' g' →
    cleaner_step s (with_base {| shared := g';
      threads := set_thread tid (continue_with p' th) (threads (base s)) |} s)
(* the ticker; its channel holds one tick *)
| ticker_fires s :
    stopped s = false →
    cleaner_step s {| base := base s; tick := true; closed := closed s; stopped := false;
                      panicked := panicked s |}
(* the select of [cleanup] *)
| cleaner_cleans s now :
    stopped s = false → tick s = true →
    cleaner_step s {| base := cleanup_section now (base s); tick := false; closed := closed s;
                      stopped := false; panicked := panicked s |}
| cleaner_stops s :
    stopped s = false → closed s = true →
    cleaner_step s {| base := base s; tick := tick s; closed := true; stopped := true;
                      panicked := panicked s |}
| cache_closes s : cleaner_step s (Close s).

Definition fresh_cleaner (c : Cache) : with_cleaner :=
  {| base := initial c; tick := false; closed := false; stopped := false; panicked := false |}.

Inductive cleaner_reachable (c : Cache) : with_cleaner → Prop :=
| cleaner_init : cleaner_reachable c (fresh_cleaner c)
| cleaner_next s s' : cleaner_reachable c s → cleaner_step s s' → cleaner_reachable c s'.

(** * Lemmas *)

Lemma cleanupOnce_evicts c now : evicts c (cleanupOnce c now).
Proof.
  intros s f a e. cbn. rewrite cleanup_lookup. destruct (entries c !! _) as [e'|]; [|done]. cbn.
  destruct (keepStale c); [done|]. by destruct (IsExpired e' _).
Qed.

(** A step is a step of Runs.v, or changes nothing that it can see. *)
Lemma cleaner_step_sys s s' :
  cleaner_step s s' → base s' = base s ∨ sys_step device cfg (base s) (base s').
Proof.
  destruct 1; cbn; try (by left); right.
  - by constructor.
  - by eapply step_act.
  - apply step_evict, cleanupOnce_evicts.
Qed.

Lemma cleaner_refines c s : cleaner_reachable c s → reachable device cfg c (base s).
Proof.
  induction 1 as [|s s' _ IH Hstep]; [constructor|].
  destruct (cleaner_step_sys _ _ Hstep) as [->|]; [done|by econstructor].
Qed.

(** The goroutine ends only after [Close], which panics only the second time. *)
Lemma cleaner_closed c s : cleaner_reachable c s →
  (stopped s = true → closed s = true) ∧ (panicked s = true → closed s = true).
Proof.
  induction 1 as [|s s' _ [IH1 IH2] Hstep]; [done|].
  destruct Hstep; cbn in *; split; intros; (done || congruence || auto).
Qed.

(** * Properties *)

(** C39 Background cleanup is one of the behaviours the handlers are proved
    against: with the goroutine, its ticker and [Close] explicit, every
    reachable state's proxy and handlers are a reachable state of Runs.v.  A
    cleanup pass at any of them changes no later fresh lookup; it changes
    nothing at all when stale values are kept, and otherwise leaves no entry
    that was expired when visited.  The goroutine ends only after [Close], and
    after it can end at its next select; only a second [Close] panics. *)
Theorem cleanup_refines (c : Cache) (s : with_cleaner) (Hr : cleaner_reachable c s) :
  reachable device cfg c (base s) ∧
  (∀ now k t, now k ≤ t →
     let before := cache (px (shared (base s))) in
     let after := cache (px (shared (cleanup_section now (base s)))) in
     Get after t k = Get before t k ∧
     (keepStale before = true → after = before) ∧
     (keepStale before = false → GetStale after k = Get before (now k) k)) ∧
  (stopped s = true → closed s = true) ∧
  (closed s = true → stopped s = false →
     ∃ s', cleaner_step s s' ∧ stopped s' = true ∧ base s' = base s) ∧
  (panicked (Close s) = true → closed s = true).
Proof.
  destruct (cleaner_closed c s Hr) as [Hst Hpa].
  split; [by eapply cleaner_refines|]. split; [intros now k t Ht; by apply cleanupOnce_correct|].
  split; [done|]. split.
  - intros Hc Hns. eexists. split; [by apply cleaner_stops|done].
  - cbn. rewrite orb_true_iff. by intros [?|?]; [apply Hpa|].
Qed.

End Cleanup.

(** A register stored at 0 with a lifetime of 10, a tick, and a pass at 11. *)
Definition aged_cache : Cache := Set_ (New 10 false) 0 "1:3:5" [0; 7].

Definition ticked : with_cleaner :=
  {| base := initial aged_cache; tick := true; closed := false; stopped := false; panicked := false |}.

Lemma cleanup_refines_witness :
  reachable sample_device sample_cfg aged_cache (base ticked) ∧
  GetStale (cache (px (shared (cleanup_section (λ _, 11) (base ticked))))) "1:3:5" = None.
Proof.
  destruct (cleanup_refines sample_device sample_cfg aged_cache ticked) as (Hr & Hclean & _).
  - eapply cleaner_next; [apply cleaner_init|]. exact (ticker_fires _ _ (fresh_cleaner aged_cache) eq_refl).
  - split; [exact Hr|]. destruct (Hclean (λ _, 11) "1:3:5" 11 ltac:(lia)) as (_ & _ & H).
    exact (H eq_refl).
Defined.
