(* ===== verification/Setup.v ===== *)
(** Building the proxy from its configuration: [NewClient]
    (internal/modbus/client.go), [New] and [saturatingDurationSum]
    (internal/proxy/proxy.go). *)

From stdpp Require Import base list numbers strings gmap.
From S2P Require Import Prelude Errors Cache Config Health Effects Client ClientProps Proxy.

(** [modbus.NewClient]; the logger, the clock and the session factory are part
    of the environment the client is run against. *)
Definition NewClient (attemptTimeout requestDelay connectDelay : Z) : Client :=
  {| Effects.attemptTimeout := attemptTimeout; Effects.requestDelay := requestDelay;
     Effects.connectDelay := connectDelay; degradedWindow := degradedHealthWindow;
     session := None; nextRequestAt := time_zero; health := init_health |}.

(** The loop of [saturatingDurationSum] from a running [total]. *)
Fixpoint saturating_from (total : Z) (durations : list Z) : Z :=
  match durations with
  | [] => total
  | duration :: durations =>
      if decide (duration <= 0) then saturating_from total durations
      else if decide (duration > i64 (max_i64 - total)) then max_i64
      else saturating_from (dur_add total duration) durations
  end.

Definition saturatingDurationSum (durations : list Z) : Z := saturating_from 0 durations.

Definition retryBudget (cfg : Config) : Z :=
  saturatingDurationSum [AttemptTimeout cfg; AttemptTimeout cfg; ConnectDelay cfg;
                         ConnectDelay cfg; RequestDelay cfg].

(** What [New] builds, and whether it logs the budget warning. *)
Record assembly := {
  proxy : Proxy Cache;
  upstream : Client;
  server_timeout : Z;
  warned : bool;
}.

Definition New (cfg : Config) : assembly :=
  {| proxy := {| cache := Cache.New (CacheTTL cfg) (CacheServeStale cfg); writeGeneration := 0 |};
     upstream := NewClient (AttemptTimeout cfg) (RequestDelay cfg) (ConnectDelay cfg);
     server_timeout := RequestTimeout cfg;
     warned := bool_decide (RequestTimeout cfg <= retryBudget cfg) |}.

(** * Lemmas *)

Lemma saturating_from_spec acc ds :
  0 ≤ acc ≤ max_i64 → Forall is_i64 ds →
  saturating_from acc ds = Z.min max_i64 (acc + sum_nonneg ds).
Proof.
  intros Hacc Hds. rewrite <- component_total_spec by done. revert acc Hacc.
  induction Hds as [|d ds Hd Hds IH]; intros acc Hacc; [done|]. cbn.
  case_decide; [by apply IH|]. case_decide as Hm; [done|].
  unfold is_i64, dur_add in *.
  rewrite i64_id in Hm by (unfold is_i64, min_i64, max_i64 in *; lia).
  apply IH. rewrite i64_id; unfold is_i64, min_i64, max_i64 in *; lia.
Qed.

(** * Properties *)

(** C37 The startup warning is exact: whatever durations the configuration
    holds, [New] warns exactly when the request budget does not exceed what
    a full read with one retry may take (both attempts, both reconnect delays
    and the request delay, as unbounded integers; negative ones count as 0).
    No sum overflows, however large the configured durations. *)
Theorem New_warns_exactly (cfg : Config)
    (Ha : is_i64 (AttemptTimeout cfg)) (Hc : is_i64 (ConnectDelay cfg))
    (Hd : is_i64 (RequestDelay cfg)) (Hr : is_i64 (RequestTimeout cfg)) :
  warned (New cfg) = true ↔
  RequestTimeout cfg <= 2 * Z.max 0 (AttemptTimeout cfg) + 2 * Z.max 0 (ConnectDelay cfg) +
                        Z.max 0 (RequestDelay cfg).
Proof.
  cbn [New warned]. rewrite bool_decide_eq_true. unfold retryBudget, saturatingDurationSum.
  rewrite saturating_from_spec by (by (unfold max_i64; lia) || by repeat (constructor; [done|])).
  cbn. unfold is_i64 in *. lia.
Qed.

(** Attempts of nearly 300 years each: their sum does not fit a duration. *)
Definition huge_attempts : Config :=
  {| Config.Listen := ":5502"; Upstream := "10.0.0.2:502"; DefaultSlaveID := 1;
     CacheTTL := 10 * second; CacheServeStale := false; ReadOnly := ReadOnlyOff;
     AttemptTimeout := 2 ^ 63 - 5; RequestTimeout := 2 ^ 63 - 1; RequestDelay := 0;
     ConnectDelay := 0; ShutdownTimeout := 30 * second; HealthListen := ""; LogLevel := "INFO" |}.

Lemma New_warns_exactly_witness :
  warned (New huge_attempts) = true ∧
  (RequestTimeout huge_attempts <= 2 * Z.max 0 (AttemptTimeout huge_attempts) +
     2 * Z.max 0 (ConnectDelay huge_attempts) + Z.max 0 (RequestDelay huge_attempts)).
Proof.
  split; [vm_compute; reflexivity|].
  apply (New_warns_exactly huge_attempts);
    [unfold is_i64, min_i64, max_i64; cbn; lia..|vm_compute; reflexivity].
Defined.
