(* ===== verification/Handlers.v ===== *)
(** What each handler may do: invalid requests are answered without any action,
    read-only writes after a log line alone, and every action of every run, its
    log lines included, is within the footprint of the goroutine's request. *)

From stdpp Require Import base list numbers strings gmap.
From S2P Require Import Prelude Request Errors Validate Server Codec Cache Config Effects Proxy Program System Runs.

(** * The footprint of a request *)

(** What a log line about [req] may say: it names the unit and the function,
    claims no upstream attempts of its own, and if it reports a stale fallback,
    stale serving is on and no exception is claimed to be delivered. *)
Record log_about (cfg : Config) (req : Request) (args : list (string * arg)) : Prop := {
  la_slave : ("slave_id", AInt (SlaveID req)) ∈ args;
  la_func : ("func", AHex (FunctionCode req)) ∈ args;
  la_attempts n : ("attempts", AInt n) ∈ args → n = 0;
  la_stale : ("stale_fallback_selected", ABool true) ∈ args →
    CacheServeStale cfg = true ∧ ∀ code, ("downstream_exception", AHex code) ∉ args;
}.

(** The actions the configuration allows on behalf of a request. *)
Definition allowed (cfg : Config) (req : Request) {R} (op : Op R) : Prop :=
  match op with
  | Lookup r | Store _ r _ => r = req ∧ IsReadFunction (FunctionCode req) = true
  | Stale r => r = req ∧ IsReadFunction (FunctionCode req) = true ∧ CacheServeStale cfg = true
  | Invalidate _ r =>
      r = req ∧ IsWriteFunction (FunctionCode req) = true ∧ ReadOnly cfg = ReadOnlyOff
  | Exec r => r = req ∧ valid_request req ∧
      (IsWriteFunction (FunctionCode req) = true → ReadOnly cfg = ReadOnlyOff)
  | CtxErr | CtxDeadline | TimeNow => True
  | Log line => log_about cfg req (line_args line)
  | Inflight key | Forget key =>
      IsReadFunction (FunctionCode req) = true ∧ ∃ gen, key = coalesce_key gen req
  | Await _ | SetResult _ _ _ | CloseDone _ => IsReadFunction (FunctionCode req) = true
  end.

Section Footprint.
Context (ok : ∀ R, Op R → Prop).

(** Every action a program can reach is [ok]. *)
Fixpoint only {A} (p : prog A) : Prop :=
  match p with
  | Done _ | Crash => True
  | Act op k => ok _ op ∧ ∀ r, only (k r)
  | Iter body _ k => (∀ s, only (body s)) ∧ ∀ b, only (k b)
  end.

Lemma only_bind {A B} (p : prog A) (f : A → prog B) :
  only p → (∀ a, only (f a)) → only (prog_bind p f).
Proof.
  induction p as [A a|A|R A op k IH|S0 B0 A body IHb s k IHk]; cbn; intros Hp Hf.
  - apply Hf.
  - done.
  - destruct Hp as [? Hk]. split; [done|]. intros r. by apply IH.
  - destruct Hp as [? Hk]. split; [done|]. intros b. by apply IHk.
Qed.

Lemma only_lift_go {A} (m : go A) : only (lift_go m).
Proof. by destruct m. Qed.

Lemma only_act {R} (op : Op R) : ok _ op → only (act op).
Proof. by split. Qed.

Lemma only_leave {S} r c w d : only (@leave S r c w d).
Proof. done. Qed.

(** The next action. *)
Definition next_ok {A} (p : prog A) : Prop :=
  match p with Act op _ => ok _ op | _ => True end.

Lemma only_next {A} (p : prog A) : only p → next_ok p.
Proof. destruct p; cbn; tauto. Qed.

Lemma only_step {C} `{RangeStore C} device tid {A} (p p' : prog A) (g g' : Shared C) :
  only p → thread_step device tid p g p' g' → only p'.
Proof.
  destruct p as [A a|A|R A op k|S0 B A body s k]; cbn; try done.
  - intros [_ Hk]. destruct (op_panics op g); [by intros [_ ->]|].
    intros (r & _ & ->). apply Hk.
  - intros [Hb Hk] [_ ->]. apply only_bind; [apply Hb|]. intros [s'|b]; [done|apply Hk].
Qed.

End Footprint.

(** Follows the program's structure; what is left are the actions. *)
Ltac footprint :=
  repeat match goal with
  | |- only _ (lift_go _) => apply only_lift_go
  | |- only _ (act _) => apply only_act
  | |- only _ (leave _ _ _ _) => apply only_leave
  | |- only _ (Done _) => exact I
  | |- only _ (mbind _ _) => apply only_bind; [|intros ?]
  | |- only _ (Iter _ _ _) => split; [intros ?|intros ?]
  | |- only _ (match ?x with _ => _ end) => destruct x
  | |- only _ (let '(_, _) := ?x in _) => destruct x
  end.

Section Handlers.
Context (cfg : Config) (req : Request).
Let ok R (op : Op R) := allowed cfg req op.

(** ** The log lines *)

Ltac arg_cases H :=
  rewrite ?elem_of_cons, ?elem_of_nil in H; destruct_or? H; try discriminate H; try (destruct H; fail).
Ltac log_args :=
  split; cbn; [by left|by right; left
  |intros ? Ha; arg_cases Ha; congruence
  |intros Hs; arg_cases Hs; (split; [by auto|intros ? Ha; arg_cases Ha])].

Lemma plain_log_about message tail :
  Forall (λ a, fst a ≠ "attempts" ∧ fst a ≠ "stale_fallback_selected") tail →
  log_about cfg req (line_args (debug message
    (("slave_id", AInt (SlaveID req)) :: ("func", AHex (FunctionCode req)) :: tail))).
Proof.
  intros Ht. rewrite Forall_forall in Ht. split; cbn; [by left|by right; left|..].
  - intros n. rewrite !elem_of_cons. intros [?|[?|[? _]%Ht]]; done.
  - rewrite !elem_of_cons. intros [?|[?|[_ ?]%Ht]]; done.
Qed.

Lemma completion_log_about c : log_about cfg req (line_args (logCoalescedCompletion req c)).
Proof. log_args. Qed.

Lemma failure_log_about c e b :
  (b = true → CacheServeStale cfg = true) →
  log_about cfg req (line_args (logCoalescedFailure req c e b)).
Proof. intros Hb. destruct b; log_args. Qed.

Lemma wait_log_about c e : log_about cfg req (line_args (logCoalescingWait req c e)).
Proof. destruct e; log_args. Qed.

Lemma stale_log_about c e :
  CacheServeStale cfg = true → log_about cfg req (line_args (logStaleFallback req c e)).
Proof. intros Hc. log_args. Qed.

Lemma CoalesceWithStatus_only gen (p : prog outcome) :
  IsReadFunction (FunctionCode req) = true → only ok p →
  only ok (CoalesceWithStatus (coalesce_key gen req) p).
Proof.
  intros Hr Hp. unfold CoalesceWithStatus, coalesce_body, follow, lead.
  footprint; cbn; eauto.
Qed.

Lemma fetch_only gen :
  IsReadFunction (FunctionCode req) = true → valid_request req → only ok (fetch gen req).
Proof.
  intros Hr Hv. unfold fetch. footprint; try done.
  repeat split; [done|]. intros Hw. by rewrite (read_not_write _ Hr) in Hw.
Qed.

Lemma identity_log_only message : only ok (act (Log (debug message (identity_args req)))).
Proof. apply only_act, plain_log_about. by repeat constructor. Qed.

Lemma log_success_only c : only ok (log_success req c).
Proof.
  unfold log_success. footprint; [apply completion_log_about|apply wait_log_about].
Qed.

Lemma log_failure_only c e b :
  (b = true → CacheServeStale cfg = true) → only ok (log_failure req c e b).
Proof.
  intros Hb. unfold log_failure.
  footprint; [by apply failure_log_about|apply wait_log_about].
Qed.

Lemma handleRead_only :
  IsReadFunction (FunctionCode req) = true → valid_request req → only ok (handleRead cfg req).
Proof.
  intros Hr Hv. unfold handleRead, respond.
  apply only_bind; [by apply only_act|intros [values|gen]].
  { apply only_bind; [apply identity_log_only|intros _]. by footprint. }
  apply only_bind; [apply identity_log_only|intros _].
  apply only_bind; [by apply CoalesceWithStatus_only, fetch_only|].
  intros [[data|err] c]; [apply only_bind; [apply log_success_only|done]|].
  assert (Hfail : only ok (_ ← log_failure req c err false; Done (@inr (list Z) error err))).
  { apply only_bind; [by apply log_failure_only|done]. }
  destruct (CacheServeStale cfg) eqn:Hc; cbn [andb]; [|exact Hfail].
  apply only_bind; [unfold requestContextActive; by footprint|intros active].
  apply only_bind; [by destruct active; [apply only_act|]|intros [values|]; [|exact Hfail]].
  apply only_bind; [by apply log_failure_only|intros _].
  apply only_bind; [by apply only_act, stale_log_about|intros _]. by footprint.
Qed.

Lemma write_log_only message : only ok (act (Log (debug message (write_args req)))).
Proof. apply only_act, plain_log_about. by repeat constructor. Qed.

Lemma handleWrite_only :
  IsWriteFunction (FunctionCode req) = true → valid_request req → only ok (handleWrite cfg req).
Proof.
  intros Hw Hv. unfold handleWrite.
  destruct (decide _); [apply only_bind; [apply write_log_only|done]|].
  destruct (decide _); [apply only_bind; [apply write_log_only|done]|].
  footprint; done.
Qed.

Lemma HandleRequest_only : wf_request req → only ok (HandleRequest cfg (Some req)).
Proof.
  intros Hwf. unfold HandleRequest.
  destruct (validate_outcome req Hwf) as [Hv|code f args]; [|done].
  cbn [lift_go mbind prog_mbind prog_bind].
  destruct (IsWriteFunction (FunctionCode req)) eqn:Hw; [by apply handleWrite_only|].
  destruct (IsReadFunction (FunctionCode req)) eqn:Hr; [by apply handleRead_only|].
  apply only_bind; [apply only_act, plain_log_about; by repeat constructor|intros _].
  apply only_act. repeat split; [done|congruence].
Qed.

End Handlers.

Lemma reachable_only {C} `{RangeStore C} device cfg (c : C) σ tid th :
  reachable device cfg c σ → threads σ tid = Some th →
  only (λ R (op : Op R), allowed cfg (t_req th) op) (t_prog th).
Proof.
  intros Hr. revert tid th. induction Hr as [|σ σ' Hr IH Hstep]; [done|].
  intros tid th Hth. destruct Hstep as [tid' req σ Hf Hwf|tid' th' p' g' σ Hth' Hstep|c' σ He];
    cbn in Hth; [| |by eapply IH].
  all: destruct (decide (tid = tid')) as [->|]; [rewrite set_thread_eq in Hth|
    rewrite set_thread_ne in Hth by done; by eapply IH].
  all: injection Hth as <-; cbn [t_req t_prog start continue_with].
  - by apply HandleRequest_only.
  - eapply only_step; [by eapply IH|done].
Qed.

(** * Requests answered without any action *)

Lemma HandleRequest_invalid cfg req :
  wf_request req → ¬ valid_request req →
  ∃ code, violation req code ∧
    HandleRequest cfg (Some req) = Done (inl [Z.lor (FunctionCode req) 0x80; code]).
Proof.
  intros Hwf Hv. unfold HandleRequest.
  destruct (validate_outcome req Hwf) as [|code f args Hc]; [done|]. by exists code.
Qed.

Lemma HandleRequest_write cfg req :
  wf_request req → valid_request req → IsWriteFunction (FunctionCode req) = true →
  HandleRequest cfg (Some req) = handleWrite cfg req.
Proof.
  intros Hwf Hv Hw. unfold HandleRequest. apply validate_ok in Hv as ->; [|done].
  cbn [lift_go mbind prog_mbind prog_bind]. by rewrite Hw.
Qed.

(** The normal response to a write starts with the request's own first bytes. *)
Lemma fake_response_echo req :
  wire_request req → valid_request req → IsWriteFunction (FunctionCode req) = true →
  buildFakeWriteResponse req = take 5 (PDU req).
Proof.
  intros Hwire Hv Hw. destruct Hwire as [Hwf Hpdu _ _ Hshape]. rewrite Hpdu.
  unfold encode_pdu, buildFakeWriteResponse.
  destruct (IsReadFunction (FunctionCode req)) eqn:Hr; [by rewrite (read_not_write _ Hr) in Hw|].
  case_decide; [|case_decide].
  - destruct Hshape as [_ Hd]. unfold first_two. rewrite decide_True by lia.
    unfold len in Hd. destruct (Data req) as [|b0 [|b1 [|]]]; cbn [length] in Hd; try lia. done.
  - done.
  - exfalso. apply IsWriteFunction_spec in Hw. rewrite !elem_of_cons, elem_of_nil in Hw.
    unfold FuncWriteSingleCoil, FuncWriteSingleRegister, FuncWriteMultipleCoils,
      FuncWriteMultipleRegs in *. lia.
Qed.

(** * Properties *)

(** C15 Every handler stays within the footprint of its request, in every run:
    a goroutine exchanges only its own request, and only a valid one; it sends
    a write only when writes are forwarded; only forwarded writes invalidate
    the cache, and only their own range; only reads consult, fill or coalesce,
    under a key of their own range; expired values are consulted only when the
    configuration asks for stale serving; and every log line is about its own
    request, claims no attempts, and reports no delivered exception together
    with a stale fallback. *)
Theorem handler_footprint {C} `{RangeStore C} (device : nat → Request → outcome) (cfg : Config)
    (c : C) (σ : sys C) (tid : nat) (th : thread)
    (Hr : reachable device cfg c σ) (Hth : threads σ tid = Some th) :
  next_ok (λ R (op : Op R), allowed cfg (t_req th) op) (t_prog th).
Proof. apply only_next. by eapply reachable_only. Qed.

(** C16 Read-only proxies answer writes by themselves: when writes are ignored,
    a valid write is answered with the response a device gives (the first five
    bytes of the request), and when they are denied, with exception 1; in both
    cases after a log line and with no action on the cache, the device or the
    coalescer. *)
Theorem readonly_writes_are_local (cfg : Config) (req : Request)
    (Hwire : wire_request req) (Hv : valid_request req)
    (Hw : IsWriteFunction (FunctionCode req) = true) :
  (ReadOnly cfg = ReadOnlyOn → ∃ line, HandleRequest cfg (Some req) =
     Act (Log line) (λ _, Done (inl (take 5 (PDU req))))) ∧
  (ReadOnly cfg = ReadOnlyDeny → ∃ line, HandleRequest cfg (Some req) =
     Act (Log line) (λ _, Done (inl [Z.lor (FunctionCode req) 0x80; ExcIllegalFunction]))).
Proof.
  rewrite HandleRequest_write by (try apply wire_wf; done).
  rewrite <- fake_response_echo by done. unfold handleWrite.
  split; intros ->; by eexists.
Qed.

(** C17 A request outside the protocol's limits is answered at once, whatever
    the configuration: with the exception that names the violated limit, and
    before any action on the cache, the device or the coalescer. *)
Theorem invalid_requests_are_local (cfg : Config) (req : Request)
    (Hwf : wf_request req) (Hv : ¬ valid_request req) :
  ∃ code, violation req code ∧
    HandleRequest cfg (Some req) = Done (inl [Z.lor (FunctionCode req) 0x80; code]).
Proof. by apply HandleRequest_invalid. Qed.

(** ** The theorems at concrete inputs *)

Lemma handler_footprint_witness :
  ∃ th, threads (after waiting_schedule) 1 = Some th ∧ t_req th = read_two ∧
    next_ok (λ R (op : Op R), allowed sample_cfg (t_req th) op) (t_prog th).
Proof.
  destruct (thread_view_Some (after waiting_schedule) 1 read_two [first_write] None None)
    as (th & Hth & Hreq & _); [vm_compute; reflexivity|].
  exists th. split; [exact Hth|]. split; [exact Hreq|].
  apply (handler_footprint sample_device sample_cfg (New (10 * second) false)
    (after waiting_schedule) 1 th).
  - apply after_reachable, waiting_schedule_ok.
  - exact Hth.
Defined.

Definition with_readonly (m : string) : Config :=
  {| Listen := Listen sample_cfg; Upstream := Upstream sample_cfg;
     DefaultSlaveID := DefaultSlaveID sample_cfg; CacheTTL := CacheTTL sample_cfg;
     CacheServeStale := CacheServeStale sample_cfg; ReadOnly := m;
     AttemptTimeout := AttemptTimeout sample_cfg; RequestTimeout := RequestTimeout sample_cfg;
     RequestDelay := RequestDelay sample_cfg; ConnectDelay := ConnectDelay sample_cfg;
     ShutdownTimeout := ShutdownTimeout sample_cfg; HealthListen := HealthListen sample_cfg;
     LogLevel := LogLevel sample_cfg |}.

Lemma write_one_ok : wire_request write_one ∧ valid_request write_one.
Proof.
  split; [split; [apply samples_well_formed|by vm_compute..]|].
  split; [by vm_compute|unfold address_valid; cbn; lia].
Qed.

Lemma readonly_writes_are_local_witness :
  (∃ line, HandleRequest (with_readonly ReadOnlyOn) (Some write_one) =
     Act (Log line) (λ _, Done (inl [6; 0; 101; 0; 9]))) ∧
  (∃ line, HandleRequest (with_readonly ReadOnlyDeny) (Some write_one) =
     Act (Log line) (λ _, Done (inl [0x86; 1]))).
Proof.
  split.
  - apply (readonly_writes_are_local (with_readonly ReadOnlyOn) write_one);
      [apply write_one_ok|apply write_one_ok|reflexivity|reflexivity].
  - apply (readonly_writes_are_local (with_readonly ReadOnlyDeny) write_one);
      [apply write_one_ok|apply write_one_ok|reflexivity|reflexivity].
Defined.

(** One register past the end of the address space. *)
Definition read_past_end : Request :=
  {| TransactionID := 1; SlaveID := 1; FunctionCode := 3; Address := 65535; Quantity := 2;
     Data := []; PDU := [3; 255; 255; 0; 2] |}.

Lemma read_past_end_bad : wf_request read_past_end ∧ ¬ valid_request read_past_end.
Proof.
  split; [by repeat constructor|].
  intros [_ Ha]. unfold address_valid in Ha. cbn in Ha. lia.
Qed.

Lemma invalid_requests_are_local_witness :
  ∃ code, violation read_past_end code ∧
    HandleRequest sample_cfg (Some read_past_end) = Done (inl [0x83; code]).
Proof.
  apply (invalid_requests_are_local sample_cfg read_past_end); apply read_past_end_bad.
Defined.
