(* ===== verification/Gateway.v ===== *)
(** The parts put together: the handlers of Proxy.v over the cache of Cache.v,
    with [Exec] run as the upstream client's [Execute] of Client.v, for one
    request at a time.

    [seq_run] interprets a handler's program when no other goroutine runs: the
    in-flight table is empty, so every fetch is led.  The theorems compose what
    the parts promise into statements about a request from its validation to
    the device and back. *)

From stdpp Require Import base list numbers strings gmap.
From S2P Require Import Prelude Request Errors Validate Codec Cache Config Health Effects Client ClientSpec ClientProps Proxy Program System.

(** The proxy with its client's state. *)
Record gateway (W : Type) := {
  gw_proxy : Proxy Cache;
  gw_client : St W;
}.
Arguments gw_proxy {W} _.
Arguments gw_client {W} _.

Section Gateway.
Context {W : Type} `{EnvLaws W}.
(** The clock readings of a range lookup. *)
Context (cache_now : W → Z → Z).
Context (ctx : Ctx).

Definition gw_world (g : gateway W) : W := world (gw_client g).

Definition with_proxy (p : Proxy Cache) (g : gateway W) : gateway W :=
  {| gw_proxy := p; gw_client := gw_client g |}.
Definition with_client (σ : St W) (g : gateway W) : gateway W :=
  {| gw_proxy := gw_proxy g; gw_client := σ |}.

(** A question to the environment. *)
Definition gw_ask {R} (f : W → R * W) (g : gateway W) : R * gateway W :=
  let '(r, w) := f (gw_world g) in
  (r, with_client {| client := client (gw_client g); frame := frame (gw_client g); world := w;
                     trace := trace (gw_client g) |} g).

(** ** One action *)
Definition seq_op {R} (op : Op R) : gateway W → go (R * gateway W) :=
  match op in Op R return gateway W → go (R * gateway W) with
  | Lookup req => λ g, Ret (lookup_section (cache_now (gw_world g)) req (gw_proxy g), g)
  | Store generation req values => λ g,
      let '(now, g) := gw_ask env_time_Now g in
      Ret ((), with_proxy (store_section generation now req values (gw_proxy g)) g)
  | Stale req => λ g, Ret (stale_section req (gw_proxy g), g)
  | Invalidate _ req => λ g, Ret ((), with_proxy (write_section req (gw_proxy g)) g)
  | Exec req => λ g,
      match Execute ctx req (gw_client g) with
      | Ret (Val r, σ) | Ret (Return r, σ) => Ret (r, with_client σ g)
      | _ => Panic
      end
  | CtxErr => λ g, Ret (match ctx with Background => (None, g) | ReqCtx _ => gw_ask env_ctx_Err g end)
  | CtxDeadline => λ g, Ret (ctx_Deadline ctx, g)
  | TimeNow => λ g, Ret (gw_ask env_time_Now g)
  | Log _ => λ g, Ret ((), g)
  | Inflight _ => λ g, Ret ((0%nat, false), g)
  | Await _ => λ g, Ret (None, g)
  | SetResult _ _ _ => λ g, Ret ((), g)
  | Forget _ => λ g, Ret ((), g)
  | CloseDone _ => λ g, Ret ((), g)
  end.

(** ** A program; [fuel] bounds the rounds of a loop *)

Fixpoint seq_iter {S B} (step : S → gateway W → option (go ((S + B) * gateway W))) (fuel : nat)
    (s : S) (g : gateway W) : option (go (B * gateway W)) :=
  match fuel with
  | O => None
  | Datatypes.S fuel =>
    match step s g with
    | Some (Ret (inl s, g)) => seq_iter step fuel s g
    | Some (Ret (inr b, g)) => Some (Ret (b, g))
    | Some Panic => Some Panic
    | None => None
    end
  end.

Fixpoint seq_run (fuel : nat) {A} (p : prog A) : gateway W → option (go (A * gateway W)) :=
  match p in prog A return gateway W → option (go (A * gateway W)) with
  | Done a => λ g, Some (Ret (a, g))
  | Crash => λ g, Some Panic
  | Act op k => λ g,
      match seq_op op g with
      | Ret (r, g) => seq_run fuel (k r) g
      | Panic => Some Panic
      end
  | Iter body s k => λ g,
      match seq_iter (λ s, seq_run fuel (body s)) fuel s g with
      | Some (Ret (b, g)) => seq_run fuel (k b) g
      | Some Panic => Some Panic
      | None => None
      end
  end.

(** The server's view of one request. *)
Definition serve (cfg : Config) (req : Request) (g : gateway W) : option (go (outcome * gateway W)) :=
  seq_run 1 (HandleRequest cfg (Some req)) g.

(** * Rules *)

(** The program ends from [g], with [Q]. *)
Definition runs {A} (p : prog A) (Q : A → gateway W → Prop) (g : gateway W) : Prop :=
  ∃ a g', seq_run 1 p g = Some (Ret (a, g')) ∧ Q a g'.

Lemma runs_done {A} (a : A) (Q : A → gateway W → Prop) g : Q a g → runs (Done a) Q g.
Proof. intros. by exists a, g. Qed.

Lemma runs_act {R A} (op : Op R) (k : R → prog A) Q g r g' :
  seq_op op g = Ret (r, g') → runs (k r) Q g' → runs (Act op k) Q g.
Proof. intros Hop (a & g1 & E & HQ). exists a, g1. split; [|done]. cbn. by rewrite Hop. Qed.

Lemma seq_run_bind {A B} (p : prog A) (f : A → prog B) g :
  seq_run 1 (prog_bind p f) g =
    match seq_run 1 p g with
    | Some (Ret (a, g)) => seq_run 1 (f a) g
    | Some Panic => Some Panic
    | None => None
    end.
Proof.
  revert g. induction p as [A a|A|R A op k IH|S0 B0 A body IHb s k IHk]; intros g; cbn; try done.
  - destruct (seq_op op g) as [[r g']|]; [apply IH|done].
  - destruct (seq_run 1 (body s) g) as [[[[s'|b] g']|]|]; try apply IHk; done.
Qed.

Lemma runs_bind {A B} (p : prog A) (f : A → prog B) Q g :
  runs p (λ a, runs (f a) Q) g → runs (p ≫= f) Q g.
Proof.
  intros (a & g' & E & b & g'' & E' & HQ). exists b, g''. split; [|done].
  change (p ≫= f) with (prog_bind p f). by rewrite seq_run_bind, E.
Qed.

(** A loop whose first round ends it. *)
Lemma runs_iter {S B A} (body : S → prog (S + B)) s (k : B → prog A) Q g :
  runs (body s) (λ r g', ∃ b, r = inr b ∧ runs (k b) Q g') g → runs (Iter body s k) Q g.
Proof.
  intros (r & g' & E & b & -> & a & g'' & E' & HQ). exists a, g''. split; [|done].
  cbn. by rewrite E.
Qed.

Lemma runs_mono {A} (p : prog A) (Q Q' : A → gateway W → Prop) g :
  runs p Q g → (∀ a g', Q a g' → Q' a g') → runs p Q' g.
Proof. intros (a & g' & E & HQ) HQQ. exists a, g'. auto. Qed.

(** Actions that ask the environment or the shared state only. *)
Definition is_local {R} (op : Op R) : bool :=
  match op with Exec _ | Store _ _ _ | Invalidate _ _ => false | _ => true end.

(** The two ends of a local action: the proxy and the trace are the same. *)
Definition same (g g' : gateway W) : Prop :=
  gw_proxy g' = gw_proxy g ∧ trace (gw_client g') = trace (gw_client g).

Lemma same_refl g : same g g.
Proof. done. Qed.

Lemma same_trans g1 g2 g3 : same g1 g2 → same g2 g3 → same g1 g3.
Proof. intros [? ?] [? ?]. split; congruence. Qed.

Lemma gw_ask_same {R} (f : W → R * W) g : ∃ r g', gw_ask f g = (r, g') ∧ same g g'.
Proof. unfold gw_ask. destruct (f (gw_world g)) as [r w]. eexists _, _. by split. Qed.

Lemma runs_local {R A} (op : Op R) (k : R → prog A) Q g :
  is_local op = true → (∀ r g', same g g' → runs (k r) Q g') → runs (Act op k) Q g.
Proof.
  intros Hop Hk. assert (H1 : ∃ r g', seq_op op g = Ret (r, g') ∧ same g g').
  { destruct op; try done; cbn; try (by eexists _, _).
    - destruct ctx; [by eexists _, _|]. destruct (gw_ask_same env_ctx_Err g) as (r & g' & -> & ?). eauto.
    - destruct (gw_ask_same env_time_Now g) as (r & g' & -> & ?). eauto. }
  destruct H1 as (r & g' & E & Hs). eapply runs_act; [done|]. by apply Hk.
Qed.

(** What a request may have sent upstream. *)
Definition upstream (req : Request) (g g' : gateway W) : Prop :=
  ∃ tr, trace (gw_client g') = trace (gw_client g) ++ tr ∧
    disciplined req (omap (as_attempt req) tr) ∧
    Forall (λ c, Some (fst c) = request_call req) (omap as_call tr).

Lemma upstream_same req g1 g2 g3 : same g1 g2 → upstream req g2 g3 → upstream req g1 g3.
Proof. intros [_ Ht] (tr & ? & ?). exists tr. by rewrite <- Ht. Qed.

Lemma same_upstream req g1 g2 g3 : upstream req g1 g2 → same g2 g3 → upstream req g1 g3.
Proof. intros (tr & Ht & ?) [_ Hs]. exists tr. by rewrite Hs. Qed.

Lemma upstream_none req g g' : same g g' → upstream req g g'.
Proof. intros [_ Ht]. exists []. rewrite app_nil_r. split; [done|]. split; [|done]. by split. Qed.

Lemma runs_exec {A} req (k : outcome → prog A) Q g :
  wf_request req →
  (∀ r g', gw_proxy g' = gw_proxy g → upstream req g g' → runs (k r) Q g') → runs (Act (Exec req) k) Q g.
Proof.
  intros Hwf Hk. destruct (Execute_machine req ctx (gw_client g) Hwf) as (r & σ' & tr & p & E & Ht & Hp & _).
  eapply (runs_act _ _ _ _ r); [cbn; by rewrite E|]. apply Hk; [done|]. exists tr. split; [done|].
  destruct (machine_disciplined _ _ _ _ Hp) as [Hd Hc]. by rewrite (machine_tries _ _ _ _ Hp) in Hd.
Qed.

(** Running alone is one of the behaviours Program.v allows: what [seq_op] does
    is a step of [op_step] on the shared state, when the in-flight table has no
    entry for the key and the device answers as [Execute] does. *)
Definition alone (device : nat → Request → outcome) {R} (op : Op R) (r : R) (s : Shared Cache) : Prop :=
  match op in Op R return R → Prop with
  | Exec req => λ r, device (wire s) req = r
  | Inflight key => λ _, inflight s !! key = None ∧ objs s !! 0%nat = None
  | _ => λ _, True
  end r.

Lemma seq_op_step device tid {R} (op : Op R) g r g' s :
  seq_op op g = Ret (r, g') → px s = gw_proxy g → alone device op r s →
  ∃ s', op_step device tid op s r s' ∧ px s' = gw_proxy g'.
Proof.
  intros E Hp Ha.
  assert (Hask : ∀ X (f : W → X * W), gw_proxy (snd (gw_ask f g)) = gw_proxy g)
    by (intros X f; unfold gw_ask; by destruct (f _)).
  destruct op; cbn in E, Ha |- *.
  - injection E as <- <-. eexists. split; [split; [done|by eexists; rewrite Hp]|done].
  - pose proof (Hask _ env_time_Now) as Hk. destruct (gw_ask env_time_Now g) as [now g1]. injection E as <- <-.
    eexists. split; [by exists now|]. cbn in *. by rewrite Hp, Hk.
  - injection E as <- <-. eexists. split; [split; [done|by rewrite Hp]|done].
  - injection E as <- <-. eexists. split; [done|]. cbn. by rewrite Hp.
  - eexists. split; [done|].
    by repeat case_match; simplify_eq/=.
  - exists s. split; [done|]. rewrite Hp. destruct ctx; [by simplify_eq|].
    rewrite <- (Hask _ env_ctx_Err). by simplify_eq/=; rewrite E.
  - exists s. by simplify_eq.
  - exists s. split; [done|]. rewrite Hp, <- (Hask _ env_time_Now). by simplify_eq/=; rewrite E.
  - exists s. by simplify_eq.
  - destruct Ha as [-> Ho]. injection E as <- <-. eexists. split; [by exists 0%nat|done].
  - exists s. simplify_eq. auto.
  - injection E as <- <-. by eexists.
  - injection E as <- <-. by eexists.
  - injection E as <- <-. by eexists.
Qed.

(** * The handlers *)

Section Handlers.
Context (cfg : Config).

(** A successful fetch has been stored, with a reading of the clock, unless its
    response is too short to take apart. *)
Definition stored (gen : Z) (req : Request) (g : gateway W) (r : outcome) (g' : gateway W) : Prop :=
  ∀ data values, r = inl data →
    decomposeResponse (FunctionCode req) (Quantity req) data = Ret (Some values) →
    ∃ t w w', env_time_Now w = (t, w') ∧ gw_proxy g' = store_section gen t req values (gw_proxy g).

Definition fetched_from (gen : Z) (req : Request) (g : gateway W) (r : outcome) (g' : gateway W) : Prop :=
  upstream req g g' ∧ stored gen req g r g'.

Lemma fetched_error gen req g e g' : upstream req g g' → fetched_from gen req g (inr e) g'.
Proof. intros. split; [done|]. by intros ? ? ?. Qed.

Lemma fetched_same gen req g1 g2 r g3 g4 :
  same g1 g2 → fetched_from gen req g2 r g3 → same g3 g4 → fetched_from gen req g1 r g4.
Proof.
  intros Hs12 [Hu Hst] Hs34. split; [by eapply upstream_same, same_upstream|].
  intros data values Hr Hd. destruct (Hst data values Hr Hd) as (t & w & w' & Ht & Hp).
  exists t, w, w'. split; [done|]. destruct Hs12 as [<- _], Hs34 as [-> _]; done.
Qed.

Lemma fetch_runs gen req g :
  read_request req → runs (fetch gen req) (fetched_from gen req g) g.
Proof.
  intros Hr. pose proof Hr as [Hwf _]. destruct (read_request_range req Hr) as [_ Hq].
  unfold fetch. apply runs_bind. apply runs_exec; [done|]. intros r g1 Hp Hu. apply runs_done.
  destruct r as [data|e]; [|by apply runs_done, fetched_error].
  destruct (decomposeResponse (FunctionCode req) (Quantity req) data) as [vs|] eqn:Hd.
  2: { by rewrite (decompose_spec _ _ _ Hq) in Hd. }
  cbn [lift_go]. apply runs_bind, runs_done. destruct vs as [values|].
  - apply runs_bind. destruct (env_time_Now (gw_world g1)) as [t w'] eqn:Ht.
    eapply runs_act; [cbn; unfold gw_ask; by rewrite Ht|]. apply runs_done, runs_done.
    split; [done|]. intros data' values' [= <-]. rewrite Hd. intros [= <-].
    exists t, (gw_world g1), w'. split; [done|]. cbn. by rewrite Hp.
  - apply runs_done. split; [done|]. intros data' values' [= <-]. by rewrite Hd.
Qed.

Lemma lead_runs gen req key id tw waited g :
  read_request req →
  runs (lead key (fetch gen req) id tw waited)
    (λ r g', ∃ o c, r = inr (o, c) ∧ fetched_from gen req g o g') g.
Proof.
  intros Hr. unfold lead. apply runs_bind. eapply runs_mono; [by apply fetch_runs|].
  intros r g1 Hf. apply runs_bind.
  assert (Herr : runs (match r with inl _ => act CtxErr | inr e => Done (Some e) end)
    (λ err g2, same g1 g2 ∧ (err = None → ∃ data, r = inl data)) g1).
  { destruct r as [data|e]; [|by apply runs_done].
    apply runs_local; [done|]. intros err g2 ?. apply runs_done. eauto. }
  eapply runs_mono; [exact Herr|]. intros err g2 [Hs2 Hn].
  apply runs_bind, runs_local; [done|]. intros [] g3 Hs3. apply runs_done.
  apply runs_bind, runs_local; [done|]. intros [] g4 Hs4. apply runs_done.
  apply runs_bind, runs_local; [done|]. intros [] g5 Hs5. apply runs_done.
  assert (Hf' : fetched_from gen req g r g5).
  { eapply fetched_same; [apply same_refl|exact Hf|]. by eauto using same_trans. }
  destruct err as [e|]; apply runs_done; eexists _, _; (split; [done|]).
  - apply fetched_error, Hf'.
  - destruct (Hn eq_refl) as [data ->]. exact Hf'.
Qed.

Lemma Coalesce_runs gen req key g :
  read_request req →
  runs (CoalesceWithStatus key (fetch gen req)) (λ '(o, c) g', fetched_from gen req g o g') g.
Proof.
  intros Hr. unfold CoalesceWithStatus. apply runs_iter. unfold coalesce_body.
  apply runs_bind, runs_local; [done|]. intros err g1 Hs1. apply runs_done.
  destruct err as [e|].
  { apply runs_done. eexists. split; [done|]. apply runs_done. by apply fetched_error, upstream_none. }
  apply runs_bind. eapply runs_act; [done|]. apply runs_done.
  eapply runs_mono; [by apply lead_runs|]. intros r g' (o & c & -> & Hf).
  eexists. split; [done|]. apply runs_done. by eapply fetched_same; [| |apply same_refl].
Qed.

Lemma log_success_runs req c (Q : () → gateway W → Prop) g :
  (∀ g', same g g' → Q () g') → runs (log_success req c) Q g.
Proof.
  intros HQ. unfold log_success.
  destruct (Coalesced c); [|destruct (Waited c); [|by apply runs_done, HQ, same_refl]];
    (apply runs_local; [done|]; intros [] g' ?; apply runs_done; by apply HQ).
Qed.

Lemma log_failure_runs req c e b (Q : () → gateway W → Prop) g :
  (∀ g', same g g' → Q () g') → runs (log_failure req c e b) Q g.
Proof.
  intros HQ. unfold log_failure.
  destruct (Coalesced c); [|destruct (Waited c); [|by apply runs_done, HQ, same_refl]];
    (apply runs_local; [done|]; intros [] g' ?; apply runs_done; by apply HQ).
Qed.

Lemma respond_runs req values (Q : outcome → gateway W → Prop) g :
  read_request req → len values = Quantity req →
  (∀ resp, assembleResponse (FunctionCode req) (Quantity req) values = Ret resp → Q (inl resp) g) →
  runs (respond req values) Q g.
Proof.
  intros Hr Hl HQ. destruct (read_request_range req Hr) as [_ Hq].
  destruct (assemble_total _ _ _ Hq Hl) as [resp E]. unfold respond. rewrite E.
  apply runs_bind, runs_done, runs_done. by apply HQ.
Qed.

Lemma requestContextActive_runs (Q : bool → gateway W → Prop) g :
  (∀ b g', same g g' → Q b g') → runs requestContextActive Q g.
Proof.
  intros HQ. unfold requestContextActive. apply runs_bind, runs_local; [done|].
  intros [e|] g1 H1; apply runs_done; [by apply runs_done, HQ|].
  apply runs_bind, runs_local; [done|]. intros [d|] g2 H2; apply runs_done.
  - apply runs_bind, runs_local; [done|]. intros t g3 H3. apply runs_done, runs_done, HQ.
    eauto using same_trans.
  - apply runs_done, HQ. eauto using same_trans.
Qed.

(** A read, whether it hits, fetches, fails or falls back to stale values. *)
Lemma handleRead_runs req g :
  read_request req →
  runs (handleRead cfg req)
    (λ r g', upstream req g g' ∧
       ∀ gen, lookup_section (cache_now (gw_world g)) req (gw_proxy g) = inr gen →
         CacheServeStale cfg = false → stored gen req g r g') g.
Proof.
  intros Hr. destruct (read_request_range req Hr) as [Hv _]. unfold handleRead.
  apply runs_bind. eapply runs_act; [done|]. apply runs_done.
  destruct (lookup_section _ req (gw_proxy g)) as [values|gen] eqn:Hl.
  { apply runs_bind, runs_local; [done|]. intros [] g1 H1. apply runs_done.
    apply respond_runs; [done| |].
    - unfold lookup_section in Hl. destruct (rs_GetRange _ _ _ _ _ _) eqn:Hg; [|done].
      injection Hl as ->. by eapply GetRange_length.
    - intros resp _. split; [by apply upstream_none|done]. }
  apply runs_bind, runs_local; [done|]. intros [] g1 H1. apply runs_done.
  apply runs_bind. eapply runs_mono; [by apply Coalesce_runs|]. intros [r c] g2 Hf.
  assert (Hfin : ∀ r' g', same g2 g' → r = r' → upstream req g g' ∧
    ∀ gen0, @inr (list (list Z)) Z gen = inr gen0 → CacheServeStale cfg = false → stored gen0 req g r' g').
  { intros r' g' Hs <-. destruct (fetched_same gen req g g1 r g2 g' H1 Hf Hs) as [? Hst].
    split; [done|]. by intros gen0 [= <-] _. }
  destruct r as [data|err].
  { apply runs_bind, log_success_runs. intros g3 H3. apply runs_done. by apply Hfin. }
  assert (Hfail : ∀ g3, same g2 g3 → runs (_ ← log_failure req c err false; Done (inr err))
    (λ r g', upstream req g g' ∧ ∀ gen0, @inr (list (list Z)) Z gen = inr gen0 →
       CacheServeStale cfg = false → stored gen0 req g r g') g3).
  { intros g3 H3. apply runs_bind, log_failure_runs. intros g4 H4. apply runs_done, Hfin; [|done].
    eauto using same_trans. }
  destruct (CacheServeStale cfg) eqn:Hstale; cbn [andb].
  2: { apply runs_bind, runs_done, runs_bind, runs_done. by apply Hfail. }
  apply runs_bind.
  assert (Hact : runs (if bool_decide (ErrorKindOf (Some err) ≠ ErrorProtocolException)
    then requestContextActive else Done false) (λ _ g', same g2 g') g2).
  { case_bool_decide; [by apply requestContextActive_runs|by apply runs_done]. }
  eapply runs_mono; [exact Hact|]. intros active g3 H3. apply runs_bind.
  destruct active; [|by apply runs_done, Hfail].
  eapply runs_act; [done|]. apply runs_done.
  destruct (stale_section req (gw_proxy g3)) as [values|] eqn:Hsv; [|by apply Hfail].
  apply runs_bind, log_failure_runs. intros g4 H4.
  apply runs_bind, runs_local; [done|]. intros [] g5 H5. apply runs_done.
  apply respond_runs; [done| |].
  - unfold stale_section in Hsv. by eapply GetRangeStale_length.
  - intros resp _. split; [|by intros ? _ ?]. eapply (same_upstream _ _ g2); [|by eauto using same_trans].
    eapply upstream_same; [exact H1|apply Hf].
Qed.

Lemma handleWrite_runs req g :
  wf_request req →
  runs (handleWrite cfg req)
    (λ _ g', upstream req g g' ∧ (ReadOnly cfg ≠ ReadOnlyOff → same g g')) g.
Proof.
  intros Hwf. unfold handleWrite.
  case_decide as H1; [|case_decide as H2; [|case_decide as H3]].
  - apply runs_bind, runs_local; [done|]. intros [] g1 Hs. apply runs_done, runs_done.
    split; [by apply upstream_none|done].
  - apply runs_bind, runs_local; [done|]. intros [] g1 Hs. apply runs_done, runs_done.
    split; [by apply upstream_none|done].
  - apply runs_bind. eapply runs_act; [done|]. apply runs_done.
    apply runs_bind, runs_exec; [done|]. intros r g1 _ Hu. apply runs_done.
    apply runs_bind. eapply runs_act; [done|]. apply runs_done, runs_done. split; [exact Hu|done].
  - apply runs_done. split; [by apply upstream_none|done].
Qed.

Lemma serve_runs req g :
  wf_request req →
  runs (HandleRequest cfg (Some req))
    (λ _ g', upstream req g g' ∧
       (¬ valid_request req ∨ IsWriteFunction (FunctionCode req) = true ∧ ReadOnly cfg ≠ ReadOnlyOff →
          same g g')) g.
Proof.
  intros Hwf. unfold HandleRequest. destruct (validate_outcome req Hwf) as [Hv|code f args Hc].
  2: { apply runs_bind, runs_done, runs_done. split; [by apply upstream_none|done]. }
  apply runs_bind, runs_done. destruct (IsWriteFunction (FunctionCode req)) eqn:Hw.
  { eapply runs_mono; [by apply handleWrite_runs|]. intros _ g' [? Hro]. split; [done|].
    intros [?|[_ ?]]; [done|by apply Hro]. }
  destruct (IsReadFunction (FunctionCode req)) eqn:Hr.
  { eapply runs_mono; [by apply handleRead_runs|]. intros _ g' [? _]. split; [done|].
    by intros [?|[? _]]. }
  apply runs_bind, runs_local; [done|]. intros [] g1 H1. apply runs_done.
  apply runs_exec; [done|]. intros r g2 Hp Hu. apply runs_done.
  split; [by eapply upstream_same|by intros [?|[? _]]].
Qed.

(** The cached entries of a request's registers are the same in two states. *)
Definition same_entries (req : Request) (g1 g2 : gateway W) : Prop :=
  ∀ x, in_range (Address req) (Quantity req) x →
    rs_entry (cache (gw_proxy g2)) (SlaveID req) (FunctionCode req) x =
    rs_entry (cache (gw_proxy g1)) (SlaveID req) (FunctionCode req) x.

(** The values just stored are found while their entries are in place. *)
Lemma stored_hit gen req t values (g g1 g2 : gateway W) :
  read_request req → is_i64 (defaultTTL (cache (gw_proxy g))) →
  writeGeneration (gw_proxy g) = gen → len values = Quantity req →
  gw_proxy g1 = store_section gen t req values (gw_proxy g) → same_entries req g1 g2 →
  (∀ i, cache_now (gw_world g2) i - t ≤ defaultTTL (cache (gw_proxy g))) →
  lookup_section (cache_now (gw_world g2)) req (gw_proxy g2) = inl values.
Proof.
  intros Hr Httl Hgen Hl Hp Hsame Hnow. destruct (read_request_range req Hr) as [Hv Hq].
  unfold lookup_section. rewrite (GetRange_intro _ _ _ _ _ (Quantity req) values); [done..| |].
  { destruct Hq as (_ & ? & _). lia. }
  intros i v Hi. apply lookup_lt_Some in Hi as Hlt. eexists. split.
  - rewrite Hsame by (unfold in_range; len_lia). rewrite Hp. unfold store_section.
    rewrite decide_True by done. cbn [cache]. apply rs_SetRange_in; [by rewrite Hl|done].
  - split; [|done]. unfold IsExpired. cbn. apply bool_decide_eq_false. rewrite time_Sub_gt by done.
    specialize (Hnow (Z.of_nat i)). lia.
Qed.

(** * Properties *)

(** Every request is answered, whatever state the proxy is in: the handler
    ends without a panic; what it sent upstream are attempts of this request
    alone, each call the request's own, never again after a success, a retry
    only for a read; and an invalid request, or a write in a read-only mode,
    reaches neither the device nor the cache. *)
Theorem every_request_is_answered (req : Request) (g : gateway W) (Hwf : wf_request req) :
  ∃ r g', serve cfg req g = Some (Ret (r, g')) ∧
    (∃ sent, trace (gw_client g') = trace (gw_client g) ++ sent ∧
       disciplined req (omap (as_attempt req) sent) ∧
       Forall (λ c, Some (fst c) = request_call req) (omap as_call sent)) ∧
    (¬ valid_request req ∨ IsWriteFunction (FunctionCode req) = true ∧ ReadOnly cfg ≠ ReadOnlyOff →
       gw_proxy g' = gw_proxy g ∧ trace (gw_client g') = trace (gw_client g)).
Proof. destruct (serve_runs req g Hwf) as (r & g' & E & Hu & Hs). by exists r, g'. Qed.

Lemma serve_read req g :
  read_request req → serve cfg req g = seq_run 1 (handleRead cfg req) g.
Proof.
  intros (Hwf & Hv & Hr). unfold serve, HandleRequest.
  by rewrite (proj2 (validate_ok req Hwf) Hv), Hr, (read_not_write _ Hr).
Qed.

(** A hit, as a run. *)
Lemma serve_hit req values resp g :
  read_request req → lookup_section (cache_now (gw_world g)) req (gw_proxy g) = inl values →
  assembleResponse (FunctionCode req) (Quantity req) values = Ret resp →
  serve cfg req g = Some (Ret (inl resp, g)).
Proof.
  intros Hr Hl Ha. rewrite serve_read by done. unfold handleRead, respond, act.
  cbn. rewrite Hl. cbn. by rewrite Ha.
Qed.

(** C8 A read that has been fetched is served again without the device.  Stale
    serving is off.  When a read misses and is answered with a response long
    enough to be cached, the same read in every later state, for any client,
    as long as the entries of its registers are still in the cache (no write to
    them, no later fetch) and are not older than the default lifetime, gets the
    payload that was kept of the first response, byte for byte the first
    response if the device's payload was as the protocol prescribes, and
    neither the proxy's state nor the client's changes. *)
Theorem repeated_read_is_local (req : Request) (gen : Z) (payload : list Z) (g g1 : gateway W)
    (Hr : read_request req) (Hstale : CacheServeStale cfg = false)
    (Httl : is_i64 (defaultTTL (cache (gw_proxy g))))
    (Hmiss : lookup_section (cache_now (gw_world g)) req (gw_proxy g) = inr gen)
    (Hlen : payload_size (FunctionCode req) (Quantity req) ≤ len payload)
    (H8 : Forall is_u8 payload)
    (Hfirst : serve cfg req g
              = Some (Ret (inl (buildReadResponse (FunctionCode req) payload), g1))) :
  let kept := kept_payload (FunctionCode req) (Quantity req) payload in
  (kept = payload ↔ exact_payload (FunctionCode req) (Quantity req) payload) ∧
  ∃ fetched_at w w', env_time_Now w = (fetched_at, w') ∧
    ∀ g2, same_entries req g1 g2 →
      (∀ i, cache_now (gw_world g2) i - fetched_at ≤ defaultTTL (cache (gw_proxy g))) →
      serve cfg req g2 = Some (Ret (inl (buildReadResponse (FunctionCode req) kept), g2)).
Proof.
  intros kept. destruct (read_request_range req Hr) as [_ Hq].
  split; [by apply kept_exact|].
  destruct (reassemble _ _ _ Hq Hlen H8) as (values & Hdec & Has).
  rewrite serve_read in Hfirst by done. destruct (handleRead_runs req g Hr) as (r & g' & E & _ & Hst).
  rewrite Hfirst in E. injection E as <- <-.
  destruct (Hst gen Hmiss Hstale _ _ eq_refl Hdec) as (t & w & w' & Ht & Hp).
  exists t, w, w'. split; [done|]. intros g2 Hsame Hnow.
  eapply serve_hit; [done| |exact Has]. eapply (stored_hit gen req t values g g1 g2); try done.
  - unfold lookup_section in Hmiss. by destruct (rs_GetRange _ _ _ _ _ _); [|injection Hmiss].
  - rewrite decompose_spec in Hdec by done. case_decide; [|done]. injection Hdec as <-.
    destruct Hq as (_ & ? & _). apply values_length. lia.
Qed.

End Handlers.
End Gateway.


(** * Witnesses: the scripted device of ClientProps.v *)

#[local] Existing Instance script_env.
#[local] Existing Instance script_laws.

Definition plain_config (m : string) : Config :=
  {| Listen := ":5502"; Upstream := "device:502"; DefaultSlaveID := 1; CacheTTL := 10 * second;
     CacheServeStale := false; ReadOnly := m; AttemptTimeout := 5 * second;
     RequestTimeout := 10 * second; RequestDelay := 0; ConnectDelay := 0;
     ShutdownTimeout := 30 * second; HealthListen := ""; LogLevel := "INFO" |}.

(** A fresh proxy; every clock reads 1. *)
Definition fresh_gateway (script : list outcome) : gateway (list outcome) :=
  {| gw_proxy := {| cache := New (10 * second) false; writeGeneration := 0 |};
     gw_client := script_state script |}.
Definition noon : list outcome → Z → Z := λ _ _, 1.

Definition answer {W} (r : option (go (outcome * gateway W))) : option outcome :=
  match r with Some (Ret (o, _)) => Some o | _ => None end.

Lemma answer_eq {W} (r : option (go (outcome * gateway W))) o :
  answer r = Some o → ∃ g, r = Some (Ret (o, g)).
Proof. destruct r as [[[? g]|]|]; try done. intros [= ->]. by exists g. Qed.

Lemma every_request_is_answered_witness :
  (∃ g', serve noon Background (plain_config ReadOnlyOff) sample_read (fresh_gateway flaky)
     = Some (Ret (inl [3; 4; 0; 5; 0; 6], g'))) ∧
  (∃ g', serve noon Background (plain_config ReadOnlyDeny) sample_write (fresh_gateway flaky)
     = Some (Ret (inl [0x86; 1], g')) ∧ trace (gw_client g') = []).
Proof.
  split.
  - destruct (every_request_is_answered noon Background (plain_config ReadOnlyOff) sample_read
      (fresh_gateway flaky) sample_read_wf) as (r & g' & E & _).
    assert (r = inl [3; 4; 0; 5; 0; 6]) as ->; [|by exists g'].
    enough (H : Some r = Some (inl [3; 4; 0; 5; 0; 6])) by congruence.
    change (Some r) with (answer (Some (Ret (r, g')))). rewrite <- E. vm_compute. reflexivity.
  - destruct (every_request_is_answered noon Background (plain_config ReadOnlyDeny) sample_write
      (fresh_gateway flaky) sample_write_wf) as (r & g' & E & _ & Hs).
    assert (r = inl [0x86; 1]) as ->.
    { enough (H : Some r = Some (inl [0x86; 1])) by congruence.
      change (Some r) with (answer (Some (Ret (r, g')))). rewrite <- E. vm_compute. reflexivity. }
    exists g'. split; [exact E|]. apply Hs. right. split; [reflexivity|discriminate].
Defined.

(** The device is read once, over a connection that resets first; the second
    client gets the same bytes although the script is exhausted. *)
Lemma repeated_read_is_local_witness :
  ∃ g1, serve noon Background (plain_config ReadOnlyOff) sample_read (fresh_gateway flaky)
          = Some (Ret (inl [3; 4; 0; 5; 0; 6], g1)) ∧
    ∀ g2, same_entries sample_read g1 g2 → gw_world g2 = [] →
      serve noon Background (plain_config ReadOnlyOff) sample_read g2
        = Some (Ret (inl [3; 4; 0; 5; 0; 6], g2)).
Proof.
  destruct (answer_eq (serve noon Background (plain_config ReadOnlyOff) sample_read (fresh_gateway flaky))
    (inl [3; 4; 0; 5; 0; 6])) as [g1 E]; [vm_compute; reflexivity|].
  exists g1. split; [exact E|].
  destruct (repeated_read_is_local noon Background (plain_config ReadOnlyOff) sample_read 0 [0; 5; 0; 6]
    (fresh_gateway flaky) g1) as (_ & t & w & w' & Ht & Hlater).
  - split; [apply sample_read_wf|]. split; [apply sample_read_valid|reflexivity].
  - reflexivity.
  - vm_compute. split; discriminate.
  - vm_compute. reflexivity.
  - vm_compute. discriminate.
  - repeat constructor; lia.
  - exact E.
  - injection Ht as <- _. intros g2 Hp _. apply (Hlater g2 Hp). intros i. vm_compute. discriminate.
Defined.
