(* ===== verification/Session.v ===== *)
(** A client's session from end to end: the connection loop of Server.v over
    the proxy of Gateway.v, from the bytes a client sends to the bytes it gets
    back and to what the device saw meanwhile. *)

From stdpp Require Import base list numbers strings gmap.
From S2P Require Import Prelude Request Errors Validate Server Codec Cache Config Health Effects Client ClientSpec ClientProps Proxy System Gateway.

Section Session.
Context {W : Type} `{EnvLaws W}.
Context (cache_now : W → Z → Z) (ctx : Ctx) (cfg : Config).
(** [contextError] of a request's context, asked once its handler has returned;
    whether the server context is done; and the writes to the client. *)
Context (request_ended : W → option error).
Context (server_done : W → bool).
Context (client_write : list Z → W → option error * W).

(** The proxy is the handler of the server. *)
#[local] Instance proxy_handler : Handler (gateway W) := λ g req,
  match serve cache_now ctx cfg req g with Some r => r | None => Panic end.

(** The client's connection, in any environment. *)
#[local] Instance client_connection : ConnEnv (gateway W) := {|
  ctx_done := λ g, server_done (gw_world g);
  request_ctx_error := λ g, request_ended (gw_world g);
  conn_write := λ g frame, gw_ask (client_write frame) g;
|}.

(** What the device saw of one request. *)
Definition seen_upstream (req : Request) (sent : list observation) : Prop :=
  disciplined req (omap (as_attempt req) sent) ∧
  Forall (λ c, Some (fst c) = request_call req) (omap as_call sent) ∧
  (¬ valid_request req ∨ IsWriteFunction (FunctionCode req) = true ∧ ReadOnly cfg ≠ ReadOnlyOff →
     sent = []).

Lemma proxy_handler_total req g :
  wf_request req →
  ∃ r g' sent, Server.HandleRequest g req = Ret (r, g') ∧
    trace (gw_client g') = trace (gw_client g) ++ sent ∧ seen_upstream req sent.
Proof.
  intros Hwf. destruct (serve_runs cache_now ctx cfg req g Hwf) as (r & g' & E & (tr & Ht & Hd & Hc) & Hs).
  exists r, g', tr. split; [unfold Server.HandleRequest, proxy_handler, serve; by rewrite E|].
  split; [done|]. split; [done|]. split; [done|]. intros Hrefused. destruct (Hs Hrefused) as [_ Hsame].
  rewrite Ht in Hsame. by eapply app_inv_head; rewrite app_nil_r.
Qed.

(** How many requests had been handled when serving ended: those answered, and
    the one whose response could not be written. *)
Definition handled (why fin : conn_end) (g' : gateway W) (answered handled all : nat) : Prop :=
  why = CtxDone ∧ server_done (gw_world g') = true ∧ handled = answered ∨
  (∃ e w frame, why = WriteError e ∧ client_write frame w = (Some e, gw_world g')) ∧
    handled = S answered ∨
  why = fin ∧ handled = answered ∧ answered = all.

Lemma write_keeps frame g e g' :
  conn_write g frame = (e, g') →
  gw_proxy g' = gw_proxy g ∧ trace (gw_client g') = trace (gw_client g) ∧
  client_write frame (gw_world g) = (e, gw_world g').
Proof.
  cbn. unfold gw_ask. destruct (client_write frame (gw_world g)) as [e' w] eqn:E.
  intros [= -> <-]. done.
Qed.

Lemma serve_all_session rs fin g :
  Forall wf_request rs →
  ∃ why g' frames parts, serve_all g rs fin = Ret (why, g', frames) ∧
    trace (gw_client g') = trace (gw_client g) ++ concat parts ∧
    Forall2 seen_upstream (take (length parts) rs) parts ∧
    handled why fin g' (length frames) (length parts) (length rs).
Proof.
  intros Hrs. revert g. induction Hrs as [|req rs Hwf Hrs IH]; intros g; cbn [serve_all].
  { destruct (ctx_done g) eqn:Hd; eexists _, g, [], []; rewrite app_nil_r;
      (split; [done|split; [done|split; [done|]]]); [by left|by right; right]. }
  destruct (ctx_done g) eqn:Hd.
  { eexists _, g, [], []. rewrite app_nil_r. split_and!; [done..|by left]. }
  destruct (proxy_handler_total req g Hwf) as (r & g1 & sent & E & Ht & Hsent).
  rewrite E. go_simpl. cbv zeta.
  destruct (conn_write g1 _) as [[e|] g2] eqn:Hw; apply write_keeps in Hw as (_ & Ht2 & Hw).
  - eexists _, g2, [], [sent]. cbn. rewrite app_nil_r, Ht2, Ht. split_and!; [done..| |].
    + constructor; [done|by rewrite take_0].
    + right. left. split; [by eexists _, _, _|done].
  - destruct (IH g2) as (why & g' & frames & parts & E' & Ht' & Hp & Hh). rewrite E'. go_simpl.
    eexists why, g', (_ :: frames), (sent :: parts). split; [done|].
    split; [by rewrite Ht', Ht2, Ht, <- app_assoc|]. split; [by constructor|].
    cbn [length]. destruct Hh as [(? & ? & ?)|[[? ?]|(? & ? & ?)]]; [left|right; left|right; right];
      split_and!; done || lia.
Qed.

(** C9 A client's whole session, whatever bytes it sends and whatever happens
    meanwhile: they are the frames of well-formed requests, valid or not, and
    a rest that is no request; in whatever state the proxy is, the connection
    loop over it ends without a panic, and the frames it wrote answer the first
    requests, one each and in order, with the request's transaction and unit
    identifiers.  All requests are answered, and the loop ends as the rest
    says, unless the server context is done or a write to the client fails.
    What the device saw is, in the same order and for each handled request
    separately (those answered and, after a failed write, the one that was
    not), disciplined attempts of that request's own call, and nothing for an
    invalid or refused request. *)
Theorem client_session_is_answered (conn : stream) (g : gateway W)
    (Hb : Forall is_u8 (pending conn)) :
  ∃ rs err rest why g' frames parts,
    pending conn = concat (map request_frame rs) ++ pending rest ∧
    (∃ conn', readRequest rest = Ret (inr err, conn')) ∧
    handleConn g conn = Some (Ret (why, g', frames)) ∧
    Forall2 frame_of (take (length frames) rs) frames ∧
    handled why (read_failure err) g' (length frames) (length parts) (length rs) ∧
    trace (gw_client g') = trace (gw_client g) ++ concat parts ∧
    Forall2 (λ r sent, wf_request r ∧ disciplined r (omap (as_attempt r) sent) ∧
       Forall (λ c, Some (fst c) = request_call r) (omap as_call sent) ∧
       (¬ valid_request r ∨ IsWriteFunction (FunctionCode r) = true ∧ ReadOnly cfg ≠ ReadOnlyOff →
          sent = [])) (take (length parts) rs) parts.
Proof.
  destruct (parses_total conn Hb) as (rs & err & rest & Hparse & Hwf & Hpe & _).
  destruct (serve_all_session rs (read_failure err) g Hwf) as (why & g' & frames & parts & E & Ht & Hp & Hh).
  exists rs, err, rest, why, g', frames, parts. split; [done|]. split; [by eapply parses_stuck|].
  split; [|split; [by eapply serve_all_ends|split; [done|split; [done|]]]].
  - by rewrite (handleConn_serves (S := gateway W) g conn rs err rest Hparse Hpe), E.
  - apply (Forall_take _ (length parts)) in Hwf. clear -Hwf Hp.
    induction Hp as [|r sent rs' parts' Hs _ IH]; [constructor|].
    apply Forall_cons in Hwf as [??]. constructor; [by destruct Hs as (? & ? & ?)|by apply IH].
Qed.

End Session.

(** * Witness: the scripted device of ClientProps.v *)

#[local] Existing Instance script_env.
#[local] Existing Instance script_laws.
#[local] Instance scripted_proxy : Handler (gateway (list outcome)) :=
  proxy_handler noon Background (plain_config ReadOnlyDeny).
#[local] Instance scripted_connection : ConnEnv (gateway (list outcome)) :=
  client_connection (λ _, None) (λ _, false) (λ _ w, (None, w)).

(** A write to a read-only proxy, then a read over a connection that resets
    once: exception 1 for the write and nothing sent, two attempts and the
    registers for the read. *)
Definition session_bytes : stream :=
  {| pending := concat (map request_frame [Server.sample_write; Server.sample_read]);
     tail_err := ErrSentinel EOF |}.
Definition session_gateway : gateway (list outcome) :=
  fresh_gateway [inr (ErrSentinel ECONNRESET); inl [0; 5; 0; 6; 0; 7]].

Lemma client_session_is_answered_witness :
  ∃ g' parts, handleConn session_gateway session_bytes
    = Some (Ret (ClientDisconnected, g',
        [response_frame 0xBEEF 17 [0x90; 1]; response_frame 7 1 [3; 6; 0; 5; 0; 6; 0; 7]])) ∧
    trace (gw_client g') = concat parts ∧ length parts = 2%nat.
Proof.
  destruct (client_session_is_answered noon Background (plain_config ReadOnlyDeny) (λ _, None)
    (λ _, false) (λ _ w, (None, w)) session_bytes session_gateway)
    as (rs & err & rest & why & g' & frames & parts & _ & _ & E & _ & Hh & Ht & _).
  { eapply (Forall_impl (λ z, 0 <= z < 256)); [apply (bool_decide_unpack _); vm_compute; exact I|done]. }
  assert (Hrun : loop_frames (Some (Ret (why, g', frames))) = Some (ClientDisconnected,
    [response_frame 0xBEEF 17 [0x90; 1]; response_frame 7 1 [3; 6; 0; 5; 0; 6; 0; 7]]))
    by (rewrite <- E; vm_compute; reflexivity).
  injection Hrun as Hw Hfr. subst why frames.
  exists g', parts. split; [exact E|]. split; [exact Ht|].
  destruct Hh as [(Hx & _)|[[(e & w & f & Hx & _) _]|(_ & Hl & _)]]; [discriminate Hx|discriminate Hx|].
  exact Hl.
Defined.
